(** * IrLoweringX64: lowering of Luau IR to x86-64

    A shallow embedding of [CodeGen/src/IrLoweringX64.cpp].  The lowering is a
    state-and-abort computation over the [IrLoweringX64] object: it appends
    instructions to the assembly builder, hands out label ids, and records exit
    handlers; [LUAU_ASSERT] failures abort the computation.

    The emitted instructions are given a small operational semantics (integer
    registers, flags, SSE scalar doubles as IEEE binary64 bit patterns) so that
    statements about "what the lowered code computes" can be made and checked
    by evaluation. *)

From Stdlib Require Import ZArith List Bool String Lia.
From Stdlib Require Import Floats.SpecFloat.
From stdpp Require Import base option list gmap.

Local Open Scope Z_scope.
Local Open Scope list_scope.

(** ** IR data (Luau/IrData.h, as used by the lowering) *)

Module IrOpKind.
Inductive t :=
| None
| Undef
| Constant
| Condition
| VmReg
| VmConst
| VmUpvalue
| VmExit
| Inst
| Block.

Definition eqb (a b : t) : bool :=
  match a, b with
  | None, None | Undef, Undef | Constant, Constant | Condition, Condition
  | VmReg, VmReg | VmConst, VmConst | VmUpvalue, VmUpvalue | VmExit, VmExit
  | Inst, Inst | Block, Block => true
  | _, _ => false
  end.
End IrOpKind.

(** An operand is a kind and a 28-bit index. *)
Record IrOp := mkIrOp { kind : IrOpKind.t; index : nat }.

Module IrCmd.
Inductive t :=
| NOP
| MOD_NUM
| ROUND_NUM
| NOT_ANY
| JUMP
| JUMP_EQ_TAG
| JUMP_EQ_INT
| JUMP_LT_INT
| JUMP_GE_UINT
| JUMP_EQ_POINTER
| CHECK_TAG
| CHECK_TRUTHY
| CAPTURE
| CALL
| RETURN
| BITCOUNTLZ_UINT
| BITCOUNTRZ_UINT
| SUBSTITUTE.
End IrCmd.

(** Constants of the function's constant table.  A double is kept as its
    binary64 bit pattern, a tag as the byte it is. *)
Inductive IrConst :=
| ConstInt (valueInt : Z)
| ConstUint (valueUint : Z)
| ConstDouble (valueDouble : Z)
| ConstTag (valueTag : Z).

(** ** Registers and operands (Luau/RegisterX64.h, Luau/OperandX64.h) *)

Module SizeX64.
Inductive t := none | byte | word | dword | qword | xmmword | ymmword.

Definition eqb (a b : t) : bool :=
  match a, b with
  | none, none | byte, byte | word, word | dword, dword | qword, qword
  | xmmword, xmmword | ymmword, ymmword => true
  | _, _ => false
  end.
End SizeX64.

Record RegisterX64 := mkReg { size : SizeX64.t; regIndex : nat }.

Definition noreg : RegisterX64 := mkReg SizeX64.none 16.

Definition RegisterX64_eqb (a b : RegisterX64) : bool :=
  SizeX64.eqb (size a) (size b) && Nat.eqb (regIndex a) (regIndex b).

Instance IrOpKind_eq_dec : EqDecision IrOpKind.t.
Proof. solve_decision. Defined.

Instance SizeX64_eq_dec : EqDecision SizeX64.t.
Proof. solve_decision. Defined.

Instance RegisterX64_eq_dec : EqDecision RegisterX64.
Proof. solve_decision. Defined.

(** Memory operands.  The lowering only ever forms them through the helpers
    of EmitCommonX64.h ([luauRegTag], [luauConstantValue], ...) and through
    the builder's constant pool ([build.f64], [build.i64], [build.f64x2]);
    the byte layout of [TValue] belongs to the runtime headers, so an address
    is kept as the place it denotes. *)
Inductive AddressX64 :=
| AddrRegTag (ra : nat)
| AddrRegValue (ra : nat)
| AddrRegValueInt (ra : nat)
| AddrConstantTag (ki : nat)
| AddrConstantValue (ki : nat)
| AddrData (lo hi : Z).

Inductive OperandX64 :=
| OpReg (r : RegisterX64)
| OpImm (imm : Z)
| OpMem (sz : SizeX64.t) (addr : AddressX64).

Definition luauRegTag (ra : nat) : OperandX64 := OpMem SizeX64.dword (AddrRegTag ra).
Definition luauRegValue (ra : nat) : OperandX64 := OpMem SizeX64.qword (AddrRegValue ra).
Definition luauRegValueInt (ra : nat) : OperandX64 := OpMem SizeX64.dword (AddrRegValueInt ra).
Definition luauConstantTag (ki : nat) : OperandX64 := OpMem SizeX64.dword (AddrConstantTag ki).
Definition luauConstantValue (ki : nat) : OperandX64 := OpMem SizeX64.qword (AddrConstantValue ki).

Module ConditionX64.
Inductive t :=
| Overflow | NoOverflow
| Carry | NoCarry
| Below | BelowEqual | Above | AboveEqual
| Equal
| Less | LessEqual | Greater | GreaterEqual
| NotBelow | NotBelowEqual | NotAbove | NotAboveEqual
| NotEqual
| NotLess | NotLessEqual | NotGreater | NotGreaterEqual
| Zero | NotZero
| Parity | NotParity
| Count.
End ConditionX64.

Instance ConditionX64_eq_dec : EqDecision ConditionX64.t.
Proof. solve_decision. Defined.

Module RoundingModeX64.
Inductive t :=
| RoundToNearestEven
| RoundToNegativeInfinity
| RoundToPositiveInfinity
| RoundToZero.
End RoundingModeX64.

(** A label is known by the id the builder gave it; id 0 is a label that has
    not been referenced or bound yet. *)
Record Label := mkLabel { id : nat }.

Instance Label_eq_dec : EqDecision Label.
Proof. solve_decision. Defined.

(** The instructions the modelled opcodes emit.  [setLabel] is the position
    marker left by [AssemblyBuilderX64::setLabel]. *)
Inductive InstrX64 :=
| mov (dst src : OperandX64)
| test (lhs rhs : OperandX64)
| cmp (lhs rhs : OperandX64)
| xor_ (dst src : OperandX64)
| bsr (dst src : OperandX64)
| bsf (dst src : OperandX64)
| jcc (cond : ConditionX64.t) (target : nat)
| jmp (target : nat)
| ud2
| setLabel (l : nat)
| vmovsd (dst src : OperandX64)
| vmovsd3 (dst src1 src2 : OperandX64)
| vandpd (dst src1 src2 : OperandX64)
| vorpd (dst src1 src2 : OperandX64)
| vaddsd (dst src1 src2 : OperandX64)
| vsubsd (dst src1 src2 : OperandX64)
| vmulsd (dst src1 src2 : OperandX64)
| vdivsd (dst src1 src2 : OperandX64)
| vroundsd (dst src1 src2 : OperandX64) (mode : RoundingModeX64.t)
| emitInstCall (ra nparams nresults : Z)
| emitInstReturn (ra actualResults : Z) (variadic : bool).

(** ** The IR function (Luau/IrData.h) *)

Record IrInst := mkIrInst {
  cmd : IrCmd.t;
  a : IrOp; b : IrOp; c : IrOp; d : IrOp; e : IrOp; f : IrOp;
  lastUse : nat;
  useCountInst : nat;
  regX64 : RegisterX64;
  reusedReg : bool;
  spilled : bool;
  needsReload : bool
}.

Record IrBlock := mkIrBlock {
  useCount : nat;
  start : nat;
  finish : nat;
  label : Label
}.

(** [predecessors] stands for [predecessors(function.cfg, blockIdx)]. *)
Record IrFunction := mkIrFunction {
  blocks : list IrBlock;
  instructions : list IrInst;
  constants : list IrConst;
  predecessors : nat -> list nat;
  variadic : bool
}.

(** ** The lowering object *)

Record AssemblyBuilderX64 := mkBuilder {
  code : list InstrX64;
  nextLabel : nat
}.

Record ModuleHelpers := mkHelpers {
  exitContinueVmClearNativeFlag : Label
}.

Record ExitHandler := mkExitHandler {
  self : Label;
  pcpos : nat
}.

Record IrSpillX64 := mkIrSpill {
  instIdx : nat;
  stackSlot : nat
}.

(** Modelled from the spec: the register allocation state of IrRegAllocX64
    (its source is not part of this file) -- "mapping from machine register to
    the IR Value currently occupying it (or empty); a small fixed-capacity
    spill area indexed by slot; a high-water mark of spill slots used".
    [gprOwner] and [xmmOwner] map a register number to the instruction that
    occupies it, [spills] are the values spilled and not yet restored,
    [usedSpillSlots] the occupied slots of the spill area. *)
Record IrRegAllocX64 := mkRegAlloc {
  gprOwner : gmap nat nat;
  xmmOwner : gmap nat nat;
  spills : list IrSpillX64;
  usedSpillSlots : gset nat;
  maxUsedSlot : nat
}.

Record IrLoweringX64 := mkLowering {
  build : AssemblyBuilderX64;
  helpers : ModuleHelpers;
  function : IrFunction;
  regs : IrRegAllocX64;
  exitHandlers : list ExitHandler;
  exitHandlerMap : gmap nat nat
}.

Definition set_build (L : IrLoweringX64) (bld : AssemblyBuilderX64) : IrLoweringX64 :=
  mkLowering bld (helpers L) (function L) (regs L) (exitHandlers L) (exitHandlerMap L).

Definition set_helpers (L : IrLoweringX64) (h : ModuleHelpers) : IrLoweringX64 :=
  mkLowering (build L) h (function L) (regs L) (exitHandlers L) (exitHandlerMap L).

Definition set_function (L : IrLoweringX64) (fn : IrFunction) : IrLoweringX64 :=
  mkLowering (build L) (helpers L) fn (regs L) (exitHandlers L) (exitHandlerMap L).

Definition set_regs (L : IrLoweringX64) (r : IrRegAllocX64) : IrLoweringX64 :=
  mkLowering (build L) (helpers L) (function L) r (exitHandlers L) (exitHandlerMap L).

Definition set_exits (L : IrLoweringX64) (hs : list ExitHandler) (m : gmap nat nat) : IrLoweringX64 :=
  mkLowering (build L) (helpers L) (function L) (regs L) hs m.

(** ** The lowering monad: state passing over [IrLoweringX64], with abort on
    a failed [LUAU_ASSERT]. *)

Inductive Result (A : Type) :=
| Ok (value : A) (L : IrLoweringX64)
| Abort (msg : string).

Arguments Ok {A} value L.
Arguments Abort {A} msg.

Definition M (A : Type) : Type := IrLoweringX64 -> Result A.

Definition ret {A} (x : A) : M A := fun L => Ok x L.

Definition bind {A B} (m : M A) (k : A -> M B) : M B :=
  fun L => match m L with
           | Ok x L' => k x L'
           | Abort msg => Abort msg
           end.

Notation "x <- m ;; k" := (bind m (fun x => k))
  (at level 100, m at next level, right associativity).
Notation "m ;;; k" := (bind m (fun _ => k))
  (at level 100, right associativity).

Definition LUAU_ASSERT (cond : bool) (msg : string) : M unit :=
  fun L => if cond then Ok tt L else Abort msg.

Definition fail {A} (msg : string) : M A := fun _ => Abort msg.

Definition get : M IrLoweringX64 := fun L => Ok L L.

Definition emit (i : InstrX64) : M unit :=
  fun L => Ok tt (set_build L (mkBuilder (code (build L) ++ [i]) (nextLabel (build L)))).

(** *** Labels

    A [Label&] argument is either a label object local to the caller or one
    of the shared label objects of the lowering; jumping to a label or
    binding it may give it an id, which is written back to the object. *)
Inductive LabelRef :=
| RefLocal
| RefHelperExit
| RefExitHandler (i : nat)
| RefBlock (blockIdx : nat).

Definition loadLabel (r : LabelRef) (local : Label) : M Label :=
  fun L =>
    match r with
    | RefLocal => Ok local L
    | RefHelperExit => Ok (exitContinueVmClearNativeFlag (helpers L)) L
    | RefExitHandler i =>
        match exitHandlers L !! i with
        | Some h => Ok (self h) L
        | None => Abort "exit handler index out of range"
        end
    | RefBlock bi =>
        match blocks (function L) !! bi with
        | Some blk => Ok (label blk) L
        | None => Abort "block index out of range"
        end
    end.

Definition set_block_label (blk : IrBlock) (l : Label) : IrBlock :=
  mkIrBlock (useCount blk) (start blk) (finish blk) l.

Definition set_blocks (fn : IrFunction) (bs : list IrBlock) : IrFunction :=
  mkIrFunction bs (instructions fn) (constants fn) (predecessors fn) (variadic fn).

(** Returns the caller's local label object after the store. *)
Definition storeLabel (r : LabelRef) (l : Label) (local : Label) : M Label :=
  fun L =>
    match r with
    | RefLocal => Ok l L
    | RefHelperExit => Ok local (set_helpers L (mkHelpers l))
    | RefExitHandler i =>
        Ok local (set_exits L (alter (fun h => mkExitHandler l (pcpos h)) i (exitHandlers L))
                              (exitHandlerMap L))
    | RefBlock bi =>
        Ok local (set_function L
                    (set_blocks (function L)
                       (alter (fun blk => set_block_label blk l) bi (blocks (function L)))))
    end.

(** Modelled from the spec: label bookkeeping of AssemblyBuilderX64 (its
    source is not part of this file) -- a label is "an opaque handle" that
    "can be referenced before its address is known"; the first reference or
    binding of a label hands it the next unused id. *)
Definition allocLabelId (r : LabelRef) (local : Label) : M (Label * Label) :=
  l <- loadLabel r local ;;
  if Nat.eqb (id l) 0 then
    L <- get ;;
    let l' := mkLabel (nextLabel (build L)) in
    (fun L => Ok tt (set_build L (mkBuilder (code (build L)) (S (nextLabel (build L)))))) ;;;
    local' <- storeLabel r l' local ;;
    ret (l', local')
  else ret (l, local).

(** [build.jcc(cond, label)], [build.jmp(label)], [build.setLabel(label)]:
    each returns the caller's local label object as the call leaves it. *)
Definition build_jcc (cond : ConditionX64.t) (r : LabelRef) (local : Label) : M Label :=
  p <- allocLabelId r local ;;
  emit (jcc cond (id (fst p))) ;;;
  ret (snd p).

Definition build_jmp (r : LabelRef) (local : Label) : M Label :=
  p <- allocLabelId r local ;;
  emit (jmp (id (fst p))) ;;;
  ret (snd p).

Definition build_setLabel (r : LabelRef) (local : Label) : M Label :=
  p <- allocLabelId r local ;;
  emit (setLabel (id (fst p))) ;;;
  ret (snd p).

(** Constant pool entries of the builder. *)
Definition build_f64 (bits : Z) : OperandX64 := OpMem SizeX64.qword (AddrData bits 0).
Definition build_i64 (bits : Z) : OperandX64 := OpMem SizeX64.qword (AddrData bits 0).
Definition build_f64x2 (lo hi : Z) : OperandX64 := OpMem SizeX64.xmmword (AddrData lo hi).

(** ** Semantics of the emitted instructions

    Enough of x86-64 to run the code the modelled opcodes emit: 64-bit
    general registers read and written at the operand's width, the status
    flags of [cmp], [test] and [xor], forward jumps to labels, and the SSE
    registers as two 64-bit lanes whose low lane holds a binary64 bit
    pattern.  Arithmetic on doubles is IEEE 754 round-to-nearest-even, taken
    from the Standard Library's [SpecFloat]. *)

Definition prec : Z := 53.
Definition emax : Z := 1024.

Definition sign_bit (s : bool) : Z := if s then 2 ^ 63 else 0.

(** The value denoted by a binary64 bit pattern. *)
Definition b64_to_sf (bits : Z) : spec_float :=
  let s := Z.testbit bits 63 in
  let ex := (bits / 2 ^ 52) mod 2 ^ 11 in
  let m := bits mod 2 ^ 52 in
  if ex =? 0 then
    match m with
    | Zpos p => S754_finite s p (-1074)
    | _ => S754_zero s
    end
  else if ex =? 2047 then
    if m =? 0 then S754_infinity s else S754_nan
  else
    match m + 2 ^ 52 with
    | Zpos p => S754_finite s p (ex - 1075)
    | _ => S754_nan
    end.

(** A NaN: the exponent field is all ones and the fraction is not zero. *)
Definition f64_isNaN (bits : Z) : bool :=
  ((bits / 2 ^ 52) mod 2 ^ 11 =? 2047) && negb (bits mod 2 ^ 52 =? 0).

(** The quiet form of a NaN: its sign and payload, with the quiet bit (the
    top bit of the fraction) set. *)
Definition f64_quiet (bits : Z) : Z := Z.lor (bits mod 2 ^ 64) (2 ^ 51).

(** The bit pattern of a value.  [spec_float] has one NaN, which the
    operations below produce only from operands that are not NaN, that is
    for an invalid operation; SSE then gives the default NaN
    0xfff8000000000000. *)
Definition sf_to_b64 (x : spec_float) : Z :=
  match x with
  | S754_zero s => sign_bit s
  | S754_infinity s => sign_bit s + 0x7ff0000000000000
  | S754_nan => 0xfff8000000000000
  | S754_finite s m ex =>
      if Zpos m <? 2 ^ 52 then sign_bit s + Zpos m
      else sign_bit s + (ex + 1075) * 2 ^ 52 + (Zpos m - 2 ^ 52)
  end.

(** Rounding to an integral value in floating-point format ([vroundsd]). *)
Definition SFround (mode : RoundingModeX64.t) (x : spec_float) : spec_float :=
  match x with
  | S754_finite s m ex =>
      if 0 <=? ex then x
      else
        let q := Zpos m / 2 ^ (- ex) in
        let r := Zpos m mod 2 ^ (- ex) in
        let up :=
          match mode with
          | RoundingModeX64.RoundToZero => false
          | RoundingModeX64.RoundToNegativeInfinity => s && negb (r =? 0)
          | RoundingModeX64.RoundToPositiveInfinity => negb s && negb (r =? 0)
          | RoundingModeX64.RoundToNearestEven =>
              (2 ^ (- ex) <? 2 * r) || ((2 ^ (- ex) =? 2 * r) && Z.odd q)
          end in
        binary_normalize prec emax (cond_Zopp s (if up then q + 1 else q)) 0 s
  | _ => x
  end.

(** A scalar SSE operation on two doubles, with the exceptions masked: if
    an operand is a NaN the result is that operand made quiet, the first
    source operand before the second; otherwise it is the IEEE 754 result,
    the default NaN for an invalid operation. *)
Definition f64_binary (op : spec_float -> spec_float -> spec_float) (x y : Z) : Z :=
  if f64_isNaN x then f64_quiet x
  else if f64_isNaN y then f64_quiet y
  else sf_to_b64 (op (b64_to_sf x) (b64_to_sf y)).

Definition f64_add (x y : Z) : Z := f64_binary (SFadd prec emax) x y.
Definition f64_sub (x y : Z) : Z := f64_binary (SFsub prec emax) x y.
Definition f64_mul (x y : Z) : Z := f64_binary (SFmul prec emax) x y.
Definition f64_div (x y : Z) : Z := f64_binary (SFdiv prec emax) x y.
Definition f64_round (mode : RoundingModeX64.t) (x : Z) : Z :=
  if f64_isNaN x then f64_quiet x else sf_to_b64 (SFround mode (b64_to_sf x)).

Record Flags := mkFlags { CF : bool; ZF : bool; SF : bool; OF : bool; PF : bool }.

Record MachineState := mkState {
  gpr : nat -> Z;
  xmm : nat -> Z * Z;
  mem : AddressX64 -> Z;
  flags : Flags
}.

Definition bits (sz : SizeX64.t) : Z :=
  match sz with
  | SizeX64.byte => 8
  | SizeX64.word => 16
  | SizeX64.dword => 32
  | SizeX64.qword => 64
  | SizeX64.xmmword => 128
  | SizeX64.ymmword => 256
  | SizeX64.none => 0
  end.

Definition isGpr (r : RegisterX64) : bool :=
  match size r with
  | SizeX64.byte | SizeX64.word | SizeX64.dword | SizeX64.qword => true
  | _ => false
  end.

Definition isXmm (r : RegisterX64) : bool :=
  match size r with
  | SizeX64.xmmword => true
  | _ => false
  end.

Definition readMem (st : MachineState) (addr : AddressX64) : Z * Z :=
  match addr with
  | AddrData lo hi => (lo, hi)
  | _ => (mem st addr, 0)
  end.

(** Width of an integer operation: that of its register or memory operand. *)
Definition opWidth (x y : OperandX64) : option Z :=
  match x, y with
  | OpReg r, _ => if isGpr r then Some (bits (size r)) else None
  | OpMem sz _, _ => Some (bits sz)
  | OpImm _, OpReg r => if isGpr r then Some (bits (size r)) else None
  | OpImm _, OpMem sz _ => Some (bits sz)
  | OpImm _, OpImm _ => None
  end.

Definition readInt (st : MachineState) (w : Z) (op : OperandX64) : Z :=
  match op with
  | OpReg r => gpr st (regIndex r) mod 2 ^ w
  | OpImm imm => imm mod 2 ^ w
  | OpMem _ addr => fst (readMem st addr) mod 2 ^ w
  end.

(** A 32-bit write clears the upper half of the register; 8- and 16-bit
    writes keep the bits above them. *)
Definition writeGpr (st : MachineState) (r : RegisterX64) (v : Z) : MachineState :=
  let old := gpr st (regIndex r) in
  let new :=
    match size r with
    | SizeX64.byte | SizeX64.word =>
        old - old mod 2 ^ bits (size r) + v mod 2 ^ bits (size r)
    | _ => v mod 2 ^ bits (size r)
    end in
  mkState (fun i => if Nat.eqb i (regIndex r) then new else gpr st i) (xmm st) (mem st) (flags st).

Definition writeXmm (st : MachineState) (r : RegisterX64) (v : Z * Z) : MachineState :=
  mkState (gpr st) (fun i => if Nat.eqb i (regIndex r) then v else xmm st i) (mem st) (flags st).

Definition setFlags (st : MachineState) (fl : Flags) : MachineState :=
  mkState (gpr st) (xmm st) (mem st) fl.

Definition readXmm (st : MachineState) (op : OperandX64) : option (Z * Z) :=
  match op with
  | OpReg r => if isXmm r then Some (xmm st (regIndex r)) else None
  | OpMem SizeX64.qword addr => Some (fst (readMem st addr), 0)
  | OpMem SizeX64.xmmword addr => Some (readMem st addr)
  | _ => None
  end.

Definition signed (w x : Z) : Z := if x <? 2 ^ (w - 1) then x else x - 2 ^ w.

Fixpoint popcount_pos (p : positive) : nat :=
  match p with
  | xH => 1
  | xO q => popcount_pos q
  | xI q => S (popcount_pos q)
  end.

Definition parity8 (x : Z) : bool :=
  match x mod 256 with
  | Zpos p => Nat.even (popcount_pos p)
  | _ => true
  end.

Definition logicFlags (w r : Z) : Flags :=
  mkFlags false (r =? 0) (Z.testbit r (w - 1)) false (parity8 r).

Definition cmpFlags (w x y : Z) : Flags :=
  let r := (x - y) mod 2 ^ w in
  let sr := signed w x - signed w y in
  mkFlags (x <? y) (r =? 0) (Z.testbit r (w - 1))
          ((sr <? - 2 ^ (w - 1)) || (2 ^ (w - 1) <=? sr)) (parity8 r).

Definition evalCond (cond : ConditionX64.t) (fl : Flags) : option bool :=
  match cond with
  | ConditionX64.Overflow => Some (OF fl)
  | ConditionX64.NoOverflow => Some (negb (OF fl))
  | ConditionX64.Carry | ConditionX64.Below | ConditionX64.NotAboveEqual => Some (CF fl)
  | ConditionX64.NoCarry | ConditionX64.AboveEqual | ConditionX64.NotBelow => Some (negb (CF fl))
  | ConditionX64.BelowEqual | ConditionX64.NotAbove => Some (CF fl || ZF fl)
  | ConditionX64.Above | ConditionX64.NotBelowEqual => Some (negb (CF fl) && negb (ZF fl))
  | ConditionX64.Equal | ConditionX64.Zero => Some (ZF fl)
  | ConditionX64.NotEqual | ConditionX64.NotZero => Some (negb (ZF fl))
  | ConditionX64.Less | ConditionX64.NotGreaterEqual => Some (xorb (SF fl) (OF fl))
  | ConditionX64.GreaterEqual | ConditionX64.NotLess => Some (negb (xorb (SF fl) (OF fl)))
  | ConditionX64.LessEqual | ConditionX64.NotGreater => Some (ZF fl || xorb (SF fl) (OF fl))
  | ConditionX64.Greater | ConditionX64.NotLessEqual =>
      Some (negb (ZF fl) && negb (xorb (SF fl) (OF fl)))
  | ConditionX64.Parity => Some (PF fl)
  | ConditionX64.NotParity => Some (negb (PF fl))
  | ConditionX64.Count => None
  end.

(** Index of the lowest set bit. *)
Fixpoint ctz_pos (p : positive) : Z :=
  match p with
  | xO q => 1 + ctz_pos q
  | _ => 0
  end.

Definition lowestSetBit (x : Z) : Z :=
  match x with
  | Zpos p => ctz_pos p
  | _ => 0
  end.

Definition binXmm (st : MachineState) (dst src1 src2 : OperandX64)
    (op : Z * Z -> Z * Z -> Z * Z) : option MachineState :=
  match dst, readXmm st src1, readXmm st src2 with
  | OpReg rd, Some x, Some y => if isXmm rd then Some (writeXmm st rd (op x y)) else None
  | _, _, _ => None
  end.

(** One instruction that is not a jump.  [bsr] and [bsf] leave their
    destination undefined on a zero source: the model has no next state
    there.  The flags they leave besides ZF are unspecified and are kept as
    they were. *)
Definition step (i : InstrX64) (st : MachineState) : option MachineState :=
  match i with
  | mov (OpReg rd) src =>
      if isGpr rd then Some (writeGpr st rd (readInt st (bits (size rd)) src)) else None
  | test x y =>
      match opWidth x y with
      | Some w => Some (setFlags st (logicFlags w (Z.land (readInt st w x) (readInt st w y))))
      | None => None
      end
  | cmp x y =>
      match opWidth x y with
      | Some w => Some (setFlags st (cmpFlags w (readInt st w x) (readInt st w y)))
      | None => None
      end
  | xor_ (OpReg rd) src =>
      if isGpr rd then
        let w := bits (size rd) in
        let r := Z.lxor (readInt st w (OpReg rd)) (readInt st w src) in
        Some (setFlags (writeGpr st rd r) (logicFlags w r))
      else None
  | bsr (OpReg rd) src =>
      if isGpr rd then
        let x := readInt st (bits (size rd)) src in
        if x =? 0 then None
        else Some (setFlags (writeGpr st rd (Z.log2 x))
                     (mkFlags (CF (flags st)) false (SF (flags st)) (OF (flags st)) (PF (flags st))))
      else None
  | bsf (OpReg rd) src =>
      if isGpr rd then
        let x := readInt st (bits (size rd)) src in
        if x =? 0 then None
        else Some (setFlags (writeGpr st rd (lowestSetBit x))
                     (mkFlags (CF (flags st)) false (SF (flags st)) (OF (flags st)) (PF (flags st))))
      else None
  | vmovsd (OpReg rd) (OpMem sz addr) =>
      if isXmm rd then Some (writeXmm st rd (fst (readMem st addr), 0)) else None
  | vmovsd3 dst src1 src2 => binXmm st dst src1 src2 (fun x y => (fst y, snd x))
  | vandpd dst src1 src2 =>
      binXmm st dst src1 src2 (fun x y => (Z.land (fst x) (fst y), Z.land (snd x) (snd y)))
  | vorpd dst src1 src2 =>
      binXmm st dst src1 src2 (fun x y => (Z.lor (fst x) (fst y), Z.lor (snd x) (snd y)))
  | vaddsd dst src1 src2 => binXmm st dst src1 src2 (fun x y => (f64_add (fst x) (fst y), snd x))
  | vsubsd dst src1 src2 => binXmm st dst src1 src2 (fun x y => (f64_sub (fst x) (fst y), snd x))
  | vmulsd dst src1 src2 => binXmm st dst src1 src2 (fun x y => (f64_mul (fst x) (fst y), snd x))
  | vdivsd dst src1 src2 => binXmm st dst src1 src2 (fun x y => (f64_div (fst x) (fst y), snd x))
  | vroundsd dst src1 src2 mode =>
      binXmm st dst src1 src2 (fun x y => (f64_round mode (fst y), snd x))
  | _ => None
  end.

Inductive Outcome :=
| Fallthrough (st : MachineState)
| Branch (target : nat) (st : MachineState)
| Trap
| Stuck.

(** Runs a fragment from its first instruction.  A taken jump skips ahead
    to the [setLabel] of its target ([seek]); a target that is not bound
    in the rest of the fragment leaves the fragment ([Branch]). *)
Fixpoint exec (prog : list InstrX64) (seek : option nat) (st : MachineState) : Outcome :=
  match prog with
  | [] =>
      match seek with
      | Some l => Branch l st
      | None => Fallthrough st
      end
  | i :: rest =>
      match seek with
      | Some l =>
          match i with
          | setLabel l' => exec rest (if Nat.eqb l l' then None else Some l) st
          | _ => exec rest (Some l) st
          end
      | None =>
          match i with
          | setLabel _ => exec rest None st
          | jmp l => exec rest (Some l) st
          | jcc cond l =>
              match evalCond cond (flags st) with
              | Some true => exec rest (Some l) st
              | Some false => exec rest None st
              | None => Stuck
              end
          | ud2 => Trap
          | _ =>
              match step i st with
              | Some st' => exec rest None st'
              | None => Stuck
              end
          end
      end
  end.

Definition run (prog : list InstrX64) (st : MachineState) : Outcome := exec prog None st.

(** ** Operand accessors (Luau/IrData.h, Luau/IrUtils.h)

    Each accessor asserts the operand kind it is meant for. *)

Definition kindIs (op : IrOp) (k : IrOpKind.t) : bool := IrOpKind.eqb (kind op) k.

Definition constOp (op : IrOp) : M IrConst :=
  LUAU_ASSERT (kindIs op IrOpKind.Constant) "op.kind == IrOpKind::Constant" ;;;
  L <- get ;;
  match constants (function L) !! index op with
  | Some k => ret k
  | None => fail "constant index out of range"
  end.

Definition tagOp (op : IrOp) : M Z :=
  k <- constOp op ;;
  match k with
  | ConstTag t => ret t
  | _ => fail "value.kind == IrConstKind::Tag"
  end.

Definition intOp (op : IrOp) : M Z :=
  k <- constOp op ;;
  match k with
  | ConstInt i => ret i
  | _ => fail "value.kind == IrConstKind::Int"
  end.

Definition uintOp (op : IrOp) : M Z :=
  k <- constOp op ;;
  match k with
  | ConstUint i => ret i
  | _ => fail "value.kind == IrConstKind::Uint"
  end.

Definition doubleOp (op : IrOp) : M Z :=
  k <- constOp op ;;
  match k with
  | ConstDouble x => ret x
  | _ => fail "value.kind == IrConstKind::Double"
  end.

Definition instOp (op : IrOp) : M IrInst :=
  LUAU_ASSERT (kindIs op IrOpKind.Inst) "op.kind == IrOpKind::Inst" ;;;
  L <- get ;;
  match instructions (function L) !! index op with
  | Some inst => ret inst
  | None => fail "instruction index out of range"
  end.

(** A block reference is the block's index in [function.blocks]. *)
Definition blockOp (op : IrOp) : M nat :=
  LUAU_ASSERT (kindIs op IrOpKind.Block) "op.kind == IrOpKind::Block" ;;;
  L <- get ;;
  match blocks (function L) !! index op with
  | Some _ => ret (index op)
  | None => fail "block index out of range"
  end.

Definition blockAt (blockIdx : nat) : M IrBlock :=
  L <- get ;;
  match blocks (function L) !! blockIdx with
  | Some blk => ret blk
  | None => fail "block index out of range"
  end.

Definition labelOp (op : IrOp) : M LabelRef :=
  bi <- blockOp op ;;
  ret (RefBlock bi).

Definition vmRegOp (op : IrOp) : M nat :=
  LUAU_ASSERT (kindIs op IrOpKind.VmReg) "op.kind == IrOpKind::VmReg" ;;;
  ret (index op).

Definition vmConstOp (op : IrOp) : M nat :=
  LUAU_ASSERT (kindIs op IrOpKind.VmConst) "op.kind == IrOpKind::VmConst" ;;;
  ret (index op).

Definition vmExitOp (op : IrOp) : M nat :=
  LUAU_ASSERT (kindIs op IrOpKind.VmExit) "op.kind == IrOpKind::VmExit" ;;;
  ret (index op).

(** [getReverseCondition] of Luau/ConditionX64.h. *)
Definition getReverseCondition (cond : ConditionX64.t) : M ConditionX64.t :=
  match cond with
  | ConditionX64.Overflow => ret ConditionX64.NoOverflow
  | ConditionX64.NoOverflow => ret ConditionX64.Overflow
  | ConditionX64.Carry => ret ConditionX64.NoCarry
  | ConditionX64.NoCarry => ret ConditionX64.Carry
  | ConditionX64.Below => ret ConditionX64.NotBelow
  | ConditionX64.BelowEqual => ret ConditionX64.NotBelowEqual
  | ConditionX64.Above => ret ConditionX64.NotAbove
  | ConditionX64.AboveEqual => ret ConditionX64.NotAboveEqual
  | ConditionX64.Equal => ret ConditionX64.NotEqual
  | ConditionX64.Less => ret ConditionX64.NotLess
  | ConditionX64.LessEqual => ret ConditionX64.NotLessEqual
  | ConditionX64.Greater => ret ConditionX64.NotGreater
  | ConditionX64.GreaterEqual => ret ConditionX64.NotGreaterEqual
  | ConditionX64.NotBelow => ret ConditionX64.Below
  | ConditionX64.NotBelowEqual => ret ConditionX64.BelowEqual
  | ConditionX64.NotAbove => ret ConditionX64.Above
  | ConditionX64.NotAboveEqual => ret ConditionX64.AboveEqual
  | ConditionX64.NotEqual => ret ConditionX64.Equal
  | ConditionX64.NotLess => ret ConditionX64.Less
  | ConditionX64.NotLessEqual => ret ConditionX64.LessEqual
  | ConditionX64.NotGreater => ret ConditionX64.Greater
  | ConditionX64.NotGreaterEqual => ret ConditionX64.GreaterEqual
  | ConditionX64.Zero => ret ConditionX64.NotZero
  | ConditionX64.NotZero => ret ConditionX64.Zero
  | ConditionX64.Parity => ret ConditionX64.NotParity
  | ConditionX64.NotParity => ret ConditionX64.Parity
  | ConditionX64.Count => fail "invalid ConditionX64 value"
  end.

(** Modelled from the spec: [IrRegAllocX64::assertAllFree] and
    [IrRegAllocX64::assertNoSpills] (the allocator's source is not part of
    this file) -- no machine register is occupied by an IR value, and no
    value is spilled and not yet restored. *)
Definition assertAllFree : M unit :=
  L <- get ;;
  LUAU_ASSERT (bool_decide (gprOwner (regs L) = ∅) && bool_decide (xmmOwner (regs L) = ∅))
    "register is not free".

Definition assertNoSpills : M unit :=
  L <- get ;;
  LUAU_ASSERT (bool_decide (spills (regs L) = [])) "spills.empty()".

(** Modelled from the spec: the spill step of IrRegAllocX64 (not part of
    this file) -- a value is moved "to a fixed-size spill area"; running out
    of the budgeted slots is "handled by a hard-error flag checked after the
    pass completes, not by raising mid-pass".  The value goes to the
    lowest slot not in use and the high-water mark follows. *)
Definition firstFreeSlot (used : gset nat) : nat :=
  match find (fun i => bool_decide (i ∉ used)) (seq 0 (S (length (elements used)))) with
  | Some i => i
  | None => length (elements used)
  end.

Definition spillValue (inst : nat) : M unit :=
  fun L =>
    let r := regs L in
    let slot := firstFreeSlot (usedSpillSlots r) in
    Ok tt (set_regs L
             (mkRegAlloc (gprOwner r) (xmmOwner r)
                (spills r ++ [mkIrSpill inst slot])
                ({[slot]} ∪ usedSpillSlots r)
                (Nat.max (maxUsedSlot r) (S slot)))).

(** ** IrLoweringX64.cpp *)

(** Registers handed out by IrRegAllocX64 while one instruction is lowered:
    [instReg] is what [allocReg]/[allocRegOrReuse] returns for [inst.regX64],
    [scoped1], [scoped2], [scoped3] are the [ScopedRegX64] temporaries in
    the order the case constructs them. *)
Record Allocation := mkAllocation {
  instReg : RegisterX64;
  scoped1 : RegisterX64;
  scoped2 : RegisterX64;
  scoped3 : RegisterX64
}.

Section Lowering.

(** Constants of the runtime and of EmitCommonX64.h / IrData.h. *)
Variable LUA_TNIL : Z.
Variable LUA_TBOOLEAN : Z.
Variable kSpillSlots : nat.
Variable kVmExitEntryGuardPc : nat.

(** [regs.restore(inst, false)] of IrRegAllocX64, applied to the instruction
    at an index. *)
Variable regs_restore : nat -> M unit.

Definition set_inst_regX64 (i : IrInst) (r : RegisterX64) : IrInst :=
  mkIrInst (cmd i) (a i) (b i) (c i) (d i) (e i) (f i) (lastUse i) (useCountInst i)
           r (reusedReg i) (spilled i) (needsReload i).

(** [inst.regX64 = r] for the instruction at [idx]. *)
Definition setRegX64 (idx : nat) (r : RegisterX64) : M unit :=
  fun L =>
    let fn := function L in
    Ok tt (set_function L
             (mkIrFunction (blocks fn)
                (alter (fun i => set_inst_regX64 i r) idx (instructions fn))
                (constants fn) (predecessors fn) (variadic fn))).

Definition regOp (op : IrOp) : M RegisterX64 :=
  inst <- instOp op ;;
  (if spilled inst || needsReload inst then regs_restore (index op) else ret tt) ;;;
  inst <- instOp op ;;
  LUAU_ASSERT (negb (RegisterX64_eqb (regX64 inst) noreg)) "inst.regX64 != noreg" ;;;
  ret (regX64 inst).

Definition memRegDoubleOp (op : IrOp) : M OperandX64 :=
  match kind op with
  | IrOpKind.Inst => r <- regOp op ;; ret (OpReg r)
  | IrOpKind.Constant => x <- doubleOp op ;; ret (build_f64 x)
  | IrOpKind.VmReg => ra <- vmRegOp op ;; ret (luauRegValue ra)
  | IrOpKind.VmConst => ki <- vmConstOp op ;; ret (luauConstantValue ki)
  | _ => fail "Unsupported operand kind"
  end.

Definition memRegUintOp (op : IrOp) : M OperandX64 :=
  match kind op with
  | IrOpKind.Inst => r <- regOp op ;; ret (OpReg r)
  | IrOpKind.Constant => i <- intOp op ;; ret (OpImm (i mod 2 ^ 32))
  | IrOpKind.VmReg => ra <- vmRegOp op ;; ret (luauRegValueInt ra)
  | _ => fail "Unsupported operand kind"
  end.

Definition memRegTagOp (op : IrOp) : M OperandX64 :=
  match kind op with
  | IrOpKind.Inst => r <- regOp op ;; ret (OpReg r)
  | IrOpKind.VmReg => ra <- vmRegOp op ;; ret (luauRegTag ra)
  | IrOpKind.VmConst => ki <- vmConstOp op ;; ret (luauConstantTag ki)
  | _ => fail "Unsupported operand kind"
  end.

Definition hasError (L : IrLoweringX64) : bool :=
  if Nat.ltb kSpillSlots (maxUsedSlot (regs L)) then true else false.

Definition isFallthroughBlock (target next : IrBlock) : bool :=
  Nat.eqb (start target) (start next).

(** The result [RefLocal] denotes the caller's [fresh]. *)
Definition getTargetLabel (op : IrOp) : M LabelRef :=
  if kindIs op IrOpKind.Undef then ret RefLocal
  else if kindIs op IrOpKind.VmExit then
    pc <- vmExitOp op ;;
    if Nat.eqb pc kVmExitEntryGuardPc then ret RefHelperExit
    else
      L <- get ;;
      match exitHandlerMap L !! pc with
      | Some idx => ret (RefExitHandler idx)
      | None => ret RefLocal
      end
  else labelOp op.

Definition finalizeTargetLabel (op : IrOp) (fresh : Label) : M unit :=
  L <- get ;;
  if kindIs op IrOpKind.VmExit
     && negb (Nat.eqb (id fresh) 0)
     && negb (Nat.eqb (id fresh) (id (exitContinueVmClearNativeFlag (helpers L))))
  then
    pc <- vmExitOp op ;;
    fun L => Ok tt (set_exits L (exitHandlers L ++ [mkExitHandler fresh pc])
                                (<[pc := length (exitHandlers L)]> (exitHandlerMap L)))
  else ret tt.

Definition jumpOrFallthrough (target : nat) (next : IrBlock) : M unit :=
  blk <- blockAt target ;;
  if negb (isFallthroughBlock blk next) then
    build_jmp (RefBlock target) (mkLabel 0) ;;; ret tt
  else ret tt.

Definition jumpOrAbortOnUndef (cond : ConditionX64.t) (target : IrOp) (next : IrBlock) : M unit :=
  let fresh := mkLabel 0 in
  label <- getTargetLabel target ;;
  fresh <-
    (if kindIs target IrOpKind.Undef then
       if bool_decide (cond = ConditionX64.Count) then
         emit ud2 ;;; ret fresh
       else
         rc <- getReverseCondition cond ;;
         fresh <- build_jcc rc label fresh ;;
         emit ud2 ;;;
         build_setLabel label fresh
     else if bool_decide (cond = ConditionX64.Count) then
       skip <-
         (if kindIs target IrOpKind.VmExit then ret false
          else
            bi <- blockOp target ;;
            blk <- blockAt bi ;;
            ret (isFallthroughBlock blk next)) ;;
       if skip then ret fresh else build_jmp label fresh
     else build_jcc cond label fresh) ;;
  finalizeTargetLabel target fresh.

Definition finishBlock (curr next : nat) : M unit :=
  L <- get ;;
  if negb (bool_decide (spills (regs L) = [])) then
    LUAU_ASSERT (forallb (fun predIdx => Nat.eqb predIdx curr) (predecessors (function L) next))
      "predIdx == function.getBlockIndex(curr)" ;;;
    nb <- blockAt next ;;
    LUAU_ASSERT (Nat.eqb (useCount nb) 1) "next.useCount == 1"
  else ret tt.

Definition sameXmm (x y : RegisterX64) : bool := RegisterX64_eqb x y.

(** [IrLoweringX64::lowerInst], for the opcodes modelled here.  [regs] hands
    out [alloc]; the value tracker's hooks before and after the switch and
    [regs.freeLastUseRegs] belong to the allocator and are left out. *)
Definition lowerInst (alloc : Allocation) (inst : IrInst) (idx : nat) (next : IrBlock) : M unit :=
  match cmd inst with
  | IrCmd.MOD_NUM =>
      setRegX64 idx (instReg alloc) ;;;
      let regX64 := instReg alloc in
      lhs <-
        (if kindIs (a inst) IrOpKind.Constant then
           let optLhsTmp := scoped1 alloc in
           opa <- memRegDoubleOp (a inst) ;;
           emit (vmovsd (OpReg optLhsTmp) opa) ;;;
           ret optLhsTmp
         else regOp (a inst)) ;;
      if kindIs (b inst) IrOpKind.Inst then
        let tmp := scoped2 alloc in
        opb <- memRegDoubleOp (b inst) ;;
        emit (vdivsd (OpReg tmp) (OpReg lhs) opb) ;;;
        emit (vroundsd (OpReg tmp) (OpReg tmp) (OpReg tmp) RoundingModeX64.RoundToNegativeInfinity) ;;;
        opb <- memRegDoubleOp (b inst) ;;
        emit (vmulsd (OpReg tmp) (OpReg tmp) opb) ;;;
        emit (vsubsd (OpReg regX64) (OpReg lhs) (OpReg tmp))
      else
        let tmp1 := scoped2 alloc in
        let tmp2 := scoped3 alloc in
        opb <- memRegDoubleOp (b inst) ;;
        emit (vmovsd (OpReg tmp1) opb) ;;;
        emit (vdivsd (OpReg tmp2) (OpReg lhs) (OpReg tmp1)) ;;;
        emit (vroundsd (OpReg tmp2) (OpReg tmp2) (OpReg tmp2) RoundingModeX64.RoundToNegativeInfinity) ;;;
        emit (vmulsd (OpReg tmp1) (OpReg tmp2) (OpReg tmp1)) ;;;
        emit (vsubsd (OpReg regX64) (OpReg lhs) (OpReg tmp1))
  | IrCmd.ROUND_NUM =>
      setRegX64 idx (instReg alloc) ;;;
      let regX64 := instReg alloc in
      let tmp1 := scoped1 alloc in
      let tmp2 := scoped2 alloc in
      (if negb (kindIs (a inst) IrOpKind.Inst) then
         opa <- memRegDoubleOp (a inst) ;;
         emit (vmovsd (OpReg regX64) opa)
       else
         ra <- regOp (a inst) ;;
         if negb (sameXmm ra regX64) then
           ra <- regOp (a inst) ;;
           emit (vmovsd3 (OpReg regX64) (OpReg regX64) (OpReg ra))
         else ret tt) ;;;
      emit (vandpd (OpReg tmp1) (OpReg regX64) (build_f64x2 0x8000000000000000 0x8000000000000000)) ;;;
      emit (vmovsd (OpReg tmp2) (build_i64 0x3fdfffffffffffff)) ;;;
      emit (vorpd (OpReg tmp1) (OpReg tmp1) (OpReg tmp2)) ;;;
      emit (vaddsd (OpReg regX64) (OpReg regX64) (OpReg tmp1)) ;;;
      emit (vroundsd (OpReg regX64) (OpReg regX64) (OpReg regX64) RoundingModeX64.RoundToZero)
  | IrCmd.NOT_ANY =>
      setRegX64 idx (instReg alloc) ;;;
      let regX64 := instReg alloc in
      let saveone := mkLabel 0 in
      let savezero := mkLabel 0 in
      let exit := mkLabel 0 in
      labels <-
        (if kindIs (a inst) IrOpKind.Constant then
           t <- tagOp (a inst) ;;
           LUAU_ASSERT (t =? LUA_TBOOLEAN) "tagOp(inst.a) == LUA_TBOOLEAN" ;;;
           ret (saveone, savezero)
         else
           ra <- regOp (a inst) ;;
           emit (cmp (OpReg ra) (OpImm LUA_TNIL)) ;;;
           saveone <- build_jcc ConditionX64.Equal RefLocal saveone ;;
           ra <- regOp (a inst) ;;
           emit (cmp (OpReg ra) (OpImm LUA_TBOOLEAN)) ;;;
           savezero <- build_jcc ConditionX64.NotEqual RefLocal savezero ;;
           ret (saveone, savezero)) ;;
      let savezero := snd labels in
      saveone <-
        (if kindIs (b inst) IrOpKind.Constant then
           v <- intOp (b inst) ;;
           if v =? 0 then build_jmp RefLocal (fst labels) else ret (fst labels)
         else
           rb <- regOp (b inst) ;;
           emit (cmp (OpReg rb) (OpImm 0)) ;;;
           build_jcc ConditionX64.Equal RefLocal (fst labels)) ;;
      build_setLabel RefLocal savezero ;;;
      emit (mov (OpReg regX64) (OpImm 0)) ;;;
      exit <- build_jmp RefLocal exit ;;
      build_setLabel RefLocal saveone ;;;
      emit (mov (OpReg regX64) (OpImm 1)) ;;;
      build_setLabel RefLocal exit ;;;
      ret tt
  | IrCmd.JUMP => jumpOrAbortOnUndef ConditionX64.Count (a inst) next
  | IrCmd.JUMP_EQ_TAG =>
      LUAU_ASSERT (kindIs (b inst) IrOpKind.Inst || kindIs (b inst) IrOpKind.Constant)
        "inst.b.kind == IrOpKind::Inst || inst.b.kind == IrOpKind::Constant" ;;;
      opb <-
        (if kindIs (b inst) IrOpKind.Inst then r <- regOp (b inst) ;; ret (OpReg r)
         else t <- tagOp (b inst) ;; ret (OpImm t)) ;;
      (if kindIs (a inst) IrOpKind.Constant then
         t <- tagOp (a inst) ;; emit (cmp opb (OpImm t))
       else
         opa <- memRegTagOp (a inst) ;; emit (cmp opa opb)) ;;;
      bd <- blockOp (d inst) ;;
      blkd <- blockAt bd ;;
      if isFallthroughBlock blkd next then
        lc <- labelOp (c inst) ;;
        build_jcc ConditionX64.Equal lc (mkLabel 0) ;;;
        bd <- blockOp (d inst) ;;
        jumpOrFallthrough bd next
      else
        ld <- labelOp (d inst) ;;
        build_jcc ConditionX64.NotEqual ld (mkLabel 0) ;;;
        bc <- blockOp (c inst) ;;
        jumpOrFallthrough bc next
  | IrCmd.JUMP_EQ_INT =>
      v <- intOp (b inst) ;;
      if v =? 0 then
        ra <- regOp (a inst) ;;
        ra' <- regOp (a inst) ;;
        emit (test (OpReg ra) (OpReg ra')) ;;;
        bc <- blockOp (c inst) ;;
        blkc <- blockAt bc ;;
        if isFallthroughBlock blkc next then
          ld <- labelOp (d inst) ;;
          build_jcc ConditionX64.NotZero ld (mkLabel 0) ;;;
          jumpOrFallthrough bc next
        else
          lc <- labelOp (c inst) ;;
          build_jcc ConditionX64.Zero lc (mkLabel 0) ;;;
          bd <- blockOp (d inst) ;;
          jumpOrFallthrough bd next
      else
        ra <- regOp (a inst) ;;
        emit (cmp (OpReg ra) (OpImm v)) ;;;
        lc <- labelOp (c inst) ;;
        build_jcc ConditionX64.Equal lc (mkLabel 0) ;;;
        bd <- blockOp (d inst) ;;
        jumpOrFallthrough bd next
  | IrCmd.JUMP_LT_INT =>
      ra <- regOp (a inst) ;;
      v <- intOp (b inst) ;;
      emit (cmp (OpReg ra) (OpImm v)) ;;;
      lc <- labelOp (c inst) ;;
      build_jcc ConditionX64.Less lc (mkLabel 0) ;;;
      bd <- blockOp (d inst) ;;
      jumpOrFallthrough bd next
  | IrCmd.JUMP_GE_UINT =>
      ra <- regOp (a inst) ;;
      v <- intOp (b inst) ;;
      emit (cmp (OpReg ra) (OpImm (v mod 2 ^ 32))) ;;;
      lc <- labelOp (c inst) ;;
      build_jcc ConditionX64.AboveEqual lc (mkLabel 0) ;;;
      bd <- blockOp (d inst) ;;
      jumpOrFallthrough bd next
  | IrCmd.JUMP_EQ_POINTER =>
      ra <- regOp (a inst) ;;
      rb <- regOp (b inst) ;;
      emit (cmp (OpReg ra) (OpReg rb)) ;;;
      lc <- labelOp (c inst) ;;
      build_jcc ConditionX64.Equal lc (mkLabel 0) ;;;
      bd <- blockOp (d inst) ;;
      jumpOrFallthrough bd next
  | IrCmd.CHECK_TAG =>
      opa <- memRegTagOp (a inst) ;;
      t <- tagOp (b inst) ;;
      emit (cmp opa (OpImm t)) ;;;
      jumpOrAbortOnUndef ConditionX64.NotEqual (c inst) next
  | IrCmd.CHECK_TRUTHY =>
      (if kindIs (a inst) IrOpKind.Constant then
         t <- tagOp (a inst) ;;
         LUAU_ASSERT (t =? LUA_TBOOLEAN)
           "inst.a.kind != IrOpKind::Constant || tagOp(inst.a) == LUA_TBOOLEAN"
       else ret tt) ;;;
      let skip := mkLabel 0 in
      skip <-
        (if negb (kindIs (a inst) IrOpKind.Constant) then
           opa <- memRegTagOp (a inst) ;;
           emit (cmp opa (OpImm LUA_TNIL)) ;;;
           jumpOrAbortOnUndef ConditionX64.Equal (c inst) next ;;;
           opa <- memRegTagOp (a inst) ;;
           emit (cmp opa (OpImm LUA_TBOOLEAN)) ;;;
           build_jcc ConditionX64.NotEqual RefLocal skip
         else ret skip) ;;
      opb <- memRegUintOp (b inst) ;;
      emit (cmp opb (OpImm 0)) ;;;
      jumpOrAbortOnUndef ConditionX64.Equal (c inst) next ;;;
      if negb (kindIs (a inst) IrOpKind.Constant) then
        build_setLabel RefLocal skip ;;; ret tt
      else ret tt
  | IrCmd.CAPTURE => ret tt
  | IrCmd.CALL =>
      assertAllFree ;;;
      assertNoSpills ;;;
      ra <- vmRegOp (a inst) ;;
      nparams <- intOp (b inst) ;;
      nresults <- intOp (c inst) ;;
      emit (emitInstCall (Z.of_nat ra) nparams nresults)
  | IrCmd.RETURN =>
      assertAllFree ;;;
      assertNoSpills ;;;
      ra <- vmRegOp (a inst) ;;
      actualResults <- intOp (b inst) ;;
      L <- get ;;
      emit (emitInstReturn (Z.of_nat ra) actualResults (variadic (function L)))
  | IrCmd.BITCOUNTLZ_UINT =>
      setRegX64 idx (instReg alloc) ;;;
      let regX64 := instReg alloc in
      let zero := mkLabel 0 in
      let exit := mkLabel 0 in
      ra <- regOp (a inst) ;;
      ra' <- regOp (a inst) ;;
      emit (test (OpReg ra) (OpReg ra')) ;;;
      zero <- build_jcc ConditionX64.Equal RefLocal zero ;;
      ra <- regOp (a inst) ;;
      emit (bsr (OpReg regX64) (OpReg ra)) ;;;
      emit (xor_ (OpReg regX64) (OpImm 0x1f)) ;;;
      exit <- build_jmp RefLocal exit ;;
      build_setLabel RefLocal zero ;;;
      emit (mov (OpReg regX64) (OpImm 32)) ;;;
      build_setLabel RefLocal exit ;;;
      ret tt
  | IrCmd.BITCOUNTRZ_UINT =>
      setRegX64 idx (instReg alloc) ;;;
      let regX64 := instReg alloc in
      let zero := mkLabel 0 in
      let exit := mkLabel 0 in
      ra <- regOp (a inst) ;;
      ra' <- regOp (a inst) ;;
      emit (test (OpReg ra) (OpReg ra')) ;;;
      zero <- build_jcc ConditionX64.Equal RefLocal zero ;;
      ra <- regOp (a inst) ;;
      emit (bsf (OpReg regX64) (OpReg ra)) ;;;
      exit <- build_jmp RefLocal exit ;;
      build_setLabel RefLocal zero ;;;
      emit (mov (OpReg regX64) (OpImm 32)) ;;;
      build_setLabel RefLocal exit ;;;
      ret tt
  | IrCmd.NOP | IrCmd.SUBSTITUTE => fail "Pseudo instructions should not be lowered"
  end.

End Lowering.

(** ** Vocabulary of the statements *)

(** The instructions a lowering computation appends to the builder. *)
Definition emitted {A} (m : M A) (L : IrLoweringX64) : option (list InstrX64) :=
  match m L with
  | Ok _ L' => Some (drop (length (code (build L))) (code (build L')))
  | Abort _ => None
  end.

(** The operand refers to an instruction whose value sits in register [r]
    (it is neither spilled nor waiting for a reload). *)
Definition residentIn (L : IrLoweringX64) (op : IrOp) (r : RegisterX64) : Prop :=
  kind op = IrOpKind.Inst /\
  exists src, instructions (function L) !! index op = Some src /\
              spilled src = false /\ needsReload src = false /\
              regX64 src = r /\ r <> noreg.

Definition intConstant (L : IrLoweringX64) (op : IrOp) (v : Z) : Prop :=
  kind op = IrOpKind.Constant /\ constants (function L) !! index op = Some (ConstInt v).

Definition tagConstant (L : IrLoweringX64) (op : IrOp) (t : Z) : Prop :=
  kind op = IrOpKind.Constant /\ constants (function L) !! index op = Some (ConstTag t).

Definition doubleConstant (L : IrLoweringX64) (op : IrOp) (x : Z) : Prop :=
  kind op = IrOpKind.Constant /\ constants (function L) !! index op = Some (ConstDouble x).

Definition blockOperand (L : IrLoweringX64) (op : IrOp) (blk : IrBlock) : Prop :=
  kind op = IrOpKind.Block /\ blocks (function L) !! index op = Some blk.

Definition uintOperandKind (k : IrOpKind.t) : bool :=
  match k with
  | IrOpKind.Inst | IrOpKind.Constant | IrOpKind.VmReg => true
  | _ => false
  end.

Definition doubleOperandKind (k : IrOpKind.t) : bool :=
  match k with
  | IrOpKind.Inst | IrOpKind.Constant | IrOpKind.VmReg | IrOpKind.VmConst => true
  | _ => false
  end.

Definition isConstInt (k : IrConst) : bool :=
  match k with
  | ConstInt _ => true
  | _ => false
  end.

Definition isConstDouble (k : IrConst) : bool :=
  match k with
  | ConstDouble _ => true
  | _ => false
  end.

(** An operand as the IR contract provides it to a resolver that reads
    constants of the kind [isConst] accepts. *)
Definition wellFormedOperand (L : IrLoweringX64) (isConst : IrConst -> bool) (op : IrOp) : Prop :=
  match kind op with
  | IrOpKind.Inst => exists r, residentIn L op r
  | IrOpKind.Constant => exists k, constants (function L) !! index op = Some k /\ isConst k = true
  | _ => True
  end.

Definition allocationClean (r : IrRegAllocX64) : Prop :=
  gprOwner r = ∅ /\ xmmOwner r = ∅ /\ spills r = [].

(** The one pseudo-instruction a CALL or RETURN leaves in the stream. *)
Definition callOrReturnBody (inst : IrInst) (L : IrLoweringX64) (i : InstrX64) : Prop :=
  kind (a inst) = IrOpKind.VmReg /\
  match cmd inst with
  | IrCmd.CALL =>
      exists nparams nresults,
        intConstant L (b inst) nparams /\ intConstant L (c inst) nresults /\
        i = emitInstCall (Z.of_nat (index (a inst))) nparams nresults
  | IrCmd.RETURN =>
      exists actualResults,
        intConstant L (b inst) actualResults /\
        i = emitInstReturn (Z.of_nat (index (a inst))) actualResults (variadic (function L))
  | _ => False
  end.

Definition spillAll (insts : list nat) : M unit :=
  fold_right (fun i k => spillValue i ;;; k) (ret tt) insts.

Definition slotsBelowMark (r : IrRegAllocX64) : Prop :=
  forall slot, slot ∈ usedSpillSlots r -> (slot < maxUsedSlot r)%nat.

(** Leading and trailing zero bits of an [n]-bit word, counted bit by bit. *)
Fixpoint countlz (n : nat) (x : Z) : Z :=
  match n with
  | O => 0
  | S k => if Z.testbit x (Z.of_nat k) then 0 else 1 + countlz k x
  end.

Fixpoint countrz (n : nat) (x : Z) : Z :=
  match n with
  | O => 0
  | S k => if Z.odd x then 0 else 1 + countrz k (Z.div2 x)
  end.

(** ** State changes of the lowering, named

    Everything the modelled part of the lowering does to its state is one of
    these: append instructions, hand out a label id, give a block's label
    its id. *)

Definition addCode (L : IrLoweringX64) (instrs : list InstrX64) : IrLoweringX64 :=
  set_build L (mkBuilder (code (build L) ++ instrs) (nextLabel (build L))).

Definition bumpLabel (L : IrLoweringX64) : IrLoweringX64 :=
  set_build L (mkBuilder (code (build L)) (S (nextLabel (build L)))).

(** A caller-owned label after it has been referenced in state [L]. *)
Definition placedLocal (L : IrLoweringX64) (local : Label) : Label :=
  if Nat.eqb (id local) 0 then mkLabel (nextLabel (build L)) else local.

Definition placeLocal (L : IrLoweringX64) (local : Label) : IrLoweringX64 :=
  if Nat.eqb (id local) 0 then bumpLabel L else L.

(** The label of block [bi] after it has been referenced in state [L]. *)
Definition placedBlock (L : IrLoweringX64) (blk : IrBlock) : Label :=
  placedLocal L (label blk).

Definition placeBlock (L : IrLoweringX64) (bi : nat) (blk : IrBlock) : IrLoweringX64 :=
  if Nat.eqb (id (label blk)) 0 then
    set_function (bumpLabel L)
      (set_blocks (function L)
         (alter (fun b => set_block_label b (mkLabel (nextLabel (build L)))) bi
            (blocks (function L))))
  else L.

(** The id of the label of the block an operand names. *)
Definition labelIdOf (L : IrLoweringX64) (op : IrOp) : option nat :=
  match blocks (function L) !! index op with
  | Some blk => Some (id (label blk))
  | None => None
  end.

(** Targets of the conditional and of the unconditional branches of a
    fragment, in emission order. *)
Definition condBranches (frag : list InstrX64) : list nat :=
  flat_map (fun i => match i with jcc _ l => [l] | _ => [] end) frag.

Definition jumps (frag : list InstrX64) : list nat :=
  flat_map (fun i => match i with jmp l => [l] | _ => [] end) frag.

(** The compact shape of a two-way branch one of whose targets is the next
    block: a single conditional branch, to the label of the other target,
    and no unconditional branch to the label of the next block. *)
Definition branchesOnNonFallthrough (frag : list InstrX64) (fallLabel otherLabel : nat) : Prop :=
  condBranches frag = [otherLabel] /\ ~ In fallLabel (jumps frag).

(** [L1] holds the same instructions and constants as [L]. *)
Definition sameValues (L L1 : IrLoweringX64) : Prop :=
  instructions (function L1) = instructions (function L) /\
  constants (function L1) = constants (function L).

(** A tag operand that [memRegTagOp] resolves to [o] without touching the
    state, and an unsigned operand that [memRegUintOp] resolves to [o]. *)
Definition tagOperand (restore : nat -> M unit) (L : IrLoweringX64) (op : IrOp) (o : OperandX64) : Prop :=
  kind op <> IrOpKind.Constant /\
  forall L1, sameValues L L1 -> memRegTagOp restore op L1 = Ok o L1.

Definition uintOperand (restore : nat -> M unit) (L : IrLoweringX64) (op : IrOp) (o : OperandX64) : Prop :=
  kind op <> IrOpKind.Constant /\
  forall L1, sameValues L L1 -> memRegUintOp restore op L1 = Ok o L1.

(** ** VM exits *)

Definition exitEdge (pc : nat) : IrOp := mkIrOp IrOpKind.VmExit pc.

(** The instruction that takes an edge: [jmp] for the unconditional form
    ([ConditionX64.Count]), a conditional branch otherwise. *)
Definition branchTo (cond : ConditionX64.t) (l : nat) : InstrX64 :=
  if bool_decide (cond = ConditionX64.Count) then jmp l else jcc cond l.

(** The trampoline label an exit to [pc] is known under in state [L]. *)
Definition exitLabelOf (kVmExitEntryGuardPc : nat) (L : IrLoweringX64) (pc : nat) : option nat :=
  if Nat.eqb pc kVmExitEntryGuardPc then Some (id (exitContinueVmClearNativeFlag (helpers L)))
  else
    match exitHandlerMap L !! pc with
    | Some idx =>
        match exitHandlers L !! idx with
        | Some h => Some (id (self h))
        | None => None
        end
    | None => None
    end.

(** What the lowering maintains about its exit handlers: the index map and
    the handler list describe each other, every handler label has been
    handed out by the builder, no two handlers share a label, none has the
    entry-guard position, and the shared helper label is bound. *)
Record exitInvariant (kVmExitEntryGuardPc : nat) (L : IrLoweringX64) : Prop := {
  inv_helper :
    id (exitContinueVmClearNativeFlag (helpers L)) <> 0%nat /\
    (id (exitContinueVmClearNativeFlag (helpers L)) < nextLabel (build L))%nat;
  inv_map :
    forall pc idx, exitHandlerMap L !! pc = Some idx ->
      exists h, exitHandlers L !! idx = Some h /\ pcpos h = pc;
  inv_handlers :
    forall idx h, exitHandlers L !! idx = Some h ->
      exitHandlerMap L !! pcpos h = Some idx /\
      pcpos h <> kVmExitEntryGuardPc /\
      id (self h) <> 0%nat /\
      (id (self h) < nextLabel (build L))%nat /\
      id (self h) <> id (exitContinueVmClearNativeFlag (helpers L));
  inv_distinct :
    forall i j hi hj, exitHandlers L !! i = Some hi -> exitHandlers L !! j = Some hj ->
      id (self hi) = id (self hj) -> i = j
}.

(** [L2] is a later state of the same lowering as [L]: the invariant holds
    and every exit keeps the label it had. *)
Definition exitsKept (kVmExitEntryGuardPc : nat) (L L2 : IrLoweringX64) : Prop :=
  exitInvariant kVmExitEntryGuardPc L2 /\
  forall pc l, exitLabelOf kVmExitEntryGuardPc L pc = Some l ->
               exitLabelOf kVmExitEntryGuardPc L2 pc = Some l.

(** ** Doubles *)

(** [copysign(magnitude, x)] on bit patterns, for a magnitude whose sign bit
    is clear. *)
Definition f64_copysign (magnitude x : Z) : Z := sign_bit (Z.testbit x 63) + magnitude.

(** What ROUND_NUM computes: [x + copysign(0.49999999999999994, x)],
    rounded to an integral value toward zero. *)
Definition roundHalfAway (x : Z) : Z :=
  f64_round RoundingModeX64.RoundToZero (f64_add x (f64_copysign 0x3fdfffffffffffff x)).

(** What MOD_NUM computes: [a - floor(a / b) * b], each operation rounded. *)
Definition flooredModulo (x y : Z) : Z :=
  f64_sub x (f64_mul (f64_round RoundingModeX64.RoundToNegativeInfinity (f64_div x y)) y).

(** A double operand that is not an instruction result: a constant of the
    function (placed in the constant pool), a VM register or a VM constant. *)
Definition memoryDouble (L : IrLoweringX64) (op : IrOp) (o : OperandX64) : Prop :=
  (exists x, doubleConstant L op x /\ o = build_f64 x) \/
  (kind op = IrOpKind.VmReg /\ o = luauRegValue (index op)) \/
  (kind op = IrOpKind.VmConst /\ o = luauConstantValue (index op)).

(** A double operand held in an SSE register by an earlier instruction. *)
Definition registerDouble (L : IrLoweringX64) (idx : nat) (op : IrOp) (o : OperandX64) : Prop :=
  exists r, residentIn L op r /\ index op <> idx /\ size r = SizeX64.xmmword /\ o = OpReg r.

(** The low lane of an SSE operand. *)
Definition lowLane (st : MachineState) (o : OperandX64) : option Z :=
  match readXmm st o with
  | Some v => Some (fst v)
  | None => None
  end.

(** The contract of the allocator for scratch registers: the three scoped
    temporaries are distinct SSE registers, and none of them is a register
    that holds one of the operands. *)
Definition scratchDisjoint (alloc : Allocation) (srcs : list OperandX64) : Prop :=
  size (scoped1 alloc) = SizeX64.xmmword /\
  size (scoped2 alloc) = SizeX64.xmmword /\
  size (scoped3 alloc) = SizeX64.xmmword /\
  regIndex (scoped1 alloc) <> regIndex (scoped2 alloc) /\
  regIndex (scoped1 alloc) <> regIndex (scoped3 alloc) /\
  regIndex (scoped2 alloc) <> regIndex (scoped3 alloc) /\
  forall r, In (OpReg r) srcs ->
    regIndex r <> regIndex (scoped1 alloc) /\
    regIndex r <> regIndex (scoped2 alloc) /\
    regIndex r <> regIndex (scoped3 alloc).

(** Sign bit of a double's bit pattern. *)
Definition f64_signbit (x : Z) : bool := Z.testbit x 63.

(** ** Truthiness *)

(** A value is falsy when its tag is nil, or its tag is boolean and its
    payload is zero. *)
Definition isFalsy (LUA_TNIL LUA_TBOOLEAN tag payload : Z) : bool :=
  (tag =? LUA_TNIL) || ((tag =? LUA_TBOOLEAN) && (payload =? 0)).

(** The tag constants are distinct bytes. *)
Definition tagConstantsOk (LUA_TNIL LUA_TBOOLEAN : Z) : Prop :=
  0 <= LUA_TNIL < 256 /\ 0 <= LUA_TBOOLEAN < 256 /\ LUA_TNIL <> LUA_TBOOLEAN.

(** The tag that NOT_ANY tests: the content of a 32-bit register, or the
    constant tag of the operand. *)
Definition registerOrTag (L : IrLoweringX64) (idx : nat) (st : MachineState) (op : IrOp) (t : Z) : Prop :=
  (exists r, residentIn L op r /\ index op <> idx /\ size r = SizeX64.dword /\
             readInt st 32 (OpReg r) = t) \/
  tagConstant L op t.

(** The payload that NOT_ANY tests: the content of a 32-bit register, or the
    constant integer of the operand. *)
Definition registerOrInt (L : IrLoweringX64) (idx : nat) (st : MachineState) (op : IrOp) (v : Z) : Prop :=
  (exists r, residentIn L op r /\ index op <> idx /\ size r = SizeX64.dword /\
             readInt st 32 (OpReg r) = v) \/
  intConstant L op v.

(** Labels bound inside a fragment. *)
Definition boundLabels (frag : list InstrX64) : list nat :=
  flat_map (fun i => match i with setLabel l => [l] | _ => [] end) frag.

(** Ids held by the shared label objects of the lowering: the helper label,
    the handler labels and the block labels. *)
Definition isSharedLabel (L : IrLoweringX64) (l : nat) : Prop :=
  l = id (exitContinueVmClearNativeFlag (helpers L)) \/
  (exists i h, exitHandlers L !! i = Some h /\ id (self h) = l) \/
  (exists j blk, blocks (function L) !! j = Some blk /\ id (label blk) = l).

(** The builder has handed out every id a shared label holds. *)
Definition labelInvariant (kVmExitEntryGuardPc : nat) (L : IrLoweringX64) : Prop :=
  exitInvariant kVmExitEntryGuardPc L /\
  forall l, isSharedLabel L l -> (l < nextLabel (build L))%nat.

(** Targets a guard can have: none (the guard traps), a VM exit, a block. *)
Definition validTarget (L : IrLoweringX64) (target : IrOp) : Prop :=
  kind target = IrOpKind.Undef \/ kind target = IrOpKind.VmExit \/
  exists blk, blockOperand L target blk.

(** Whether control comes out at the end of a fragment ([true]) or leaves
    it by a trap or a branch ([false]). *)
Definition passes (o : Outcome) : option bool :=
  match o with
  | Fallthrough _ => Some true
  | Branch _ _ | Trap => Some false
  | Stuck => None
  end.

(** What a guard on [cond] does in front of any code [rest]: when the
    condition holds it traps ([escape = None]) or goes looking for the label
    [escape]; otherwise it continues with [rest]. *)
Definition guards (cond : ConditionX64.t) (g : list InstrX64) (escape : option nat) : Prop :=
  forall st rest fl,
    evalCond cond (flags st) = Some fl ->
    exec (g ++ rest) None st =
      if fl then
        match escape with
        | Some l => exec rest (Some l) st
        | None => Trap
        end
      else exec rest None st.

(** What one guard leaves behind: the state [L'] after
    [jumpOrAbortOnUndef cond target] has run in [L], the code [g] it
    appended, and where [g] goes when the condition holds. *)
Record guardStep (kVmExitEntryGuardPc : nat) (L L' : IrLoweringX64) (cond : ConditionX64.t)
    (target : IrOp) (g : list InstrX64) (escape : option nat) : Prop := {
  gs_code : code (build L') = code (build L) ++ g;
  gs_inv : labelInvariant kVmExitEntryGuardPc L';
  gs_values : sameValues L L';
  gs_target : validTarget L' target;
  gs_next : (nextLabel (build L) <= nextLabel (build L'))%nat;
  gs_guards : guards cond g escape;
  gs_bound : forall l, In l (boundLabels g) -> (nextLabel (build L) <= l)%nat;
  gs_escape : forall l, escape = Some l ->
    (l < nextLabel (build L'))%nat /\ (isSharedLabel L l \/ (nextLabel (build L) <= l)%nat)
}.

(** A 32-bit register or memory operand. *)
Definition is32 (o : OperandX64) : Prop := opWidth o (OpImm 0) = Some 32.

(** The code of CHECK_TRUTHY: with the tag in [opa] it tests for nil, guards
    ([g1]), skips the payload test unless the tag is boolean, tests the
    payload and guards again ([g2]); with a tag known to be boolean it only
    tests the payload. *)
Definition checkTruthyCode (LUA_TNIL LUA_TBOOLEAN : Z) (opa : option OperandX64)
    (opb : OperandX64) (g1 g2 : list InstrX64) (skip : nat) : list InstrX64 :=
  match opa with
  | Some oa =>
      [cmp oa (OpImm LUA_TNIL)] ++ g1 ++
      [cmp oa (OpImm LUA_TBOOLEAN); jcc ConditionX64.NotEqual skip; cmp opb (OpImm 0)] ++
      g2 ++ [setLabel skip]
  | None => [cmp opb (OpImm 0)] ++ g2
  end.

(** ** Code shapes *)

(** What a jump to the label of block [bi] leaves behind. *)
Definition jumpedToBlock (L L1 : IrLoweringX64) (bi : nat) (blk : IrBlock) (i : nat -> InstrX64)
    (l : nat) : Prop :=
  code (build L1) = code (build L) ++ [i l] /\
  l <> 0%nat /\
  (id (label blk) <> 0%nat -> l = id (label blk)) /\
  blocks (function L1) !! bi = Some (set_block_label blk (mkLabel l)) /\
  (forall j, j <> bi -> blocks (function L1) !! j = blocks (function L) !! j) /\
  instructions (function L1) = instructions (function L) /\
  constants (function L1) = constants (function L) /\
  nextLabel (build L1) <> 0%nat.

(** The branch of [jumpOrAbortOnUndef] for a target that is a VM exit. *)
Definition takeExit (cond : ConditionX64.t) (label : LabelRef) (fresh : Label) : M Label :=
  if bool_decide (cond = ConditionX64.Count) then build_jmp label fresh
  else build_jcc cond label fresh.

(** ROUND_NUM after its source has reached [dst]: the sign of the source,
    the constant with that sign, the sum, the truncation. *)
Definition roundBody (dst tmp1 tmp2 : RegisterX64) : list InstrX64 :=
  [vandpd (OpReg tmp1) (OpReg dst) (build_f64x2 0x8000000000000000 0x8000000000000000);
   vmovsd (OpReg tmp2) (build_i64 0x3fdfffffffffffff);
   vorpd (OpReg tmp1) (OpReg tmp1) (OpReg tmp2);
   vaddsd (OpReg dst) (OpReg dst) (OpReg tmp1);
   vroundsd (OpReg dst) (OpReg dst) (OpReg dst) RoundingModeX64.RoundToZero].

(** The move that brings the source into the result register. *)
Definition roundPrefix (dst : RegisterX64) (src : OperandX64) : list InstrX64 :=
  match src with
  | OpReg ra => if RegisterX64_eqb ra dst then [] else [vmovsd3 (OpReg dst) (OpReg dst) (OpReg ra)]
  | _ => [vmovsd (OpReg dst) src]
  end.

(** MOD_NUM keeps a left operand that is not in a register in a scratch
    register ([optLhsTmp]). *)
Definition modPrefix (optLhsTmp : RegisterX64) (srca : OperandX64) : list InstrX64 :=
  match srca with
  | OpReg _ => []
  | _ => [vmovsd (OpReg optLhsTmp) srca]
  end.

(** The register MOD_NUM reads its left operand from. *)
Definition modLhs (optLhsTmp : RegisterX64) (srca : OperandX64) : RegisterX64 :=
  match srca with
  | OpReg ra => ra
  | _ => optLhsTmp
  end.

(** Divide, round down, multiply back, subtract -- through one scratch
    register when the right operand is in a register, two otherwise. *)
Definition modBody (dst lhs tmp1 tmp2 : RegisterX64) (srcb : OperandX64) : list InstrX64 :=
  match srcb with
  | OpReg _ =>
      [vdivsd (OpReg tmp1) (OpReg lhs) srcb;
       vroundsd (OpReg tmp1) (OpReg tmp1) (OpReg tmp1) RoundingModeX64.RoundToNegativeInfinity;
       vmulsd (OpReg tmp1) (OpReg tmp1) srcb;
       vsubsd (OpReg dst) (OpReg lhs) (OpReg tmp1)]
  | _ =>
      [vmovsd (OpReg tmp1) srcb;
       vdivsd (OpReg tmp2) (OpReg lhs) (OpReg tmp1);
       vroundsd (OpReg tmp2) (OpReg tmp2) (OpReg tmp2) RoundingModeX64.RoundToNegativeInfinity;
       vmulsd (OpReg tmp1) (OpReg tmp2) (OpReg tmp1);
       vsubsd (OpReg dst) (OpReg lhs) (OpReg tmp1)]
  end.

(** The two stores NOT_ANY ends with. *)
Definition notAnyTail (dst : RegisterX64) (savezero saveone exit : nat) : list InstrX64 :=
  [setLabel savezero; mov (OpReg dst) (OpImm 0); jmp exit;
   setLabel saveone; mov (OpReg dst) (OpImm 1); setLabel exit].

(** The code of NOT_ANY, by operand shape: the tag in a register or known
    to be boolean, the payload in a register or a constant; [n] is the next
    label id of the builder. *)
Definition notAnyCode (LUA_TNIL LUA_TBOOLEAN : Z) (dst : RegisterX64)
    (srca : option RegisterX64) (srcb : RegisterX64 + Z) (n : nat) : list InstrX64 :=
  match srca with
  | Some ra =>
      [cmp (OpReg ra) (OpImm LUA_TNIL); jcc ConditionX64.Equal n;
       cmp (OpReg ra) (OpImm LUA_TBOOLEAN); jcc ConditionX64.NotEqual (S n)] ++
      match srcb with
      | inl rb => [cmp (OpReg rb) (OpImm 0); jcc ConditionX64.Equal n]
      | inr v => if v =? 0 then [jmp n] else []
      end ++
      notAnyTail dst (S n) n (S (S n))
  | None =>
      match srcb with
      | inl rb =>
          [cmp (OpReg rb) (OpImm 0); jcc ConditionX64.Equal n] ++ notAnyTail dst (S n) n (S (S n))
      | inr v =>
          if v =? 0 then [jmp n] ++ notAnyTail dst (S n) n (S (S n))
          else notAnyTail dst n (S (S n)) (S n)
      end
  end.

(** ** Rounding half away from zero *)

(** Mantissa and exponent of a binary64 number, subnormal or normal. *)
Definition validFinite (m : positive) (e : Z) : Prop :=
  (e = -1074 /\ Zpos m < 2 ^ 52) \/ (2 ^ 52 <= Zpos m < 2 ^ 53 /\ -1074 <= e <= 971).

(** The constant ROUND_NUM adds, 0.49999999999999994, with sign [s]. *)
Definition halfBelow (s : bool) : spec_float := S754_finite s 9007199254740991 (-54).

(** Rounding to nearest, ties to even, of [M / 2 ^ p]. *)
Definition roundedQuotient (M p : Z) : Z :=
  let q := M / 2 ^ p in
  let r := M mod 2 ^ p in
  if (2 ^ (p - 1) <? r) || ((r =? 2 ^ (p - 1)) && Z.odd q) then q + 1 else q.

(** [floor (m * 2 ^ e + 1/2)]. *)
Definition halfAwayMagnitude (m : positive) (e : Z) : Z :=
  if 0 <=? e then Zpos m * 2 ^ e else (Zpos m + 2 ^ (- e - 1)) / 2 ^ (- e).

(** The nearest integer, ties away from zero: the magnitude [m * 2 ^ e]
    becomes [floor (m * 2 ^ e + 1/2)]; a number with no fractional bits, an
    infinity and a NaN are left as they are. *)
Definition nearestHalfAway (x : spec_float) : spec_float :=
  match x with
  | S754_finite s m e =>
      if 0 <=? e then x
      else binary_normalize prec emax (cond_Zopp s ((Zpos m + 2 ^ (- e - 1)) / 2 ^ (- e))) 0 s
  | _ => x
  end.

(** The integer a number without fractional bits stands for. *)
Definition integerValue (x : spec_float) : option Z :=
  match x with
  | S754_zero _ => Some 0
  | S754_finite s m e =>
      if 0 <=? e then Some (cond_Zopp s (Zpos m * 2 ^ e))
      else if Zpos m mod 2 ^ (- e) =? 0 then Some (cond_Zopp s (Zpos m / 2 ^ (- e)))
      else None
  | _ => None
  end.

(** The sign of a number; a NaN has none. *)
Definition signOf (x : spec_float) : option bool :=
  match x with
  | S754_zero s | S754_infinity s | S754_finite s _ _ => Some s
  | S754_nan => None
  end.

(** ** The difference within rounding *)

(** The product [floor(a / b) * b] as MOD_NUM computes it. *)
Definition flooredProduct (x y : Z) : Z :=
  f64_mul (f64_round RoundingModeX64.RoundToNegativeInfinity (f64_div x y)) y.

(** A number that is a zero or finite: neither an infinity nor a NaN. *)
Definition finiteOrZero (x : spec_float) : bool :=
  match x with
  | S754_zero _ | S754_finite _ _ _ => true
  | _ => false
  end.

(** A zero or finite number as a multiple of [2 ^ E]: [Some v] when the
    number is [v * 2 ^ E]. *)
Definition multipleOf (E : Z) (x : spec_float) : option Z :=
  match x with
  | S754_zero _ => Some 0
  | S754_finite s m e => if E <=? e then Some (cond_Zopp s (Zpos m * 2 ^ (e - E))) else None
  | _ => None
  end.

(** The unit in the last place of a finite number, as a multiple of
    [2 ^ E]. *)
Definition ulpIn (E : Z) (x : spec_float) : Z :=
  match x with
  | S754_finite _ _ e => 2 ^ (e - E)
  | _ => 0
  end.

(** [a = p + r] within floating-point rounding: written as multiples of a
    common unit, [a] and [p + r] differ by at most half a unit in the last
    place of [r]. *)
Definition sumWithinRounding (a p r : spec_float) : Prop :=
  exists E A P R,
    multipleOf E a = Some A /\ multipleOf E p = Some P /\ multipleOf E r = Some R /\
    2 * Z.abs (A - (P + R)) <= ulpIn E r.

(** ** A small function to run the lowering on

    Five instructions: four earlier ones whose values sit in two 32-bit
    registers and two SSE registers, and the instruction being lowered, at
    index 4; three blocks, the second of which is the next block. *)

Definition noOperand : IrOp := mkIrOp IrOpKind.None 0.
Definition instRef (i : nat) : IrOp := mkIrOp IrOpKind.Inst i.
Definition constRef (i : nat) : IrOp := mkIrOp IrOpKind.Constant i.
Definition blockRef (i : nat) : IrOp := mkIrOp IrOpKind.Block i.
Definition vmRegRef (i : nat) : IrOp := mkIrOp IrOpKind.VmReg i.
Definition undefRef : IrOp := mkIrOp IrOpKind.Undef 0.

(** An instruction that has not been given a register yet. *)
Definition instruction (cmd : IrCmd.t) (a b c d : IrOp) : IrInst :=
  mkIrInst cmd a b c d noOperand noOperand 0 0 noreg false false false.

(** An earlier instruction whose value sits in register [r]; what produced
    the value plays no role for its users. *)
Definition valueIn (r : RegisterX64) : IrInst :=
  mkIrInst IrCmd.NOP noOperand noOperand noOperand noOperand noOperand noOperand 4 1 r
    false false false.

Definition eax : RegisterX64 := mkReg SizeX64.dword 0.
Definition ecx : RegisterX64 := mkReg SizeX64.dword 1.
Definition edx : RegisterX64 := mkReg SizeX64.dword 2.
Definition xmm2 : RegisterX64 := mkReg SizeX64.xmmword 2.
Definition xmm3 : RegisterX64 := mkReg SizeX64.xmmword 3.

Definition sampleIndex : nat := 4.

Definition sampleBlocks : list IrBlock :=
  [mkIrBlock 1 0 9 (mkLabel 0); mkIrBlock 1 10 19 (mkLabel 0); mkIrBlock 1 20 29 (mkLabel 0)].

Definition sampleNext : IrBlock := mkIrBlock 1 10 19 (mkLabel 0).

Definition sampleFunction (user : IrInst) : IrFunction :=
  mkIrFunction sampleBlocks
    [valueIn eax; valueIn ecx; valueIn xmm2; valueIn xmm3; user]
    [ConstInt 0; ConstTag 1; ConstDouble 0x4008000000000000; ConstInt 2]
    (fun blockIdx => match blockIdx with 1%nat | 2%nat => [0%nat] | _ => [] end)
    false.

(** The allocation state with the four values in their registers, and the
    state at a call, where nothing is held. *)
Definition sampleRegs : IrRegAllocX64 :=
  mkRegAlloc {[0%nat := 0%nat; 1%nat := 1%nat]} {[2%nat := 2%nat; 3%nat := 3%nat]} [] ∅ 0.

Definition cleanRegs : IrRegAllocX64 := mkRegAlloc ∅ ∅ [] ∅ 0.

(** A lowering that has emitted nothing yet; label 1 is the shared helper's. *)
Definition sampleLowering (r : IrRegAllocX64) (user : IrInst) : IrLoweringX64 :=
  mkLowering (mkBuilder [] 2) (mkHelpers (mkLabel 1)) (sampleFunction user) r [] ∅.

(** Registers for the instruction's result and its temporaries. *)
Definition sampleGprAllocation : Allocation := mkAllocation edx noreg noreg noreg.

Definition sampleXmmAllocation : Allocation :=
  mkAllocation (mkReg SizeX64.xmmword 4) (mkReg SizeX64.xmmword 5)
    (mkReg SizeX64.xmmword 6) (mkReg SizeX64.xmmword 7).

(** Nothing is spilled in the sample, so nothing is ever restored. *)
Definition noRestore (i : nat) : M unit := ret tt.

(** A machine state with the given contents of [eax], [ecx], [xmm2], [xmm3]. *)
Definition sampleState (va vc x2 x3 : Z) : MachineState :=
  mkState (fun i => match i with 0%nat => va | 1%nat => vc | _ => 0 end)
          (fun i => match i with 2%nat => (x2, 0) | 3%nat => (x3, 0) | _ => (0, 0) end)
          (fun _ => 0)
          (mkFlags false false false false false).

Definition sampleGuardPc : nat := 255.

(** ** Where a block's last instruction hands control *)

(** The outcome [o] of a fragment hands control, in state [st'], to the block
    [blk] whose label id is [lbl]: by a branch to that label, or by running
    off the end of the fragment when [blk] is the next block. *)
Definition arrivesAt (o : Outcome) (st' : MachineState) (lbl : option nat) (blk next : IrBlock) : Prop :=
  (o = Fallthrough st' /\ isFallthroughBlock blk next = true) \/
  (exists l, lbl = Some l /\ l <> 0%nat /\ o = Branch l st').

(** ** [IrLoweringX64::finishFunction]

    For a function without interrupt handlers (none of the opcodes modelled
    here registers one) and a builder without log text: the loop over the
    exit handlers.  [updatePcAndContinueInVm] is the label object of that
    name in [helpers], [sizeofInstruction] is [sizeof(Instruction)]. *)
Definition finishExitHandler (kVmExitEntryGuardPc : nat) (sizeofInstruction : Z)
    (updatePcAndContinueInVm : Label) (i : nat) : M Label :=
  L <- get ;;
  match exitHandlers L !! i with
  | Some handler =>
      LUAU_ASSERT (negb (Nat.eqb (pcpos handler) kVmExitEntryGuardPc))
        "handler.pcpos != kVmExitEntryGuardPc" ;;;
      build_setLabel (RefExitHandler i) (mkLabel 0) ;;;
      emit (mov (OpReg edx) (OpImm (Z.of_nat (pcpos handler) * sizeofInstruction))) ;;;
      build_jmp RefLocal updatePcAndContinueInVm
  | None => fail "exit handler index out of range"
  end.

Fixpoint finishExitHandlers (kVmExitEntryGuardPc : nat) (sizeofInstruction : Z)
    (i count : nat) (updatePcAndContinueInVm : Label) : M Label :=
  match count with
  | O => ret updatePcAndContinueInVm
  | S n =>
      l <- finishExitHandler kVmExitEntryGuardPc sizeofInstruction updatePcAndContinueInVm i ;;
      finishExitHandlers kVmExitEntryGuardPc sizeofInstruction (S i) n l
  end.

Definition finishFunction (kVmExitEntryGuardPc : nat) (sizeofInstruction : Z)
    (updatePcAndContinueInVm : Label) : M Label :=
  L <- get ;;
  finishExitHandlers kVmExitEntryGuardPc sizeofInstruction 0 (length (exitHandlers L))
    updatePcAndContinueInVm.

(** The code of one exit handler: its label, the resume position in [edx]
    as a byte offset, and the jump to the helper. *)
Definition exitTrampoline (sizeofInstruction : Z) (updatePc : nat) (h : ExitHandler) :
    list InstrX64 :=
  [setLabel (id (self h));
   mov (OpReg edx) (OpImm (Z.of_nat (pcpos h) * sizeofInstruction));
   jmp updatePc].

(** The machine state in which the VM is re-entered at [pc]. *)
Definition resumeAt (sizeofInstruction : Z) (pc : nat) (st : MachineState) : MachineState :=
  writeGpr st edx ((Z.of_nat pc * sizeofInstruction) mod 2 ^ 32).

(** ** What the lowering never undoes

    [L'] is a later state of [L]: the code of [L] is a prefix of its code,
    every label id handed out in [L] is handed out in [L'], the constants
    are the same, and every block and every exit handler is still in its
    place, with the label it had if that label had an id. *)
Definition grows (L L' : IrLoweringX64) : Prop :=
  (exists frag, code (build L') = code (build L) ++ frag) /\
  (nextLabel (build L) <= nextLabel (build L'))%nat /\
  constants (function L') = constants (function L) /\
  (forall j blk, blocks (function L) !! j = Some blk ->
     exists blk', blocks (function L') !! j = Some blk' /\ start blk' = start blk /\
       (id (label blk) <> 0%nat -> label blk' = label blk)) /\
  (forall i h, exitHandlers L !! i = Some h ->
     exists h', exitHandlers L' !! i = Some h' /\ pcpos h' = pcpos h /\
       (id (self h) <> 0%nat -> self h' = self h)).

(** A computation of the lowering that only ever leads to later states. *)
Definition keeps {A} (m : M A) : Prop :=
  forall L x L', m L = Ok x L' -> grows L L'.

(** A computation that, started in a state with the invariant of the exit
    handlers, ends in a state with it in which every exit has kept its
    label. *)
Definition keepsExits (kVmExitEntryGuardPc : nat) {A} (m : M A) : Prop :=
  forall L x L', exitInvariant kVmExitEntryGuardPc L -> m L = Ok x L' ->
    exitsKept kVmExitEntryGuardPc L L'.

(** No two label objects of the lowering share an id: blocks that have
    been given a label have different ones, and a block's label is neither
    an exit handler's nor the helper's. *)
Definition labelsDistinct (L : IrLoweringX64) : Prop :=
  (forall i j bi bj,
     blocks (function L) !! i = Some bi -> blocks (function L) !! j = Some bj ->
     id (label bi) <> 0%nat -> id (label bi) = id (label bj) -> i = j) /\
  (forall j blk i h,
     blocks (function L) !! j = Some blk -> exitHandlers L !! i = Some h ->
     id (label blk) <> id (self h)) /\
  (forall j blk,
     blocks (function L) !! j = Some blk ->
     id (label blk) <> id (exitContinueVmClearNativeFlag (helpers L))).

Definition wellLabelled (kVmExitEntryGuardPc : nat) (L : IrLoweringX64) : Prop :=
  labelInvariant kVmExitEntryGuardPc L /\ labelsDistinct L.

Definition keepsLabels (kVmExitEntryGuardPc : nat) {A} (m : M A) : Prop :=
  forall L x L', wellLabelled kVmExitEntryGuardPc L -> m L = Ok x L' ->
    wellLabelled kVmExitEntryGuardPc L'.

(** ** Further samples

    Two values in 64-bit registers, for the comparison of pointers; a
    lowering in which the label of [updatePcAndContinueInVm] is bound as
    well (label 2), without and with an exit handler. *)
Definition rax : RegisterX64 := mkReg SizeX64.qword 0.
Definition rcx : RegisterX64 := mkReg SizeX64.qword 1.

Definition pointerLowering (user : IrInst) : IrLoweringX64 :=
  mkLowering (mkBuilder [] 2) (mkHelpers (mkLabel 1))
    (mkIrFunction sampleBlocks [valueIn rax; valueIn rcx; user] []
       (fun blockIdx => match blockIdx with 1%nat | 2%nat => [0%nat] | _ => [] end) false)
    cleanRegs [] ∅.

Definition sampleUpdatePc : Label := mkLabel 2.

Definition finishingLowering (user : IrInst) : IrLoweringX64 :=
  mkLowering (mkBuilder [] 3) (mkHelpers (mkLabel 1)) (sampleFunction user) sampleRegs [] ∅.

Definition exitingLowering (user : IrInst) : IrLoweringX64 :=
  mkLowering (mkBuilder [] 4) (mkHelpers (mkLabel 1)) (sampleFunction user) sampleRegs
    [mkExitHandler (mkLabel 3) 7] {[7%nat := 0%nat]}.

(** ** The compare of a two-way branch *)

(** The compare JUMP_EQ_TAG emits: the first operand against the second or,
    when the first operand is a constant, the second against that
    constant.  The second operand is a register or a constant. *)
Definition tagCompare (restore : nat -> M unit) (L : IrLoweringX64) (inst : IrInst)
    (head : InstrX64) : Prop :=
  exists opb,
    ((exists rb, residentIn L (b inst) rb /\ opb = OpReg rb) \/
     (exists t, tagConstant L (b inst) t /\ opb = OpImm t)) /\
    ((exists opa, tagOperand restore L (a inst) opa /\ head = cmp opa opb) \/
     (exists t, tagConstant L (a inst) t /\ head = cmp opb (OpImm t))).

(** The integer comparisons whose conditional branch is on the true outcome
    whatever the layout of the blocks, with the compare they emit and the
    condition of their branch: JUMP_EQ_INT against a constant other than 0,
    JUMP_LT_INT, JUMP_GE_UINT and JUMP_EQ_POINTER. *)
Definition comparesOnTrue (L : IrLoweringX64) (inst : IrInst) (head : InstrX64)
    (cond : ConditionX64.t) : Prop :=
  exists ra, residentIn L (a inst) ra /\
    ((cmd inst = IrCmd.JUMP_EQ_INT /\
      exists v, intConstant L (b inst) v /\ v <> 0 /\
                head = cmp (OpReg ra) (OpImm v) /\ cond = ConditionX64.Equal) \/
     (cmd inst = IrCmd.JUMP_LT_INT /\
      exists v, intConstant L (b inst) v /\
                head = cmp (OpReg ra) (OpImm v) /\ cond = ConditionX64.Less) \/
     (cmd inst = IrCmd.JUMP_GE_UINT /\
      exists v, intConstant L (b inst) v /\
                head = cmp (OpReg ra) (OpImm (v mod 2 ^ 32)) /\ cond = ConditionX64.AboveEqual) \/
     (cmd inst = IrCmd.JUMP_EQ_POINTER /\
      exists rb, residentIn L (b inst) rb /\
                 head = cmp (OpReg ra) (OpReg rb) /\ cond = ConditionX64.Equal)).

(** * Properties *)

Lemma IrOpKind_eqb_eq a b : IrOpKind.eqb a b = true <-> a = b.
Proof. destruct a, b; simpl; split; congruence. Qed.

Lemma SizeX64_eqb_eq a b : SizeX64.eqb a b = true <-> a = b.
Proof. destruct a, b; simpl; split; congruence. Qed.

Lemma RegisterX64_eqb_eq a b : RegisterX64_eqb a b = true <-> a = b.
Proof.
  destruct a as [sa ia], b as [sb ib]; unfold RegisterX64_eqb; simpl.
  rewrite andb_true_iff, SizeX64_eqb_eq, Nat.eqb_eq.
  split; [intros [-> ->]; reflexivity | intros H; inversion H; auto].
Qed.

Lemma noreg_eqb_false r : r <> noreg -> RegisterX64_eqb r noreg = false.
Proof.
  intros H. destruct (RegisterX64_eqb r noreg) eqn:E; [|reflexivity].
  apply RegisterX64_eqb_eq in E. contradiction.
Qed.

(** ** Running the accessors on well-formed operands *)

Lemma regOp_resident restore L op r :
  residentIn L op r -> regOp restore op L = Ok r L.
Proof.
  intros [Hk (src & Hsrc & Hsp & Hnr & Hr & Hne)].
  unfold regOp, instOp, bind, LUAU_ASSERT, kindIs, get. rewrite Hk. simpl.
  rewrite Hsrc. simpl. rewrite Hsp, Hnr. simpl. rewrite Hsrc. simpl.
  rewrite Hr, (noreg_eqb_false r Hne). reflexivity.
Qed.

Lemma intOp_constant L op v : intConstant L op v -> intOp op L = Ok v L.
Proof.
  intros [Hk Hc]. unfold intOp, constOp, bind, LUAU_ASSERT, get, kindIs.
  rewrite Hk. simpl. rewrite Hc. reflexivity.
Qed.

Lemma vmRegOp_VmReg L op : kind op = IrOpKind.VmReg -> vmRegOp op L = Ok (index op) L.
Proof. intros Hk. unfold vmRegOp, bind, LUAU_ASSERT, kindIs. rewrite Hk. reflexivity. Qed.

(** ** Operand resolvers *)

(** C10.  [memRegUintOp] resolves operands of the kinds Inst, Constant and
    VmReg and hits the "Unsupported operand kind" assertion for every other
    kind; [memRegDoubleOp] resolves VmConst operands as well, so a
    constant-table slot is a legal double operand and an illegal unsigned
    32-bit operand. *)
Theorem memRegOp_kinds restore L op :
  (uintOperandKind (kind op) = false ->
     memRegUintOp restore op L = Abort "Unsupported operand kind") /\
  (uintOperandKind (kind op) = true -> wellFormedOperand L isConstInt op ->
     exists o, memRegUintOp restore op L = Ok o L) /\
  (doubleOperandKind (kind op) = false ->
     memRegDoubleOp restore op L = Abort "Unsupported operand kind") /\
  (doubleOperandKind (kind op) = true -> wellFormedOperand L isConstDouble op ->
     exists o, memRegDoubleOp restore op L = Ok o L) /\
  (kind op = IrOpKind.VmConst ->
     memRegUintOp restore op L = Abort "Unsupported operand kind" /\
     memRegDoubleOp restore op L = Ok (luauConstantValue (index op)) L).
Proof.
  unfold memRegUintOp, memRegDoubleOp, wellFormedOperand.
  split; [|split; [|split; [|split; [|intros Hv; split]]]].
  - destruct (kind op); simpl; intros; try discriminate; reflexivity.
  - destruct (kind op) eqn:Hk; simpl; intros Hacc Hwf; try discriminate.
    + destruct Hwf as (k & Hc & Hi). destruct k; try discriminate.
      eexists. unfold bind. rewrite (intOp_constant L op valueInt); [reflexivity|].
      split; assumption.
    + eexists. unfold bind. rewrite (vmRegOp_VmReg _ _ Hk). reflexivity.
    + destruct Hwf as [r Hr]. eexists. unfold bind. rewrite (regOp_resident _ _ _ _ Hr). reflexivity.
  - destruct (kind op); simpl; intros; try discriminate; reflexivity.
  - destruct (kind op) eqn:Hk; simpl; intros Hacc Hwf; try discriminate.
    + destruct Hwf as (k & Hc & Hi). destruct k; try discriminate.
      eexists. unfold bind, doubleOp, constOp, bind, LUAU_ASSERT, kindIs, get. rewrite Hk. simpl.
      rewrite Hc. simpl. reflexivity.
    + eexists. unfold bind. rewrite (vmRegOp_VmReg _ _ Hk). reflexivity.
    + eexists. unfold bind, vmConstOp, bind, LUAU_ASSERT, kindIs. rewrite Hk. simpl. reflexivity.
    + destruct Hwf as [r Hr]. eexists. unfold bind. rewrite (regOp_resident _ _ _ _ Hr). reflexivity.
  - rewrite Hv. reflexivity.
  - pose proof Hv as Hk. rewrite Hk.
    unfold bind, vmConstOp, bind, LUAU_ASSERT, kindIs. rewrite Hk. reflexivity.
Qed.

(** ** Spill budget *)

Lemma firstFreeSlot_fresh (used : gset nat) : firstFreeSlot used ∉ used.
Proof.
  unfold firstFreeSlot.
  destruct (find _ _) as [i|] eqn:Hf.
  - apply find_some in Hf as [_ Hi]. apply bool_decide_eq_true in Hi. exact Hi.
  - exfalso.
    assert (Hsub : set_seq (C:=gset nat) 0 (S (length (elements used))) ⊆ used).
    { intros i Hi. apply elem_of_set_seq in Hi.
      destruct (decide (i ∈ used)) as [|Hn]; [assumption|].
      exfalso. assert (Hb : bool_decide (i ∉ used) = false).
      { apply (find_none _ _ Hf i). apply in_seq. lia. }
      apply bool_decide_eq_false in Hb. contradiction. }
    apply subseteq_size in Hsub. rewrite size_set_seq in Hsub.
    change (base.size used) with (length (elements used)) in Hsub. lia.
Qed.

Lemma spillValue_ok inst L :
  exists L', spillValue inst L = Ok tt L' /\
    (maxUsedSlot (regs L) <= maxUsedSlot (regs L'))%nat /\
    base.size (usedSpillSlots (regs L')) = S (base.size (usedSpillSlots (regs L))) /\
    (slotsBelowMark (regs L) -> slotsBelowMark (regs L')).
Proof.
  eexists. split; [reflexivity|].
  cbn [regs set_regs maxUsedSlot usedSpillSlots]. split; [apply Nat.le_max_l|]. split.
  - rewrite size_union, size_singleton; [reflexivity|].
    pose proof (firstFreeSlot_fresh (usedSpillSlots (regs L))). set_solver.
  - intros Hinv slot Hs. apply elem_of_union in Hs as [Hs|Hs].
    + apply elem_of_singleton in Hs. subst. apply Nat.lt_succ_r, Nat.lt_succ_r, Nat.le_max_r.
    + specialize (Hinv _ Hs). eapply Nat.lt_le_trans; [exact Hinv | apply Nat.le_max_l].
Qed.

Lemma spillAll_ok insts : forall L,
  exists L', spillAll insts L = Ok tt L' /\
    (maxUsedSlot (regs L) <= maxUsedSlot (regs L'))%nat /\
    base.size (usedSpillSlots (regs L')) = (length insts + base.size (usedSpillSlots (regs L)))%nat /\
    (slotsBelowMark (regs L) -> slotsBelowMark (regs L')).
Proof.
  induction insts as [|i insts IH]; intros L.
  - exists L. simpl. repeat split; auto.
  - destruct (spillValue_ok i L) as (L1 & H1 & Hm1 & Hs1 & Hi1).
    destruct (IH L1) as (L2 & H2 & Hm2 & Hs2 & Hi2).
    exists L2. simpl. unfold bind at 1. rewrite H1. split; [exact H2|].
    split; [lia|]. split; [rewrite Hs2, Hs1; simpl; lia | auto].
Qed.

Lemma size_below_mark (r : IrRegAllocX64) :
  slotsBelowMark r -> (base.size (usedSpillSlots r) <= maxUsedSlot r)%nat.
Proof.
  intros Hinv.
  assert (Hsub : usedSpillSlots r ⊆ set_seq 0 (maxUsedSlot r)).
  { intros s Hs. apply elem_of_set_seq. specialize (Hinv _ Hs). lia. }
  apply subseteq_size in Hsub. rewrite size_set_seq in Hsub. exact Hsub.
Qed.

(** C7.  [hasError] answers true exactly when the allocator's high-water
    mark of spill slots is above [kSpillSlots].  Spilling itself never
    aborts: any sequence of spills runs to the end, an exceeded budget stays
    visible to [hasError], and spilling more values than the budget holds
    (from a state whose used slots lie below the mark) makes [hasError]
    true. *)
Theorem hasError_iff_spill_budget_exceeded kSpillSlots :
  (forall L, hasError kSpillSlots L = true <-> (kSpillSlots < maxUsedSlot (regs L))%nat) /\
  (forall insts L,
     exists L', spillAll insts L = Ok tt L' /\
       (hasError kSpillSlots L = true -> hasError kSpillSlots L' = true) /\
       (slotsBelowMark (regs L) -> (kSpillSlots < length insts)%nat ->
        hasError kSpillSlots L' = true)).
Proof.
  assert (Hiff : forall L,
            hasError kSpillSlots L = true <-> (kSpillSlots < maxUsedSlot (regs L))%nat).
  { intros L. unfold hasError.
    destruct (Nat.ltb_spec kSpillSlots (maxUsedSlot (regs L))); split; auto; try lia; discriminate. }
  split; [exact Hiff|].
  intros insts L. destruct (spillAll_ok insts L) as (L' & Hrun & Hmono & Hsize & Hinv).
  exists L'. split; [exact Hrun|]. split.
  - rewrite !Hiff. lia.
  - intros HL Hn. apply Hiff. pose proof (size_below_mark _ (Hinv HL)). lia.
Qed.

(** ** Block ends *)

(** C8.  While spills are still pending, [finishBlock] completes (its
    assertions hold) exactly when every predecessor of the next block is the
    current block and the next block's use count is 1; it leaves the state
    as it was. *)
Theorem finishBlock_pending_spills curr next L :
  spills (regs L) <> [] ->
  ((exists L', finishBlock curr next L = Ok tt L') <->
   (forall predIdx, In predIdx (predecessors (function L) next) -> predIdx = curr) /\
   (exists nb, blocks (function L) !! next = Some nb /\ useCount nb = 1%nat)) /\
  (forall L', finishBlock curr next L = Ok tt L' -> L' = L).
Proof.
  intros Hsp.
  unfold finishBlock, bind, get, LUAU_ASSERT, blockAt, bind, get, ret, fail.
  rewrite bool_decide_eq_false_2 by exact Hsp. cbn [negb].
  split; [split|].
  - intros [L' H].
    destruct (forallb _ _) eqn:Hall; [|discriminate].
    destruct (blocks (function L) !! next) as [nb|] eqn:Hnb; [|discriminate].
    destruct (Nat.eqb (useCount nb) 1) eqn:Huse; [|discriminate].
    split.
    + intros p Hp. rewrite forallb_forall in Hall. apply Nat.eqb_eq. apply Hall, Hp.
    + exists nb. split; [reflexivity|]. apply Nat.eqb_eq, Huse.
  - intros [Hpreds (nb & Hnb & Huse)]. exists L.
    assert (Hall : forallb (fun predIdx => Nat.eqb predIdx curr)
                     (predecessors (function L) next) = true).
    { apply forallb_forall. intros p Hp. apply Nat.eqb_eq, Hpreds, Hp. }
    rewrite Hall, Hnb, (proj2 (Nat.eqb_eq _ _) Huse). reflexivity.
  - intros L' H.
    destruct (forallb _ _); [|discriminate].
    destruct (blocks (function L) !! next) as [nb|]; [|discriminate].
    destruct (Nat.eqb (useCount nb) 1); [|discriminate].
    inversion H. reflexivity.
Qed.

(** The same fact read the other way: a block that is a join point (its
    use count is not 1) is only entered with no spill pending. *)
Lemma finishBlock_join_is_spill_free curr next L L' nb :
  blocks (function L) !! next = Some nb ->
  useCount nb <> 1%nat ->
  finishBlock curr next L = Ok tt L' ->
  spills (regs L) = [].
Proof.
  intros Hnb Hjoin H.
  destruct (spills (regs L)) as [|s rest] eqn:Hsp; [reflexivity|].
  unfold finishBlock, bind, get, LUAU_ASSERT, blockAt, bind, get, ret, fail in H.
  rewrite Hsp in H. rewrite bool_decide_eq_false_2 in H by discriminate. simpl in H.
  destruct (forallb _ _); [|discriminate].
  rewrite Hnb in H.
  destruct (Nat.eqb_spec (useCount nb) 1); [contradiction|discriminate].
Qed.

(** ** CALL and RETURN *)

Lemma assertions_pass_iff_clean L (k : M unit) :
  (allocationClean (regs L) -> (assertAllFree ;;; assertNoSpills ;;; k) L = k L) /\
  (~ allocationClean (regs L) ->
     (assertAllFree ;;; assertNoSpills ;;; k) L = Abort "register is not free" \/
     (assertAllFree ;;; assertNoSpills ;;; k) L = Abort "spills.empty()").
Proof.
  unfold assertAllFree, assertNoSpills, bind, get, LUAU_ASSERT, allocationClean.
  split.
  - intros (Hg & Hx & Hs).
    rewrite !bool_decide_eq_true_2 by assumption. simpl.
    rewrite bool_decide_eq_true_2 by assumption. reflexivity.
  - intros Hnot.
    destruct (bool_decide (gprOwner (regs L) = ∅)) eqn:Hg; [|left; reflexivity].
    destruct (bool_decide (xmmOwner (regs L) = ∅)) eqn:Hx; [|left; reflexivity].
    simpl.
    destruct (bool_decide (spills (regs L) = [])) eqn:Hs; [|right; reflexivity].
    apply bool_decide_eq_true in Hg, Hx, Hs. tauto.
Qed.

(** C9.  Lowering a CALL or a RETURN gets past its two assertions only from
    a clean allocation state: no register occupied, no spill pending.  From
    any other state it aborts on one of the assertions; from a clean state
    the only thing it does is append the call or return body. *)
Theorem call_return_require_clean_allocation
    LUA_TNIL LUA_TBOOLEAN kVmExitEntryGuardPc restore alloc inst idx next L :
  cmd inst = IrCmd.CALL \/ cmd inst = IrCmd.RETURN ->
  (forall L',
     lowerInst LUA_TNIL LUA_TBOOLEAN kVmExitEntryGuardPc restore alloc inst idx next L = Ok tt L' ->
     allocationClean (regs L)) /\
  (~ allocationClean (regs L) ->
     lowerInst LUA_TNIL LUA_TBOOLEAN kVmExitEntryGuardPc restore alloc inst idx next L
       = Abort "register is not free" \/
     lowerInst LUA_TNIL LUA_TBOOLEAN kVmExitEntryGuardPc restore alloc inst idx next L
       = Abort "spills.empty()") /\
  (forall body, allocationClean (regs L) -> callOrReturnBody inst L body ->
     lowerInst LUA_TNIL LUA_TBOOLEAN kVmExitEntryGuardPc restore alloc inst idx next L =
       Ok tt (set_build L (mkBuilder (code (build L) ++ [body]) (nextLabel (build L))))).
Proof.
  intros Hcmd.
  assert (Hshape : exists k : M unit,
            lowerInst LUA_TNIL LUA_TBOOLEAN kVmExitEntryGuardPc restore alloc inst idx next =
              (assertAllFree ;;; assertNoSpills ;;; k) /\
            forall body, callOrReturnBody inst L body ->
              k L = Ok tt (set_build L (mkBuilder (code (build L) ++ [body]) (nextLabel (build L))))).
  { unfold lowerInst, callOrReturnBody.
    destruct Hcmd as [-> | ->]; eexists; (split; [reflexivity|]); intros body [Ha Hb].
    - destruct Hb as (np & nr & Hnp & Hnr & ->).
      unfold bind.
      rewrite (vmRegOp_VmReg _ _ Ha), (intOp_constant _ _ _ Hnp), (intOp_constant _ _ _ Hnr).
      reflexivity.
    - destruct Hb as (ar & Har & ->).
      unfold bind. rewrite (vmRegOp_VmReg _ _ Ha), (intOp_constant _ _ _ Har).
      reflexivity. }
  destruct Hshape as (k & -> & Hk).
  destruct (assertions_pass_iff_clean L k) as [Hclean Hdirty].
  split; [|split].
  - intros L' H.
    destruct (decide (gprOwner (regs L) = ∅)) as [Hg|Hg];
      [destruct (decide (xmmOwner (regs L) = ∅)) as [Hx|Hx];
         [destruct (decide (spills (regs L) = [])) as [Hs|Hs]|]|].
    + repeat split; assumption.
    + destruct Hdirty as [Hd|Hd]; [unfold allocationClean; tauto| |]; congruence.
    + destruct Hdirty as [Hd|Hd]; [unfold allocationClean; tauto| |]; congruence.
    + destruct Hdirty as [Hd|Hd]; [unfold allocationClean; tauto| |]; congruence.
  - exact Hdirty.
  - intros body Hc Hb. rewrite Hclean by exact Hc. apply Hk, Hb.
Qed.

(** ** Running the lowering step by step *)

Lemma bind_Ok {A B} (m : M A) (k : A -> M B) L x L1 :
  m L = Ok x L1 -> bind m k L = k x L1.
Proof. intros H. unfold bind. rewrite H. reflexivity. Qed.

Lemma bind_bind_Ok {A B C} (m : M A) (k1 : A -> M B) (k2 : B -> M C) L x L1 :
  m L = Ok x L1 -> bind (bind m k1) k2 L = bind (k1 x) k2 L1.
Proof. intros H. unfold bind. rewrite H. reflexivity. Qed.

Lemma emit_run i L : emit i L = Ok tt (addCode L [i]).
Proof. reflexivity. Qed.

Lemma ret_run {A} (x : A) L : ret x L = Ok x L.
Proof. reflexivity. Qed.

Lemma get_run L : get L = Ok L L.
Proof. reflexivity. Qed.

Lemma allocLabelId_local local L :
  allocLabelId RefLocal local L = Ok (placedLocal L local, placedLocal L local) (placeLocal L local).
Proof.
  unfold allocLabelId, placedLocal, placeLocal, bind, loadLabel, storeLabel, get, ret.
  destruct (Nat.eqb (id local) 0); reflexivity.
Qed.

Lemma build_jcc_local cond local L :
  build_jcc cond RefLocal local L =
    Ok (placedLocal L local) (addCode (placeLocal L local) [jcc cond (id (placedLocal L local))]).
Proof. unfold build_jcc. erewrite bind_Ok by apply allocLabelId_local. reflexivity. Qed.

Lemma build_jmp_local local L :
  build_jmp RefLocal local L =
    Ok (placedLocal L local) (addCode (placeLocal L local) [jmp (id (placedLocal L local))]).
Proof. unfold build_jmp. erewrite bind_Ok by apply allocLabelId_local. reflexivity. Qed.

Lemma build_setLabel_local local L :
  build_setLabel RefLocal local L =
    Ok (placedLocal L local) (addCode (placeLocal L local) [setLabel (id (placedLocal L local))]).
Proof. unfold build_setLabel. erewrite bind_Ok by apply allocLabelId_local. reflexivity. Qed.

Lemma allocLabelId_block bi blk local L :
  blocks (function L) !! bi = Some blk ->
  allocLabelId (RefBlock bi) local L = Ok (placedBlock L blk, local) (placeBlock L bi blk).
Proof.
  intros Hb.
  unfold allocLabelId, placedBlock, placedLocal, placeBlock, bind, loadLabel, storeLabel, get, ret.
  rewrite Hb. destruct (Nat.eqb (id (label blk)) 0); reflexivity.
Qed.

Lemma build_jcc_block cond bi blk local L :
  blocks (function L) !! bi = Some blk ->
  build_jcc cond (RefBlock bi) local L =
    Ok local (addCode (placeBlock L bi blk) [jcc cond (id (placedBlock L blk))]).
Proof.
  intros Hb. unfold build_jcc. erewrite bind_Ok by (apply allocLabelId_block; exact Hb). reflexivity.
Qed.

Lemma build_jmp_block bi blk local L :
  blocks (function L) !! bi = Some blk ->
  build_jmp (RefBlock bi) local L =
    Ok local (addCode (placeBlock L bi blk) [jmp (id (placedBlock L blk))]).
Proof.
  intros Hb. unfold build_jmp. erewrite bind_Ok by (apply allocLabelId_block; exact Hb). reflexivity.
Qed.

(** Projections of the named state changes. *)
Lemma function_addCode L instrs : function (addCode L instrs) = function L.
Proof. reflexivity. Qed.
Lemma code_addCode L instrs : code (build (addCode L instrs)) = code (build L) ++ instrs.
Proof. reflexivity. Qed.
Lemma nextLabel_addCode L instrs : nextLabel (build (addCode L instrs)) = nextLabel (build L).
Proof. reflexivity. Qed.
Lemma code_placeLocal L local : code (build (placeLocal L local)) = code (build L).
Proof. unfold placeLocal. destruct (Nat.eqb (id local) 0); reflexivity. Qed.
Lemma function_placeLocal L local : function (placeLocal L local) = function L.
Proof. unfold placeLocal. destruct (Nat.eqb (id local) 0); reflexivity. Qed.
Lemma code_placeBlock L bi blk : code (build (placeBlock L bi blk)) = code (build L).
Proof. unfold placeBlock. destruct (Nat.eqb (id (label blk)) 0); reflexivity. Qed.
Lemma instructions_placeBlock L bi blk :
  instructions (function (placeBlock L bi blk)) = instructions (function L).
Proof. unfold placeBlock. destruct (Nat.eqb (id (label blk)) 0); reflexivity. Qed.
Lemma constants_placeBlock L bi blk :
  constants (function (placeBlock L bi blk)) = constants (function L).
Proof. unfold placeBlock. destruct (Nat.eqb (id (label blk)) 0); reflexivity. Qed.

Lemma placedLocal_nonzero L local : nextLabel (build L) <> 0%nat -> id (placedLocal L local) <> 0%nat.
Proof.
  unfold placedLocal. intros Hn. destruct (Nat.eqb_spec (id local) 0); [exact Hn | assumption].
Qed.

Lemma blocks_placeBlock_same L bi blk :
  blocks (function L) !! bi = Some blk ->
  blocks (function (placeBlock L bi blk)) !! bi = Some (set_block_label blk (placedBlock L blk)).
Proof.
  intros Hb. unfold placeBlock, placedBlock, placedLocal.
  destruct (Nat.eqb_spec (id (label blk)) 0) as [Hz|Hnz].
  - cbn. rewrite list_lookup_alter_eq, Hb. reflexivity.
  - rewrite Hb. destruct blk as [u s f l]. reflexivity.
Qed.

Lemma blocks_placeBlock_other L bi blk j :
  j <> bi ->
  blocks (function (placeBlock L bi blk)) !! j = blocks (function L) !! j.
Proof.
  intros Hj. unfold placeBlock.
  destruct (Nat.eqb (id (label blk)) 0); [|reflexivity].
  cbn. apply list_lookup_alter_ne. congruence.
Qed.

Lemma labelOp_block L op blk :
  blockOperand L op blk -> labelOp op L = Ok (RefBlock (index op)) L.
Proof.
  intros [Hk Hb]. unfold labelOp, blockOp, bind, LUAU_ASSERT, get, kindIs.
  rewrite Hk. cbn. rewrite Hb. reflexivity.
Qed.

Lemma blockOp_block L op blk :
  blockOperand L op blk -> blockOp op L = Ok (index op) L.
Proof.
  intros [Hk Hb]. unfold blockOp, bind, LUAU_ASSERT, get, kindIs.
  rewrite Hk. cbn. rewrite Hb. reflexivity.
Qed.

Lemma blockAt_run L bi blk :
  blocks (function L) !! bi = Some blk -> blockAt bi L = Ok blk L.
Proof. intros Hb. unfold blockAt, bind, get. rewrite Hb. reflexivity. Qed.

Lemma tagOp_constant L op t : tagConstant L op t -> tagOp op L = Ok t L.
Proof.
  intros [Hk Hc]. unfold tagOp, constOp, bind, LUAU_ASSERT, get, kindIs.
  rewrite Hk. simpl. rewrite Hc. reflexivity.
Qed.

Lemma placeBlock_jumped L bi blk i :
  blocks (function L) !! bi = Some blk ->
  nextLabel (build L) <> 0%nat ->
  jumpedToBlock L (addCode (placeBlock L bi blk) [i (id (placedBlock L blk))]) bi blk i
    (id (placedBlock L blk)).
Proof.
  intros Hb Hn. unfold jumpedToBlock.
  rewrite code_addCode, code_placeBlock, function_addCode, nextLabel_addCode.
  rewrite instructions_placeBlock, constants_placeBlock.
  split; [reflexivity|]. split; [apply placedLocal_nonzero, Hn|].
  split.
  { unfold placedBlock, placedLocal. intros Hnz.
    destruct (Nat.eqb_spec (id (label blk)) 0); [contradiction|reflexivity]. }
  split.
  { rewrite (blocks_placeBlock_same _ _ _ Hb). destruct (placedBlock L blk). reflexivity. }
  split; [intros j Hj; apply blocks_placeBlock_other, Hj|].
  split; [reflexivity|]. split; [reflexivity|].
  unfold placeBlock. destruct (Nat.eqb (id (label blk)) 0); cbn; [discriminate|exact Hn].
Qed.

Lemma build_jcc_block_spec cond bi blk local L :
  blocks (function L) !! bi = Some blk ->
  nextLabel (build L) <> 0%nat ->
  exists L1 l, build_jcc cond (RefBlock bi) local L = Ok local L1 /\
               jumpedToBlock L L1 bi blk (jcc cond) l.
Proof.
  intros Hb Hn. do 2 eexists. split; [apply build_jcc_block, Hb|].
  apply (placeBlock_jumped L bi blk (jcc cond) Hb Hn).
Qed.

Lemma build_jmp_block_spec bi blk local L :
  blocks (function L) !! bi = Some blk ->
  nextLabel (build L) <> 0%nat ->
  exists L1 l, build_jmp (RefBlock bi) local L = Ok local L1 /\
               jumpedToBlock L L1 bi blk jmp l.
Proof.
  intros Hb Hn. do 2 eexists. split; [apply build_jmp_block, Hb|].
  apply (placeBlock_jumped L bi blk jmp Hb Hn).
Qed.

(** [jumpOrFallthrough]: nothing for the next block, a [jmp] otherwise. *)
Lemma jumpOrFallthrough_spec bi blk next L :
  blocks (function L) !! bi = Some blk ->
  nextLabel (build L) <> 0%nat ->
  if isFallthroughBlock blk next
  then jumpOrFallthrough bi next L = Ok tt L
  else exists L1 l, jumpOrFallthrough bi next L = Ok tt L1 /\ jumpedToBlock L L1 bi blk jmp l.
Proof.
  intros Hb Hn. unfold jumpOrFallthrough.
  rewrite (bind_Ok _ _ _ _ _ (blockAt_run _ _ _ Hb)).
  destruct (isFallthroughBlock blk next); cbn [negb]; [reflexivity|].
  destruct (build_jmp_block_spec bi blk (mkLabel 0) L Hb Hn) as (L1 & l & Hrun & Hj).
  exists L1, l. rewrite (bind_Ok _ _ _ _ _ Hrun). split; [reflexivity|exact Hj].
Qed.

Lemma sameValues_refl L : sameValues L L.
Proof. split; reflexivity. Qed.

Lemma sameValues_trans L1 L2 L3 : sameValues L1 L2 -> sameValues L2 L3 -> sameValues L1 L3.
Proof. intros [H1 H2] [H3 H4]. split; congruence. Qed.

Lemma residentIn_sameValues L L1 op r :
  sameValues L L1 -> residentIn L op r -> residentIn L1 op r.
Proof. intros [Hi _] H. unfold residentIn in *. rewrite Hi. exact H. Qed.

Lemma tagConstant_sameValues L L1 op t :
  sameValues L L1 -> tagConstant L op t -> tagConstant L1 op t.
Proof. intros [_ Hc] H. unfold tagConstant in *. rewrite Hc. exact H. Qed.

Lemma intConstant_sameValues L L1 op v :
  sameValues L L1 -> intConstant L op v -> intConstant L1 op v.
Proof. intros [_ Hc] H. unfold intConstant in *. rewrite Hc. exact H. Qed.

(** The common tail of the two-way branches: a conditional branch to the
    label of [t], then [jumpOrFallthrough] to [o]. *)
Lemma branch_then_fallthrough cond t o next L bt bo :
  blockOperand L t bt -> blockOperand L o bo ->
  nextLabel (build L) <> 0%nat ->
  exists L' lt,
    (lbl <- labelOp t ;; build_jcc cond lbl (mkLabel 0) ;;;
     bi <- blockOp o ;; jumpOrFallthrough bi next) L = Ok tt L' /\
    labelIdOf L' t = Some lt /\ lt <> 0%nat /\
    if isFallthroughBlock bo next
    then code (build L') = code (build L) ++ [jcc cond lt]
    else exists lo,
      code (build L') = code (build L) ++ [jcc cond lt; jmp lo] /\
      labelIdOf L' o = Some lo /\ lo <> 0%nat.
Proof.
  intros Ht Ho Hn.
  rewrite (bind_Ok _ _ _ _ _ (labelOp_block _ _ _ Ht)).
  destruct (build_jcc_block_spec cond (index t) bt (mkLabel 0) L (proj2 Ht) Hn)
    as (L2 & lt & Hrun2 & Hcode2 & Hlt & Hkeep2 & Hblk2 & Hother2 & Hins2 & Hcon2 & Hn2).
  rewrite (bind_Ok _ _ _ _ _ Hrun2).
  assert (Ho2 : exists bo2, blockOperand L2 o bo2 /\ start bo2 = start bo /\
                  (index o = index t -> id (label bo2) = lt)).
  { destruct (decide (index o = index t)) as [E|E].
    - exists (set_block_label bt (mkLabel lt)).
      split; [split; [apply Ho|rewrite E; exact Hblk2]|].
      destruct Ht as [_ Ht], Ho as [_ Ho]. rewrite E in Ho. rewrite Ho in Ht. inversion Ht. auto.
    - exists bo. split; [split; [apply Ho|rewrite (Hother2 _ E); apply Ho]|].
      split; [reflexivity|contradiction]. }
  destruct Ho2 as (bo2 & Ho2 & Hstart & Hsame).
  rewrite (bind_Ok _ _ _ _ _ (blockOp_block _ _ _ Ho2)).
  pose proof (jumpOrFallthrough_spec (index o) bo2 next L2 (proj2 Ho2) Hn2) as Hjf.
  assert (Hft : isFallthroughBlock bo2 next = isFallthroughBlock bo next).
  { unfold isFallthroughBlock. rewrite Hstart. reflexivity. }
  rewrite Hft in Hjf.
  destruct (isFallthroughBlock bo next).
  - exists L2, lt. split; [exact Hjf|]. split.
    { unfold labelIdOf. rewrite Hblk2. reflexivity. }
    split; [exact Hlt|exact Hcode2].
  - destruct Hjf as (L3 & lo & Hrun3 & Hcode3 & Hlo & Hkeep3 & Hblk3 & Hother3 & _).
    exists L3, lt. split; [exact Hrun3|]. split.
    { unfold labelIdOf. destruct (decide (index t = index o)) as [E|E].
      - rewrite E, Hblk3. cbn. f_equal. rewrite Hkeep3; [apply Hsame; auto|].
        rewrite Hsame by auto. exact Hlt.
      - rewrite (Hother3 _ E), Hblk2. reflexivity. }
    split; [exact Hlt|]. exists lo. split.
    { rewrite Hcode3, Hcode2, <- !app_assoc. reflexivity. }
    split; [|exact Hlo]. unfold labelIdOf. rewrite Hblk3. reflexivity.
Qed.

Lemma tail_with_index cond t o next L bt bo :
  blockOperand L t bt -> blockOperand L o bo ->
  nextLabel (build L) <> 0%nat ->
  (lbl <- labelOp t ;; build_jcc cond lbl (mkLabel 0) ;;; jumpOrFallthrough (index o) next) L =
  (lbl <- labelOp t ;; build_jcc cond lbl (mkLabel 0) ;;;
   bi <- blockOp o ;; jumpOrFallthrough bi next) L.
Proof.
  intros Ht Ho Hn.
  rewrite !(bind_Ok _ _ _ _ _ (labelOp_block _ _ _ Ht)).
  destruct (build_jcc_block_spec cond (index t) bt (mkLabel 0) L (proj2 Ht) Hn)
    as (L2 & lt & Hrun2 & Hcode2 & Hlt & Hkeep2 & Hblk2 & Hother2 & _).
  rewrite !(bind_Ok _ _ _ _ _ Hrun2).
  assert (Ho2 : exists bo2, blockOperand L2 o bo2).
  { destruct (decide (index o = index t)) as [E|E].
    - eexists. split; [apply Ho|rewrite E; exact Hblk2].
    - exists bo. split; [apply Ho|rewrite (Hother2 _ E); apply Ho]. }
  destruct Ho2 as (bo2 & Ho2).
  rewrite (bind_Ok _ _ _ _ _ (blockOp_block _ _ _ Ho2)). reflexivity.
Qed.

(** ** Shapes of the two-way branches *)

(** The tail of a two-way branch after its compare: the conditional branch
    on [cond] to [t], then [jumpOrFallthrough] to [o]. *)
Lemma branch_tail_shape cond t o next L head bt bo :
  blockOperand L t bt -> blockOperand L o bo ->
  nextLabel (build L) <> 0%nat ->
  exists L' frag,
    (lbl <- labelOp t ;; build_jcc cond lbl (mkLabel 0) ;;;
     bi <- blockOp o ;; jumpOrFallthrough bi next) (addCode L [head]) = Ok tt L' /\
    code (build L') = code (build L) ++ head :: frag /\
    exists lt, labelIdOf L' t = Some lt /\ lt <> 0%nat /\
      if isFallthroughBlock bo next then frag = [jcc cond lt]
      else exists lo, labelIdOf L' o = Some lo /\ lo <> 0%nat /\ frag = [jcc cond lt; jmp lo].
Proof.
  intros Ht Ho Hn.
  set (L1 := addCode L [head]).
  assert (Ht1 : blockOperand L1 t bt) by exact Ht.
  assert (Ho1 : blockOperand L1 o bo) by exact Ho.
  destruct (branch_then_fallthrough cond t o next L1 bt bo Ht1 Ho1 Hn)
    as (L' & lt & Hrun & Hlbl & Hlt & Hcode).
  destruct (isFallthroughBlock bo next).
  - exists L', [jcc cond lt]. split; [exact Hrun|]. split.
    { rewrite Hcode. unfold L1. rewrite code_addCode, <- app_assoc. reflexivity. }
    exists lt. auto.
  - destruct Hcode as (lo & Hcode & Hlblo & Hlo).
    exists L', [jcc cond lt; jmp lo]. split; [exact Hrun|]. split.
    { rewrite Hcode. unfold L1. rewrite code_addCode, <- app_assoc. reflexivity. }
    exists lt. split; [exact Hlbl|]. split; [exact Hlt|]. exists lo. auto.
Qed.

(** The compare of JUMP_EQ_TAG, for each form of its operands. *)
Lemma lower_JUMP_EQ_TAG_head LUA_TNIL LUA_TBOOLEAN kVm restore alloc inst idx next L head :
  cmd inst = IrCmd.JUMP_EQ_TAG -> tagCompare restore L inst head ->
  lowerInst LUA_TNIL LUA_TBOOLEAN kVm restore alloc inst idx next L =
    (bd <- blockOp (d inst) ;;
     blkd <- blockAt bd ;;
     if isFallthroughBlock blkd next then
       lc <- labelOp (c inst) ;;
       build_jcc ConditionX64.Equal lc (mkLabel 0) ;;;
       bd <- blockOp (d inst) ;;
       jumpOrFallthrough bd next
     else
       ld <- labelOp (d inst) ;;
       build_jcc ConditionX64.NotEqual ld (mkLabel 0) ;;;
       bc <- blockOp (c inst) ;;
       jumpOrFallthrough bc next) (addCode L [head]).
Proof.
  intros Hcmd (opb & Hb & Ha). unfold lowerInst. rewrite Hcmd.
  assert (Hopb : forall k : OperandX64 -> M unit,
            (LUAU_ASSERT (kindIs (b inst) IrOpKind.Inst || kindIs (b inst) IrOpKind.Constant)
               "inst.b.kind == IrOpKind::Inst || inst.b.kind == IrOpKind::Constant" ;;;
             opb <-
               (if kindIs (b inst) IrOpKind.Inst then r <- regOp restore (b inst) ;; ret (OpReg r)
                else t <- tagOp (b inst) ;; ret (OpImm t)) ;;
             k opb) L = k opb L).
  { intros k.
    destruct Hb as [(rb & Hb & ->) | (t & Hb & ->)]; pose proof Hb as [Hkb _];
      unfold kindIs at 1 2; rewrite Hkb; cbn [IrOpKind.eqb orb];
      rewrite (bind_Ok _ _ _ _ _ (eq_refl : LUAU_ASSERT true _ L = Ok tt L));
      unfold kindIs at 1; rewrite Hkb; cbn [IrOpKind.eqb]; cbv iota.
    - rewrite (bind_bind_Ok _ _ _ _ _ _ (regOp_resident restore _ _ _ Hb)). reflexivity.
    - rewrite (bind_bind_Ok _ _ _ _ _ _ (tagOp_constant _ _ _ Hb)). reflexivity. }
  rewrite (Hopb (fun opb =>
    (if kindIs (a inst) IrOpKind.Constant then
       t <- tagOp (a inst) ;; emit (cmp opb (OpImm t))
     else
       opa <- memRegTagOp restore (a inst) ;; emit (cmp opa opb)) ;;;
    bd <- blockOp (d inst) ;;
    blkd <- blockAt bd ;;
    if isFallthroughBlock blkd next then
      lc <- labelOp (c inst) ;;
      build_jcc ConditionX64.Equal lc (mkLabel 0) ;;;
      bd <- blockOp (d inst) ;;
      jumpOrFallthrough bd next
    else
      ld <- labelOp (d inst) ;;
      build_jcc ConditionX64.NotEqual ld (mkLabel 0) ;;;
      bc <- blockOp (c inst) ;;
      jumpOrFallthrough bc next)).
  destruct Ha as [(opa & [Hka Ha] & ->) | (t & Ha & ->)].
  - assert (Hnc : kindIs (a inst) IrOpKind.Constant = false).
    { unfold kindIs. destruct (IrOpKind.eqb _ _) eqn:E; [|reflexivity].
      apply IrOpKind_eqb_eq in E. contradiction. }
    rewrite Hnc.
    rewrite (bind_bind_Ok _ _ _ _ _ _ (Ha L (sameValues_refl L))).
    rewrite (bind_Ok _ _ _ _ _ (emit_run _ _)). reflexivity.
  - pose proof Ha as [Hka _].
    assert (Hc : kindIs (a inst) IrOpKind.Constant = true).
    { unfold kindIs. rewrite Hka. reflexivity. }
    rewrite Hc.
    rewrite (bind_bind_Ok _ _ _ _ _ _ (tagOp_constant _ _ _ Ha)).
    rewrite (bind_Ok _ _ _ _ _ (emit_run _ _)). reflexivity.
Qed.

(** The compare of the comparisons that branch on the true outcome. *)
Lemma lower_compare_head LUA_TNIL LUA_TBOOLEAN kVm restore alloc inst idx next L head cond :
  comparesOnTrue L inst head cond ->
  lowerInst LUA_TNIL LUA_TBOOLEAN kVm restore alloc inst idx next L =
    (lc <- labelOp (c inst) ;;
     build_jcc cond lc (mkLabel 0) ;;;
     bd <- blockOp (d inst) ;;
     jumpOrFallthrough bd next) (addCode L [head]).
Proof.
  intros (ra & Ha & [(Hcmd & v & Hb & Hv & -> & ->) | [(Hcmd & v & Hb & -> & ->)
                    | [(Hcmd & v & Hb & -> & ->) | (Hcmd & rb & Hb & -> & ->)]]]);
    unfold lowerInst; rewrite Hcmd.
  - rewrite (bind_Ok _ _ _ _ _ (intOp_constant _ _ _ Hb)).
    rewrite (proj2 (Z.eqb_neq v 0) Hv).
    rewrite (bind_Ok _ _ _ _ _ (regOp_resident restore _ _ _ Ha)).
    rewrite (bind_Ok _ _ _ _ _ (emit_run _ _)). reflexivity.
  - rewrite (bind_Ok _ _ _ _ _ (regOp_resident restore _ _ _ Ha)).
    rewrite (bind_Ok _ _ _ _ _ (intOp_constant _ _ _ Hb)).
    rewrite (bind_Ok _ _ _ _ _ (emit_run _ _)). reflexivity.
  - rewrite (bind_Ok _ _ _ _ _ (regOp_resident restore _ _ _ Ha)).
    rewrite (bind_Ok _ _ _ _ _ (intOp_constant _ _ _ Hb)).
    rewrite (bind_Ok _ _ _ _ _ (emit_run _ _)). reflexivity.
  - rewrite (bind_Ok _ _ _ _ _ (regOp_resident restore _ _ _ Ha)).
    rewrite (bind_Ok _ _ _ _ _ (regOp_resident restore _ _ _ Hb)).
    rewrite (bind_Ok _ _ _ _ _ (emit_run _ _)). reflexivity.
Qed.

(** C6.  Which outcome gets the conditional branch.  JUMP_EQ_TAG, for every
    form of its operands, and JUMP_EQ_INT against the constant 0 choose by
    the layout: when exactly one of the two targets is the next block, the
    code after the compare is a single conditional branch to the other
    target and nothing else; with no target next, a [jmp] follows.  The
    other integer comparisons (JUMP_EQ_INT against another constant,
    JUMP_LT_INT, JUMP_GE_UINT, JUMP_EQ_POINTER) always branch on the true
    outcome, to the first target: when the second target is the next block
    that branch is all, and otherwise, also when the first target is the
    next block, it is followed by a [jmp] to the second target. *)
Theorem two_way_branch_shapes LUA_TNIL LUA_TBOOLEAN kVmExitEntryGuardPc restore alloc inst idx
    next L bc bd :
  blockOperand L (c inst) bc -> blockOperand L (d inst) bd ->
  nextLabel (build L) <> 0%nat ->
  (cmd inst = IrCmd.JUMP_EQ_TAG ->
   forall head, tagCompare restore L inst head ->
   exists L' frag,
     lowerInst LUA_TNIL LUA_TBOOLEAN kVmExitEntryGuardPc restore alloc inst idx next L = Ok tt L' /\
     code (build L') = code (build L) ++ head :: frag /\
     if isFallthroughBlock bd next then
       exists lc, labelIdOf L' (c inst) = Some lc /\ lc <> 0%nat /\
                  frag = [jcc ConditionX64.Equal lc]
     else
       exists ld, labelIdOf L' (d inst) = Some ld /\ ld <> 0%nat /\
         if isFallthroughBlock bc next then frag = [jcc ConditionX64.NotEqual ld]
         else exists lc, labelIdOf L' (c inst) = Some lc /\ lc <> 0%nat /\
                         frag = [jcc ConditionX64.NotEqual ld; jmp lc]) /\
  (cmd inst = IrCmd.JUMP_EQ_INT ->
   forall ra, residentIn L (a inst) ra -> intConstant L (b inst) 0 ->
   exists L' frag,
     lowerInst LUA_TNIL LUA_TBOOLEAN kVmExitEntryGuardPc restore alloc inst idx next L = Ok tt L' /\
     code (build L') = code (build L) ++ test (OpReg ra) (OpReg ra) :: frag /\
     if isFallthroughBlock bc next then
       exists ld, labelIdOf L' (d inst) = Some ld /\ ld <> 0%nat /\
                  frag = [jcc ConditionX64.NotZero ld]
     else
       exists lc, labelIdOf L' (c inst) = Some lc /\ lc <> 0%nat /\
         if isFallthroughBlock bd next then frag = [jcc ConditionX64.Zero lc]
         else exists ld, labelIdOf L' (d inst) = Some ld /\ ld <> 0%nat /\
                         frag = [jcc ConditionX64.Zero lc; jmp ld]) /\
  (forall head cond, comparesOnTrue L inst head cond ->
   exists L' frag,
     lowerInst LUA_TNIL LUA_TBOOLEAN kVmExitEntryGuardPc restore alloc inst idx next L = Ok tt L' /\
     code (build L') = code (build L) ++ head :: frag /\
     exists lc, labelIdOf L' (c inst) = Some lc /\ lc <> 0%nat /\
       if isFallthroughBlock bd next then frag = [jcc cond lc]
       else exists ld, labelIdOf L' (d inst) = Some ld /\ ld <> 0%nat /\
                       frag = [jcc cond lc; jmp ld]).
Proof.
  intros Hc Hd Hn. split; [|split].
  - intros Hcmd head Hhead.
    rewrite (lower_JUMP_EQ_TAG_head _ _ _ _ _ _ _ _ _ _ Hcmd Hhead).
    set (L1 := addCode L [head]).
    assert (Hc1 : blockOperand L1 (c inst) bc) by exact Hc.
    assert (Hd1 : blockOperand L1 (d inst) bd) by exact Hd.
    rewrite (bind_Ok _ _ _ _ _ (blockOp_block _ _ _ Hd1)).
    rewrite (bind_Ok _ _ _ _ _ (blockAt_run _ _ _ (proj2 Hd1))).
    destruct (isFallthroughBlock bd next) eqn:Hftd.
    + destruct (branch_tail_shape ConditionX64.Equal (c inst) (d inst) next L head bc bd Hc Hd Hn)
        as (L' & frag & Hrun & Hcode & lc & Hlbl & Hlc & Hshape).
      rewrite Hftd in Hshape. exists L', frag. split; [exact Hrun|]. split; [exact Hcode|].
      exists lc. auto.
    + destruct (branch_tail_shape ConditionX64.NotEqual (d inst) (c inst) next L head bd bc Hd Hc Hn)
        as (L' & frag & Hrun & Hcode & ld & Hlbl & Hld & Hshape).
      exists L', frag. split; [exact Hrun|]. split; [exact Hcode|].
      exists ld. split; [exact Hlbl|]. split; [exact Hld|].
      destruct (isFallthroughBlock bc next); [exact Hshape|].
      destruct Hshape as (lc & Hlblc & Hlc & Hfrag). exists lc. auto.
  - intros Hcmd ra Ha Hb. unfold lowerInst. rewrite Hcmd.
    rewrite (bind_Ok _ _ _ _ _ (intOp_constant _ _ _ Hb)). cbn [Z.eqb].
    rewrite (bind_Ok _ _ _ _ _ (regOp_resident restore _ _ _ Ha)).
    rewrite (bind_Ok _ _ _ _ _ (regOp_resident restore _ _ _ Ha)).
    rewrite (bind_Ok _ _ _ _ _ (emit_run _ _)).
    set (L1 := addCode L [test (OpReg ra) (OpReg ra)]).
    assert (Hc1 : blockOperand L1 (c inst) bc) by exact Hc.
    assert (Hd1 : blockOperand L1 (d inst) bd) by exact Hd.
    rewrite (bind_Ok _ _ _ _ _ (blockOp_block _ _ _ Hc1)).
    rewrite (bind_Ok _ _ _ _ _ (blockAt_run _ _ _ (proj2 Hc1))).
    destruct (isFallthroughBlock bc next) eqn:Hftc.
    + rewrite (tail_with_index ConditionX64.NotZero (d inst) (c inst) next L1 bd bc Hd1 Hc1 Hn).
      destruct (branch_tail_shape ConditionX64.NotZero (d inst) (c inst) next L
                  (test (OpReg ra) (OpReg ra)) bd bc Hd Hc Hn)
        as (L' & frag & Hrun & Hcode & ld & Hlbl & Hld & Hshape).
      rewrite Hftc in Hshape. exists L', frag. split; [exact Hrun|]. split; [exact Hcode|].
      exists ld. auto.
    + destruct (branch_tail_shape ConditionX64.Zero (c inst) (d inst) next L
                  (test (OpReg ra) (OpReg ra)) bc bd Hc Hd Hn)
        as (L' & frag & Hrun & Hcode & lc & Hlbl & Hlc & Hshape).
      exists L', frag. split; [exact Hrun|]. split; [exact Hcode|].
      exists lc. split; [exact Hlbl|]. split; [exact Hlc|].
      destruct (isFallthroughBlock bd next); [exact Hshape|].
      destruct Hshape as (ld & Hlbld & Hld & Hfrag). exists ld. auto.
  - intros head cond Hcmp.
    rewrite (lower_compare_head _ _ kVmExitEntryGuardPc restore alloc inst idx next L head cond Hcmp).
    destruct (branch_tail_shape cond (c inst) (d inst) next L head bc bd Hc Hd Hn)
      as (L' & frag & Hrun & Hcode & Hshape).
    exists L', frag. split; [exact Hrun|]. split; [exact Hcode|]. exact Hshape.
Qed.

Ltac simpl_state :=
  cbn [build code set_exits set_build set_function set_helpers set_regs addCode bumpLabel
       exitHandlers exitHandlerMap helpers function regs nextLabel].

Lemma exitLabel_injective kVm L pc1 pc2 l :
  exitInvariant kVm L ->
  exitLabelOf kVm L pc1 = Some l -> exitLabelOf kVm L pc2 = Some l -> pc1 = pc2.
Proof.
  intros [Hh Hmap Hhs Hdis]. unfold exitLabelOf.
  destruct (Nat.eqb_spec pc1 kVm) as [E1|E1], (Nat.eqb_spec pc2 kVm) as [E2|E2].
  - congruence.
  - intros H1. destruct (exitHandlerMap L !! pc2) as [i2|] eqn:M2; [|discriminate].
    destruct (exitHandlers L !! i2) as [h2|] eqn:H2; [|discriminate].
    intros H. destruct (Hhs _ _ H2) as (_ & _ & _ & _ & Hne). congruence.
  - destruct (exitHandlerMap L !! pc1) as [i1|] eqn:M1; [|discriminate].
    destruct (exitHandlers L !! i1) as [h1|] eqn:H1; [|discriminate].
    intros H H'. destruct (Hhs _ _ H1) as (_ & _ & _ & _ & Hne). congruence.
  - destruct (exitHandlerMap L !! pc1) as [i1|] eqn:M1; [|discriminate].
    destruct (exitHandlers L !! i1) as [h1|] eqn:H1; [|discriminate].
    destruct (exitHandlerMap L !! pc2) as [i2|] eqn:M2; [|discriminate].
    destruct (exitHandlers L !! i2) as [h2|] eqn:H2; [|discriminate].
    intros Hl1 Hl2.
    destruct (Hmap _ _ M1) as (h1' & H1' & P1). destruct (Hmap _ _ M2) as (h2' & H2' & P2).
    assert (h1' = h1) by congruence. assert (h2' = h2) by congruence. subst h1' h2'.
    assert (i1 = i2) by (eapply Hdis; eauto; congruence). subst i2. congruence.
Qed.

Lemma kindIs_exitEdge pc k : kindIs (exitEdge pc) k = IrOpKind.eqb IrOpKind.VmExit k.
Proof. reflexivity. Qed.

Lemma vmExitOp_exitEdge pc L : vmExitOp (exitEdge pc) L = Ok pc L.
Proof. reflexivity. Qed.

Lemma getTargetLabel_exit kVm pc L :
  getTargetLabel kVm (exitEdge pc) L =
    Ok (if Nat.eqb pc kVm then RefHelperExit
        else match exitHandlerMap L !! pc with
             | Some idx => RefExitHandler idx
             | None => RefLocal
             end) L.
Proof.
  unfold getTargetLabel. rewrite !kindIs_exitEdge. cbn [IrOpKind.eqb].
  rewrite (bind_Ok _ _ _ _ _ (vmExitOp_exitEdge pc L)).
  destruct (Nat.eqb pc kVm); [reflexivity|].
  unfold bind, get, ret. destruct (exitHandlerMap L !! pc); reflexivity.
Qed.

Lemma jumpOrAbortOnUndef_exit_unfold kVm cond pc next L :
  jumpOrAbortOnUndef kVm cond (exitEdge pc) next L =
    (label <- getTargetLabel kVm (exitEdge pc) ;;
     fresh <- takeExit cond label (mkLabel 0) ;;
     finalizeTargetLabel (exitEdge pc) fresh) L.
Proof.
  unfold jumpOrAbortOnUndef, takeExit. rewrite !kindIs_exitEdge. cbn [IrOpKind.eqb].
  unfold bind. destruct (getTargetLabel kVm (exitEdge pc) L); [|reflexivity].
  destruct (bool_decide (cond = ConditionX64.Count)); reflexivity.
Qed.

Lemma takeExit_bound cond ref fresh L l :
  loadLabel ref fresh L = Ok (mkLabel l) L -> l <> 0%nat ->
  ref <> RefLocal ->
  takeExit cond ref fresh L = Ok fresh (addCode L [branchTo cond l]).
Proof.
  intros Hload Hl Href. unfold takeExit, branchTo, build_jmp, build_jcc, allocLabelId.
  destruct (bool_decide (cond = ConditionX64.Count));
    rewrite (bind_bind_Ok _ _ _ _ _ _ Hload); cbn [id];
    rewrite (proj2 (Nat.eqb_neq l 0) Hl); reflexivity.
Qed.

Lemma takeExit_fresh cond L :
  takeExit cond RefLocal (mkLabel 0) L =
    Ok (mkLabel (nextLabel (build L)))
       (addCode (bumpLabel L) [branchTo cond (nextLabel (build L))]).
Proof.
  unfold takeExit, branchTo.
  destruct (bool_decide (cond = ConditionX64.Count));
    [rewrite build_jmp_local | rewrite build_jcc_local]; reflexivity.
Qed.
Lemma exitInvariant_addCode kVm L instrs :
  exitInvariant kVm L -> exitInvariant kVm (addCode L instrs).
Proof. intros [H1 H2 H3 H4]. constructor; assumption. Qed.

Lemma exitsKept_refl kVm L : exitInvariant kVm L -> exitsKept kVm L L.
Proof. intros H. split; auto. Qed.

Lemma exitsKept_trans kVm L1 L2 L3 :
  exitsKept kVm L1 L2 -> exitsKept kVm L2 L3 -> exitsKept kVm L1 L3.
Proof. intros [_ H12] [H3 H23]. split; auto. Qed.

(** Taking one exit edge. *)
Lemma jumpOrAbortOnUndef_exit kVm cond pc next L :
  exitInvariant kVm L ->
  exists L' l,
    jumpOrAbortOnUndef kVm cond (exitEdge pc) next L = Ok tt L' /\
    code (build L') = code (build L) ++ [branchTo cond l] /\
    exitLabelOf kVm L' pc = Some l /\
    exitsKept kVm L L' /\
    (pc = kVm -> exitHandlers L' = exitHandlers L) /\
    function L' = function L /\ helpers L' = helpers L /\
    (nextLabel (build L) <= nextLabel (build L'))%nat /\
    (exitLabelOf kVm L pc = Some l \/ l = nextLabel (build L)).
Proof.
  intros Hinv. pose proof Hinv as [[Hh0 Hhn] Hmap Hhs Hdis].
  rewrite jumpOrAbortOnUndef_exit_unfold.
  rewrite (bind_Ok _ _ _ _ _ (getTargetLabel_exit kVm pc L)).
  destruct (Nat.eqb_spec pc kVm) as [Epc|Epc].
  - (* the entry guard: the shared helper label *)
    destruct (exitContinueVmClearNativeFlag (helpers L)) as [hid] eqn:Hhelper. cbn [id] in *.
    assert (Hload : loadLabel RefHelperExit (mkLabel 0) L = Ok (mkLabel hid) L).
    { unfold loadLabel. rewrite Hhelper. reflexivity. }
    rewrite (bind_Ok _ _ _ _ _ (takeExit_bound cond _ _ _ _ Hload Hh0 ltac:(discriminate))).
    exists (addCode L [branchTo cond hid]), hid.
    split; [reflexivity|]. split; [reflexivity|]. split.
    { unfold exitLabelOf. rewrite (proj2 (Nat.eqb_eq pc kVm) Epc). cbn [helpers addCode set_build].
      rewrite Hhelper. reflexivity. }
    split; [apply exitsKept_refl with (L := addCode L [branchTo cond hid]), exitInvariant_addCode, Hinv|].
    split; [reflexivity|]. split; [reflexivity|]. split; [reflexivity|]. split; [reflexivity|].
    left. unfold exitLabelOf. rewrite (proj2 (Nat.eqb_eq pc kVm) Epc), Hhelper. reflexivity.
  - destruct (exitHandlerMap L !! pc) as [idx|] eqn:Hm.
    + (* a handler recorded earlier *)
      destruct (Hmap _ _ Hm) as (h & Hh & Hpc).
      destruct (Hhs _ _ Hh) as (_ & _ & Hid0 & _ & _).
      assert (Hload : loadLabel (RefExitHandler idx) (mkLabel 0) L = Ok (mkLabel (id (self h))) L).
      { unfold loadLabel. rewrite Hh. destruct (self h). reflexivity. }
      rewrite (bind_Ok _ _ _ _ _ (takeExit_bound cond _ _ _ _ Hload Hid0 ltac:(discriminate))).
      exists (addCode L [branchTo cond (id (self h))]), (id (self h)).
      split; [reflexivity|]. split; [reflexivity|]. split.
      { unfold exitLabelOf. rewrite (proj2 (Nat.eqb_neq pc kVm) Epc).
        cbn [exitHandlerMap exitHandlers addCode set_build]. rewrite Hm, Hh. reflexivity. }
      split; [apply exitsKept_refl with (L := addCode L [branchTo cond (id (self h))]),
                exitInvariant_addCode, Hinv|].
      split; [contradiction|]. split; [reflexivity|]. split; [reflexivity|].
      split; [reflexivity|].
      left. unfold exitLabelOf. rewrite (proj2 (Nat.eqb_neq pc kVm) Epc), Hm, Hh. reflexivity.
    + (* first reference: a fresh label and a new handler *)
      rewrite (bind_Ok _ _ _ _ _ (takeExit_fresh cond L)).
      set (n := nextLabel (build L)).
      assert (Hn0 : n <> 0%nat) by (unfold n; lia).
      assert (Hnh : n <> id (exitContinueVmClearNativeFlag (helpers L))) by (unfold n; lia).
      unfold finalizeTargetLabel. rewrite kindIs_exitEdge.
      cbn [IrOpKind.eqb andb id helpers addCode bumpLabel set_build bind get].
      rewrite (proj2 (Nat.eqb_neq n 0) Hn0), (proj2 (Nat.eqb_neq _ _) Hnh). cbn [negb andb].
      unfold vmExitOp, exitEdge, kindIs, LUAU_ASSERT, bind, ret.
      cbn [kind index IrOpKind.eqb]. simpl_state.
      eexists _, n. split; [reflexivity|].
      simpl_state.
      split; [reflexivity|]. split.
      { unfold exitLabelOf. rewrite (proj2 (Nat.eqb_neq pc kVm) Epc).
        simpl_state. rewrite lookup_insert_eq.
        rewrite lookup_app_r by lia. rewrite Nat.sub_diag. reflexivity. }
      split; [|split; [contradiction|]; split; [reflexivity|]; split; [reflexivity|];
                split; [lia|right; reflexivity]].
      split.
      * constructor; simpl_state.
        -- split; [assumption|lia].
        -- intros pc' idx' Hl. destruct (decide (pc = pc')) as [<-|Hne].
           ++ rewrite lookup_insert_eq in Hl. inversion Hl; subst idx'.
              eexists. rewrite lookup_app_r by lia. rewrite Nat.sub_diag. split; reflexivity.
           ++ rewrite lookup_insert_ne in Hl by exact Hne.
              destruct (Hmap _ _ Hl) as (h & Hh & Hp). exists h. split; [|exact Hp].
              rewrite lookup_app_l; [exact Hh|]. eapply lookup_lt_Some, Hh.
        -- intros idx h Hl. apply lookup_app_Some in Hl as [Hl|[Hlen Hl]].
           ++ destruct (Hhs _ _ Hl) as (Hm' & Hk & Hi0 & Hilt & Hih).
              split; [|repeat split; try assumption; unfold n in *; lia].
              rewrite lookup_insert_ne; [exact Hm'|]. intros E. rewrite <- E in Hm'. congruence.
           ++ destruct (idx - length (exitHandlers L))%nat as [|k] eqn:Ek; [|destruct k; discriminate].
              inversion Hl; subst h. cbn [pcpos self id].
              assert (idx = length (exitHandlers L)) by lia. subst idx.
              rewrite lookup_insert_eq. repeat split; auto; lia.
        -- intros i j hi hj Hi Hj Hids.
           apply lookup_app_Some in Hi as [Hi|[Hleni Hi]], Hj as [Hj|[Hlenj Hj]].
           ++ eapply Hdis; eauto.
           ++ destruct (j - length (exitHandlers L))%nat as [|k] eqn:Ek; [|destruct k; discriminate].
              inversion Hj; subst hj. cbn [self id] in Hids.
              destruct (Hhs _ _ Hi) as (_ & _ & _ & Hlt & _). unfold n in *. lia.
           ++ destruct (i - length (exitHandlers L))%nat as [|k] eqn:Ek; [|destruct k; discriminate].
              inversion Hi; subst hi. cbn [self id] in Hids.
              destruct (Hhs _ _ Hj) as (_ & _ & _ & Hlt & _). unfold n in *. lia.
           ++ destruct (i - length (exitHandlers L))%nat as [|k] eqn:Ek; [|destruct k; discriminate].
              destruct (j - length (exitHandlers L))%nat as [|k'] eqn:Ek'; [|destruct k'; discriminate].
              lia.
      * intros pc' l'. unfold exitLabelOf.
        simpl_state.
        destruct (Nat.eqb pc' kVm); [auto|].
        destruct (exitHandlerMap L !! pc') as [idx'|] eqn:Hm'; [|discriminate].
        assert (pc <> pc') by congruence.
        rewrite lookup_insert_ne by assumption. rewrite Hm'.
        destruct (exitHandlers L !! idx') as [h'|] eqn:Hh'; [|discriminate].
        rewrite lookup_app_l; [rewrite Hh'; auto|]. eapply lookup_lt_Some, Hh'.
Qed.

(** A lowering that has recorded no exit handler yet satisfies the
    invariant once the shared helper label is bound. *)
Lemma exitInvariant_initial kVm L :
  exitHandlers L = [] -> exitHandlerMap L = ∅ ->
  id (exitContinueVmClearNativeFlag (helpers L)) <> 0%nat ->
  (id (exitContinueVmClearNativeFlag (helpers L)) < nextLabel (build L))%nat ->
  exitInvariant kVm L.
Proof.
  intros He Hm H0 Hlt. constructor.
  - auto.
  - intros pc idx. rewrite Hm, lookup_empty. discriminate.
  - intros idx h. rewrite He. rewrite lookup_nil. discriminate.
  - intros i j hi hj. rewrite He. rewrite lookup_nil. discriminate.
Qed.

(** Steps of the lowering that touch neither the handlers nor the helper
    label, and do not take label ids back, keep every exit's label. *)
Lemma exitsKept_step kVm L L1 :
  exitInvariant kVm L ->
  helpers L1 = helpers L -> exitHandlers L1 = exitHandlers L ->
  exitHandlerMap L1 = exitHandlerMap L ->
  (nextLabel (build L) <= nextLabel (build L1))%nat ->
  exitsKept kVm L L1.
Proof.
  intros [[Hh0 Hhn] Hmap Hhs Hdis] Hh He Hm Hn. split.
  - constructor; rewrite ?Hh, ?He, ?Hm.
    + split; [assumption|lia].
    + exact Hmap.
    + intros idx h Hl. destruct (Hhs _ _ Hl) as (? & ? & ? & ? & ?). repeat split; auto; lia.
    + exact Hdis.
  - intros pc l. unfold exitLabelOf. rewrite Hh, He, Hm. auto.
Qed.

(** C5.  Two VM-exit edges resolved during one lowering: the first edge is
    taken by a branch to some label [l1]; at any later state of the same
    lowering the second edge is taken by a branch to a label [l2], and the
    two labels are the same exactly when the two edges resume at the same
    position.  An edge to the entry-guard position branches to the shared
    helper label and leaves the handler list as it was; no handler ever has
    the entry-guard position. *)
Theorem exit_edges_share_trampolines kVm next cond1 cond2 pc1 pc2 L :
  exitInvariant kVm L ->
  exists L1 l1,
    jumpOrAbortOnUndef kVm cond1 (exitEdge pc1) next L = Ok tt L1 /\
    code (build L1) = code (build L) ++ [branchTo cond1 l1] /\
    (pc1 = kVm ->
       l1 = id (exitContinueVmClearNativeFlag (helpers L)) /\
       exitHandlers L1 = exitHandlers L) /\
    (forall h, In h (exitHandlers L1) -> pcpos h <> kVm) /\
    forall L2, exitsKept kVm L1 L2 ->
      exists L3 l2,
        jumpOrAbortOnUndef kVm cond2 (exitEdge pc2) next L2 = Ok tt L3 /\
        code (build L3) = code (build L2) ++ [branchTo cond2 l2] /\
        (l1 = l2 <-> pc1 = pc2).
Proof.
  intros Hinv.
  destruct (jumpOrAbortOnUndef_exit kVm cond1 pc1 next L Hinv)
    as (L1 & l1 & Hrun1 & Hcode1 & Hl1 & [Hinv1 Hkept1] & Hguard1 & _ & Hhelp1 & _).
  exists L1, l1. split; [exact Hrun1|]. split; [exact Hcode1|]. split; [|split].
  - intros E. split; [|exact (Hguard1 E)].
    unfold exitLabelOf in Hl1. rewrite (proj2 (Nat.eqb_eq pc1 kVm) E), Hhelp1 in Hl1.
    congruence.
  - intros h Hin. apply list_elem_of_In, list_elem_of_lookup in Hin as [i Hi].
    destruct Hinv1 as [_ _ Hhs _]. apply (Hhs _ _ Hi).
  - intros L2 [Hinv2 Hkept2].
    destruct (jumpOrAbortOnUndef_exit kVm cond2 pc2 next L2 Hinv2)
      as (L3 & l2 & Hrun3 & Hcode3 & Hl2 & [Hinv3 Hkept3] & _).
    exists L3, l2. split; [exact Hrun3|]. split; [exact Hcode3|].
    pose proof (Hkept3 _ _ (Hkept2 _ _ Hl1)) as Hl1'.
    split.
    + intros <-. exact (exitLabel_injective kVm L3 pc1 pc2 l1 Hinv3 Hl1' Hl2).
    + intros <-. congruence.
Qed.


(** ** Lowering by evaluation

    For the opcodes that only use labels of their own, the emitted code is
    obtained by running the lowering on a state whose parts are named. *)

Ltac open_lowering L :=
  destruct L as [[?code0 ?n0] ?h0 [?blocks0 ?insts0 ?consts0 ?preds0 ?var0] ?regs0 ?exits0 ?map0];
  cbn [build helpers function regs exitHandlers exitHandlerMap code nextLabel
       blocks instructions constants predecessors variadic] in *.

Ltac unfold_lowering :=
  unfold memRegDoubleOp, memRegUintOp, memRegTagOp, regOp, labelOp,
    intOp, tagOp, doubleOp, uintOp, constOp, instOp, blockOp, vmRegOp, vmConstOp, vmExitOp,
    build_jcc, build_jmp, build_setLabel, allocLabelId, loadLabel, storeLabel,
    setRegX64, emit, kindIs, LUAU_ASSERT, bind, get, ret, fail.

Ltac lower_step :=
  match goal with
  | H : ?l !! ?i = Some _ |- context [?l !! ?i] => rewrite H
  | H : ?i <> ?j |- context [alter ?f ?i ?l !! ?j] => rewrite (list_lookup_alter_ne f l i j H)
  | H : ?j <> ?i |- context [alter ?f ?i ?l !! ?j] =>
      rewrite (list_lookup_alter_ne f l i j (not_eq_sym H))
  | H : ?x = _ |- context [IrOpKind.eqb ?x _] => rewrite H
  | H : ?x = _ |- context [match ?x with IrOpKind.None => _ | _ => _ end] => rewrite H
  | H : ?x = false |- context [?x] => rewrite H
  | H : ?x = true |- context [?x] => rewrite H
  | H : ?r <> noreg |- context [RegisterX64_eqb ?r noreg] => rewrite (noreg_eqb_false r H)
  | H : ?n <> 0%nat |- context [Nat.eqb ?n 0] => rewrite (proj2 (Nat.eqb_neq n 0) H)
  end.

Ltac lower_run := repeat (cbn; lower_step); cbn.

Ltac finish_emitted :=
  rewrite <- ?app_assoc; rewrite drop_app_length; cbn [app]; try reflexivity.

(** ** Bit counts *)

Lemma countlz_log2 n x : 0 < x < 2 ^ Z.of_nat n -> countlz n x = Z.of_nat n - 1 - Z.log2 x.
Proof.
  induction n as [|k IH]; intros Hx.
  - simpl in Hx. lia.
  - cbn [countlz]. rewrite Nat2Z.inj_succ in *. rewrite Z.pow_succ_r in Hx by lia.
    destruct (Z.testbit x (Z.of_nat k)) eqn:Hb.
    + assert (Z.log2 x = Z.of_nat k); [|lia].
      apply Z.log2_unique; [lia|].
      replace (Z.of_nat k + 1) with (Z.succ (Z.of_nat k)) by lia.
      rewrite Z.pow_succ_r by lia. split; [|lia].
      destruct (Z.lt_ge_cases x (2 ^ Z.of_nat k)) as [Hlt|]; [|assumption].
      rewrite Z.bits_above_log2 in Hb; [discriminate|lia|].
      apply Z.log2_lt_pow2; lia.
    + assert (x < 2 ^ Z.of_nat k).
      { destruct (Z.lt_ge_cases x (2 ^ Z.of_nat k)) as [|Hge]; [assumption|].
        assert (Z.log2 x = Z.of_nat k).
        { apply Z.log2_unique; [lia|].
          replace (Z.of_nat k + 1) with (Z.succ (Z.of_nat k)) by lia.
          rewrite Z.pow_succ_r by lia. lia. }
        rewrite <- H in Hb. rewrite Z.bit_log2 in Hb by lia. discriminate. }
      rewrite IH by lia. lia.
Qed.

Lemma lxor_31 v : 0 <= v < 32 -> Z.lxor v 31 = 31 - v.
Proof.
  intros Hv.
  assert (H : v = 0 \/ v = 1 \/ v = 2 \/ v = 3 \/ v = 4 \/ v = 5 \/ v = 6 \/ v = 7 \/
              v = 8 \/ v = 9 \/ v = 10 \/ v = 11 \/ v = 12 \/ v = 13 \/ v = 14 \/ v = 15 \/
              v = 16 \/ v = 17 \/ v = 18 \/ v = 19 \/ v = 20 \/ v = 21 \/ v = 22 \/ v = 23 \/
              v = 24 \/ v = 25 \/ v = 26 \/ v = 27 \/ v = 28 \/ v = 29 \/ v = 30 \/ v = 31) by lia.
  repeat (destruct H as [-> | H]; [reflexivity|]). subst. reflexivity.
Qed.

Lemma countrz_lowestSetBit n p :
  Zpos p < 2 ^ Z.of_nat n -> countrz n (Zpos p) = ctz_pos p.
Proof.
  revert p. induction n as [|k IH]; intros p Hp.
  - simpl in Hp. lia.
  - rewrite Nat2Z.inj_succ, Z.pow_succ_r in Hp by lia.
    destruct p as [q|q|]; cbn [countrz ctz_pos Z.odd Z.div2 Pos.div2]; try reflexivity.
    rewrite IH by lia. reflexivity.
Qed.

Lemma lowestSetBit_bound x : 0 < x < 2 ^ 32 -> 0 <= lowestSetBit x < 32.
Proof.
  intros Hx. destruct x as [|p|p]; try lia. cbn [lowestSetBit].
  rewrite <- (countrz_lowestSetBit 32 p) by (change (2 ^ Z.of_nat 32) with (2 ^ 32); lia).
  assert (H : forall n y, 0 <= countrz n y <= Z.of_nat n).
  { induction n as [|k IH]; intros y; cbn [countrz]; [lia|].
    destruct (Z.odd y); [lia|]. specialize (IH (Z.div2 y)). lia. }
  assert (Hne : countrz 32 (Zpos p) <> 32).
  { rewrite (countrz_lowestSetBit 32 p) by (change (2 ^ Z.of_nat 32) with (2 ^ 32); lia).
    assert (Hp2 : forall q, 2 ^ ctz_pos q <= Zpos q /\ 0 <= ctz_pos q).
    { induction q as [q IHq|q IHq|]; cbn [ctz_pos]; try (split; [simpl|]; lia).
      destruct IHq as [IH1 IH2]. split; [|lia].
      rewrite Z.pow_add_r, Z.pow_1_r by lia. lia. }
    destruct (Hp2 p) as [Hp2a Hp2b]. intros E. rewrite E in Hp2a. lia. }
  specialize (H 32%nat (Zpos p)). lia.
Qed.

(** ** Reading the machine state *)

Lemma readInt_range st w op : 0 < w -> 0 <= readInt st w op < 2 ^ w.
Proof.
  intros Hw. destruct op; cbn [readInt]; apply Z.mod_pos_bound; apply Z.pow_pos_nonneg; lia.
Qed.

Lemma gpr_writeGpr_dword st i v :
  gpr (writeGpr st (mkReg SizeX64.dword i) v) i = v mod 2 ^ 32.
Proof. cbn. rewrite Nat.eqb_refl. reflexivity. Qed.

Lemma readInt_setFlags st fl w op : readInt (setFlags st fl) w op = readInt st w op.
Proof. destruct op as [r|imm|sz addr]; reflexivity. Qed.

Lemma readInt_writeGpr_dword st i v sz :
  readInt (writeGpr st (mkReg SizeX64.dword i) v) 32 (OpReg (mkReg sz i)) = v mod 2 ^ 32.
Proof.
  cbn [readInt regIndex]. rewrite gpr_writeGpr_dword. apply Z.mod_mod. lia.
Qed.

Lemma run_countlz_fragment dst ra n st :
  size dst = SizeX64.dword -> size ra = SizeX64.dword ->
  exists st',
    run [test (OpReg ra) (OpReg ra); jcc ConditionX64.Equal n;
         bsr (OpReg dst) (OpReg ra); xor_ (OpReg dst) (OpImm 31); jmp (S n);
         setLabel n; mov (OpReg dst) (OpImm 32); setLabel (S n)] st = Fallthrough st' /\
    readInt st' 32 (OpReg dst) = countlz 32 (readInt st 32 (OpReg ra)).
Proof.
  destruct dst as [sd di], ra as [sa ai]. cbn [size]. intros -> ->.
  set (x := readInt st 32 (OpReg (mkReg SizeX64.dword ai))).
  assert (Hx : 0 <= x < 2 ^ 32) by (apply readInt_range; lia).
  unfold run. cbn [exec step opWidth isGpr size bits regIndex].
  fold x. rewrite Z.land_diag.
  cbn [flags setFlags logicFlags evalCond ZF].
  destruct (Z.eqb_spec x 0) as [Hz|Hnz].
  - cbn [exec]. rewrite Nat.eqb_refl. cbn [exec step isGpr size bits].
    eexists. split; [reflexivity|].
    rewrite readInt_writeGpr_dword. rewrite Hz. reflexivity.
  - cbn [exec step isGpr size bits]. rewrite readInt_setFlags. fold x.
    destruct (Z.eqb_spec x 0) as [|_]; [contradiction|].
    cbn [exec step isGpr size bits].
    assert (Hne : Nat.eqb (S n) n = false) by (apply Nat.eqb_neq; lia).
    rewrite Hne, Nat.eqb_refl. cbn [exec].
    eexists. split; [reflexivity|].
    rewrite !readInt_setFlags, !readInt_writeGpr_dword.
    assert (Hl : 0 <= Z.log2 x < 32).
    { split; [apply Z.log2_nonneg|]. apply Z.log2_lt_pow2; lia. }
    cbn [readInt]. change (31 mod 2 ^ 32) with 31.
    rewrite (Z.mod_small (Z.log2 x)) by lia.
    rewrite lxor_31 by lia. rewrite Z.mod_small by lia.
    rewrite (countlz_log2 32 x) by (change (2 ^ Z.of_nat 32) with (2 ^ 32); lia). lia.
Qed.

Lemma run_countrz_fragment dst ra n st :
  size dst = SizeX64.dword -> size ra = SizeX64.dword ->
  exists st',
    run [test (OpReg ra) (OpReg ra); jcc ConditionX64.Equal n;
         bsf (OpReg dst) (OpReg ra); jmp (S n);
         setLabel n; mov (OpReg dst) (OpImm 32); setLabel (S n)] st = Fallthrough st' /\
    readInt st' 32 (OpReg dst) = countrz 32 (readInt st 32 (OpReg ra)).
Proof.
  destruct dst as [sd di], ra as [sa ai]. cbn [size]. intros -> ->.
  set (x := readInt st 32 (OpReg (mkReg SizeX64.dword ai))).
  assert (Hx : 0 <= x < 2 ^ 32) by (apply readInt_range; lia).
  unfold run. cbn [exec step opWidth isGpr size bits regIndex].
  fold x. rewrite Z.land_diag.
  cbn [flags setFlags logicFlags evalCond ZF].
  destruct (Z.eqb_spec x 0) as [Hz|Hnz].
  - cbn [exec]. rewrite Nat.eqb_refl. cbn [exec step isGpr size bits].
    eexists. split; [reflexivity|].
    rewrite readInt_writeGpr_dword. rewrite Hz. reflexivity.
  - cbn [exec step isGpr size bits]. rewrite readInt_setFlags. fold x.
    destruct (Z.eqb_spec x 0) as [|_]; [contradiction|].
    cbn [exec step isGpr size bits].
    assert (Hne : Nat.eqb (S n) n = false) by (apply Nat.eqb_neq; lia).
    rewrite Hne, Nat.eqb_refl. cbn [exec].
    eexists. split; [reflexivity|].
    rewrite !readInt_setFlags, !readInt_writeGpr_dword.
    pose proof (lowestSetBit_bound x ltac:(lia)) as Hb.
    rewrite Z.mod_small by lia.
    destruct x as [|p|p]; try lia. cbn [lowestSetBit].
    symmetry. apply countrz_lowestSetBit. change (2 ^ Z.of_nat 32) with (2 ^ 32). lia.
Qed.

Lemma lower_BITCOUNT_emitted LUA_TNIL LUA_TBOOLEAN kVmExitEntryGuardPc restore alloc inst idx next L ra :
  cmd inst = IrCmd.BITCOUNTLZ_UINT \/ cmd inst = IrCmd.BITCOUNTRZ_UINT ->
  residentIn L (a inst) ra -> index (a inst) <> idx ->
  nextLabel (build L) <> 0%nat ->
  emitted (lowerInst LUA_TNIL LUA_TBOOLEAN kVmExitEntryGuardPc restore alloc inst idx next) L =
    let n := nextLabel (build L) in
    let dst := instReg alloc in
    Some ([test (OpReg ra) (OpReg ra); jcc ConditionX64.Equal n] ++
          match cmd inst with
          | IrCmd.BITCOUNTLZ_UINT => [bsr (OpReg dst) (OpReg ra); xor_ (OpReg dst) (OpImm 31)]
          | _ => [bsf (OpReg dst) (OpReg ra)]
          end ++
          [jmp (S n); setLabel n; mov (OpReg dst) (OpImm 32); setLabel (S n)]).
Proof.
  intros Hcmd [Hka (src & Hsrc & Hsp & Hnr & Hr & Hne)] Hidx Hn.
  open_lowering L. subst ra.
  unfold emitted, lowerInst.
  destruct Hcmd as [-> | ->]; unfold_lowering; lower_run; finish_emitted.
Qed.

(** C3.  The code lowered for BITCOUNTLZ_UINT and BITCOUNTRZ_UINT leaves in
    the result register the number of leading, respectively trailing, zero
    bits of the 32-bit source, for every source value; a zero source takes
    the branch that loads 32 and never reaches [bsr]/[bsf].  In particular
    clz(0) = 32, ctz(0) = 32, clz(1) = 31 and ctz(1) = 0. *)
Theorem bitcount_zero_is_32 LUA_TNIL LUA_TBOOLEAN kVmExitEntryGuardPc restore alloc inst idx next
    L ra :
  cmd inst = IrCmd.BITCOUNTLZ_UINT \/ cmd inst = IrCmd.BITCOUNTRZ_UINT ->
  residentIn L (a inst) ra -> index (a inst) <> idx ->
  nextLabel (build L) <> 0%nat ->
  size ra = SizeX64.dword -> size (instReg alloc) = SizeX64.dword ->
  exists frag,
    emitted (lowerInst LUA_TNIL LUA_TBOOLEAN kVmExitEntryGuardPc restore alloc inst idx next) L
      = Some frag /\
    (forall st, exists st',
       run frag st = Fallthrough st' /\
       readInt st' 32 (OpReg (instReg alloc)) =
         match cmd inst with
         | IrCmd.BITCOUNTLZ_UINT => countlz 32 (readInt st 32 (OpReg ra))
         | _ => countrz 32 (readInt st 32 (OpReg ra))
         end) /\
    countlz 32 0 = 32 /\ countrz 32 0 = 32 /\ countlz 32 1 = 31 /\ countrz 32 1 = 0.
Proof.
  intros Hcmd Ha Hidx Hn Hsa Hsd.
  eexists. split;
    [apply (lower_BITCOUNT_emitted LUA_TNIL LUA_TBOOLEAN kVmExitEntryGuardPc restore
              alloc inst idx next L ra Hcmd Ha Hidx Hn)|].
  split; [|repeat split; reflexivity].
  intros st. cbv zeta. destruct Hcmd as [-> | ->]; cbn [app].
  - apply run_countlz_fragment; assumption.
  - apply run_countrz_fragment; assumption.
Qed.


(** ** Doubles: ROUND_NUM and MOD_NUM *)

Lemma land_sign_mask x : Z.land x 0x8000000000000000 = sign_bit (Z.testbit x 63).
Proof.
  change 0x8000000000000000 with (2 ^ 63).
  apply Z.bits_inj'. intros n Hn.
  rewrite Z.land_spec, Z.pow2_bits_eqb by lia.
  unfold sign_bit. destruct (Z.eqb_spec 63 n) as [<-|Hne].
  - destruct (Z.testbit x 63) eqn:E; cbn [andb].
    + rewrite Z.pow2_bits_true by lia. reflexivity.
    + rewrite Z.bits_0. reflexivity.
  - rewrite andb_false_r. destruct (Z.testbit x 63).
    + rewrite Z.pow2_bits_false by lia. reflexivity.
    + rewrite Z.bits_0. reflexivity.
Qed.

Lemma copysign_by_masks x :
  Z.lor (Z.land x 0x8000000000000000) 0x3fdfffffffffffff = f64_copysign 0x3fdfffffffffffff x.
Proof.
  rewrite land_sign_mask. unfold f64_copysign, sign_bit.
  destruct (Z.testbit x 63); reflexivity.
Qed.

Lemma xmm_writeXmm_same st sz i v : xmm (writeXmm st (mkReg sz i) v) i = v.
Proof. cbn. rewrite Nat.eqb_refl. reflexivity. Qed.

Lemma xmm_writeXmm_other st sz i j v : i <> j -> xmm (writeXmm st (mkReg sz i) v) j = xmm st j.
Proof. intros H. cbn. rewrite (proj2 (Nat.eqb_neq j i)) by congruence. reflexivity. Qed.

Lemma readMem_writeXmm st r v addr : readMem (writeXmm st r v) addr = readMem st addr.
Proof. destruct addr; reflexivity. Qed.

Ltac xmm_simpl :=
  repeat first
    [ rewrite xmm_writeXmm_same
    | rewrite xmm_writeXmm_other by congruence
    | rewrite readMem_writeXmm ].

Lemma run_roundBody d t1 t2 st x :
  d <> t1 -> d <> t2 -> t1 <> t2 ->
  fst (xmm st d) = x ->
  exists st',
    run (roundBody (mkReg SizeX64.xmmword d) (mkReg SizeX64.xmmword t1)
           (mkReg SizeX64.xmmword t2)) st = Fallthrough st' /\
    fst (xmm st' d) = roundHalfAway x.
Proof.
  intros H1 H2 H3 Hx. unfold run, roundBody, build_f64x2, build_i64.
  cbn [exec step binXmm readXmm isXmm size regIndex readMem fst snd].
  xmm_simpl. cbn [exec step binXmm readXmm isXmm size regIndex readMem fst snd].
  xmm_simpl. cbn [exec step binXmm readXmm isXmm size regIndex readMem fst snd].
  xmm_simpl. cbn [exec step binXmm readXmm isXmm size regIndex readMem fst snd].
  xmm_simpl. cbn [exec step binXmm readXmm isXmm size regIndex readMem fst snd].
  eexists. split; [reflexivity|]. xmm_simpl. cbn [fst].
  rewrite Hx, copysign_by_masks. reflexivity.
Qed.

Lemma lower_ROUND_NUM_emitted LUA_TNIL LUA_TBOOLEAN kVmExitEntryGuardPc restore alloc inst idx next
    L src :
  cmd inst = IrCmd.ROUND_NUM ->
  registerDouble L idx (a inst) src \/ memoryDouble L (a inst) src ->
  emitted (lowerInst LUA_TNIL LUA_TBOOLEAN kVmExitEntryGuardPc restore alloc inst idx next) L =
    Some (roundPrefix (instReg alloc) src ++
          roundBody (instReg alloc) (scoped1 alloc) (scoped2 alloc)).
Proof.
  intros Hcmd Hsrc. unfold emitted, lowerInst. rewrite Hcmd.
  destruct Hsrc as [(ra & [Hka (s & Hs & Hsp & Hnr & Hr & Hne)] & Hidx & Hsz & ->)
                   | [(x & [Hk Hc] & ->) | [[Hk ->] | [Hk ->]]]];
    open_lowering L; unfold_lowering; unfold sameXmm, roundPrefix.
  - subst ra. lower_run.
    destruct (RegisterX64_eqb (regX64 s) (instReg alloc)); lower_run; finish_emitted.
  - lower_run. finish_emitted.
  - lower_run. finish_emitted.
  - lower_run. finish_emitted.
Qed.

Lemma run_cons_step i rest st st1 :
  step i st = Some st1 ->
  match i with jcc _ _ | jmp _ | ud2 | setLabel _ => False | _ => True end ->
  run (i :: rest) st = run rest st1.
Proof.
  intros Hs Hi. unfold run. cbn [exec]. destruct i; try contradiction; rewrite Hs; reflexivity.
Qed.

(** ** Rounding a sum to 53 bits *)

Lemma iter_pos_nat {A} (f : A -> A) p x : SpecFloat.iter_pos f p x = Nat.iter (Pos.to_nat p) f x.
Proof.
  revert x. induction p as [p IH|p IH|]; intros x; cbn [SpecFloat.iter_pos].
  - rewrite !IH. rewrite Pos2Nat.inj_xI.
    replace (S (2 * Pos.to_nat p)) with (Pos.to_nat p + S (Pos.to_nat p))%nat by lia.
    rewrite Nat.iter_add. f_equal. symmetry. apply Nat.iter_succ_r.
  - rewrite !IH. rewrite Pos2Nat.inj_xO.
    replace (2 * Pos.to_nat p)%nat with (Pos.to_nat p + Pos.to_nat p)%nat by lia.
    rewrite Nat.iter_add. reflexivity.
  - reflexivity.
Qed.

Lemma shr_1_spec m r s :
  0 <= m -> shr_1 (Build_shr_record m r s) = Build_shr_record (m / 2) (Z.odd m) (r || s).
Proof.
  intros Hm. rewrite <- Z.div2_div.
  destruct m as [|[p|p|]|]; try reflexivity. lia.
Qed.

(** [k] single shifts of [M]: the quotient, the last bit shifted out, and
    whether anything below it was set. *)
Lemma shr_iter M k :
  0 <= M ->
  Nat.iter (S k) shr_1 (Build_shr_record M false false) =
    Build_shr_record (M / 2 ^ Z.of_nat (S k)) (Z.odd (M / 2 ^ Z.of_nat k))
      (negb (M mod 2 ^ Z.of_nat k =? 0)).
Proof.
  intros HM. induction k as [|k IH].
  - cbn [Nat.iter]. rewrite shr_1_spec by exact HM.
    change (2 ^ Z.of_nat 1) with 2. change (2 ^ Z.of_nat 0) with 1.
    rewrite Z.div_1_r, Z.mod_1_r. reflexivity.
  - change (Nat.iter (S (S k)) shr_1 ?x) with (shr_1 (Nat.iter (S k) shr_1 x)).
    rewrite IH. rewrite shr_1_spec by (apply Z.div_pos; lia).
    rewrite Z.div_div by lia.
    replace (2 ^ Z.of_nat (S k) * 2) with (2 ^ Z.of_nat (S (S k)))
      by (rewrite (Nat2Z.inj_succ (S k)), Z.pow_succ_r by lia; lia).
    f_equal.
    rewrite (Nat2Z.inj_succ k), Z.pow_succ_r by lia.
    rewrite (Z.mul_comm 2), Z.rem_mul_r by lia.
    set (a := M / 2 ^ Z.of_nat k). set (b := M mod 2 ^ Z.of_nat k).
    assert (Hb : 0 <= b) by (apply Z.mod_pos_bound; lia).
    assert (Hp : 0 < 2 ^ Z.of_nat k) by lia.
    rewrite Zmod_odd. destruct (Z.odd a); cbn [orb].
    + symmetry. apply negb_true_iff, Z.eqb_neq. lia.
    + rewrite Z.mul_0_r, Z.add_0_r. reflexivity.
Qed.

Lemma digits2_size p : digits2_pos p = Pos.size p.
Proof. induction p; cbn; congruence. Qed.

Lemma Zdigits2_log2 p : Zpos (digits2_pos p) = Z.log2 (Zpos p) + 1.
Proof.
  rewrite digits2_size. destruct p; cbn [Z.log2 Pos.size]; lia.
Qed.

Lemma Zdigits2_bounds p d : 2 ^ (d - 1) <= Zpos p < 2 ^ d -> 0 < d -> Zpos (digits2_pos p) = d.
Proof.
  intros H Hd. rewrite Zdigits2_log2.
  rewrite (Z.log2_unique (Zpos p) (d - 1)); [lia|lia|].
  replace (Z.succ (d - 1)) with d by lia. exact H.
Qed.

Lemma fexp_normal x : -1074 <= x - 53 -> fexp prec emax x = x - 53.
Proof. intros H. unfold fexp, emin, prec, emax. lia. Qed.

Lemma shr_loc M p :
  0 <= M -> 0 < p ->
  let mrs := fst (shr (Build_shr_record M false false) 0 p) in
  round_nearest_even (shr_m mrs) (loc_of_shr_record mrs) = roundedQuotient M p.
Proof.
  intros HM Hp. destruct p as [|pp|]; try lia.
  cbn [shr fst]. rewrite iter_pos_nat.
  destruct (Pos2Nat.is_succ pp) as [k Hk]. rewrite Hk.
  rewrite shr_iter by exact HM.
  assert (Hpk : Zpos pp = Z.of_nat (S k)) by lia.
  unfold roundedQuotient. rewrite Hpk.
  replace (Z.of_nat (S k) - 1) with (Z.of_nat k) by lia.
  set (P := 2 ^ Z.of_nat k).
  assert (HP : 0 < P) by (unfold P; lia).
  assert (H2P : 2 ^ Z.of_nat (S k) = P * 2).
  { unfold P. rewrite Nat2Z.inj_succ, Z.pow_succ_r by lia. lia. }
  rewrite H2P. rewrite Z.rem_mul_r by lia.
  set (a := M / P). set (b := M mod P).
  assert (Hb : 0 <= b < P) by (apply Z.mod_pos_bound; lia).
  assert (Hq : M / (P * 2) = a / 2) by (unfold a; rewrite Z.div_div by lia; reflexivity).
  rewrite Hq. rewrite Zmod_odd.
  cbn [shr_m loc_of_shr_record].
  destruct (Z.odd a) eqn:Hodd.
  - rewrite Z.mul_1_r.
    destruct (Z.eqb_spec b 0) as [Hb0|Hb0]; cbn [negb].
    + cbn [round_nearest_even]. subst b. rewrite Hb0, Z.add_0_l, Z.ltb_irrefl, Z.eqb_refl.
      cbn [orb andb]. rewrite <- Z.negb_odd. destruct (Z.odd (a / 2)); reflexivity.
    + cbn [round_nearest_even].
      rewrite (proj2 (Z.ltb_lt P (b + P))) by lia. reflexivity.
  - rewrite Z.mul_0_r, Z.add_0_r.
    rewrite (proj2 (Z.ltb_ge P b)) by lia.
    rewrite (proj2 (Z.eqb_neq b P)) by lia. cbn [orb andb].
    destruct (b =? 0); reflexivity.
Qed.

Lemma roundedQuotient_bounds M p lo :
  0 < p -> 0 <= lo -> lo * 2 ^ p <= M < (lo + lo) * 2 ^ p ->
  lo <= roundedQuotient M p <= lo + lo.
Proof.
  intros Hp Hlo HM. unfold roundedQuotient.
  assert (HP : 0 < 2 ^ p) by (apply Z.pow_pos_nonneg; lia).
  assert (lo <= M / 2 ^ p < lo + lo).
  { split; [apply Z.div_le_lower_bound; lia|apply Z.div_lt_upper_bound; lia]. }
  destruct (_ || _); lia.
Qed.

Lemma binary_round_shift s M E p :
  1 <= p -> 2 ^ (52 + p) <= Zpos M < 2 ^ (53 + p) ->
  -1074 <= E + p -> E + p <= 971 ->
  binary_round prec emax s M E =
    if roundedQuotient (Zpos M) p =? 2 ^ 53 then
      if E + p + 1 <=? 971 then S754_finite s (2 ^ 52)%positive (E + p + 1) else S754_infinity s
    else S754_finite s (Z.to_pos (roundedQuotient (Zpos M) p)) (E + p).
Proof.
  intros Hp HM Hlo Hhi.
  assert (Hd : Zpos (digits2_pos M) = 53 + p).
  { apply Zdigits2_bounds; [|lia]. replace (53 + p - 1) with (52 + p) by lia. exact HM. }
  unfold binary_round. rewrite Hd.
  rewrite fexp_normal by lia.
  unfold shl_align. replace (53 + p + E - 53 - E) with p by lia.
  destruct p as [|pp|]; try lia.
  unfold binary_round_aux, shr_fexp. cbn [Zdigits2 shr_record_of_loc]. rewrite Hd.
  rewrite fexp_normal by lia.
  replace (53 + Zpos pp + E - 53 - E) with (Zpos pp) by lia.
  pose proof (shr_loc (Zpos M) (Zpos pp) ltac:(lia) ltac:(lia)) as Hloc.
  cbn [shr fst] in Hloc. cbn [shr]. cbv zeta in Hloc. rewrite Hloc.
  assert (Hq : 2 ^ 52 <= roundedQuotient (Zpos M) (Zpos pp) <= 2 ^ 52 + 2 ^ 52).
  { apply roundedQuotient_bounds; [lia|lia|].
    rewrite <- Z.pow_add_r by lia.
    replace ((2 ^ 52 + 2 ^ 52) * 2 ^ Zpos pp) with (2 ^ (53 + Zpos pp)).
    - exact HM.
    - rewrite (Z.pow_add_r 2 53) by lia. lia. }
  set (q := roundedQuotient (Zpos M) (Zpos pp)) in *.
  destruct (Z.eqb_spec q (2 ^ 53)) as [Eq|Nq].
  - rewrite Eq. change (Zdigits2 (2 ^ 53)) with 54.
    rewrite fexp_normal by lia.
    replace (54 + (E + Zpos pp) - 53 - (E + Zpos pp)) with 1 by lia.
    cbn [shr SpecFloat.iter_pos shr_1 shr_m]. 
    replace (E + Zpos pp + 1 <=? emax - prec) with (E + Zpos pp + 1 <=? 971) by reflexivity.
    reflexivity.
  - destruct q as [|qp|qp] eqn:Eqq; try lia.
    assert (Hdq : Zpos (digits2_pos qp) = 53).
    { apply Zdigits2_bounds; [|lia]. change (2 ^ (53 - 1)) with (2 ^ 52). lia. }
    cbn [Zdigits2]. rewrite Hdq. rewrite fexp_normal by lia.
    replace (53 + (E + Zpos pp) - 53 - (E + Zpos pp)) with 0 by lia.
    cbn [shr shr_m Z.to_pos].
    replace (E + Zpos pp <=? emax - prec) with true
      by (symmetry; apply Z.leb_le; unfold emax, prec; lia).
    reflexivity.
Qed.

Lemma roundedQuotient_eq M p Q r :
  0 <= p -> M = Q * 2 ^ p + r -> 0 <= r < 2 ^ p ->
  roundedQuotient M p =
    if (2 ^ (p - 1) <? r) || ((r =? 2 ^ (p - 1)) && Z.odd Q) then Q + 1 else Q.
Proof.
  intros Hp HM Hr. unfold roundedQuotient.
  assert (HP : 0 < 2 ^ p) by (apply Z.pow_pos_nonneg; lia).
  assert (Hq : M / 2 ^ p = Q) by (symmetry; apply (Z.div_unique M (2 ^ p) Q r); [lia|lia]).
  assert (Hm : M mod 2 ^ p = r) by (symmetry; apply (Z.mod_unique M (2 ^ p) Q r); [lia|lia]).
  rewrite Hq, Hm. reflexivity.
Qed.

Lemma pos_iter_xO m d : Zpos (Pos.iter xO m d) = Zpos m * 2 ^ Zpos d.
Proof.
  induction d as [|d IH] using Pos.peano_ind.
  - cbn [Pos.iter]. lia.
  - rewrite Pos.iter_succ, Pos2Z.inj_xO, IH, Pos2Z.inj_succ, Z.pow_succ_r by lia. lia.
Qed.

Lemma shl_align_value m e ez :
  ez <= e -> Zpos (fst (shl_align m e ez)) = Zpos m * 2 ^ (e - ez).
Proof.
  intros H. unfold shl_align.
  destruct (ez - e) as [|d|d] eqn:Hd; try lia.
  - replace (e - ez) with 0 by lia. cbn [fst]. lia.
  - cbn [fst]. rewrite pos_iter_xO. replace (e - ez) with (Zpos d) by lia. reflexivity.
Qed.

(** The sum of two finite numbers of one sign is their exact sum, rounded. *)
Lemma SFadd_same_sign s m1 e1 m2 e2 :
  SFadd prec emax (S754_finite s m1 e1) (S754_finite s m2 e2) =
    binary_round prec emax s
      (Z.to_pos (Zpos m1 * 2 ^ (e1 - Z.min e1 e2) + Zpos m2 * 2 ^ (e2 - Z.min e1 e2)))
      (Z.min e1 e2).
Proof.
  cbn [SFadd]. cbv zeta.
  rewrite !shl_align_value by lia.
  set (A := Zpos m1 * 2 ^ (e1 - Z.min e1 e2)).
  set (B := Zpos m2 * 2 ^ (e2 - Z.min e1 e2)).
  assert (HA : 0 < A) by (unfold A; apply Z.mul_pos_pos; [lia|apply Z.pow_pos_nonneg; lia]).
  assert (HB : 0 < B) by (unfold B; apply Z.mul_pos_pos; [lia|apply Z.pow_pos_nonneg; lia]).
  destruct s; cbn [cond_Zopp].
  - replace (- A + - B) with (- (A + B)) by lia.
    destruct (A + B) as [|n|n] eqn:Hn; try lia. reflexivity.
  - destruct (A + B) as [|n|n] eqn:Hn; try lia. reflexivity.
Qed.

(** ** ROUND_NUM rounds half away from zero *)

Lemma pow2_le a b : 0 <= a <= b -> 2 ^ a <= 2 ^ b.
Proof. intros H. apply Z.pow_le_mono_r; lia. Qed.

Lemma pow2_lt a b : 0 <= a < b -> 2 ^ a < 2 ^ b.
Proof. intros H. apply Z.pow_lt_mono_r; lia. Qed.

Lemma pow2_split a b : 0 <= a -> 0 <= b -> 2 ^ (a + b) = 2 ^ a * 2 ^ b.
Proof. intros. apply Z.pow_add_r; lia. Qed.

(** Numbers without fractional bits: adding the constant changes nothing. *)
Lemma round_integral s m e :
  2 ^ 52 <= Zpos m < 2 ^ 53 -> 0 <= e <= 971 ->
  SFadd prec emax (S754_finite s m e) (halfBelow s) = S754_finite s m e.
Proof.
  intros Hm He. unfold halfBelow. rewrite SFadd_same_sign.
  rewrite Z.min_r by lia. replace (-54 - -54) with 0 by lia.
  change (2 ^ 0) with 1. rewrite Z.mul_1_r.
  set (p := e - -54).
  assert (Hp : 54 <= p) by (unfold p; lia).
  assert (H54 : 2 ^ 54 <= 2 ^ p) by (apply pow2_le; lia).
  set (N := Zpos m * 2 ^ p + 9007199254740991).
  assert (HN : 0 < N) by (unfold N; lia).
  assert (HNp : Zpos (Z.to_pos N) = N) by (apply Z2Pos.id; exact HN).
  rewrite (binary_round_shift s (Z.to_pos N) (-54) p); rewrite ?HNp; try lia.
  - rewrite (roundedQuotient_eq N p (Zpos m) 9007199254740991) by (try reflexivity; lia).
    assert (H53 : 2 ^ 53 <= 2 ^ (p - 1)) by (apply pow2_le; lia).
    rewrite (proj2 (Z.ltb_ge (2 ^ (p - 1)) 9007199254740991)) by lia.
    rewrite (proj2 (Z.eqb_neq 9007199254740991 (2 ^ (p - 1)))) by lia. cbn [orb andb].
    rewrite (proj2 (Z.eqb_neq (Zpos m) (2 ^ 53))) by lia. cbn [Z.to_pos].
    f_equal. unfold p. lia.
  - unfold N. rewrite !pow2_split by lia. split; nia.
Qed.

(** Numbers with [1 .. 53] fractional bits, of magnitude at least 1/2: the
    sum is [m + 2 ^ (- e - 1)] at the exponent of [m], or half of it at the
    next exponent. *)
Lemma add_half_fractional s m e :
  2 ^ 52 <= Zpos m < 2 ^ 53 -> -53 <= e <= -1 ->
  SFadd prec emax (S754_finite s m e) (halfBelow s) =
    if Zpos m + 2 ^ (- e - 1) <=? 2 ^ 53 then
      if Zpos m + 2 ^ (- e - 1) =? 2 ^ 53 then S754_finite s (2 ^ 52)%positive (e + 1)
      else S754_finite s (Z.to_pos (Zpos m + 2 ^ (- e - 1))) e
    else S754_finite s (Z.to_pos ((Zpos m + 2 ^ (- e - 1)) / 2)) (e + 1).
Proof.
  intros Hm He. unfold halfBelow. rewrite SFadd_same_sign.
  rewrite Z.min_r by lia. replace (-54 - -54) with 0 by lia.
  change (2 ^ 0) with 1. rewrite Z.mul_1_r.
  remember (e - -54) as k eqn:Ek.
  assert (Hk : 1 <= k <= 53) by lia.
  replace (- e - 1) with (53 - k) by lia.
  set (K := 2 ^ k). set (H := 2 ^ (53 - k)).
  assert (HK : 2 <= K) by (change 2 with (2 ^ 1); apply pow2_le; lia).
  assert (HH : 1 <= H) by (change 1 with (2 ^ 0); apply pow2_le; lia).
  assert (HKH : H * K = 2 ^ 53).
  { unfold H, K. rewrite <- Z.pow_add_r by lia. f_equal. lia. }
  set (N := Zpos m * K + 9007199254740991).
  assert (HN : 0 < N) by (unfold N; nia).
  assert (HNp : Zpos (Z.to_pos N) = N) by (apply Z2Pos.id; exact HN).
  set (Q := Zpos m + H - 1).
  assert (HNQ : N = Q * K + (K - 1)) by (unfold N, Q; nia).
  assert (Hkm1 : 2 * 2 ^ (k - 1) = K).
  { unfold K. replace k with (Z.succ (k - 1)) at 2 by lia. rewrite Z.pow_succ_r by lia. lia. }
  destruct (Z.leb_spec (Zpos m + H) (2 ^ 53)) as [Hnc|Hc].
  - (* the sum keeps the exponent of [m] *)
    rewrite (binary_round_shift s (Z.to_pos N) (-54) k); rewrite ?HNp; try lia.
    + rewrite (roundedQuotient_eq N k Q (K - 1)) by (try exact HNQ; fold K; lia).
      assert (Hup : (2 ^ (k - 1) <? K - 1) || ((K - 1 =? 2 ^ (k - 1)) && Z.odd Q) = true).
      { destruct (Z.ltb_spec (2 ^ (k - 1)) (K - 1)) as [|Hle]; [reflexivity|].
        assert (K = 2) by lia. assert (k = 1).
        { destruct (Z.eq_dec k 1) as [|Hne]; [assumption|].
          assert (2 ^ 2 <= K) by (apply pow2_le; lia). lia. }
        assert (H = 2 ^ 52) by (unfold H; replace (53 - k) with 52 by lia; reflexivity).
        assert (EQ : Q = 2 ^ 53 - 1) by (unfold Q; lia).
        rewrite EQ. replace (K - 1 =? 2 ^ (k - 1)) with true by (symmetry; apply Z.eqb_eq; lia).
        reflexivity. }
      rewrite Hup. replace (Q + 1) with (Zpos m + H) by (unfold Q; lia).
      replace (-54 + k) with e by lia.
      replace (-54 + k + 1) with (e + 1) by lia.
      destruct (Zpos m + H =? 2 ^ 53); [|reflexivity].
      rewrite (proj2 (Z.leb_le (e + 1) 971)) by lia. reflexivity.
    + rewrite HNQ. rewrite !pow2_split by lia. fold K. unfold Q. split; nia.
  - (* the sum moves to the next exponent *)
    assert (Hq2 : Q = 2 * (Q / 2) + Q mod 2) by (apply Z.div_mod; lia).
    assert (Hqm : 0 <= Q mod 2 < 2) by (apply Z.mod_pos_bound; lia).
    assert (HK2 : 2 ^ (k + 1) = K * 2) by (unfold K; rewrite pow2_split by lia; reflexivity).
    rewrite (binary_round_shift s (Z.to_pos N) (-54) (k + 1)); rewrite ?HNp; try lia.
    + rewrite (roundedQuotient_eq N (k + 1) (Q / 2) (Q mod 2 * K + (K - 1)))
        by (rewrite ?HK2; nia).
      replace (k + 1 - 1) with k by lia. fold K.
      replace (-54 + (k + 1)) with (e + 1) by lia.
      assert (Hhalf : (Zpos m + H) / 2 =
                      if (K <? Q mod 2 * K + (K - 1)) ||
                         ((Q mod 2 * K + (K - 1) =? K) && Z.odd (Q / 2))
                      then Q / 2 + 1 else Q / 2).
      { replace (Zpos m + H) with (Q + 1) by (unfold Q; lia).
        assert (Hcase : Q mod 2 = 0 \/ Q mod 2 = 1) by lia.
        destruct Hcase as [E|E]; rewrite E.
        - rewrite (proj2 (Z.ltb_ge K (0 * K + (K - 1)))) by lia.
          rewrite (proj2 (Z.eqb_neq (0 * K + (K - 1)) K)) by lia. cbn [orb andb].
          symmetry. apply (Z.div_unique (Q + 1) 2 (Q / 2) 1); lia.
        - rewrite (proj2 (Z.ltb_lt K (1 * K + (K - 1)))) by lia. cbn [orb].
          symmetry. apply (Z.div_unique (Q + 1) 2 (Q / 2 + 1) 0); lia. }
      rewrite <- Hhalf.
      assert (Hlt : (Zpos m + H) / 2 < 2 ^ 53).
      { apply Z.div_lt_upper_bound; [lia|]. 
        assert (H <= 2 ^ 52) by (unfold H; apply pow2_le; lia). lia. }
      rewrite (proj2 (Z.eqb_neq ((Zpos m + H) / 2) (2 ^ 53))) by lia.
      reflexivity.
    + rewrite HNQ. rewrite !pow2_split by lia. fold K.
      assert (H <= 2 ^ 52) by (unfold H; apply pow2_le; lia).
      unfold Q. split; nia.
Qed.

Lemma SFround_toZero s m e :
  e < 0 ->
  SFround RoundingModeX64.RoundToZero (S754_finite s m e) =
    binary_normalize prec emax (cond_Zopp s (Zpos m / 2 ^ (- e))) 0 s.
Proof.
  intros He. unfold SFround. rewrite (proj2 (Z.leb_gt 0 e)) by lia. reflexivity.
Qed.

Lemma round_fractional s m e :
  2 ^ 52 <= Zpos m < 2 ^ 53 -> -53 <= e <= -1 ->
  SFround RoundingModeX64.RoundToZero (SFadd prec emax (S754_finite s m e) (halfBelow s)) =
    nearestHalfAway (S754_finite s m e).
Proof.
  intros Hm He. rewrite add_half_fractional by assumption.
  unfold nearestHalfAway. rewrite (proj2 (Z.leb_gt 0 e)) by lia.
  set (H := 2 ^ (- e - 1)).
  assert (HH : 1 <= H) by (change 1 with (2 ^ 0); apply pow2_le; lia).
  assert (HD : 2 ^ (- e) = 2 * H).
  { unfold H. replace (- e) with (Z.succ (- e - 1)) at 1 by lia. rewrite Z.pow_succ_r by lia. lia. }
  rewrite HD.
  destruct (Z.leb_spec (Zpos m + H) (2 ^ 53)) as [Hnc|Hc].
  - destruct (Z.eqb_spec (Zpos m + H) (2 ^ 53)) as [E|NE].
    + rewrite E. destruct (Z.eq_dec e (-1)) as [->|Hne].
      * destruct s; reflexivity.
      * rewrite SFround_toZero by lia.
        replace (- (e + 1)) with (- e - 1) by lia. fold H.
        do 2 f_equal. change (2 ^ 53) with (2 * 2 ^ 52).
        symmetry. apply Z.div_mul_cancel_l; lia.
    + rewrite SFround_toZero by lia. rewrite HD.
      rewrite Z2Pos.id by lia. reflexivity.
  - assert (2 <= H).
    { destruct (Z.eq_dec H 1); lia. }
    assert (e <= -2).
    { destruct (Z.eq_dec e (-1)) as [->|]; [|lia]. unfold H in *. cbn in *. lia. }
    rewrite SFround_toZero by lia.
    replace (- (e + 1)) with (- e - 1) by lia. fold H.
    rewrite Z2Pos.id by (apply Z.div_str_pos; lia).
    rewrite Z.div_div by lia. reflexivity.
Qed.

Lemma roundedQuotient_le M p :
  roundedQuotient M p <= M / 2 ^ p + 1 /\
  (M mod 2 ^ p = 0 -> 0 < p -> roundedQuotient M p = M / 2 ^ p).
Proof.
  unfold roundedQuotient. split.
  - destruct (_ || _); lia.
  - intros Hr Hp. rewrite Hr.
    assert (0 < 2 ^ (p - 1)) by (apply Z.pow_pos_nonneg; lia).
    rewrite (proj2 (Z.ltb_ge (2 ^ (p - 1)) 0)) by lia.
    rewrite (proj2 (Z.eqb_neq 0 (2 ^ (p - 1)))) by lia. reflexivity.
Qed.

(** Numbers below 1/2: the sum stays below 1. *)
Lemma add_half_small s m e :
  validFinite m e -> e <= -54 ->
  exists m' e',
    SFadd prec emax (S754_finite s m e) (halfBelow s) = S754_finite s m' e' /\
    e' < 0 /\ Zpos m' < 2 ^ (- e') /\ validFinite m' e'.
Proof.
  intros Hv He.
  assert (Hm : Zpos m < 2 ^ 53 /\ -1074 <= e) by (destruct Hv as [[-> ?]|[? ?]]; lia).
  destruct Hm as [Hm Hlo].
  unfold halfBelow. rewrite SFadd_same_sign.
  rewrite Z.min_l by lia. replace (e - e) with 0 by lia.
  change (2 ^ 0) with 1. rewrite Z.mul_1_r.
  remember (-54 - e) as t eqn:Et.
  assert (Ht : 0 <= t) by lia.
  set (T := 2 ^ t).
  assert (HT : 1 <= T) by (change 1 with (2 ^ 0); apply pow2_le; lia).
  set (N := Zpos m + 9007199254740991 * T).
  assert (HN : 0 < N) by (unfold N; nia).
  assert (HNp : Zpos (Z.to_pos N) = N) by (apply Z2Pos.id; exact HN).
  assert (HT1 : 2 ^ (t + 1) = T * 2) by (unfold T; rewrite pow2_split by lia; reflexivity).
  destruct (Z.lt_ge_cases N (2 ^ 53 * T)) as [Hnc|Hc].
  - (* 53 + t digits *)
    assert (2 <= T) by (unfold N in Hnc; lia).
    assert (1 <= t).
    { destruct (Z.eq_dec t 0) as [->|]; [|lia]. unfold T in *. cbn in *. lia. }
    assert (HNb : 2 ^ (52 + t) <= N < 2 ^ (53 + t)).
    { rewrite !pow2_split by lia. fold T. unfold N. split; nia. }
    rewrite (binary_round_shift s (Z.to_pos N) e t); rewrite ?HNp; try lia.
    assert (Hq : 2 ^ 52 <= roundedQuotient N t <= 2 ^ 52 + 2 ^ 52).
    { apply roundedQuotient_bounds; [lia|lia|]. fold T.
      rewrite !pow2_split in HNb by lia. fold T in HNb. lia. }
    replace (e + t) with (-54) by lia.
    destruct (Z.eqb_spec (roundedQuotient N t) (2 ^ 53)) as [E|NE].
    + cbn. do 2 eexists. split; [reflexivity|]. split; [lia|]. split; [reflexivity|].
      right. split; [cbn; lia|lia].
    + do 2 eexists. split; [reflexivity|]. split; [lia|].
      rewrite Z2Pos.id by lia. change (2 ^ (- -54)) with (2 ^ 54).
      split; [lia|]. right. lia.
  - (* 54 + t digits *)
    assert (HNb : 2 ^ (52 + (t + 1)) <= N < 2 ^ (53 + (t + 1))).
    { replace (52 + (t + 1)) with (53 + t) by lia. replace (53 + (t + 1)) with (54 + t) by lia.
      rewrite !pow2_split by lia. fold T. unfold N. split; nia. }
    rewrite (binary_round_shift s (Z.to_pos N) e (t + 1)); rewrite ?HNp; try lia.
    assert (Hq : 2 ^ 52 <= roundedQuotient N (t + 1) < 2 ^ 53).
    { split.
      - apply (roundedQuotient_bounds N (t + 1) (2 ^ 52)); [lia|lia|].
        rewrite HT1. rewrite !pow2_split in HNb by lia. fold T in HNb.
        change (2 ^ 1) with 2 in HNb. lia.
      - destruct (roundedQuotient_le N (t + 1)) as [Hle Hex]. rewrite HT1 in *.
        destruct (Z.lt_ge_cases N (9007199254740991 * (T * 2))) as [Hlt|Hge].
        + assert (N / (T * 2) < 9007199254740991) by (apply Z.div_lt_upper_bound; lia).
          lia.
        + assert (EN : N = 9007199254740991 * (T * 2)) by (unfold N in *; nia).
          rewrite Hex; [| |lia].
          * rewrite EN, Z.div_mul by lia. lia.
          * rewrite EN, Z.mod_mul by lia. reflexivity. }
    rewrite (proj2 (Z.eqb_neq (roundedQuotient N (t + 1)) (2 ^ 53))) by lia.
    replace (e + (t + 1)) with (-53) by lia.
    do 2 eexists. split; [reflexivity|]. split; [lia|].
    rewrite Z2Pos.id by lia. change (2 ^ (- -53)) with (2 ^ 53).
    split; [lia|]. right. lia.
Qed.

Lemma round_small s m e :
  validFinite m e -> e <= -54 ->
  SFround RoundingModeX64.RoundToZero (SFadd prec emax (S754_finite s m e) (halfBelow s)) =
    nearestHalfAway (S754_finite s m e).
Proof.
  intros Hv He.
  destruct (add_half_small s m e Hv He) as (m' & e' & -> & He' & Hm' & _).
  rewrite SFround_toZero by exact He'.
  rewrite Z.div_small by lia.
  unfold nearestHalfAway. rewrite (proj2 (Z.leb_gt 0 e)) by lia.
  rewrite Z.div_small; [reflexivity|].
  assert (Hm : Zpos m < 2 ^ 53) by (destruct Hv as [[-> ?]|[? ?]]; lia).
  assert (H53 : 2 ^ 53 <= 2 ^ (- e - 1)) by (apply pow2_le; lia).
  assert (HD : 2 ^ (- e) = 2 * 2 ^ (- e - 1)).
  { replace (- e) with (Z.succ (- e - 1)) at 1 by lia. rewrite Z.pow_succ_r by lia. lia. }
  lia.
Qed.

(** The sum and the truncation, for every finite binary64 number. *)
Lemma round_finite s m e :
  validFinite m e ->
  SFround RoundingModeX64.RoundToZero (SFadd prec emax (S754_finite s m e) (halfBelow s)) =
    nearestHalfAway (S754_finite s m e).
Proof.
  intros Hv.
  destruct (Z.le_gt_cases e (-54)) as [He|He]; [apply round_small; assumption|].
  destruct Hv as [[-> _]|[Hm Hr]]; [lia|].
  destruct (Z.le_gt_cases 0 e) as [He0|He0].
  - rewrite round_integral by lia.
    unfold SFround, nearestHalfAway. rewrite (proj2 (Z.leb_le 0 e)) by lia. reflexivity.
  - apply round_fractional; [assumption|lia].
Qed.

(** The sum is again a binary64 number of the same sign. *)
Lemma add_half_valid s m e :
  validFinite m e ->
  exists m' e',
    SFadd prec emax (S754_finite s m e) (halfBelow s) = S754_finite s m' e' /\
    validFinite m' e'.
Proof.
  intros Hv.
  destruct (Z.le_gt_cases e (-54)) as [He|He].
  { destruct (add_half_small s m e Hv He) as (m' & e' & H & _ & _ & Hv'). eauto. }
  destruct Hv as [[-> _]|[Hm Hr]]; [lia|].
  destruct (Z.le_gt_cases 0 e) as [He0|He0].
  { rewrite round_integral by lia. exists m, e. split; [reflexivity|right; lia]. }
  rewrite add_half_fractional by lia.
  set (H := 2 ^ (- e - 1)).
  assert (HH : 1 <= H <= 2 ^ 52).
  { unfold H. split; [change 1 with (2 ^ 0)|]; apply pow2_le; lia. }
  destruct (Z.leb_spec (Zpos m + H) (2 ^ 53)) as [Hnc|Hc].
  - destruct (Z.eqb_spec (Zpos m + H) (2 ^ 53)).
    + do 2 eexists. split; [reflexivity|]. right. split; [cbn; lia|lia].
    + do 2 eexists. split; [reflexivity|]. right. rewrite Z2Pos.id by lia. lia.
  - do 2 eexists. split; [reflexivity|]. right.
    assert (2 ^ 52 <= (Zpos m + H) / 2 < 2 ^ 53).
    { split; [apply Z.div_le_lower_bound; lia|apply Z.div_lt_upper_bound; lia]. }
    rewrite Z2Pos.id by lia. lia.
Qed.

(** *** Bit patterns *)

Lemma testbit_sign s y : 0 <= y < 2 ^ 63 -> Z.testbit (sign_bit s + y) 63 = s.
Proof.
  intros Hy. rewrite Z.testbit_odd, Z.shiftr_div_pow2 by lia.
  destruct s; unfold sign_bit.
  - rewrite <- (Z.div_unique (2 ^ 63 + y) (2 ^ 63) 1 y) by lia. reflexivity.
  - rewrite Z.add_0_l, Z.div_small by lia. reflexivity.
Qed.

Lemma sign_bit_div s y k :
  0 <= y < 2 ^ 63 -> 0 <= k <= 63 ->
  (sign_bit s + y) / 2 ^ k = sign_bit s / 2 ^ k + y / 2 ^ k /\
  (sign_bit s + y) mod 2 ^ k = y mod 2 ^ k.
Proof.
  intros Hy Hk. destruct s; unfold sign_bit; [|rewrite Z.div_0_l by lia; split; f_equal; lia].
  replace (2 ^ 63) with (2 ^ (63 - k) * 2 ^ k) by (rewrite <- Z.pow_add_r by lia; f_equal; lia).
  assert (0 < 2 ^ k) by (apply Z.pow_pos_nonneg; lia).
  rewrite Z.div_add_l, Z.div_mul by lia.
  split; [reflexivity|].
  rewrite Z.add_comm, Z.mod_add by lia. reflexivity.
Qed.

Lemma b64_roundtrip_finite s m e :
  validFinite m e -> b64_to_sf (sf_to_b64 (S754_finite s m e)) = S754_finite s m e.
Proof.
  intros Hv. unfold sf_to_b64.
  destruct (Z.ltb_spec (Zpos m) (2 ^ 52)) as [Hsub|Hnorm].
  - assert (e = -1074) by (destruct Hv as [[? ?]|[? ?]]; lia). subst e.
    unfold b64_to_sf. rewrite testbit_sign by lia.
    destruct (sign_bit_div s (Zpos m) 52 ltac:(lia) ltac:(lia)) as [Hd Hm].
    rewrite Hd, Hm. rewrite (Z.div_small (Zpos m)), (Z.mod_small (Zpos m)) by lia.
    rewrite Z.add_0_r.
    replace ((sign_bit s / 2 ^ 52) mod 2 ^ 11) with 0 by (destruct s; reflexivity).
    reflexivity.
  - assert (Hr : Zpos m < 2 ^ 53 /\ -1074 <= e <= 971) by (destruct Hv as [[? ?]|[? ?]]; lia).
    set (y := (e + 1075) * 2 ^ 52 + (Zpos m - 2 ^ 52)).
    replace (sign_bit s + (e + 1075) * 2 ^ 52 + (Zpos m - 2 ^ 52)) with (sign_bit s + y)
      by (unfold y; lia).
    assert (Hy : 0 <= y < 2 ^ 63) by (unfold y; lia).
    unfold b64_to_sf. rewrite testbit_sign by exact Hy.
    destruct (sign_bit_div s y 52 Hy ltac:(lia)) as [Hd Hm].
    rewrite Hd, Hm.
    assert (Hyd : y / 2 ^ 52 = e + 1075).
    { symmetry. apply (Z.div_unique y (2 ^ 52) (e + 1075) (Zpos m - 2 ^ 52)); unfold y; lia. }
    assert (Hym : y mod 2 ^ 52 = Zpos m - 2 ^ 52).
    { symmetry. apply (Z.mod_unique y (2 ^ 52) (e + 1075) (Zpos m - 2 ^ 52)); unfold y; lia. }
    rewrite Hyd, Hym.
    replace ((sign_bit s / 2 ^ 52 + (e + 1075)) mod 2 ^ 11) with (e + 1075).
    + rewrite (proj2 (Z.eqb_neq (e + 1075) 0)) by lia.
      rewrite (proj2 (Z.eqb_neq (e + 1075) 2047)) by lia.
      replace (Zpos m - 2 ^ 52 + 2 ^ 52) with (Zpos m) by lia.
      f_equal. lia.
    + destruct s; unfold sign_bit.
      * change (2 ^ 63 / 2 ^ 52) with (2 ^ 11).
        apply (Z.mod_unique (2 ^ 11 + (e + 1075)) (2 ^ 11) 1 (e + 1075)); lia.
      * rewrite Z.div_0_l, Z.add_0_l, Z.mod_small by lia. reflexivity.
Qed.

Lemma b64_to_sf_valid x :
  match b64_to_sf x with
  | S754_finite s m e => s = Z.testbit x 63 /\ validFinite m e
  | S754_zero s | S754_infinity s => s = Z.testbit x 63
  | S754_nan => True
  end.
Proof.
  unfold b64_to_sf.
  assert (Hex : 0 <= (x / 2 ^ 52) mod 2 ^ 11 < 2 ^ 11) by (apply Z.mod_pos_bound; lia).
  assert (Hm : 0 <= x mod 2 ^ 52 < 2 ^ 52) by (apply Z.mod_pos_bound; lia).
  destruct (Z.eqb_spec ((x / 2 ^ 52) mod 2 ^ 11) 0) as [E0|N0].
  - destruct (x mod 2 ^ 52) as [|p|p] eqn:Ep; try reflexivity.
    split; [reflexivity|left; lia].
  - destruct (Z.eqb_spec ((x / 2 ^ 52) mod 2 ^ 11) 2047) as [E1|N1].
    + destruct (x mod 2 ^ 52 =? 0); [reflexivity|exact I].
    + destruct (x mod 2 ^ 52 + 2 ^ 52) as [|p|p] eqn:Ep; try exact I.
      split; [reflexivity|right; lia].
Qed.

Lemma copysign_half x :
  b64_to_sf (f64_copysign 0x3fdfffffffffffff x) = halfBelow (Z.testbit x 63).
Proof. unfold f64_copysign. destruct (Z.testbit x 63); reflexivity. Qed.

Lemma f64_isNaN_spec x : f64_isNaN x = true <-> b64_to_sf x = S754_nan.
Proof.
  unfold f64_isNaN, b64_to_sf.
  assert (Hm : 0 <= x mod 2 ^ 52 < 2 ^ 52) by (apply Z.mod_pos_bound; lia).
  destruct (Z.eqb_spec ((x / 2 ^ 52) mod 2 ^ 11) 0) as [E0|N0].
  - rewrite E0. cbn [Z.eqb andb]. destruct (x mod 2 ^ 52); split; discriminate.
  - destruct (Z.eqb_spec ((x / 2 ^ 52) mod 2 ^ 11) 2047) as [E1|N1]; cbn [andb].
    + destruct (x mod 2 ^ 52 =? 0); cbn [negb]; split; congruence.
    + destruct (x mod 2 ^ 52 + 2 ^ 52) as [|p|p] eqn:Ep; try lia. split; discriminate.
Qed.

Lemma f64_isNaN_false x : b64_to_sf x <> S754_nan -> f64_isNaN x = false.
Proof.
  intros H. destruct (f64_isNaN x) eqn:E; [|reflexivity].
  apply f64_isNaN_spec in E. contradiction.
Qed.

(** The bit pattern of a binary64 number is not that of a NaN. *)
Lemma f64_isNaN_finite s m e : validFinite m e -> f64_isNaN (sf_to_b64 (S754_finite s m e)) = false.
Proof.
  intros Hv. apply f64_isNaN_false. rewrite b64_roundtrip_finite by exact Hv. discriminate.
Qed.

(** ROUND_NUM on every bit pattern that is not a NaN: the nearest integer,
    ties away from zero. *)
Lemma roundHalfAway_nearest x :
  f64_isNaN x = false ->
  roundHalfAway x = sf_to_b64 (nearestHalfAway (b64_to_sf x)).
Proof.
  intros Hnan.
  assert (Hhalf : f64_isNaN (f64_copysign 0x3fdfffffffffffff x) = false).
  { unfold f64_copysign. destruct (Z.testbit x 63); reflexivity. }
  unfold roundHalfAway, f64_round, f64_add, f64_binary. rewrite Hnan, Hhalf, copysign_half.
  pose proof (b64_to_sf_valid x) as Hx.
  assert (Hnn : b64_to_sf x <> S754_nan).
  { intros E. apply f64_isNaN_spec in E. congruence. }
  destruct (b64_to_sf x) as [s|s| |s m e].
  - subst s. destruct (Z.testbit x 63); reflexivity.
  - subst s. destruct (Z.testbit x 63); reflexivity.
  - contradiction.
  - destruct Hx as [<- Hv].
    destruct (add_half_valid s m e Hv) as (m' & e' & Hadd & Hv').
    rewrite <- (round_finite s m e Hv). rewrite Hadd.
    rewrite (f64_isNaN_finite s m' e' Hv').
    rewrite b64_roundtrip_finite by exact Hv'. reflexivity.
Qed.

Lemma f64_quiet_range x : f64_quiet x mod 2 ^ 64 = f64_quiet x.
Proof.
  unfold f64_quiet. apply Z.bits_inj'. intros n Hn.
  destruct (Z.ltb_spec n 64) as [Hlt|Hge].
  - rewrite Z.mod_pow2_bits_low by lia. reflexivity.
  - rewrite Z.mod_pow2_bits_high by lia.
    rewrite Z.lor_spec, Z.mod_pow2_bits_high by lia.
    rewrite Z.pow2_bits_false by lia. reflexivity.
Qed.

Lemma f64_quiet_idempotent x : f64_quiet (f64_quiet x) = f64_quiet x.
Proof.
  unfold f64_quiet at 1. rewrite f64_quiet_range. unfold f64_quiet.
  rewrite <- Z.lor_assoc, Z.lor_diag. reflexivity.
Qed.

Lemma f64_quiet_exponent x : (f64_quiet x / 2 ^ 52) mod 2 ^ 11 = (x / 2 ^ 52) mod 2 ^ 11.
Proof.
  unfold f64_quiet.
  rewrite <- !Z.shiftr_div_pow2 by lia. rewrite <- !Z.land_ones by lia.
  apply Z.bits_inj'. intros n Hn.
  rewrite !Z.land_spec, !Z.shiftr_spec, Z.lor_spec, Z.land_spec by lia.
  destruct (Z.ltb_spec n 11) as [Hlt|Hge].
  - rewrite (Z.ones_spec_low 64 (n + 52)) by lia.
    rewrite (Z.pow2_bits_false 51 (n + 52)) by lia. rewrite orb_false_r, andb_true_r. reflexivity.
  - rewrite !(Z.ones_spec_high 11 n) by lia. rewrite !andb_false_r. reflexivity.
Qed.

Lemma f64_quiet_fraction x : f64_quiet x mod 2 ^ 52 <> 0.
Proof.
  intros E.
  assert (H : Z.testbit (f64_quiet x mod 2 ^ 52) 51 = true).
  { rewrite Z.mod_pow2_bits_low by lia. unfold f64_quiet.
    rewrite Z.lor_spec, Z.pow2_bits_true by lia. apply orb_true_r. }
  rewrite E in H. rewrite Z.bits_0 in H. discriminate.
Qed.

Lemma f64_quiet_isNaN x : f64_isNaN x = true -> f64_isNaN (f64_quiet x) = true.
Proof.
  unfold f64_isNaN at 1 2. intros H. apply andb_true_iff in H as [Hex _].
  rewrite f64_quiet_exponent, Hex. cbn [andb].
  rewrite (proj2 (Z.eqb_neq _ _) (f64_quiet_fraction x)). reflexivity.
Qed.

(** Sign and payload are kept. *)
Lemma f64_quiet_bits x n :
  0 <= n < 64 -> n <> 51 -> Z.testbit (f64_quiet x) n = Z.testbit x n.
Proof.
  intros Hn Hne. unfold f64_quiet. rewrite Z.lor_spec, Z.mod_pow2_bits_low by lia.
  rewrite Z.pow2_bits_false by lia. apply orb_false_r.
Qed.

(** ROUND_NUM of a NaN is that NaN, made quiet. *)
Lemma roundHalfAway_nan x : f64_isNaN x = true -> roundHalfAway x = f64_quiet x.
Proof.
  intros Hnan. unfold roundHalfAway, f64_round, f64_add, f64_binary. rewrite Hnan.
  rewrite (f64_quiet_isNaN x Hnan). apply f64_quiet_idempotent.
Qed.

(** *** The value of the result *)

(** An integer below [2 ^ 53] is a binary64 number. *)
Lemma binary_round_exact s M d :
  2 ^ (d - 1) <= Zpos M < 2 ^ d -> 1 <= d <= 53 ->
  binary_round prec emax s M 0 = S754_finite s (Z.to_pos (Zpos M * 2 ^ (53 - d))) (d - 53).
Proof.
  intros HM Hd.
  assert (Hdig : Zpos (digits2_pos M) = d) by (apply Zdigits2_bounds; [exact HM|lia]).
  unfold binary_round. rewrite Hdig, Z.add_0_r. rewrite fexp_normal by lia.
  assert (Hal : shl_align M 0 (d - 53) = (Z.to_pos (Zpos M * 2 ^ (53 - d)), d - 53)).
  { unfold shl_align. destruct (d - 53 - 0) as [|q|q] eqn:Eq; try lia.
    - replace (53 - d) with 0 by lia. replace (d - 53) with 0 by lia.
      rewrite Z.mul_1_r. reflexivity.
    - f_equal. apply Pos2Z.inj. rewrite pos_iter_xO, Z2Pos.id.
      + f_equal. f_equal. lia.
      + apply Z.mul_pos_pos; [lia|apply Z.pow_pos_nonneg; lia]. }
  rewrite Hal.
  set (M' := Zpos M * 2 ^ (53 - d)).
  assert (HM' : 2 ^ 52 <= M' < 2 ^ 53).
  { unfold M'.
    replace (2 ^ 52) with (2 ^ (d - 1) * 2 ^ (53 - d))
      by (rewrite <- Z.pow_add_r by lia; f_equal; lia).
    replace (2 ^ 53) with (2 ^ d * 2 ^ (53 - d))
      by (rewrite <- Z.pow_add_r by lia; f_equal; lia).
    assert (0 < 2 ^ (53 - d)) by (apply Z.pow_pos_nonneg; lia). nia. }
  destruct M' as [|P|P] eqn:EM'; try lia. cbn [Z.to_pos].
  assert (HdP : Zpos (digits2_pos P) = 53).
  { apply Zdigits2_bounds; [|lia]. change (2 ^ (53 - 1)) with (2 ^ 52). lia. }
  unfold binary_round_aux, shr_fexp. cbn [Zdigits2 shr_record_of_loc]. rewrite HdP.
  rewrite fexp_normal by lia.
  replace (53 + (d - 53) - 53 - (d - 53)) with 0 by lia.
  cbn [shr shr_m loc_of_shr_record round_nearest_even Zdigits2]. rewrite HdP.
  rewrite fexp_normal by lia.
  replace (53 + (d - 53) - 53 - (d - 53)) with 0 by lia.
  cbn [shr shr_m].
  replace (d - 53 <=? emax - prec) with true
    by (symmetry; apply Z.leb_le; unfold emax, prec; lia).
  reflexivity.
Qed.

Lemma binary_normalize_integer s n :
  0 <= n < 2 ^ 53 ->
  integerValue (binary_normalize prec emax (cond_Zopp s n) 0 s) = Some (cond_Zopp s n) /\
  signOf (binary_normalize prec emax (cond_Zopp s n) 0 s) = Some s.
Proof.
  intros Hn. destruct (Z.eq_dec n 0) as [->|Hnz].
  { destruct s; split; reflexivity. }
  destruct n as [|M|M] eqn:En; try lia.
  assert (Hnorm : binary_normalize prec emax (cond_Zopp s (Zpos M)) 0 s =
                  binary_round prec emax s M 0) by (destruct s; reflexivity).
  rewrite Hnorm.
  set (d := Z.log2 (Zpos M) + 1).
  assert (Hlog : 0 <= Z.log2 (Zpos M) < 53).
  { split; [apply Z.log2_nonneg|]. apply Z.log2_lt_pow2; lia. }
  assert (Hb : 2 ^ (d - 1) <= Zpos M < 2 ^ d).
  { unfold d. replace (Z.log2 (Zpos M) + 1 - 1) with (Z.log2 (Zpos M)) by lia.
    replace (Z.log2 (Zpos M) + 1) with (Z.succ (Z.log2 (Zpos M))) by lia.
    apply Z.log2_spec. lia. }
  rewrite (binary_round_exact s M d Hb) by (unfold d; lia).
  assert (HP : 0 < 2 ^ (53 - d)) by (apply Z.pow_pos_nonneg; unfold d; lia).
  cbn [integerValue signOf]. split; [|reflexivity].
  rewrite Z2Pos.id by (apply Z.mul_pos_pos; lia).
  destruct (Z.leb_spec 0 (d - 53)) as [H0|H0].
  - replace (d - 53) with 0 by (unfold d in *; lia).
    replace (53 - d) with 0 by (unfold d in *; lia).
    change (2 ^ 0) with 1. rewrite !Z.mul_1_r. reflexivity.
  - replace (- (d - 53)) with (53 - d) by lia.
    rewrite Z.mod_mul, Z.div_mul by lia. reflexivity.
Qed.

(** The value of [nearestHalfAway]: the magnitude rounded half up, with the
    sign of the argument, also when the result is zero. *)
Lemma nearestHalfAway_value s m e :
  validFinite m e ->
  integerValue (nearestHalfAway (S754_finite s m e)) = Some (cond_Zopp s (halfAwayMagnitude m e)) /\
  signOf (nearestHalfAway (S754_finite s m e)) = Some s.
Proof.
  intros Hv. unfold nearestHalfAway, halfAwayMagnitude.
  destruct (Z.leb_spec 0 e) as [He|He].
  - cbn [integerValue signOf]. rewrite (proj2 (Z.leb_le 0 e)) by lia. split; reflexivity.
  - apply binary_normalize_integer.
    assert (Hm : Zpos m < 2 ^ 53) by (destruct Hv as [[? ?]|[? ?]]; lia).
    assert (HH : 1 <= 2 ^ (- e - 1)) by (change 1 with (2 ^ 0); apply pow2_le; lia).
    assert (HD : 2 ^ (- e) = 2 * 2 ^ (- e - 1)).
    { replace (- e) with (Z.succ (- e - 1)) at 1 by lia. rewrite Z.pow_succ_r by lia. lia. }
    split; [apply Z.div_pos; lia|].
    apply Z.div_lt_upper_bound; [lia|]. rewrite HD. nia.
Qed.

(** C1.  The code lowered for ROUND_NUM leaves in the result register
    [trunc(x + copysign(0.49999999999999994, x))] for every source bit
    pattern [x], whatever the kind of the source operand: the sign is taken
    with the mask -0.0, the magnitude is the constant 0x3fdfffffffffffff,
    the sum is rounded to nearest and then truncated toward zero.  For every
    [x] that is not a NaN this is the nearest integer with ties away from
    zero: a finite [x] of magnitude [m * 2 ^ e] gives the integer
    [floor (m * 2 ^ e + 1/2)] with the sign of [x], and zeros and infinities
    are kept.  A NaN stays the NaN it is, with its sign and payload, made
    quiet.  On the doubles 0.5, -0.5, 2.5 and 0.49999999999999994 this gives
    1, -1, 3 and 0. *)
Theorem round_num_formula LUA_TNIL LUA_TBOOLEAN kVmExitEntryGuardPc restore alloc inst idx next
    L src :
  cmd inst = IrCmd.ROUND_NUM ->
  registerDouble L idx (a inst) src \/ memoryDouble L (a inst) src ->
  size (instReg alloc) = SizeX64.xmmword ->
  size (scoped1 alloc) = SizeX64.xmmword ->
  size (scoped2 alloc) = SizeX64.xmmword ->
  regIndex (instReg alloc) <> regIndex (scoped1 alloc) ->
  regIndex (instReg alloc) <> regIndex (scoped2 alloc) ->
  regIndex (scoped1 alloc) <> regIndex (scoped2 alloc) ->
  exists frag,
    emitted (lowerInst LUA_TNIL LUA_TBOOLEAN kVmExitEntryGuardPc restore alloc inst idx next) L
      = Some frag /\
    (forall st x, lowLane st src = Some x ->
       exists st',
         run frag st = Fallthrough st' /\
         fst (xmm st' (regIndex (instReg alloc))) = roundHalfAway x) /\
    (forall x, f64_isNaN x = false ->
       roundHalfAway x = sf_to_b64 (nearestHalfAway (b64_to_sf x))) /\
    (forall x, f64_isNaN x = true -> roundHalfAway x = f64_quiet x) /\
    (forall s m e, validFinite m e ->
       integerValue (nearestHalfAway (S754_finite s m e)) =
         Some (cond_Zopp s (halfAwayMagnitude m e)) /\
       signOf (nearestHalfAway (S754_finite s m e)) = Some s) /\
    roundHalfAway 0x3fe0000000000000 = 0x3ff0000000000000 /\
    roundHalfAway 0xbfe0000000000000 = 0xbff0000000000000 /\
    roundHalfAway 0x4004000000000000 = 0x4008000000000000 /\
    roundHalfAway 0x3fdfffffffffffff = 0.
Proof.
  intros Hcmd Hsrc Hsd Hs1 Hs2 Hd1 Hd2 H12.
  eexists. split;
    [apply (lower_ROUND_NUM_emitted LUA_TNIL LUA_TBOOLEAN kVmExitEntryGuardPc restore
              alloc inst idx next L src Hcmd Hsrc)|].
  split; [|split; [exact roundHalfAway_nearest|]; split; [exact roundHalfAway_nan|];
            split; [exact nearestHalfAway_value|]; repeat split; vm_compute; reflexivity].
  destruct alloc as [[sd d] [s1 t1] [s2 t2] r3]. cbn [instReg scoped1 scoped2 size regIndex] in *.
  subst sd s1 s2.
  intros st x Hx. unfold roundPrefix, lowLane in *.
  destruct Hsrc as [(ra & _ & _ & Hsz & ->) | [(c & _ & ->) | [[_ ->] | [_ ->]]]].
  - destruct ra as [sa ai]. cbn [size] in Hsz. subst sa.
    cbn [readXmm isXmm size regIndex] in Hx. inversion Hx as [Hx'].
    destruct (RegisterX64_eqb _ _) eqn:E.
    + apply RegisterX64_eqb_eq in E. inversion E; subst ai. cbn [app].
      apply run_roundBody; auto.
    + cbn [app]. erewrite run_cons_step; [|reflexivity|exact I].
      apply run_roundBody; auto. rewrite xmm_writeXmm_same. reflexivity.
  - cbn [build_f64 readXmm] in Hx. inversion Hx as [Hx'].
    cbn [app build_f64]. erewrite run_cons_step; [|reflexivity|exact I].
    apply run_roundBody; auto. rewrite xmm_writeXmm_same. reflexivity.
  - cbn [luauRegValue readXmm] in Hx. inversion Hx as [Hx'].
    cbn [app luauRegValue]. erewrite run_cons_step; [|reflexivity|exact I].
    apply run_roundBody; auto. rewrite xmm_writeXmm_same. reflexivity.
  - cbn [luauConstantValue readXmm] in Hx. inversion Hx as [Hx'].
    cbn [app luauConstantValue]. erewrite run_cons_step; [|reflexivity|exact I].
    apply run_roundBody; auto. rewrite xmm_writeXmm_same. reflexivity.
Qed.

Lemma lower_MOD_NUM_emitted LUA_TNIL LUA_TBOOLEAN kVmExitEntryGuardPc restore alloc inst idx next
    L srca srcb :
  cmd inst = IrCmd.MOD_NUM ->
  registerDouble L idx (a inst) srca \/ (exists x, doubleConstant L (a inst) x /\ srca = build_f64 x) ->
  registerDouble L idx (b inst) srcb \/ memoryDouble L (b inst) srcb ->
  emitted (lowerInst LUA_TNIL LUA_TBOOLEAN kVmExitEntryGuardPc restore alloc inst idx next) L =
    Some (modPrefix (scoped1 alloc) srca ++
          modBody (instReg alloc) (modLhs (scoped1 alloc) srca)
            (scoped2 alloc) (scoped3 alloc) srcb).
Proof.
  intros Hcmd Hsrca Hsrcb. unfold emitted, lowerInst. rewrite Hcmd.
  destruct Hsrca as [(ra & [Hka (sa & Hsa & Hspa & Hnra & Hra & Hnea)] & Hidxa & Hsza & ->)
                    | (xa & [Hka Hca] & ->)];
  destruct Hsrcb as [(rb & [Hkb (sb & Hsb & Hspb & Hnrb & Hrb & Hneb)] & Hidxb & Hszb & ->)
                    | [(xb & [Hkb Hcb] & ->) | [[Hkb ->] | [Hkb ->]]]];
    open_lowering L; unfold_lowering; unfold modPrefix, modBody, modLhs;
    try subst ra; try subst rb; lower_run; finish_emitted.
Qed.

Ltac exec_xmm :=
  repeat (cbn [exec step binXmm readXmm isXmm size regIndex readMem fst snd
               build_f64 luauRegValue luauConstantValue app];
          xmm_simpl).

(** ** Subtraction within rounding *)

Lemma digits_shifted M d k :
  2 ^ (d - 1) <= Zpos M < 2 ^ d -> 1 <= d -> 0 <= k ->
  2 ^ (d + k - 1) <= Zpos M * 2 ^ k < 2 ^ (d + k).
Proof.
  intros HM Hd Hk.
  replace (d + k - 1) with ((d - 1) + k) by lia.
  rewrite !Z.pow_add_r by lia.
  assert (0 < 2 ^ k) by (apply Z.pow_pos_nonneg; lia). nia.
Qed.

Lemma fexp_value x : fexp prec emax x = Z.max (x - 53) (-1074).
Proof. reflexivity. Qed.

(** A number of at most 53 digits is not rounded. *)
Lemma binary_round_noshift s M E d :
  2 ^ (d - 1) <= Zpos M < 2 ^ d -> 1 <= d <= 53 -> -1074 <= E ->
  Z.max (d + E - 53) (-1074) <= 971 ->
  binary_round prec emax s M E =
    S754_finite s (Z.to_pos (Zpos M * 2 ^ (E - Z.max (d + E - 53) (-1074))))
      (Z.max (d + E - 53) (-1074)).
Proof.
  intros HM Hd HE Hmax.
  assert (Hdig : Zpos (digits2_pos M) = d) by (apply Zdigits2_bounds; [exact HM|lia]).
  unfold binary_round. rewrite Hdig, fexp_value.
  set (e' := Z.max (d + E - 53) (-1074)) in *.
  assert (He' : e' <= E) by (unfold e'; lia).
  assert (Hal : shl_align M E e' = (Z.to_pos (Zpos M * 2 ^ (E - e')), e')).
  { unfold shl_align. destruct (e' - E) as [|q|q] eqn:Eq; try lia.
    - replace (E - e') with 0 by lia. replace e' with E by lia.
      rewrite Z.mul_1_r. reflexivity.
    - f_equal. apply Pos2Z.inj. rewrite pos_iter_xO, Z2Pos.id.
      + f_equal. f_equal. lia.
      + apply Z.mul_pos_pos; [lia|apply Z.pow_pos_nonneg; lia]. }
  rewrite Hal.
  pose proof (digits_shifted M d (E - e') HM ltac:(lia) ltac:(lia)) as HM'.
  set (M' := Zpos M * 2 ^ (E - e')) in *.
  assert (0 < 2 ^ (d + (E - e') - 1)) by (apply Z.pow_pos_nonneg; lia).
  destruct M' as [|P|P] eqn:EM'; try lia. cbn [Z.to_pos].
  assert (HdP : Zpos (digits2_pos P) = d + (E - e')).
  { apply Zdigits2_bounds; [exact HM'|lia]. }
  assert (Hf : fexp prec emax (d + (E - e') + e') = e').
  { rewrite fexp_value. unfold e'. lia. }
  unfold binary_round_aux, shr_fexp. cbn [Zdigits2 shr_record_of_loc]. rewrite HdP, Hf.
  rewrite Z.sub_diag.
  cbn [shr shr_m loc_of_shr_record round_nearest_even Zdigits2]. rewrite HdP, Hf.
  rewrite Z.sub_diag. cbn [shr shr_m].
  replace (e' <=? emax - prec) with true
    by (symmetry; apply Z.leb_le; unfold emax, prec; lia).
  reflexivity.
Qed.

(** A number of more than 53 digits is rounded to 53; past the largest
    exponent the result is an infinity. *)
Lemma binary_round_shift_any s M E p :
  1 <= p -> 2 ^ (52 + p) <= Zpos M < 2 ^ (53 + p) ->
  -1074 <= E + p ->
  binary_round prec emax s M E =
    if roundedQuotient (Zpos M) p =? 2 ^ 53 then
      if E + p + 1 <=? 971 then S754_finite s (2 ^ 52)%positive (E + p + 1) else S754_infinity s
    else if E + p <=? 971 then S754_finite s (Z.to_pos (roundedQuotient (Zpos M) p)) (E + p)
    else S754_infinity s.
Proof.
  intros Hp HM Hlo.
  destruct (Z.leb_spec (E + p) 971) as [Hhi|Hhi].
  { apply binary_round_shift; assumption. }
  assert (Hd : Zpos (digits2_pos M) = 53 + p).
  { apply Zdigits2_bounds; [|lia]. replace (53 + p - 1) with (52 + p) by lia. exact HM. }
  unfold binary_round. rewrite Hd.
  rewrite fexp_normal by lia.
  unfold shl_align. replace (53 + p + E - 53 - E) with p by lia.
  destruct p as [|pp|]; try lia.
  unfold binary_round_aux, shr_fexp. cbn [Zdigits2 shr_record_of_loc]. rewrite Hd.
  rewrite fexp_normal by lia.
  replace (53 + Zpos pp + E - 53 - E) with (Zpos pp) by lia.
  pose proof (shr_loc (Zpos M) (Zpos pp) ltac:(lia) ltac:(lia)) as Hloc.
  cbn [shr fst] in Hloc. cbn [shr]. cbv zeta in Hloc. rewrite Hloc.
  assert (Hq : 2 ^ 52 <= roundedQuotient (Zpos M) (Zpos pp) <= 2 ^ 52 + 2 ^ 52).
  { apply roundedQuotient_bounds; [lia|lia|].
    rewrite <- Z.pow_add_r by lia.
    replace ((2 ^ 52 + 2 ^ 52) * 2 ^ Zpos pp) with (2 ^ (53 + Zpos pp)).
    - exact HM.
    - rewrite (Z.pow_add_r 2 53) by lia. lia. }
  set (q := roundedQuotient (Zpos M) (Zpos pp)) in *.
  destruct (Z.eqb_spec q (2 ^ 53)) as [Eq|Nq].
  - rewrite Eq. change (Zdigits2 (2 ^ 53)) with 54.
    rewrite fexp_normal by lia.
    replace (54 + (E + Zpos pp) - 53 - (E + Zpos pp)) with 1 by lia.
    cbn [shr SpecFloat.iter_pos shr_1 shr_m].
    replace (E + Zpos pp + 1 <=? emax - prec) with (E + Zpos pp + 1 <=? 971) by reflexivity.
    reflexivity.
  - destruct q as [|qp|qp] eqn:Eqq; try lia.
    assert (Hdq : Zpos (digits2_pos qp) = 53).
    { apply Zdigits2_bounds; [|lia]. change (2 ^ (53 - 1)) with (2 ^ 52). lia. }
    cbn [Zdigits2]. rewrite Hdq. rewrite fexp_normal by lia.
    replace (53 + (E + Zpos pp) - 53 - (E + Zpos pp)) with 0 by lia.
    cbn [shr shr_m Z.to_pos].
    replace (E + Zpos pp <=? emax - prec) with false
      by (symmetry; apply Z.leb_gt; unfold emax, prec; lia).
    reflexivity.
Qed.

(** Rounding to nearest is off by at most half a unit. *)
Lemma roundedQuotient_error M p :
  0 <= M -> 1 <= p -> 2 * Z.abs (M - roundedQuotient M p * 2 ^ p) <= 2 ^ p.
Proof.
  intros HM Hp. unfold roundedQuotient.
  assert (HP : 2 ^ p = 2 * 2 ^ (p - 1)).
  { rewrite <- Z.pow_succ_r by lia. f_equal. lia. }
  assert (Hh : 0 < 2 ^ (p - 1)) by (apply Z.pow_pos_nonneg; lia).
  pose proof (Z.div_mod M (2 ^ p) ltac:(lia)) as Hdm.
  pose proof (Z.mod_pos_bound M (2 ^ p) ltac:(lia)) as Hr.
  set (q := M / 2 ^ p) in *. set (r := M mod 2 ^ p) in *.
  destruct (Z.ltb_spec (2 ^ (p - 1)) r) as [Hlt|Hge]; cbn [orb].
  - lia.
  - destruct (Z.eqb_spec r (2 ^ (p - 1))) as [Eq|Ne]; cbn [andb].
    + destruct (Z.odd q); lia.
    + lia.
Qed.

(** What [binary_round] returns for an integer multiple of [2 ^ E] in the
    exponent range of binary64: a binary64 number within half a unit in its
    last place, or an infinity. *)
Lemma binary_round_within s M E :
  -1074 <= E <= 971 ->
  match binary_round prec emax s M E with
  | S754_finite s' m e =>
      validFinite m e /\
      exists E0, E0 <= E /\ E0 <= e /\
        2 * Z.abs (cond_Zopp s (Zpos M) * 2 ^ (E - E0) - cond_Zopp s' (Zpos m * 2 ^ (e - E0)))
          <= 2 ^ (e - E0)
  | S754_infinity _ => True
  | _ => False
  end.
Proof.
  intros HE.
  set (d := Z.log2 (Zpos M) + 1).
  assert (Hlog : 0 <= Z.log2 (Zpos M)) by apply Z.log2_nonneg.
  assert (Hb : 2 ^ (d - 1) <= Zpos M < 2 ^ d).
  { unfold d. replace (Z.log2 (Zpos M) + 1 - 1) with (Z.log2 (Zpos M)) by lia.
    replace (Z.log2 (Zpos M) + 1) with (Z.succ (Z.log2 (Zpos M))) by lia.
    apply Z.log2_spec. lia. }
  destruct (Z.le_gt_cases d 53) as [Hd|Hd].
  - rewrite (binary_round_noshift s M E d Hb) by lia.
    set (e' := Z.max (d + E - 53) (-1074)).
    assert (He' : e' <= E) by (unfold e'; lia).
    pose proof (digits_shifted M d (E - e') Hb ltac:(lia) ltac:(lia)) as HM'.
    assert (Hpos : 0 < Zpos M * 2 ^ (E - e')).
    { apply Z.mul_pos_pos; [lia|apply Z.pow_pos_nonneg; lia]. }
    split.
    + unfold validFinite. rewrite !Z2Pos.id by exact Hpos.
      destruct (Z.le_gt_cases (-1074) (d + E - 53)) as [Hn|Hs].
      * right. replace e' with (d + E - 53) in * by (unfold e'; lia).
        replace (d + (E - (d + E - 53)) - 1) with 52 in HM' by lia.
        replace (d + (E - (d + E - 53))) with 53 in HM' by lia. lia.
      * left. replace e' with (-1074) in * by (unfold e'; lia).
        split; [reflexivity|].
        eapply Z.lt_le_trans; [exact (proj2 HM')|]. apply pow2_le. lia.
    + rewrite Z2Pos.id by exact Hpos.
      exists e'. split; [exact He'|]. split; [lia|].
      rewrite Z.sub_diag. change (2 ^ 0) with 1. rewrite Z.mul_1_r.
      replace (cond_Zopp s (Zpos M) * 2 ^ (E - e') - cond_Zopp s (Zpos M * 2 ^ (E - e'))) with 0
        by (destruct s; cbn [cond_Zopp]; lia).
      cbn. lia.
  - set (p := d - 53).
    assert (Hp : 1 <= p) by (unfold p; lia).
    assert (HM : 2 ^ (52 + p) <= Zpos M < 2 ^ (53 + p)).
    { replace (52 + p) with (d - 1) by (unfold p; lia).
      replace (53 + p) with d by (unfold p; lia). exact Hb. }
    rewrite (binary_round_shift_any s M E p Hp HM) by lia.
    pose proof (roundedQuotient_error (Zpos M) p ltac:(lia) Hp) as Herr.
    assert (Hq : 2 ^ 52 <= roundedQuotient (Zpos M) p <= 2 ^ 52 + 2 ^ 52).
    { apply roundedQuotient_bounds; [lia|lia|].
      rewrite <- Z.pow_add_r by lia.
      replace ((2 ^ 52 + 2 ^ 52) * 2 ^ p) with (2 ^ (53 + p)).
      - exact HM.
      - rewrite (Z.pow_add_r 2 53) by lia. lia. }
    set (q := roundedQuotient (Zpos M) p) in *.
    assert (HP : 0 < 2 ^ p) by (apply Z.pow_pos_nonneg; lia).
    destruct (Z.eqb_spec q (2 ^ 53)) as [Eq|Nq].
    + destruct (Z.leb_spec (E + p + 1) 971) as [Hfit|Hover]; [|exact I].
      split; [right; lia|].
      exists E. split; [lia|]. split; [lia|].
      rewrite Z.sub_diag. change (2 ^ 0) with 1. rewrite Z.mul_1_r.
      replace (E + p + 1 - E) with (p + 1) by lia.
      rewrite Z.pow_add_r by lia. change (2 ^ 1) with 2.
      replace (cond_Zopp s (Zpos M) - cond_Zopp s (Zpos (2 ^ 52) * (2 ^ p * 2)))
        with (cond_Zopp s (Zpos M - q * 2 ^ p))
        by (rewrite Eq; destruct s; cbn [cond_Zopp]; lia).
      assert (Habs : Z.abs (cond_Zopp s (Zpos M - q * 2 ^ p)) = Z.abs (Zpos M - q * 2 ^ p))
        by (destruct s; cbn [cond_Zopp]; lia).
      rewrite Habs. lia.
    + destruct (Z.leb_spec (E + p) 971) as [Hfit|Hover]; [|exact I].
      assert (Hqpos : 0 < q) by lia.
      rewrite Z2Pos.id by exact Hqpos.
      split; [right; lia|].
      exists E. split; [lia|]. split; [lia|].
      rewrite Z.sub_diag. change (2 ^ 0) with 1. rewrite Z.mul_1_r.
      replace (E + p - E) with p by lia.
      replace (cond_Zopp s (Zpos M) - cond_Zopp s (q * 2 ^ p))
        with (cond_Zopp s (Zpos M - q * 2 ^ p))
        by (destruct s; cbn [cond_Zopp]; lia).
      assert (Habs : Z.abs (cond_Zopp s (Zpos M - q * 2 ^ p)) = Z.abs (Zpos M - q * 2 ^ p))
        by (destruct s; cbn [cond_Zopp]; lia).
      rewrite Habs. exact Herr.
Qed.

Lemma multipleOf_finite E s m e :
  E <= e -> multipleOf E (S754_finite s m e) = Some (cond_Zopp s (Zpos m * 2 ^ (e - E))).
Proof. intros H. cbn [multipleOf]. rewrite (proj2 (Z.leb_le E e) H). reflexivity. Qed.

Lemma cond_Zopp_mul s x y : cond_Zopp s x * y = cond_Zopp s (x * y).
Proof. destruct s; cbn [cond_Zopp]; lia. Qed.

(** The difference of two binary64 numbers is a binary64 number, the exact
    difference within half a unit in its last place, or an infinity. *)
Lemma SFsub_within sa ma ea sp mp ep :
  validFinite ma ea -> validFinite mp ep ->
  match SFsub prec emax (S754_finite sa ma ea) (S754_finite sp mp ep) with
  | S754_zero s => sumWithinRounding (S754_finite sa ma ea) (S754_finite sp mp ep) (S754_zero s)
  | S754_finite s m e =>
      validFinite m e /\
      sumWithinRounding (S754_finite sa ma ea) (S754_finite sp mp ep) (S754_finite s m e)
  | S754_infinity _ => True
  | S754_nan => False
  end.
Proof.
  intros Ha Hp.
  assert (Hea : -1074 <= ea <= 971) by (destruct Ha as [[? ?]|[? ?]]; lia).
  assert (Hep : -1074 <= ep <= 971) by (destruct Hp as [[? ?]|[? ?]]; lia).
  cbn [SFsub]. cbv zeta. rewrite !shl_align_value by lia.
  set (ez := Z.min ea ep).
  assert (Hez : -1074 <= ez <= 971) by (unfold ez; lia).
  set (A0 := Zpos ma * 2 ^ (ea - ez)). set (P0 := Zpos mp * 2 ^ (ep - ez)).
  assert (Hshift : forall E0, E0 <= ez ->
            multipleOf E0 (S754_finite sa ma ea) = Some (cond_Zopp sa A0 * 2 ^ (ez - E0)) /\
            multipleOf E0 (S754_finite sp mp ep) = Some (cond_Zopp sp P0 * 2 ^ (ez - E0))).
  { intros E0 HE0. unfold A0, P0.
    rewrite !multipleOf_finite by (unfold ez in *; lia).
    rewrite !cond_Zopp_mul, <- !Z.mul_assoc, <- !Z.pow_add_r by (unfold ez in *; lia).
    replace (ea - ez + (ez - E0)) with (ea - E0) by lia.
    replace (ep - ez + (ez - E0)) with (ep - E0) by lia.
    split; reflexivity. }
  destruct (cond_Zopp sa A0 - cond_Zopp sp P0) as [|M|M] eqn:ED; cbn [binary_normalize].
  - destruct (Hshift ez ltac:(lia)) as [HA HP]. rewrite Z.sub_diag, !Z.mul_1_r in HA, HP.
    exists ez, (cond_Zopp sa A0), (cond_Zopp sp P0), 0.
    split; [exact HA|]. split; [exact HP|]. split; [reflexivity|]. cbn [ulpIn]. lia.
  - pose proof (binary_round_within false M ez Hez) as Hr.
    destruct (binary_round prec emax false M ez) as [s|s| |s m e]; try exact Hr; try contradiction.
    destruct Hr as (Hv & E0 & HE0 & HE0e & Herr). split; [exact Hv|].
    destruct (Hshift E0 HE0) as [HA HP].
    exists E0, (cond_Zopp sa A0 * 2 ^ (ez - E0)), (cond_Zopp sp P0 * 2 ^ (ez - E0)),
      (cond_Zopp s (Zpos m * 2 ^ (e - E0))).
    split; [exact HA|]. split; [exact HP|].
    split; [apply multipleOf_finite; exact HE0e|]. cbn [ulpIn].
    cbn [cond_Zopp] in Herr.
    replace (cond_Zopp sa A0 * 2 ^ (ez - E0) -
             (cond_Zopp sp P0 * 2 ^ (ez - E0) + cond_Zopp s (Zpos m * 2 ^ (e - E0))))
      with (Zpos M * 2 ^ (ez - E0) - cond_Zopp s (Zpos m * 2 ^ (e - E0))) by lia.
    exact Herr.
  - pose proof (binary_round_within true M ez Hez) as Hr.
    destruct (binary_round prec emax true M ez) as [s|s| |s m e]; try exact Hr; try contradiction.
    destruct Hr as (Hv & E0 & HE0 & HE0e & Herr). split; [exact Hv|].
    destruct (Hshift E0 HE0) as [HA HP].
    exists E0, (cond_Zopp sa A0 * 2 ^ (ez - E0)), (cond_Zopp sp P0 * 2 ^ (ez - E0)),
      (cond_Zopp s (Zpos m * 2 ^ (e - E0))).
    split; [exact HA|]. split; [exact HP|].
    split; [apply multipleOf_finite; exact HE0e|]. cbn [ulpIn].
    cbn [cond_Zopp] in Herr.
    replace (cond_Zopp sa A0 * 2 ^ (ez - E0) -
             (cond_Zopp sp P0 * 2 ^ (ez - E0) + cond_Zopp s (Zpos m * 2 ^ (e - E0))))
      with (- Zpos M * 2 ^ (ez - E0) - cond_Zopp s (Zpos m * 2 ^ (e - E0))) by lia.
    exact Herr.
Qed.

Lemma b64_roundtrip_zero s : b64_to_sf (sf_to_b64 (S754_zero s)) = S754_zero s.
Proof. destruct s; reflexivity. Qed.

Lemma b64_roundtrip_infinity s : b64_to_sf (sf_to_b64 (S754_infinity s)) = S754_infinity s.
Proof. destruct s; reflexivity. Qed.

Lemma sumWithinRounding_exact a p r E A P R :
  multipleOf E a = Some A -> multipleOf E p = Some P -> multipleOf E r = Some R ->
  A = P + R -> sumWithinRounding a p r.
Proof.
  intros HA HP HR Heq. exists E, A, P, R. repeat split; try assumption.
  replace (A - (P + R)) with 0 by lia. cbn.
  destruct r; cbn [ulpIn]; try lia; apply Z.pow_nonneg; lia.
Qed.

(** When neither the product nor the difference overflows, the result of
    MOD_NUM and the product add up to the first operand within the rounding
    of the subtraction. *)
Lemma flooredModulo_within xa xb :
  finiteOrZero (b64_to_sf xa) = true ->
  finiteOrZero (b64_to_sf (flooredProduct xa xb)) = true ->
  finiteOrZero (b64_to_sf (flooredModulo xa xb)) = true ->
  sumWithinRounding (b64_to_sf xa) (b64_to_sf (flooredProduct xa xb))
    (b64_to_sf (flooredModulo xa xb)).
Proof.
  change (flooredModulo xa xb) with (f64_sub xa (flooredProduct xa xb)).
  set (xp := flooredProduct xa xb). clearbody xp.
  intros Ha Hp. unfold f64_sub, f64_binary.
  rewrite (f64_isNaN_false xa) by (intros E; rewrite E in Ha; discriminate).
  rewrite (f64_isNaN_false xp) by (intros E; rewrite E in Hp; discriminate).
  pose proof (b64_to_sf_valid xa) as Hva. pose proof (b64_to_sf_valid xp) as Hvp.
  destruct (b64_to_sf xa) as [sa|sa| |sa ma ea]; try discriminate;
    destruct (b64_to_sf xp) as [sp|sp| |sp mp ep]; try discriminate.
  - assert (Hz : exists s, SFsub prec emax (S754_zero sa) (S754_zero sp) = S754_zero s)
      by (destruct sa, sp; eexists; reflexivity).
    destruct Hz as [s ->]. rewrite b64_roundtrip_zero. intros _.
    apply (sumWithinRounding_exact _ _ _ 0 0 0 0); reflexivity.
  - destruct Hvp as [_ Hvp]. cbn [SFsub].
    rewrite b64_roundtrip_finite by exact Hvp. intros _.
    apply (sumWithinRounding_exact _ _ _ ep 0 (cond_Zopp sp (Zpos mp * 2 ^ (ep - ep)))
             (cond_Zopp (negb sp) (Zpos mp * 2 ^ (ep - ep))));
      [reflexivity|apply multipleOf_finite; lia|apply multipleOf_finite; lia|].
    destruct sp; cbn [cond_Zopp negb]; lia.
  - destruct Hva as [_ Hva]. cbn [SFsub].
    rewrite b64_roundtrip_finite by exact Hva. intros _.
    apply (sumWithinRounding_exact _ _ _ ea (cond_Zopp sa (Zpos ma * 2 ^ (ea - ea))) 0
             (cond_Zopp sa (Zpos ma * 2 ^ (ea - ea))));
      [apply multipleOf_finite; lia|reflexivity|apply multipleOf_finite; lia|lia].
  - destruct Hva as [_ Hva]. destruct Hvp as [_ Hvp].
    pose proof (SFsub_within sa ma ea sp mp ep Hva Hvp) as Hr.
    destruct (SFsub prec emax (S754_finite sa ma ea) (S754_finite sp mp ep)) as [s|s| |s m e].
    + rewrite b64_roundtrip_zero. intros _. exact Hr.
    + rewrite b64_roundtrip_infinity. discriminate.
    + contradiction.
    + destruct Hr as [Hv Hr]. rewrite b64_roundtrip_finite by exact Hv. intros _. exact Hr.
Qed.

(** C2.  The code lowered for MOD_NUM leaves in the result
    register [a - floor(a / b) * b], where the division, the rounding toward
    negative infinity, the multiplication and the subtraction are each a
    double operation, for every pair of operands and every operand kind.  It
    is the flooring modulo, not the truncating remainder: 5 mod 3 = 2,
    -5 mod 3 = 1, 5 mod -3 = -1.  Whenever [a], the product
    [floor(a / b) * b] as computed and the result are finite, [a] is the
    product plus the result within the rounding of the subtraction: the two
    differ by at most half a unit in the last place of the result.  Because
    every step rounds, the result does not always carry the sign of [b]:
    (3 * 2^53 + 4) mod 3 = -4. *)
Theorem mod_num_formula LUA_TNIL LUA_TBOOLEAN kVmExitEntryGuardPc restore alloc inst idx next
    L srca srcb :
  cmd inst = IrCmd.MOD_NUM ->
  registerDouble L idx (a inst) srca \/ (exists x, doubleConstant L (a inst) x /\ srca = build_f64 x) ->
  registerDouble L idx (b inst) srcb \/ memoryDouble L (b inst) srcb ->
  size (instReg alloc) = SizeX64.xmmword ->
  scratchDisjoint alloc [srca; srcb] ->
  exists frag,
    emitted (lowerInst LUA_TNIL LUA_TBOOLEAN kVmExitEntryGuardPc restore alloc inst idx next) L
      = Some frag /\
    (forall st xa xb, lowLane st srca = Some xa -> lowLane st srcb = Some xb ->
       exists st',
         run frag st = Fallthrough st' /\
         fst (xmm st' (regIndex (instReg alloc))) = flooredModulo xa xb) /\
    (forall xa xb,
       finiteOrZero (b64_to_sf xa) = true ->
       finiteOrZero (b64_to_sf (flooredProduct xa xb)) = true ->
       finiteOrZero (b64_to_sf (flooredModulo xa xb)) = true ->
       flooredModulo xa xb = f64_sub xa (flooredProduct xa xb) /\
       sumWithinRounding (b64_to_sf xa) (b64_to_sf (flooredProduct xa xb))
         (b64_to_sf (flooredModulo xa xb))) /\
    flooredModulo 0x4014000000000000 0x4008000000000000 = 0x4000000000000000 /\
    flooredModulo 0xc014000000000000 0x4008000000000000 = 0x3ff0000000000000 /\
    flooredModulo 0x4014000000000000 0xc008000000000000 = 0xbff0000000000000 /\
    flooredModulo 0x4358000000000001 0x4008000000000000 = 0xc010000000000000.
Proof.
  intros Hcmd Hsrca Hsrcb Hsd Hscratch.
  eexists. split;
    [apply (lower_MOD_NUM_emitted LUA_TNIL LUA_TBOOLEAN kVmExitEntryGuardPc restore
              alloc inst idx next L srca srcb Hcmd Hsrca Hsrcb)|].
  split; [|split; [intros xa xb Ha Hp Hr; split;
                     [reflexivity|exact (flooredModulo_within xa xb Ha Hp Hr)]|];
            repeat split; vm_compute; reflexivity].
  destruct alloc as [[sd d] [s1 t1] [s2 t2] [s3 t3]].
  destruct Hscratch as (Hs1 & Hs2 & Hs3 & H12 & H13 & H23 & Hsrcs).
  cbn [instReg scoped1 scoped2 scoped3 size regIndex] in *. subst sd s1 s2 s3.
  intros st xa xb Hxa Hxb. unfold modPrefix, modBody, modLhs, lowLane, flooredModulo, run in *.
  destruct Hsrca as [(ra & _ & _ & Hsza & ->) | (ca & _ & ->)];
  destruct Hsrcb as [(rb & _ & _ & Hszb & ->) | [(cb & _ & ->) | [[_ ->] | [_ ->]]]];
    try (destruct ra as [sa ai]; cbn [size] in Hsza; subst sa;
         destruct (Hsrcs _ (or_introl eq_refl)) as (Ha1 & Ha2 & Ha3); cbn [regIndex] in Ha1, Ha2, Ha3);
    try (destruct rb as [sb bi]; cbn [size] in Hszb; subst sb;
         destruct (Hsrcs _ (or_intror (or_introl eq_refl))) as (Hb1 & Hb2 & Hb3);
         cbn [regIndex] in Hb1, Hb2, Hb3);
    cbn [readXmm isXmm size regIndex build_f64 luauRegValue luauConstantValue readMem fst] in Hxa, Hxb;
    inversion Hxa as [Hxa']; inversion Hxb as [Hxb']; clear Hxa Hxb;
    exec_xmm; (eexists; split; [reflexivity|]); xmm_simpl; cbn [fst]; reflexivity.
Qed.


(** ** Truthiness: NOT_ANY *)

Lemma cmpFlags_ZF w x y :
  0 < w -> 0 <= x < 2 ^ w -> 0 <= y < 2 ^ w -> ZF (cmpFlags w x y) = (x =? y).
Proof.
  intros Hw Hx Hy. cbn [cmpFlags ZF].
  destruct (Z.eqb_spec x y) as [->|Hne].
  - rewrite Z.sub_diag, Z.mod_0_l by lia. reflexivity.
  - apply Z.eqb_neq. intros E.
    destruct (Z.lt_ge_cases x y).
    + rewrite <- (Z.mod_add _ 1) in E by lia. rewrite Z.mod_small in E by lia. lia.
    + rewrite Z.mod_small in E by lia. lia.
Qed.

(** A compare of a 32-bit operand with a constant, followed by a branch on
    equality. *)
Lemma exec_cmp_imm_jcc o k (onEq : bool) l rest st :
  opWidth o (OpImm k) = Some 32 -> 0 <= k < 2 ^ 32 ->
  exec (cmp o (OpImm k) :: jcc (if onEq then ConditionX64.Equal else ConditionX64.NotEqual) l :: rest)
       None st =
    let st' := setFlags st (cmpFlags 32 (readInt st 32 o) k) in
    if Bool.eqb (readInt st 32 o =? k) onEq then exec rest (Some l) st' else exec rest None st'.
Proof.
  intros Hw Hk. cbn [exec step]. rewrite Hw. cbn [exec flags setFlags].
  assert (HZ : ZF (cmpFlags 32 (readInt st 32 o) (readInt st 32 (OpImm k))) = (readInt st 32 o =? k)).
  { cbn [readInt]. rewrite (Z.mod_small k) by lia.
    apply cmpFlags_ZF; [lia| |lia]. apply readInt_range. lia. }
  cbn [readInt] in HZ |- *. rewrite (Z.mod_small k) in * by lia.
  destruct onEq; cbn [evalCond]; rewrite HZ; destruct (_ =? k); reflexivity.
Qed.

Lemma exec_cmp_imm_je o k l rest st :
  opWidth o (OpImm k) = Some 32 -> 0 <= k < 2 ^ 32 ->
  exec (cmp o (OpImm k) :: jcc ConditionX64.Equal l :: rest) None st =
    if readInt st 32 o =? k
    then exec rest (Some l) (setFlags st (cmpFlags 32 (readInt st 32 o) k))
    else exec rest None (setFlags st (cmpFlags 32 (readInt st 32 o) k)).
Proof.
  intros Hw Hk. rewrite (exec_cmp_imm_jcc o k true l rest st Hw Hk). cbv zeta.
  destruct (_ =? k); reflexivity.
Qed.

Lemma exec_cmp_imm_jne o k l rest st :
  opWidth o (OpImm k) = Some 32 -> 0 <= k < 2 ^ 32 ->
  exec (cmp o (OpImm k) :: jcc ConditionX64.NotEqual l :: rest) None st =
    if readInt st 32 o =? k
    then exec rest None (setFlags st (cmpFlags 32 (readInt st 32 o) k))
    else exec rest (Some l) (setFlags st (cmpFlags 32 (readInt st 32 o) k)).
Proof.
  intros Hw Hk. rewrite (exec_cmp_imm_jcc o k false l rest st Hw Hk). cbv zeta.
  destruct (_ =? k); reflexivity.
Qed.

Lemma opWidth_dword i y : opWidth (OpReg (mkReg SizeX64.dword i)) y = Some 32.
Proof. reflexivity. Qed.

Lemma notAnyTail_zero di z o e seek st :
  e <> o -> seek = None \/ (seek = Some z /\ z <> o) ->
  exists st',
    exec (notAnyTail (mkReg SizeX64.dword di) z o e) seek st = Fallthrough st' /\
    readInt st' 32 (OpReg (mkReg SizeX64.dword di)) = 0.
Proof.
  intros He [-> | [-> Hz]]; unfold notAnyTail; cbn [exec step isGpr size bits].
  - rewrite (proj2 (Nat.eqb_neq e o)) by exact He. cbn [exec]. rewrite Nat.eqb_refl.
    eexists. split; [reflexivity|]. apply readInt_writeGpr_dword.
  - rewrite Nat.eqb_refl. cbn [exec step isGpr size bits].
    rewrite (proj2 (Nat.eqb_neq e o)) by exact He. cbn [exec]. rewrite Nat.eqb_refl.
    eexists. split; [reflexivity|]. apply readInt_writeGpr_dword.
Qed.

Lemma notAnyTail_one di z o e st :
  o <> z ->
  exists st',
    exec (notAnyTail (mkReg SizeX64.dword di) z o e) (Some o) st = Fallthrough st' /\
    readInt st' 32 (OpReg (mkReg SizeX64.dword di)) = 1.
Proof.
  intros Ho. unfold notAnyTail. cbn [exec].
  rewrite (proj2 (Nat.eqb_neq o z)) by exact Ho. cbn [exec]. rewrite Nat.eqb_refl.
  cbn [exec step isGpr size bits].
  eexists. split; [reflexivity|]. apply readInt_writeGpr_dword.
Qed.

Lemma lower_NOT_ANY_emitted LUA_TNIL LUA_TBOOLEAN kVmExitEntryGuardPc restore alloc inst idx next
    L srca srcb :
  cmd inst = IrCmd.NOT_ANY ->
  nextLabel (build L) <> 0%nat ->
  match srca with
  | Some ra => residentIn L (a inst) ra /\ index (a inst) <> idx
  | None => tagConstant L (a inst) LUA_TBOOLEAN
  end ->
  match srcb with
  | inl rb => residentIn L (b inst) rb /\ index (b inst) <> idx
  | inr v => intConstant L (b inst) v
  end ->
  emitted (lowerInst LUA_TNIL LUA_TBOOLEAN kVmExitEntryGuardPc restore alloc inst idx next) L =
    Some (notAnyCode LUA_TNIL LUA_TBOOLEAN (instReg alloc) srca srcb (nextLabel (build L))).
Proof.
  intros Hcmd Hn Ha Hb. unfold emitted, lowerInst. rewrite Hcmd.
  destruct srca as [ra|], srcb as [rb|v].
  - destruct Ha as [[Hka (sa & Hsa & Hspa & Hnra & Hra & Hnea)] Hidxa].
    destruct Hb as [[Hkb (sb & Hsb & Hspb & Hnrb & Hrb & Hneb)] Hidxb].
    open_lowering L. subst ra rb. unfold_lowering. lower_run. finish_emitted.
  - destruct Ha as [[Hka (sa & Hsa & Hspa & Hnra & Hra & Hnea)] Hidxa].
    destruct Hb as [Hkb Hcb].
    open_lowering L. subst ra. unfold_lowering. lower_run.
    destruct (v =? 0); lower_run; finish_emitted.
  - destruct Ha as [Hka Hca].
    destruct Hb as [[Hkb (sb & Hsb & Hspb & Hnrb & Hrb & Hneb)] Hidxb].
    open_lowering L. subst rb. unfold_lowering. lower_run.
    rewrite Z.eqb_refl. lower_run. finish_emitted.
  - destruct Ha as [Hka Hca]. destruct Hb as [Hkb Hcb].
    open_lowering L. unfold_lowering. lower_run.
    rewrite Z.eqb_refl. lower_run.
    destruct (v =? 0); lower_run; finish_emitted.
Qed.

Lemma run_notAnyCode LUA_TNIL LUA_TBOOLEAN dst srca srcb n st tag payload :
  tagConstantsOk LUA_TNIL LUA_TBOOLEAN ->
  size dst = SizeX64.dword ->
  match srca with
  | Some ra => size ra = SizeX64.dword /\ readInt st 32 (OpReg ra) = tag
  | None => tag = LUA_TBOOLEAN
  end ->
  match srcb with
  | inl rb => size rb = SizeX64.dword /\ readInt st 32 (OpReg rb) = payload
  | inr v => payload = v
  end ->
  exists st',
    run (notAnyCode LUA_TNIL LUA_TBOOLEAN dst srca srcb n) st = Fallthrough st' /\
    readInt st' 32 (OpReg dst) = if isFalsy LUA_TNIL LUA_TBOOLEAN tag payload then 1 else 0.
Proof.
  intros (Hnil & Hbool & Hdiff) Hsd Ha Hb.
  destruct dst as [sd di]. cbn [size] in Hsd. subst sd.
  unfold run, notAnyCode, isFalsy.
  destruct srca as [[sa ai]|].
  - destruct Ha as [Hsa Htag]. cbn [size] in Hsa. subst sa. cbn [app].
    rewrite exec_cmp_imm_je by (try apply opWidth_dword; lia). rewrite Htag.
    destruct (Z.eqb_spec tag LUA_TNIL) as [En|En]; cbn [orb].
    + (* nil: straight to saveone *)
      cbn [exec].
      destruct srcb as [rb|v]; [|destruct (v =? 0)]; cbn [app exec];
        apply notAnyTail_one; lia.
    + rewrite exec_cmp_imm_jne by (try apply opWidth_dword; lia).
      rewrite readInt_setFlags, Htag.
      destruct (Z.eqb_spec tag LUA_TBOOLEAN) as [Eb|Eb]; cbn [andb].
      * destruct srcb as [[sb bi]|v].
        -- destruct Hb as [Hsb Hpay]. cbn [size] in Hsb. subst sb. cbn [app].
           rewrite exec_cmp_imm_je by (try apply opWidth_dword; lia).
           rewrite !readInt_setFlags, Hpay.
           destruct (payload =? 0).
           ++ apply notAnyTail_one; lia.
           ++ apply notAnyTail_zero; [lia|left; reflexivity].
        -- subst payload. destruct (v =? 0); cbn [app exec].
           ++ apply notAnyTail_one; lia.
           ++ apply notAnyTail_zero; [lia|left; reflexivity].
      * (* some other tag: straight to savezero *)
        destruct srcb as [rb|v]; [|destruct (v =? 0)]; cbn [app exec];
          (apply notAnyTail_zero; [lia | right; split; [reflexivity|lia]]).
  - subst tag. rewrite Z.eqb_refl. cbn [andb].
    assert (Hnb : (LUA_TBOOLEAN =? LUA_TNIL) = false) by (apply Z.eqb_neq; congruence).
    rewrite Hnb. cbn [orb].
    destruct srcb as [[sb bi]|v].
    + destruct Hb as [Hsb Hpay]. cbn [size] in Hsb. subst sb. cbn [app].
      rewrite exec_cmp_imm_je by (try apply opWidth_dword; lia). rewrite Hpay.
      destruct (payload =? 0).
      * apply notAnyTail_one; lia.
      * apply notAnyTail_zero; [lia|left; reflexivity].
    + subst payload. destruct (v =? 0); cbn [app exec].
      * apply notAnyTail_one; lia.
      * apply notAnyTail_zero; [lia|left; reflexivity].
Qed.

(** ** Guards: [jumpOrAbortOnUndef] on a condition *)

Lemma exec_seek_unbound frag l st :
  ~ In l (boundLabels frag) -> exec frag (Some l) st = Branch l st.
Proof.
  induction frag as [|i rest IH]; intros Hl; [reflexivity|].
  cbn [exec]. destruct i; try (apply IH; exact Hl).
  cbn [boundLabels flat_map app] in Hl.
  rewrite (proj2 (Nat.eqb_neq l l0)) by (intros E; apply Hl; left; congruence).
  apply IH. intros Hin. apply Hl. right. exact Hin.
Qed.

Lemma exec_seek_app p1 p2 l st :
  ~ In l (boundLabels p1) -> exec (p1 ++ p2) (Some l) st = exec p2 (Some l) st.
Proof.
  induction p1 as [|i rest IH]; intros Hl; [reflexivity|].
  cbn [app exec]. destruct i; try (apply IH; exact Hl).
  cbn [boundLabels flat_map app] in Hl.
  rewrite (proj2 (Nat.eqb_neq l l0)) by (intros E; apply Hl; left; congruence).
  apply IH. intros Hin. apply Hl. right. exact Hin.
Qed.

Lemma getReverseCondition_spec cond rc L L' fl :
  getReverseCondition cond L = Ok rc L' ->
  L' = L /\ evalCond rc fl = option_map negb (evalCond cond fl).
Proof.
  destruct cond; cbn; intros H; inversion H; subst; split; try reflexivity;
    cbn; rewrite ?negb_involutive, ?negb_orb, ?negb_andb, ?negb_involutive; reflexivity.
Qed.

Lemma getReverseCondition_total cond L :
  cond <> ConditionX64.Count -> exists rc, getReverseCondition cond L = Ok rc L.
Proof. destruct cond; intros H; try contradiction; eexists; reflexivity. Qed.

Lemma is32_width o k : is32 o -> opWidth o (OpImm k) = Some 32.
Proof. unfold is32. destruct o; cbn; auto. Qed.

Lemma exec_cmp_imm o k rest st :
  opWidth o (OpImm k) = Some 32 -> 0 <= k < 2 ^ 32 ->
  exec (cmp o (OpImm k) :: rest) None st =
    exec rest None (setFlags st (cmpFlags 32 (readInt st 32 o) k)) /\
  evalCond ConditionX64.Equal (flags (setFlags st (cmpFlags 32 (readInt st 32 o) k))) =
    Some (readInt st 32 o =? k).
Proof.
  intros Hw Hk. cbn [exec step]. rewrite Hw. cbn [readInt]. rewrite (Z.mod_small k) by lia.
  split; [reflexivity|]. cbn [evalCond flags setFlags]. f_equal.
  apply cmpFlags_ZF; [lia| |lia]. apply readInt_range. lia.
Qed.

Lemma helpers_placeBlock L bi blk : helpers (placeBlock L bi blk) = helpers L.
Proof. unfold placeBlock. destruct (Nat.eqb (id (label blk)) 0); reflexivity. Qed.
Lemma exitHandlers_placeBlock L bi blk : exitHandlers (placeBlock L bi blk) = exitHandlers L.
Proof. unfold placeBlock. destruct (Nat.eqb (id (label blk)) 0); reflexivity. Qed.
Lemma exitHandlerMap_placeBlock L bi blk : exitHandlerMap (placeBlock L bi blk) = exitHandlerMap L.
Proof. unfold placeBlock. destruct (Nat.eqb (id (label blk)) 0); reflexivity. Qed.
Lemma nextLabel_placeBlock L bi blk :
  (nextLabel (build L) <= nextLabel (build (placeBlock L bi blk)))%nat.
Proof. unfold placeBlock. destruct (Nat.eqb (id (label blk)) 0); cbn; lia. Qed.

Lemma placedBlock_bound L blk :
  (id (label blk) <> 0%nat -> (id (label blk) < nextLabel (build L))%nat) ->
  forall bi,
    (id (placedBlock L blk) < nextLabel (build (placeBlock L bi blk)))%nat /\
    (id (placedBlock L blk) = id (label blk) /\ id (label blk) <> 0%nat \/
     id (placedBlock L blk) = nextLabel (build L)).
Proof.
  intros Hlt bi. unfold placedBlock, placedLocal, placeBlock.
  destruct (Nat.eqb_spec (id (label blk)) 0) as [E|E]; cbn.
  - split; [lia|right; reflexivity].
  - split; [auto|left; auto].
Qed.

Lemma exitLabelOf_shared kVm L pc l : exitLabelOf kVm L pc = Some l -> isSharedLabel L l.
Proof.
  unfold exitLabelOf, isSharedLabel. destruct (Nat.eqb pc kVm).
  - intros H. left. congruence.
  - destruct (exitHandlerMap L !! pc) as [i|]; [|discriminate].
    destruct (exitHandlers L !! i) as [h|] eqn:Hh; [|discriminate].
    intros H. right. left. exists i, h. split; [exact Hh|congruence].
Qed.

Lemma labelInvariant_nonzero kVm L : labelInvariant kVm L -> nextLabel (build L) <> 0%nat.
Proof. intros [[[_ H] _ _ _] _]. lia. Qed.

(** Appending code and handing out an id keep the invariant. *)
Lemma labelInvariant_addCode kVm L instrs :
  labelInvariant kVm L -> labelInvariant kVm (addCode L instrs).
Proof. intros [Hinv Hsh]. split; [apply exitInvariant_addCode, Hinv|exact Hsh]. Qed.

Lemma labelInvariant_bumpLabel kVm L :
  labelInvariant kVm L -> labelInvariant kVm (bumpLabel L).
Proof.
  intros [Hinv Hsh]. split.
  - apply (exitsKept_step kVm L (bumpLabel L) Hinv); try reflexivity. cbn. lia.
  - intros l Hl. cbn. apply Nat.lt_lt_succ_r. apply Hsh. exact Hl.
Qed.

Lemma validTarget_same L L' target :
  function L' = function L -> validTarget L target -> validTarget L' target.
Proof.
  intros Hf [H|[H|[blk H]]]; [left|right; left|right; right; exists blk]; auto.
  unfold blockOperand in *. rewrite Hf. exact H.
Qed.

(** The guard on an [Undef] target: skip a trap unless the condition holds. *)
Lemma guard_undef kVm cond target next L :
  kind target = IrOpKind.Undef -> cond <> ConditionX64.Count ->
  labelInvariant kVm L ->
  exists L' g,
    jumpOrAbortOnUndef kVm cond target next L = Ok tt L' /\
    guardStep kVm L L' cond target g None.
Proof.
  intros Hk Hc Hinv. pose proof (labelInvariant_nonzero _ _ Hinv) as Hn.
  destruct (getReverseCondition_total cond L Hc) as [rc Hrc].
  set (n := nextLabel (build L)).
  exists (addCode (addCode (addCode (bumpLabel L) [jcc rc n]) [ud2]) [setLabel n]),
         [jcc rc n; ud2; setLabel n].
  split.
  - unfold jumpOrAbortOnUndef, getTargetLabel, finalizeTargetLabel, kindIs.
    rewrite Hk. cbn [IrOpKind.eqb andb].
    rewrite bool_decide_eq_false_2 by exact Hc.
    unfold bind at 1. cbn [ret].
    rewrite (bind_bind_Ok _ _ _ _ _ _ Hrc).
    rewrite (bind_bind_Ok _ _ _ _ _ _ (build_jcc_local rc (mkLabel 0) L)).
    unfold placedLocal, placeLocal. cbn [id Nat.eqb].
    rewrite (bind_bind_Ok _ _ _ _ _ _ (emit_run ud2 _)).
    rewrite (bind_Ok _ _ _ _ _ (build_setLabel_local _ _)).
    unfold placedLocal, placeLocal. cbn [id]. fold n.
    rewrite (proj2 (Nat.eqb_neq n 0) Hn). reflexivity.
  - constructor.
    + cbn. rewrite <- !app_assoc. reflexivity.
    + do 3 apply labelInvariant_addCode. apply labelInvariant_bumpLabel, Hinv.
    + split; reflexivity.
    + left. exact Hk.
    + cbn. lia.
    + intros st rest fl Hfl. cbn [app exec].
      destruct (getReverseCondition_spec cond rc L L (flags st) Hrc) as [_ ->].
      rewrite Hfl. cbn [option_map]. destruct fl; cbn [negb]; [reflexivity|].
      cbn [exec]. rewrite Nat.eqb_refl. reflexivity.
    + cbn. intros l [<-|[]]. fold n. lia.
    + discriminate.
Qed.

(** The guard on a block: branch to the block's label. *)
Lemma guard_block kVm cond target next L blk :
  blockOperand L target blk -> cond <> ConditionX64.Count ->
  labelInvariant kVm L ->
  exists L' l,
    jumpOrAbortOnUndef kVm cond target next L = Ok tt L' /\
    guardStep kVm L L' cond target [jcc cond l] (Some l).
Proof.
  intros Hb Hc Hinv. pose proof Hb as [Hk Hblk].
  pose proof (labelInvariant_nonzero _ _ Hinv) as Hn.
  destruct Hinv as [Hexit Hsh].
  assert (Hold : id (label blk) <> 0%nat -> (id (label blk) < nextLabel (build L))%nat).
  { intros _. apply Hsh. right. right. exists (index target), blk. auto. }
  destruct (placedBlock_bound L blk Hold (index target)) as [Hlt Hwhich].
  exists (addCode (placeBlock L (index target) blk) [jcc cond (id (placedBlock L blk))]),
         (id (placedBlock L blk)).
  split.
  - unfold jumpOrAbortOnUndef, getTargetLabel, finalizeTargetLabel, kindIs.
    rewrite Hk. cbn [IrOpKind.eqb andb].
    rewrite bool_decide_eq_false_2 by exact Hc.
    rewrite (bind_Ok _ _ _ _ _ (labelOp_block _ _ _ Hb)).
    rewrite (bind_Ok _ _ _ _ _ (build_jcc_block cond _ _ (mkLabel 0) L Hblk)).
    reflexivity.
  - constructor.
    + rewrite code_addCode, code_placeBlock. reflexivity.
    + split.
      * apply exitInvariant_addCode.
        apply (exitsKept_step kVm L _ Hexit);
          [apply helpers_placeBlock | apply exitHandlers_placeBlock
          | apply exitHandlerMap_placeBlock | apply nextLabel_placeBlock].
      * intros l Hl. rewrite nextLabel_addCode.
        pose proof (nextLabel_placeBlock L (index target) blk) as Hmono.
        destruct Hl as [Hl|[(i & h & Hi & Hl)|(j & b & Hj & Hl)]].
        -- cbn [helpers addCode set_build] in Hl.
           rewrite helpers_placeBlock in Hl.
           eapply Nat.lt_le_trans; [|exact Hmono]. apply Hsh. left. exact Hl.
        -- cbn [exitHandlers addCode set_build] in Hi. rewrite exitHandlers_placeBlock in Hi.
           eapply Nat.lt_le_trans; [|exact Hmono]. apply Hsh. right. left. eauto.
        -- rewrite function_addCode in Hj.
           destruct (Nat.eq_dec j (index target)) as [->|Hne].
           ++ rewrite (blocks_placeBlock_same _ _ _ Hblk) in Hj. inversion Hj. subst b.
              cbn in Hl. subst l. exact Hlt.
           ++ rewrite (blocks_placeBlock_other _ _ _ _ Hne) in Hj.
              eapply Nat.lt_le_trans; [|exact Hmono]. apply Hsh. right. right. eauto.
    + split; rewrite function_addCode;
        [apply instructions_placeBlock | apply constants_placeBlock].
    + right. right. eexists. split; [exact Hk|]. rewrite function_addCode.
      apply (blocks_placeBlock_same _ _ _ Hblk).
    + rewrite nextLabel_addCode. apply nextLabel_placeBlock.
    + intros st rest fl Hfl. cbn [app exec]. rewrite Hfl. destruct fl; reflexivity.
    + cbn. intros l [].
    + intros l E. inversion E. subst l. rewrite nextLabel_addCode. split; [exact Hlt|].
      destruct Hwhich as [[-> Hnz] | ->]; [left|right; lia].
      right. right. exists (index target), blk. auto.
Qed.

(** The guard on a VM exit: branch to the exit's trampoline. *)
Lemma guard_exit kVm cond target next L :
  kind target = IrOpKind.VmExit -> cond <> ConditionX64.Count ->
  labelInvariant kVm L ->
  exists L' l,
    jumpOrAbortOnUndef kVm cond target next L = Ok tt L' /\
    guardStep kVm L L' cond target [jcc cond l] (Some l).
Proof.
  intros Hk Hc [Hexit Hsh].
  assert (Ht : target = exitEdge (index target)).
  { destruct target as [k i]. cbn in Hk. subst k. reflexivity. }
  destruct (jumpOrAbortOnUndef_exit kVm cond (index target) next L Hexit)
    as (L' & l & Hrun & Hcode & Hl & [Hinv' Hkept] & _ & Hf & Hh & Hmono & Hwhich).
  exists L', l. split; [rewrite Ht; exact Hrun|].
  unfold branchTo in Hcode. rewrite bool_decide_eq_false_2 in Hcode by exact Hc.
  assert (Hsh' : forall x, isSharedLabel L' x -> (x < nextLabel (build L'))%nat).
  { intros x [Hx|[(i & h & Hi & Hx)|(j & b & Hj & Hx)]].
    - rewrite Hh in Hx. eapply Nat.lt_le_trans; [|exact Hmono]. apply Hsh. left. exact Hx.
    - destruct Hinv' as [_ _ Hhs _]. destruct (Hhs _ _ Hi) as (_ & _ & _ & Hlt & _).
      subst x. exact Hlt.
    - rewrite Hf in Hj. eapply Nat.lt_le_trans; [|exact Hmono].
      apply Hsh. right. right. eauto. }
  constructor.
  - exact Hcode.
  - split; assumption.
  - split; rewrite Hf; reflexivity.
  - right. left. exact Hk.
  - exact Hmono.
  - intros st rest fl Hfl. cbn [app exec]. rewrite Hfl. destruct fl; reflexivity.
  - cbn. intros x [].
  - intros x E. inversion E. subst x. split.
    + apply Hsh'. eapply exitLabelOf_shared. exact Hl.
    + destruct Hwhich as [Hold | ->]; [left|right; lia].
      eapply exitLabelOf_shared. exact Hold.
Qed.

(** Every guard on a condition, whatever its target. *)
Lemma guard_spec kVm cond target next L :
  validTarget L target -> cond <> ConditionX64.Count ->
  labelInvariant kVm L ->
  exists L' g escape,
    jumpOrAbortOnUndef kVm cond target next L = Ok tt L' /\
    guardStep kVm L L' cond target g escape.
Proof.
  intros [Hk|[Hk|[blk Hb]]] Hc Hinv.
  - destruct (guard_undef kVm cond target next L Hk Hc Hinv) as (L' & g & H1 & H2). eauto.
  - destruct (guard_exit kVm cond target next L Hk Hc Hinv) as (L' & l & H1 & H2). eauto.
  - destruct (guard_block kVm cond target next L blk Hb Hc Hinv) as (L' & l & H1 & H2). eauto.
Qed.

(** ** Truthiness: CHECK_TRUTHY *)

Lemma passes_seek_unbound frag l st :
  ~ In l (boundLabels frag) -> passes (exec frag (Some l) st) = Some false.
Proof. intros H. rewrite exec_seek_unbound by exact H. reflexivity. Qed.

Lemma boundLabels_app p q : boundLabels (p ++ q) = boundLabels p ++ boundLabels q.
Proof. unfold boundLabels. apply flat_map_app. Qed.

(** Running the two shapes of the guard. *)
Lemma run_checkTruthyCode LUA_TNIL LUA_TBOOLEAN opa opb g1 g2 e1 e2 skip st :
  tagConstantsOk LUA_TNIL LUA_TBOOLEAN ->
  is32 opa -> is32 opb ->
  guards ConditionX64.Equal g1 e1 -> guards ConditionX64.Equal g2 e2 ->
  (forall l, e1 = Some l -> l <> skip /\ ~ In l (boundLabels g2)) ->
  (forall l, e2 = Some l -> l <> skip) ->
  ~ In skip (boundLabels g2) ->
  passes (run (checkTruthyCode LUA_TNIL LUA_TBOOLEAN (Some opa) opb g1 g2 skip) st) =
    Some (negb (isFalsy LUA_TNIL LUA_TBOOLEAN (readInt st 32 opa) (readInt st 32 opb))).
Proof.
  intros (Hnil & Hbool & Hdiff) Ha Hb Hg1 Hg2 He1 He2 Hskip.
  unfold run, checkTruthyCode, isFalsy. cbn [app].
  destruct (exec_cmp_imm opa LUA_TNIL
              (g1 ++ cmp opa (OpImm LUA_TBOOLEAN) :: jcc ConditionX64.NotEqual skip ::
                     cmp opb (OpImm 0) :: g2 ++ [setLabel skip]) st) as [-> Hfl];
    [apply is32_width, Ha | lia |].
  rewrite (Hg1 _ _ _ Hfl).
  destruct (readInt st 32 opa =? LUA_TNIL) eqn:En; cbn [orb negb].
  - destruct e1 as [l|]; [|reflexivity].
    destruct (He1 l eq_refl) as [Hl1 Hl2].
    apply passes_seek_unbound. cbn [app boundLabels flat_map].
    fold (boundLabels (g2 ++ [setLabel skip])). rewrite boundLabels_app.
    cbn [boundLabels flat_map app]. rewrite in_app_iff. cbn [In].
    intros [H|[H|[]]]; [exact (Hl2 H)|exact (Hl1 (eq_sym H))].
  - cbn [app]. rewrite exec_cmp_imm_jne by (try apply is32_width; try assumption; lia).
    rewrite readInt_setFlags.
    destruct (readInt st 32 opa =? LUA_TBOOLEAN) eqn:Eb; cbn [andb].
    + destruct (exec_cmp_imm opb 0 (g2 ++ [setLabel skip])
                  (setFlags (setFlags st (cmpFlags 32 (readInt st 32 opa) LUA_TNIL))
                     (cmpFlags 32 (readInt st 32 opa) LUA_TBOOLEAN))) as [-> Hfl2];
        [apply is32_width, Hb | lia |].
      rewrite (Hg2 _ _ _ Hfl2). rewrite !readInt_setFlags.
      destruct (readInt st 32 opb =? 0); cbn [negb]; [|reflexivity].
      destruct e2 as [l|]; [|reflexivity].
      cbn [exec]. rewrite (proj2 (Nat.eqb_neq l skip)) by (apply He2; reflexivity).
      reflexivity.
    + cbn [exec]. rewrite exec_seek_app by exact Hskip.
      cbn [exec]. rewrite Nat.eqb_refl. reflexivity.
Qed.

Lemma run_checkTruthyCode_boolean LUA_TNIL LUA_TBOOLEAN opb g1 g2 e2 skip st :
  tagConstantsOk LUA_TNIL LUA_TBOOLEAN ->
  is32 opb ->
  guards ConditionX64.Equal g2 e2 ->
  passes (run (checkTruthyCode LUA_TNIL LUA_TBOOLEAN None opb g1 g2 skip) st) =
    Some (negb (isFalsy LUA_TNIL LUA_TBOOLEAN LUA_TBOOLEAN (readInt st 32 opb))).
Proof.
  intros (Hnil & Hbool & Hdiff) Hb Hg2.
  unfold run, checkTruthyCode, isFalsy. cbn [app].
  destruct (exec_cmp_imm opb 0 (g2 ++ []) st) as [Hrun Hfl]; [apply is32_width, Hb | lia |].
  rewrite app_nil_r in Hrun. rewrite Hrun.
  rewrite <- (app_nil_r g2). rewrite (Hg2 _ _ _ Hfl).
  rewrite Z.eqb_refl, (proj2 (Z.eqb_neq LUA_TBOOLEAN LUA_TNIL)) by congruence.
  cbn [orb andb].
  destruct (readInt st 32 opb =? 0); cbn [negb]; [|reflexivity].
  destruct e2 as [l|]; reflexivity.
Qed.

Lemma kindIs_false op k : kind op <> k -> kindIs op k = false.
Proof.
  intros H. unfold kindIs. destruct (IrOpKind.eqb (kind op) k) eqn:E; [|reflexivity].
  apply IrOpKind_eqb_eq in E. contradiction.
Qed.

Lemma kindIs_true op k : kind op = k -> kindIs op k = true.
Proof. intros H. unfold kindIs. apply IrOpKind_eqb_eq. exact H. Qed.

Lemma emitted_code {A} (m : M A) L x L' frag :
  m L = Ok x L' -> code (build L') = code (build L) ++ frag -> emitted m L = Some frag.
Proof.
  intros Hrun Hcode. unfold emitted. rewrite Hrun, Hcode, drop_app_length. reflexivity.
Qed.

(** The code CHECK_TRUTHY emits for a tag that is not a constant. *)
Lemma lower_CHECK_TRUTHY_tagged LUA_TNIL LUA_TBOOLEAN kVm restore alloc inst idx next L opa opb :
  cmd inst = IrCmd.CHECK_TRUTHY ->
  labelInvariant kVm L -> validTarget L (c inst) ->
  tagOperand restore L (a inst) opa -> uintOperand restore L (b inst) opb ->
  exists g1 g2 e1 e2 skip,
    emitted (lowerInst LUA_TNIL LUA_TBOOLEAN kVm restore alloc inst idx next) L =
      Some (checkTruthyCode LUA_TNIL LUA_TBOOLEAN (Some opa) opb g1 g2 skip) /\
    guards ConditionX64.Equal g1 e1 /\ guards ConditionX64.Equal g2 e2 /\
    (forall l, e1 = Some l -> l <> skip /\ ~ In l (boundLabels g2)) /\
    (forall l, e2 = Some l -> l <> skip) /\
    ~ In skip (boundLabels g2).
Proof.
  intros Hcmd Hinv Htarget [Hka Hopa] [_ Hopb].
  set (La := addCode L [cmp opa (OpImm LUA_TNIL)]).
  assert (HinvA : labelInvariant kVm La) by apply labelInvariant_addCode, Hinv.
  assert (HtA : validTarget La (c inst)) by (apply (validTarget_same L); [reflexivity|exact Htarget]).
  destruct (guard_spec kVm ConditionX64.Equal (c inst) next La HtA ltac:(discriminate) HinvA)
    as (L1 & g1 & e1 & Hrun1 & GS1).
  assert (Hv1 : sameValues L L1) by exact (gs_values _ _ _ _ _ _ _ GS1).
  set (n1 := nextLabel (build L1)).
  assert (Hn1 : n1 <> 0%nat) by exact (labelInvariant_nonzero _ _ (gs_inv _ _ _ _ _ _ _ GS1)).
  set (L1a := addCode L1 [cmp opa (OpImm LUA_TBOOLEAN)]).
  set (L1b := addCode (bumpLabel L1a) [jcc ConditionX64.NotEqual n1]).
  set (L1c := addCode L1b [cmp opb (OpImm 0)]).
  assert (HinvC : labelInvariant kVm L1c).
  { apply labelInvariant_addCode, labelInvariant_addCode, labelInvariant_bumpLabel,
      labelInvariant_addCode. exact (gs_inv _ _ _ _ _ _ _ GS1). }
  assert (HtC : validTarget L1c (c inst)).
  { apply (validTarget_same L1); [reflexivity|exact (gs_target _ _ _ _ _ _ _ GS1)]. }
  destruct (guard_spec kVm ConditionX64.Equal (c inst) next L1c HtC ltac:(discriminate) HinvC)
    as (L2 & g2 & e2 & Hrun2 & GS2).
  exists g1, g2, e1, e2, n1.
  split; [|split; [exact (gs_guards _ _ _ _ _ _ _ GS1)|split; [exact (gs_guards _ _ _ _ _ _ _ GS2)|]]].
  - apply (emitted_code _ L tt (addCode L2 [setLabel n1])).
    + unfold lowerInst. rewrite Hcmd. rewrite (kindIs_false _ _ Hka). cbn [negb].
      unfold bind at 1. cbn [ret].
      rewrite (bind_bind_Ok _ _ _ _ _ _ (Hopa L (sameValues_refl L))).
      rewrite (bind_bind_Ok _ _ _ _ _ _ (emit_run _ L)). fold La.
      rewrite (bind_bind_Ok _ _ _ _ _ _ Hrun1).
      rewrite (bind_bind_Ok _ _ _ _ _ _ (Hopa L1 Hv1)).
      rewrite (bind_bind_Ok _ _ _ _ _ _ (emit_run _ L1)). fold L1a.
      rewrite (bind_Ok _ _ _ _ _ (build_jcc_local _ _ L1a)).
      unfold placedLocal, placeLocal. cbn [id Nat.eqb].
      change (nextLabel (build L1a)) with n1. fold L1b.
      rewrite (bind_Ok _ _ _ _ _ (Hopb L1b Hv1)).
      rewrite (bind_Ok _ _ _ _ _ (emit_run _ L1b)). fold L1c.
      rewrite (bind_Ok _ _ _ _ _ Hrun2).
      rewrite (bind_Ok _ _ _ _ _ (build_setLabel_local _ L2)).
      unfold placedLocal, placeLocal. cbn [id].
      rewrite (proj2 (Nat.eqb_neq n1 0) Hn1). reflexivity.
    + rewrite code_addCode, (gs_code _ _ _ _ _ _ _ GS2).
      unfold L1c, L1b, L1a. simpl_state. rewrite (gs_code _ _ _ _ _ _ _ GS1).
      unfold La. simpl_state. unfold checkTruthyCode.
      rewrite <- !app_assoc. reflexivity.
  - assert (Hnext : nextLabel (build L1c) = S n1) by reflexivity.
    split; [|split].
    + intros l E. destruct (gs_escape _ _ _ _ _ _ _ GS1 l E) as [Hlt _]. fold n1 in Hlt.
      split; [lia|]. intros Hin. apply (gs_bound _ _ _ _ _ _ _ GS2) in Hin. lia.
    + intros l E. destruct (gs_escape _ _ _ _ _ _ _ GS2 l E) as [_ [Hsh|Hge]]; [|lia].
      destruct (gs_inv _ _ _ _ _ _ _ GS1) as [_ Hbound].
      specialize (Hbound l Hsh). fold n1 in Hbound. lia.
    + intros Hin. apply (gs_bound _ _ _ _ _ _ _ GS2) in Hin. lia.
Qed.

(** The code CHECK_TRUTHY emits for a tag known to be boolean. *)
Lemma lower_CHECK_TRUTHY_boolean LUA_TNIL LUA_TBOOLEAN kVm restore alloc inst idx next L opb :
  cmd inst = IrCmd.CHECK_TRUTHY ->
  labelInvariant kVm L -> validTarget L (c inst) ->
  tagConstant L (a inst) LUA_TBOOLEAN -> uintOperand restore L (b inst) opb ->
  exists g2 e2,
    emitted (lowerInst LUA_TNIL LUA_TBOOLEAN kVm restore alloc inst idx next) L =
      Some (checkTruthyCode LUA_TNIL LUA_TBOOLEAN None opb [] g2 0) /\
    guards ConditionX64.Equal g2 e2.
Proof.
  intros Hcmd Hinv Htarget Hta [_ Hopb]. pose proof Hta as [Hka _].
  set (Lc := addCode L [cmp opb (OpImm 0)]).
  assert (HinvC : labelInvariant kVm Lc) by apply labelInvariant_addCode, Hinv.
  assert (HtC : validTarget Lc (c inst)) by (apply (validTarget_same L); [reflexivity|exact Htarget]).
  destruct (guard_spec kVm ConditionX64.Equal (c inst) next Lc HtC ltac:(discriminate) HinvC)
    as (L2 & g2 & e2 & Hrun2 & GS2).
  exists g2, e2. split; [|exact (gs_guards _ _ _ _ _ _ _ GS2)].
  apply (emitted_code _ L tt L2).
  - unfold lowerInst. rewrite Hcmd. rewrite (kindIs_true _ _ Hka). cbn [negb].
    rewrite (bind_bind_Ok _ _ _ _ _ _ (tagOp_constant _ _ _ Hta)).
    rewrite Z.eqb_refl. unfold LUAU_ASSERT at 1. unfold bind at 1. unfold bind at 1. cbn [ret].
    rewrite (bind_Ok _ _ _ _ _ (Hopb L (sameValues_refl L))).
    rewrite (bind_Ok _ _ _ _ _ (emit_run _ L)). fold Lc.
    rewrite (bind_Ok _ _ _ _ _ Hrun2). reflexivity.
  - rewrite (gs_code _ _ _ _ _ _ _ GS2). unfold Lc. simpl_state. unfold checkTruthyCode.
    rewrite <- !app_assoc. reflexivity.
Qed.

Lemma isFalsy_spec LUA_TNIL LUA_TBOOLEAN tag payload :
  isFalsy LUA_TNIL LUA_TBOOLEAN tag payload = true <->
  tag = LUA_TNIL \/ (tag = LUA_TBOOLEAN /\ payload = 0).
Proof.
  unfold isFalsy. rewrite orb_true_iff, andb_true_iff, !Z.eqb_eq. reflexivity.
Qed.

(** C4.  Truthiness.  A value is falsy exactly when its tag is nil, or its
    tag is boolean and its payload is zero.  NOT_ANY, given the tag and the
    payload in 32-bit registers or as constants (a constant tag is boolean),
    emits code that runs to its end and leaves 1 in the result register for a
    falsy value and 0 for any other.  CHECK_TRUTHY, given the tag and the
    payload as 32-bit operands (or a tag known to be boolean), emits code
    that runs to its end for a truthy value and leaves by its guard (a trap,
    or a branch to the exit or block it was given) for a falsy one. *)
Theorem truthiness_two_step LUA_TNIL LUA_TBOOLEAN kVmExitEntryGuardPc restore alloc inst idx next L :
  tagConstantsOk LUA_TNIL LUA_TBOOLEAN ->
  (forall tag payload,
     isFalsy LUA_TNIL LUA_TBOOLEAN tag payload = true <->
     tag = LUA_TNIL \/ (tag = LUA_TBOOLEAN /\ payload = 0)) /\
  (cmd inst = IrCmd.NOT_ANY ->
   nextLabel (build L) <> 0%nat ->
   size (instReg alloc) = SizeX64.dword ->
   forall st tag payload,
     registerOrTag L idx st (a inst) tag ->
     registerOrInt L idx st (b inst) payload ->
     (kind (a inst) = IrOpKind.Constant -> tag = LUA_TBOOLEAN) ->
     exists frag st',
       emitted (lowerInst LUA_TNIL LUA_TBOOLEAN kVmExitEntryGuardPc restore alloc inst idx next) L =
         Some frag /\
       run frag st = Fallthrough st' /\
       readInt st' 32 (OpReg (instReg alloc)) =
         if isFalsy LUA_TNIL LUA_TBOOLEAN tag payload then 1 else 0) /\
  (cmd inst = IrCmd.CHECK_TRUTHY ->
   labelInvariant kVmExitEntryGuardPc L ->
   validTarget L (c inst) ->
   forall opb, uintOperand restore L (b inst) opb -> is32 opb ->
     (forall opa, tagOperand restore L (a inst) opa -> is32 opa ->
        exists frag,
          emitted (lowerInst LUA_TNIL LUA_TBOOLEAN kVmExitEntryGuardPc restore alloc inst idx next) L =
            Some frag /\
          forall st,
            passes (run frag st) =
              Some (negb (isFalsy LUA_TNIL LUA_TBOOLEAN (readInt st 32 opa) (readInt st 32 opb)))) /\
     (tagConstant L (a inst) LUA_TBOOLEAN ->
        exists frag,
          emitted (lowerInst LUA_TNIL LUA_TBOOLEAN kVmExitEntryGuardPc restore alloc inst idx next) L =
            Some frag /\
          forall st,
            passes (run frag st) =
              Some (negb (isFalsy LUA_TNIL LUA_TBOOLEAN LUA_TBOOLEAN (readInt st 32 opb))))).
Proof.
  intros Hok. split; [intros; apply isFalsy_spec|]. split.
  - intros Hcmd Hn Hdst st tag payload Ha Hb Hconst.
    assert (exists srca,
              match srca with
              | Some ra => residentIn L (a inst) ra /\ index (a inst) <> idx
              | None => tagConstant L (a inst) LUA_TBOOLEAN
              end /\
              match srca with
              | Some ra => size ra = SizeX64.dword /\ readInt st 32 (OpReg ra) = tag
              | None => tag = LUA_TBOOLEAN
              end) as (srca & Ha1 & Ha2).
    { destruct Ha as [(r & Hr & Hi & Hs & Hv)|Hc].
      - exists (Some r). auto.
      - exists None. pose proof Hc as [Hk _]. specialize (Hconst Hk). subst tag. auto. }
    assert (exists srcb,
              match srcb with
              | inl rb => residentIn L (b inst) rb /\ index (b inst) <> idx
              | inr v => intConstant L (b inst) v
              end /\
              match srcb with
              | inl rb => size rb = SizeX64.dword /\ readInt st 32 (OpReg rb) = payload
              | inr v => payload = v
              end) as (srcb & Hb1 & Hb2).
    { destruct Hb as [(r & Hr & Hi & Hs & Hv)|Hc].
      - exists (inl r). auto.
      - exists (inr payload). auto. }
    destruct (run_notAnyCode LUA_TNIL LUA_TBOOLEAN (instReg alloc) srca srcb
                (nextLabel (build L)) st tag payload Hok Hdst Ha2 Hb2) as (st' & Hrun & Hres).
    eexists _, st'. split; [|split; [exact Hrun|exact Hres]].
    apply lower_NOT_ANY_emitted; assumption.
  - intros Hcmd Hinv Htarget opb Hopb Hb32. split.
    + intros opa Hopa Ha32.
      destruct (lower_CHECK_TRUTHY_tagged LUA_TNIL LUA_TBOOLEAN kVmExitEntryGuardPc restore alloc
                  inst idx next L opa opb Hcmd Hinv Htarget Hopa Hopb)
        as (g1 & g2 & e1 & e2 & skip & Hem & Hg1 & Hg2 & He1 & He2 & Hskip).
      eexists. split; [exact Hem|]. intros st.
      apply (run_checkTruthyCode _ _ _ _ _ _ e1 e2); assumption.
    + intros Hta.
      destruct (lower_CHECK_TRUTHY_boolean LUA_TNIL LUA_TBOOLEAN kVmExitEntryGuardPc restore alloc
                  inst idx next L opb Hcmd Hinv Htarget Hta Hopb) as (g2 & e2 & Hem & Hg2).
      eexists. split; [exact Hem|]. intros st.
      apply (run_checkTruthyCode_boolean _ _ _ _ _ e2); assumption.
Qed.

(** ** The statements on the sample function *)

Lemma sample_resident regs0 user i r :
  instructions (sampleFunction user) !! i = Some (valueIn r) -> r <> noreg ->
  residentIn (sampleLowering regs0 user) (instRef i) r.
Proof.
  intros Hi Hr. split; [reflexivity|]. exists (valueIn r).
  split; [exact Hi|]. split; [reflexivity|]. split; [reflexivity|]. split; [reflexivity|exact Hr].
Qed.

Lemma round_num_formula_witness :
  exists frag,
    emitted (lowerInst 0 1 sampleGuardPc noRestore sampleXmmAllocation
               (instruction IrCmd.ROUND_NUM (instRef 2) noOperand noOperand noOperand)
               sampleIndex sampleNext)
            (sampleLowering sampleRegs
               (instruction IrCmd.ROUND_NUM (instRef 2) noOperand noOperand noOperand)) = Some frag /\
    exists st',
      run frag (sampleState 0 0 0x4004000000000000 0) = Fallthrough st' /\
      fst (xmm st' 4) = 0x4008000000000000.
Proof.
  destruct (round_num_formula 0 1 sampleGuardPc noRestore sampleXmmAllocation
              (instruction IrCmd.ROUND_NUM (instRef 2) noOperand noOperand noOperand)
              sampleIndex sampleNext
              (sampleLowering sampleRegs
                 (instruction IrCmd.ROUND_NUM (instRef 2) noOperand noOperand noOperand))
              (OpReg xmm2))
    as (frag & Hemitted & Hrun & _ & _ & _ & _ & _ & Hexample & _).
  - reflexivity.
  - left. exists xmm2. split; [apply sample_resident; [reflexivity|discriminate]|].
    split; [discriminate|]. split; reflexivity.
  - reflexivity.
  - reflexivity.
  - reflexivity.
  - discriminate.
  - discriminate.
  - discriminate.
  - exists frag. split; [exact Hemitted|].
    destruct (Hrun (sampleState 0 0 0x4004000000000000 0) 0x4004000000000000 eq_refl)
      as (st' & Hst' & Hres).
    exists st'. split; [exact Hst'|exact (eq_trans Hres Hexample)].
Defined.

Lemma mod_num_formula_witness :
  exists frag,
    emitted (lowerInst 0 1 sampleGuardPc noRestore sampleXmmAllocation
               (instruction IrCmd.MOD_NUM (instRef 2) (instRef 3) noOperand noOperand)
               sampleIndex sampleNext)
            (sampleLowering sampleRegs
               (instruction IrCmd.MOD_NUM (instRef 2) (instRef 3) noOperand noOperand)) = Some frag /\
    exists st',
      run frag (sampleState 0 0 0xc014000000000000 0x4008000000000000) = Fallthrough st' /\
      fst (xmm st' 4) = 0x3ff0000000000000.
Proof.
  destruct (mod_num_formula 0 1 sampleGuardPc noRestore sampleXmmAllocation
              (instruction IrCmd.MOD_NUM (instRef 2) (instRef 3) noOperand noOperand)
              sampleIndex sampleNext
              (sampleLowering sampleRegs
                 (instruction IrCmd.MOD_NUM (instRef 2) (instRef 3) noOperand noOperand))
              (OpReg xmm2) (OpReg xmm3))
    as (frag & Hemitted & Hrun & _ & _ & Hexample & _).
  - reflexivity.
  - left. exists xmm2. split; [apply sample_resident; [reflexivity|discriminate]|].
    split; [discriminate|]. split; reflexivity.
  - left. exists xmm3. split; [apply sample_resident; [reflexivity|discriminate]|].
    split; [discriminate|]. split; reflexivity.
  - reflexivity.
  - unfold scratchDisjoint. cbn.
    repeat split; try reflexivity; try discriminate;
      destruct H as [H|[H|[]]]; inversion H; subst; cbn; discriminate.
  - exists frag. split; [exact Hemitted|].
    destruct (Hrun (sampleState 0 0 0xc014000000000000 0x4008000000000000)
                0xc014000000000000 0x4008000000000000 eq_refl eq_refl)
      as (st' & Hst' & Hres).
    exists st'. split; [exact Hst'|exact (eq_trans Hres Hexample)].
Defined.

(** The operands 3 * 2^53 + 4 and 3: the divisor is positive and the code
    leaves -4 in the result register.  The operands 1e308 and 0.5: the
    quotient overflows, the product is +infinity and the code leaves
    -infinity, so the product and the result do not add up to the first
    operand. *)
Lemma mod_num_sign_differs :
  exists frag st' st'',
    emitted (lowerInst 0 1 sampleGuardPc noRestore sampleXmmAllocation
               (instruction IrCmd.MOD_NUM (instRef 2) (instRef 3) noOperand noOperand)
               sampleIndex sampleNext)
            (sampleLowering sampleRegs
               (instruction IrCmd.MOD_NUM (instRef 2) (instRef 3) noOperand noOperand)) = Some frag /\
    run frag (sampleState 0 0 0x4358000000000001 0x4008000000000000) = Fallthrough st' /\
    fst (xmm st' 4) = 0xc010000000000000 /\
    b64_to_sf 0x4358000000000001 = S754_finite false 6755399441055745 2 /\
    b64_to_sf 0x4008000000000000 = S754_finite false 6755399441055744 (-51) /\
    b64_to_sf 0xc010000000000000 = S754_finite true 4503599627370496 (-50) /\
    f64_signbit 0x4008000000000000 = false /\
    f64_signbit (fst (xmm st' 4)) = true /\
    run frag (sampleState 0 0 0x7fe1ccf385ebc8a0 0x3fe0000000000000) = Fallthrough st'' /\
    fst (xmm st'' 4) = 0xfff0000000000000 /\
    b64_to_sf 0x7fe1ccf385ebc8a0 = S754_finite false 5010420900022432 971 /\
    b64_to_sf 0x3fe0000000000000 = S754_finite false 4503599627370496 (-53) /\
    b64_to_sf (flooredProduct 0x7fe1ccf385ebc8a0 0x3fe0000000000000) = S754_infinity false /\
    b64_to_sf (fst (xmm st'' 4)) = S754_infinity true /\
    f64_isNaN (f64_add (flooredProduct 0x7fe1ccf385ebc8a0 0x3fe0000000000000)
                 (fst (xmm st'' 4))) = true.
Proof.
  eexists. eexists. eexists. split; [vm_compute; reflexivity|].
  split; [vm_compute; reflexivity|].
  do 6 (split; [vm_compute; reflexivity|]).
  split; [vm_compute; reflexivity|].
  repeat split; vm_compute; reflexivity.
Qed.

Lemma bitcount_zero_is_32_witness :
  exists frag,
    emitted (lowerInst 0 1 sampleGuardPc noRestore sampleGprAllocation
               (instruction IrCmd.BITCOUNTLZ_UINT (instRef 0) noOperand noOperand noOperand)
               sampleIndex sampleNext)
            (sampleLowering sampleRegs
               (instruction IrCmd.BITCOUNTLZ_UINT (instRef 0) noOperand noOperand noOperand))
      = Some frag /\
    exists st',
      run frag (sampleState 0 0 0 0) = Fallthrough st' /\
      readInt st' 32 (OpReg edx) = 32.
Proof.
  destruct (bitcount_zero_is_32 0 1 sampleGuardPc noRestore sampleGprAllocation
              (instruction IrCmd.BITCOUNTLZ_UINT (instRef 0) noOperand noOperand noOperand)
              sampleIndex sampleNext
              (sampleLowering sampleRegs
                 (instruction IrCmd.BITCOUNTLZ_UINT (instRef 0) noOperand noOperand noOperand))
              eax)
    as (frag & Hemitted & Hrun & Hzero & _).
  - left. reflexivity.
  - apply sample_resident; [reflexivity|discriminate].
  - discriminate.
  - discriminate.
  - reflexivity.
  - reflexivity.
  - exists frag. split; [exact Hemitted|].
    destruct (Hrun (sampleState 0 0 0 0)) as (st' & Hst' & Hres).
    exists st'. split; [exact Hst'|exact (eq_trans Hres Hzero)].
Defined.

Lemma sample_labelInvariant regs0 user :
  labelInvariant sampleGuardPc (sampleLowering regs0 user).
Proof.
  split.
  - apply exitInvariant_initial; [reflexivity|reflexivity|discriminate|cbn; lia].
  - intros l [->|[(i & h & Hi & _)|(j & blk & Hj & <-)]].
    + cbn. lia.
    + cbn in Hi. rewrite lookup_nil in Hi. discriminate.
    + cbn in Hj. destruct j as [|[|[|j]]]; cbn in Hj; inversion Hj; cbn; lia.
Qed.

Lemma uintOperand_vmReg restore L op :
  kind op = IrOpKind.VmReg -> uintOperand restore L op (luauRegValueInt (index op)).
Proof.
  intros Hk. split; [congruence|]. intros L1 _.
  unfold memRegUintOp. rewrite Hk. unfold bind. rewrite (vmRegOp_VmReg _ _ Hk). reflexivity.
Qed.

Lemma tagOperand_vmReg restore L op :
  kind op = IrOpKind.VmReg -> tagOperand restore L op (luauRegTag (index op)).
Proof.
  intros Hk. split; [congruence|]. intros L1 _.
  unfold memRegTagOp. rewrite Hk. unfold bind. rewrite (vmRegOp_VmReg _ _ Hk). reflexivity.
Qed.

Lemma tagOperand_resident restore L op r :
  residentIn L op r -> tagOperand restore L op (OpReg r).
Proof.
  intros Hr. pose proof Hr as [Hk _]. split; [congruence|]. intros L1 Hv.
  unfold memRegTagOp. rewrite Hk. unfold bind.
  rewrite (regOp_resident restore L1 op r (residentIn_sameValues _ _ _ _ Hv Hr)). reflexivity.
Qed.

Lemma uintOperand_resident restore L op r :
  residentIn L op r -> uintOperand restore L op (OpReg r).
Proof.
  intros Hr. pose proof Hr as [Hk _]. split; [congruence|]. intros L1 Hv.
  unfold memRegUintOp. rewrite Hk. unfold bind.
  rewrite (regOp_resident restore L1 op r (residentIn_sameValues _ _ _ _ Hv Hr)). reflexivity.
Qed.

(** NOT_ANY of a nil tag leaves 1; CHECK_TRUTHY of the tag and payload in
    [eax] and [ecx], guarding with a trap, lets exactly the truthy values
    through. *)
Lemma truthiness_two_step_witness :
  (exists frag st',
     emitted (lowerInst 0 1 sampleGuardPc noRestore sampleGprAllocation
                (instruction IrCmd.NOT_ANY (instRef 0) (instRef 1) noOperand noOperand)
                sampleIndex sampleNext)
             (sampleLowering sampleRegs
                (instruction IrCmd.NOT_ANY (instRef 0) (instRef 1) noOperand noOperand))
       = Some frag /\
     run frag (sampleState 0 5 0 0) = Fallthrough st' /\
     readInt st' 32 (OpReg edx) = 1) /\
  (exists frag,
     emitted (lowerInst 0 1 sampleGuardPc noRestore sampleGprAllocation
                (instruction IrCmd.CHECK_TRUTHY (instRef 0) (instRef 1) undefRef noOperand)
                sampleIndex sampleNext)
             (sampleLowering sampleRegs
                (instruction IrCmd.CHECK_TRUTHY (instRef 0) (instRef 1) undefRef noOperand))
       = Some frag /\
     forall st,
       passes (run frag st) =
         Some (negb (isFalsy 0 1 (readInt st 32 (OpReg eax)) (readInt st 32 (OpReg ecx))))).
Proof.
  assert (Hok : tagConstantsOk 0 1) by (unfold tagConstantsOk; lia).
  split.
  - destruct (truthiness_two_step 0 1 sampleGuardPc noRestore sampleGprAllocation
                (instruction IrCmd.NOT_ANY (instRef 0) (instRef 1) noOperand noOperand)
                sampleIndex sampleNext
                (sampleLowering sampleRegs
                   (instruction IrCmd.NOT_ANY (instRef 0) (instRef 1) noOperand noOperand))
                Hok) as (_ & Hnot & _).
    apply (Hnot eq_refl ltac:(discriminate) eq_refl (sampleState 0 5 0 0) 0 5).
    + left. exists eax. split; [apply sample_resident; [reflexivity|discriminate]|].
      split; [discriminate|split; reflexivity].
    + left. exists ecx. split; [apply sample_resident; [reflexivity|discriminate]|].
      split; [discriminate|split; reflexivity].
    + discriminate.
  - destruct (truthiness_two_step 0 1 sampleGuardPc noRestore sampleGprAllocation
                (instruction IrCmd.CHECK_TRUTHY (instRef 0) (instRef 1) undefRef noOperand)
                sampleIndex sampleNext
                (sampleLowering sampleRegs
                   (instruction IrCmd.CHECK_TRUTHY (instRef 0) (instRef 1) undefRef noOperand))
                Hok) as (_ & _ & Hcheck).
    destruct (Hcheck eq_refl (sample_labelInvariant _ _) (or_introl eq_refl) (OpReg ecx))
      as [Htagged _].
    + apply uintOperand_resident, sample_resident; [reflexivity|discriminate].
    + reflexivity.
    + apply (Htagged (OpReg eax)); [|reflexivity].
      apply tagOperand_resident, sample_resident; [reflexivity|discriminate].
Defined.

(** Two exits of the sample function, to positions 3 and 7, get the labels
    2 and 3. *)
Lemma exit_edges_share_trampolines_witness :
  exists L1 l1 L3 l2,
    jumpOrAbortOnUndef sampleGuardPc ConditionX64.Equal (exitEdge 3) sampleNext
      (sampleLowering sampleRegs (instruction IrCmd.NOP noOperand noOperand noOperand noOperand))
      = Ok tt L1 /\
    jumpOrAbortOnUndef sampleGuardPc ConditionX64.NotEqual (exitEdge 7) sampleNext L1 = Ok tt L3 /\
    code (build L3) = [branchTo ConditionX64.Equal l1; branchTo ConditionX64.NotEqual l2] /\
    l1 <> l2.
Proof.
  pose proof (sample_labelInvariant sampleRegs
                (instruction IrCmd.NOP noOperand noOperand noOperand noOperand)) as [Hinv _].
  destruct (exit_edges_share_trampolines sampleGuardPc sampleNext
              ConditionX64.Equal ConditionX64.NotEqual 3 7 _ Hinv)
    as (L1 & l1 & Hrun1 & Hcode1 & _ & _ & Hnext).
  destruct (jumpOrAbortOnUndef_exit sampleGuardPc ConditionX64.Equal 3 sampleNext _ Hinv)
    as (L1' & _ & Hrun1' & _ & _ & [Hinv1 _] & _).
  assert (L1' = L1) by congruence. subst L1'.
  destruct (Hnext L1 (exitsKept_refl _ _ Hinv1)) as (L3 & l2 & Hrun3 & Hcode3 & Hiff).
  exists L1, l1, L3, l2. split; [exact Hrun1|]. split; [exact Hrun3|]. split.
  - rewrite Hcode3, Hcode1. reflexivity.
  - intros E. apply Hiff in E. discriminate.
Defined.

(** JUMP_EQ_TAG whose true target is the next block: one branch, on
    "not equal", to the other block. *)
Lemma two_way_branch_shapes_witness :
  exists L' ld,
    lowerInst 0 1 sampleGuardPc noRestore sampleGprAllocation
      (instruction IrCmd.JUMP_EQ_TAG (vmRegRef 0) (constRef 1) (blockRef 1) (blockRef 2))
      sampleIndex sampleNext
      (sampleLowering sampleRegs
         (instruction IrCmd.JUMP_EQ_TAG (vmRegRef 0) (constRef 1) (blockRef 1) (blockRef 2)))
      = Ok tt L' /\
    labelIdOf L' (blockRef 2) = Some ld /\
    code (build L') = [cmp (luauRegTag 0) (OpImm 1); jcc ConditionX64.NotEqual ld].
Proof.
  destruct (two_way_branch_shapes 0 1 sampleGuardPc noRestore sampleGprAllocation
              (instruction IrCmd.JUMP_EQ_TAG (vmRegRef 0) (constRef 1) (blockRef 1) (blockRef 2))
              sampleIndex sampleNext
              (sampleLowering sampleRegs
                 (instruction IrCmd.JUMP_EQ_TAG (vmRegRef 0) (constRef 1) (blockRef 1) (blockRef 2)))
              (mkIrBlock 1 10 19 (mkLabel 0)) (mkIrBlock 1 20 29 (mkLabel 0)))
    as (Htag & _).
  - split; reflexivity.
  - split; reflexivity.
  - discriminate.
  - destruct (Htag eq_refl (cmp (luauRegTag 0) (OpImm 1)))
      as (L' & frag & Hrun & Hcode & Hshape).
    + exists (OpImm 1). split.
      * right. exists 1. split; [split; reflexivity|reflexivity].
      * left. exists (luauRegTag 0).
        split; [apply (tagOperand_vmReg _ _ (vmRegRef 0)); reflexivity|reflexivity].
    + cbn in Hshape. destruct Hshape as (ld & Hld & _ & Hfrag).
      exists L', ld. split; [exact Hrun|]. split; [exact Hld|].
      rewrite Hcode, Hfrag. reflexivity.
Defined.

(** JUMP_LT_INT whose true target is the next block: the conditional branch
    goes to the next block and a [jmp] to the other block follows. *)
Lemma jump_lt_int_branches_to_next_block :
  exists L',
    lowerInst 0 1 sampleGuardPc noRestore sampleGprAllocation
      (instruction IrCmd.JUMP_LT_INT (instRef 0) (constRef 3) (blockRef 1) (blockRef 2))
      sampleIndex sampleNext
      (sampleLowering sampleRegs
         (instruction IrCmd.JUMP_LT_INT (instRef 0) (constRef 3) (blockRef 1) (blockRef 2)))
      = Ok tt L' /\
    (exists blk, blocks (function L') !! 1%nat = Some blk /\ isFallthroughBlock blk sampleNext = true) /\
    labelIdOf L' (blockRef 1) = Some 2%nat /\
    labelIdOf L' (blockRef 2) = Some 3%nat /\
    code (build L') =
      [cmp (OpReg eax) (OpImm 2); jcc ConditionX64.Less 2; jmp 3] /\
    ~ branchesOnNonFallthrough (drop 1 (code (build L'))) 2 3.
Proof.
  eexists. split; [vm_compute; reflexivity|].
  split; [eexists; split; reflexivity|].
  split; [reflexivity|]. split; [reflexivity|]. split; [reflexivity|].
  intros [Hcond _]. discriminate Hcond.
Qed.

Lemma finishBlock_pending_spills_witness :
  (forall predIdx, In predIdx [0%nat] -> predIdx = 0%nat) /\
  (exists nb, sampleBlocks !! 1%nat = Some nb /\ useCount nb = 1%nat).
Proof.
  destruct (finishBlock_pending_spills 0 1
              (sampleLowering (mkRegAlloc ∅ ∅ [mkIrSpill 0 0] {[0%nat]} 1)
                 (instruction IrCmd.NOP noOperand noOperand noOperand noOperand)))
    as [[Hcompletes _] _].
  - discriminate.
  - apply Hcompletes. eexists. reflexivity.
Defined.

Lemma call_return_require_clean_allocation_witness :
  lowerInst 0 1 sampleGuardPc noRestore sampleGprAllocation
    (instruction IrCmd.CALL (vmRegRef 0) (constRef 3) (constRef 0) noOperand)
    sampleIndex sampleNext
    (sampleLowering cleanRegs
       (instruction IrCmd.CALL (vmRegRef 0) (constRef 3) (constRef 0) noOperand)) =
  Ok tt (set_build
           (sampleLowering cleanRegs
              (instruction IrCmd.CALL (vmRegRef 0) (constRef 3) (constRef 0) noOperand))
           (mkBuilder [emitInstCall 0 2 0] 2)).
Proof.
  destruct (call_return_require_clean_allocation 0 1 sampleGuardPc noRestore sampleGprAllocation
              (instruction IrCmd.CALL (vmRegRef 0) (constRef 3) (constRef 0) noOperand)
              sampleIndex sampleNext
              (sampleLowering cleanRegs
                 (instruction IrCmd.CALL (vmRegRef 0) (constRef 3) (constRef 0) noOperand))
              (or_introl eq_refl))
    as (_ & _ & Hclean).
  apply (Hclean (emitInstCall 0 2 0)).
  - split; [reflexivity|split; reflexivity].
  - split; [reflexivity|]. exists 2, 0. split; [split; reflexivity|].
    split; [split; reflexivity|reflexivity].
Defined.

(** Three spills against a budget of two slots. *)
Lemma hasError_iff_spill_budget_exceeded_witness :
  exists L',
    spillAll [0%nat; 1%nat; 2%nat]
      (sampleLowering cleanRegs (instruction IrCmd.NOP noOperand noOperand noOperand noOperand))
      = Ok tt L' /\
    hasError 2 L' = true.
Proof.
  destruct (hasError_iff_spill_budget_exceeded 2) as [_ Hspill].
  destruct (Hspill [0%nat; 1%nat; 2%nat]
              (sampleLowering cleanRegs
                 (instruction IrCmd.NOP noOperand noOperand noOperand noOperand)))
    as (L' & Hrun & _ & Herr).
  exists L'. split; [exact Hrun|]. apply Herr.
  - intros slot Hslot. cbn in Hslot. apply not_elem_of_empty in Hslot. destruct Hslot.
  - cbn. lia.
Defined.

(** A constant-table slot as an unsigned operand and as a double operand. *)
Lemma memRegOp_kinds_witness :
  memRegUintOp noRestore (mkIrOp IrOpKind.VmConst 0)
    (sampleLowering sampleRegs (instruction IrCmd.NOP noOperand noOperand noOperand noOperand))
    = Abort "Unsupported operand kind" /\
  memRegDoubleOp noRestore (mkIrOp IrOpKind.VmConst 0)
    (sampleLowering sampleRegs (instruction IrCmd.NOP noOperand noOperand noOperand noOperand))
    = Ok (luauConstantValue 0)
         (sampleLowering sampleRegs (instruction IrCmd.NOP noOperand noOperand noOperand noOperand)).
Proof.
  destruct (memRegOp_kinds noRestore
              (sampleLowering sampleRegs
                 (instruction IrCmd.NOP noOperand noOperand noOperand noOperand))
              (mkIrOp IrOpKind.VmConst 0)) as (_ & _ & _ & _ & Hconst).
  exact (Hconst eq_refl).
Defined.

(** * Control flow, exits and invariants of the lowering *)

(** ** Two-way branches: where control goes *)

Lemma testbit_top w r : 0 < w -> 0 <= r < 2 ^ w -> Z.testbit r (w - 1) = (2 ^ (w - 1) <=? r).
Proof.
  intros Hw Hr. rewrite Z.testbit_odd, Z.shiftr_div_pow2 by lia.
  assert (Hp : 0 < 2 ^ (w - 1)) by (apply Z.pow_pos_nonneg; lia).
  assert (H2 : 2 ^ w = 2 * 2 ^ (w - 1)).
  { replace w with (Z.succ (w - 1)) at 1 by lia. rewrite Z.pow_succ_r by lia. reflexivity. }
  destruct (Z.leb_spec (2 ^ (w - 1)) r) as [Hle|Hlt].
  - rewrite <- (Z.div_unique r (2 ^ (w - 1)) 1 (r - 2 ^ (w - 1))) by lia. reflexivity.
  - rewrite Z.div_small by lia. reflexivity.
Qed.

(** After a compare, "less" is the signed order and "above or equal" the
    unsigned order of the operands. *)
Lemma cmpFlags_less w x y :
  0 < w -> 0 <= x < 2 ^ w -> 0 <= y < 2 ^ w ->
  evalCond ConditionX64.Less (cmpFlags w x y) = Some (signed w x <? signed w y).
Proof.
  intros Hw Hx Hy. cbn [evalCond cmpFlags SF OF]. f_equal.
  assert (Hp : 0 < 2 ^ (w - 1)) by (apply Z.pow_pos_nonneg; lia).
  assert (H2 : 2 ^ w = 2 * 2 ^ (w - 1)).
  { replace w with (Z.succ (w - 1)) at 1 by lia. rewrite Z.pow_succ_r by lia. reflexivity. }
  assert (Hr : 0 <= (x - y) mod 2 ^ w < 2 ^ w) by (apply Z.mod_pos_bound; lia).
  rewrite testbit_top by assumption.
  set (sx := signed w x). set (sy := signed w y).
  assert (Hsx : sx = x \/ sx = x - 2 ^ w) by (unfold sx, signed; destruct (x <? _); auto).
  assert (Hsy : sy = y \/ sy = y - 2 ^ w) by (unfold sy, signed; destruct (y <? _); auto).
  assert (Hbx : - 2 ^ (w - 1) <= sx < 2 ^ (w - 1)).
  { unfold sx, signed. destruct (Z.ltb_spec x (2 ^ (w - 1))); lia. }
  assert (Hby : - 2 ^ (w - 1) <= sy < 2 ^ (w - 1)).
  { unfold sy, signed. destruct (Z.ltb_spec y (2 ^ (w - 1))); lia. }
  assert (Hmod : exists k, (x - y) mod 2 ^ w = sx - sy + k * 2 ^ w /\ (k = 0 \/ k = 1 \/ k = -1)).
  { pose proof (Z.div_mod (x - y) (2 ^ w) ltac:(lia)) as Hdm.
    assert (Hq : -1 <= (x - y) / 2 ^ w <= 0).
    { split; [apply Z.div_le_lower_bound; lia|].
      assert ((x - y) / 2 ^ w < 1) by (apply Z.div_lt_upper_bound; lia). lia. }
    remember ((x - y) / 2 ^ w) as q eqn:Eq. remember ((x - y) mod 2 ^ w) as r eqn:Er.
    remember (2 ^ w) as P eqn:EP.
    assert (Hqc : q = 0 \/ q = -1) by lia.
    destruct Hsx as [Hsx | Hsx], Hsy as [Hsy | Hsy]; rewrite Hsx, Hsy.
    - exists (- q). split; [destruct Hqc; subst q; lia|lia].
    - exists (- q - 1). split; [destruct Hqc; subst q; lia|lia].
    - exists (- q + 1). split; [destruct Hqc; subst q; lia|lia].
    - exists (- q). split; [destruct Hqc; subst q; lia|lia]. }
  destruct Hmod as (k & Hk & Hkc). rewrite Hk in *.
  destruct (Z.ltb_spec sx sy), (Z.leb_spec (2 ^ (w - 1)) (sx - sy + k * 2 ^ w)),
    (Z.ltb_spec (sx - sy) (- 2 ^ (w - 1))), (Z.leb_spec (2 ^ (w - 1)) (sx - sy));
    cbn [orb xorb]; try reflexivity; exfalso; nia.
Qed.

Lemma cmpFlags_aboveEqual w x y :
  evalCond ConditionX64.AboveEqual (cmpFlags w x y) = Some (y <=? x).
Proof. cbn [evalCond cmpFlags CF]. f_equal. rewrite Z.leb_antisym. reflexivity. Qed.

Lemma cmpFlags_equal w x y :
  0 < w -> 0 <= x < 2 ^ w -> 0 <= y < 2 ^ w ->
  evalCond ConditionX64.Equal (cmpFlags w x y) = Some (x =? y) /\
  evalCond ConditionX64.NotEqual (cmpFlags w x y) = Some (negb (x =? y)).
Proof.
  intros Hw Hx Hy. cbn [evalCond]. rewrite cmpFlags_ZF by assumption. split; reflexivity.
Qed.

Lemma logicFlags_zero w x :
  evalCond ConditionX64.Zero (logicFlags w (Z.land x x)) = Some (x =? 0) /\
  evalCond ConditionX64.NotZero (logicFlags w (Z.land x x)) = Some (negb (x =? 0)).
Proof. rewrite Z.land_diag. split; reflexivity. Qed.

(** Running the tail of a two-way branch: the conditional branch takes
    control to [t] when the condition holds; otherwise control reaches [o],
    by falling through or by the [jmp]. *)
Lemma branch_then_fallthrough_run cond t o next L bt bo :
  blockOperand L t bt -> blockOperand L o bo ->
  nextLabel (build L) <> 0%nat ->
  exists L' frag,
    (lbl <- labelOp t ;; build_jcc cond lbl (mkLabel 0) ;;;
     bi <- blockOp o ;; jumpOrFallthrough bi next) L = Ok tt L' /\
    code (build L') = code (build L) ++ frag /\
    forall st fl, evalCond cond (flags st) = Some fl ->
      if fl then arrivesAt (exec frag None st) st (labelIdOf L' t) bt next
      else arrivesAt (exec frag None st) st (labelIdOf L' o) bo next.
Proof.
  intros Ht Ho Hn.
  destruct (branch_then_fallthrough cond t o next L bt bo Ht Ho Hn)
    as (L' & lt & Hrun & Hlt & Hnz & Hshape).
  destruct (isFallthroughBlock bo next) eqn:Hft.
  - exists L', [jcc cond lt]. split; [exact Hrun|]. split; [exact Hshape|].
    intros st fl Hfl. cbn [exec]. rewrite Hfl. destruct fl.
    + right. exists lt. auto.
    + left. auto.
  - destruct Hshape as (lo & Hcode & Hlo & Hlonz).
    exists L', [jcc cond lt; jmp lo]. split; [exact Hrun|]. split; [exact Hcode|].
    intros st fl Hfl. cbn [exec]. rewrite Hfl. destruct fl.
    + right. exists lt. auto.
    + right. exists lo. auto.
Qed.

Lemma signed_mod w v :
  0 < w -> - 2 ^ (w - 1) <= v < 2 ^ (w - 1) -> signed w (v mod 2 ^ w) = v.
Proof.
  intros Hw Hv. unfold signed.
  assert (Hp : 0 < 2 ^ (w - 1)) by (apply Z.pow_pos_nonneg; lia).
  assert (H2 : 2 ^ w = 2 * 2 ^ (w - 1)).
  { replace w with (Z.succ (w - 1)) at 1 by lia. rewrite Z.pow_succ_r by lia. reflexivity. }
  destruct (Z.lt_ge_cases v 0) as [Hneg|Hpos].
  - rewrite <- (Z.mod_unique v (2 ^ w) (-1) (v + 2 ^ w)) by lia.
    rewrite (proj2 (Z.ltb_ge _ _)) by lia. lia.
  - rewrite Z.mod_small by lia. rewrite (proj2 (Z.ltb_lt _ _)) by lia. reflexivity.
Qed.

Lemma exec_cmp w x y rest st :
  opWidth x y = Some w ->
  exec (cmp x y :: rest) None st =
    exec rest None (setFlags st (cmpFlags w (readInt st w x) (readInt st w y))).
Proof. intros Hw. cbn [exec step]. rewrite Hw. reflexivity. Qed.

Lemma opWidth_reg r y : isGpr r = true -> opWidth (OpReg r) y = Some (bits (size r)).
Proof. intros H. cbn [opWidth]. rewrite H. reflexivity. Qed.

(** X1.  JUMP_LT_INT: control goes to the first target exactly when the
    register is below the constant as signed 32-bit integers, and then
    always by the conditional branch to the first target's label, also when
    that target is the next block; otherwise control goes to the second
    target, by falling through when it is the next block and by the [jmp]
    to its label when it is not.  Only the flags change. *)
Theorem jump_lt_int_goes LUA_TNIL LUA_TBOOLEAN kVmExitEntryGuardPc restore alloc inst idx next
    L bc bd ra v :
  cmd inst = IrCmd.JUMP_LT_INT ->
  blockOperand L (c inst) bc -> blockOperand L (d inst) bd ->
  nextLabel (build L) <> 0%nat ->
  residentIn L (a inst) ra -> size ra = SizeX64.dword ->
  intConstant L (b inst) v -> - 2 ^ 31 <= v < 2 ^ 31 ->
  exists L' frag lc,
    lowerInst LUA_TNIL LUA_TBOOLEAN kVmExitEntryGuardPc restore alloc inst idx next L = Ok tt L' /\
    code (build L') = code (build L) ++ frag /\
    labelIdOf L' (c inst) = Some lc /\ lc <> 0%nat /\
    forall st,
      let st' := setFlags st (cmpFlags 32 (readInt st 32 (OpReg ra)) (v mod 2 ^ 32)) in
      if signed 32 (readInt st 32 (OpReg ra)) <? v
      then run frag st = Branch lc st'
      else if isFallthroughBlock bd next then run frag st = Fallthrough st'
           else exists ld, labelIdOf L' (d inst) = Some ld /\ ld <> 0%nat /\
                           run frag st = Branch ld st'.
Proof.
  intros Hcmd Hc Hd Hn Ha Hsz Hb Hv. unfold lowerInst. rewrite Hcmd.
  rewrite (bind_Ok _ _ _ _ _ (regOp_resident restore _ _ _ Ha)).
  rewrite (bind_Ok _ _ _ _ _ (intOp_constant _ _ _ Hb)).
  rewrite (bind_Ok _ _ _ _ _ (emit_run _ _)).
  destruct (branch_tail_shape ConditionX64.Less (c inst) (d inst) next L
              (cmp (OpReg ra) (OpImm v)) bc bd Hc Hd Hn)
    as (L' & frag & Hrun & Hcode & lc & Hlbl & Hlc & Hshape).
  exists L', (cmp (OpReg ra) (OpImm v) :: frag), lc.
  split; [exact Hrun|]. split; [exact Hcode|]. split; [exact Hlbl|]. split; [exact Hlc|].
  intros st. cbv zeta. unfold run.
  assert (Hw : opWidth (OpReg ra) (OpImm v) = Some 32).
  { rewrite opWidth_reg by (unfold isGpr; rewrite Hsz; reflexivity). rewrite Hsz. reflexivity. }
  rewrite (exec_cmp 32) by exact Hw. cbn [readInt].
  set (x := gpr st (regIndex ra) mod 2 ^ 32).
  assert (Hx : 0 <= x < 2 ^ 32) by (apply Z.mod_pos_bound; lia).
  assert (Hy : 0 <= v mod 2 ^ 32 < 2 ^ 32) by (apply Z.mod_pos_bound; lia).
  set (st1 := setFlags st (cmpFlags 32 x (v mod 2 ^ 32))).
  assert (Hfl : evalCond ConditionX64.Less (flags st1) = Some (signed 32 x <? v)).
  { pose proof (cmpFlags_less 32 x (v mod 2 ^ 32) ltac:(lia) Hx Hy) as H.
    rewrite (signed_mod 32 v) in H by lia. exact H. }
  destruct (isFallthroughBlock bd next).
  - subst frag. cbn [exec]. rewrite Hfl. destruct (signed 32 x <? v); reflexivity.
  - destruct Hshape as (ld & Hlbld & Hld & ->). cbn [exec]. rewrite Hfl.
    destruct (signed 32 x <? v); [reflexivity|].
    exists ld. split; [exact Hlbld|]. split; [exact Hld|reflexivity].
Qed.

(** X2.  JUMP_GE_UINT: control goes to the first target exactly when the register
    is at least the constant as unsigned 32-bit integers. *)
Theorem jump_ge_uint_goes LUA_TNIL LUA_TBOOLEAN kVmExitEntryGuardPc restore alloc inst idx next
    L bc bd ra v :
  cmd inst = IrCmd.JUMP_GE_UINT ->
  blockOperand L (c inst) bc -> blockOperand L (d inst) bd ->
  nextLabel (build L) <> 0%nat ->
  residentIn L (a inst) ra -> size ra = SizeX64.dword ->
  intConstant L (b inst) v ->
  exists L' frag,
    lowerInst LUA_TNIL LUA_TBOOLEAN kVmExitEntryGuardPc restore alloc inst idx next L = Ok tt L' /\
    code (build L') = code (build L) ++ frag /\
    forall st,
      let st' := setFlags st (cmpFlags 32 (readInt st 32 (OpReg ra)) (v mod 2 ^ 32)) in
      if v mod 2 ^ 32 <=? readInt st 32 (OpReg ra)
      then arrivesAt (run frag st) st' (labelIdOf L' (c inst)) bc next
      else arrivesAt (run frag st) st' (labelIdOf L' (d inst)) bd next.
Proof.
  intros Hcmd Hc Hd Hn Ha Hsz Hb. unfold lowerInst. rewrite Hcmd.
  rewrite (bind_Ok _ _ _ _ _ (regOp_resident restore _ _ _ Ha)).
  rewrite (bind_Ok _ _ _ _ _ (intOp_constant _ _ _ Hb)).
  rewrite (bind_Ok _ _ _ _ _ (emit_run _ _)).
  set (L1 := addCode L [cmp (OpReg ra) (OpImm (v mod 2 ^ 32))]).
  destruct (branch_then_fallthrough_run ConditionX64.AboveEqual (c inst) (d inst) next L1 bc bd
              Hc Hd Hn) as (L' & frag & Hrun & Hcode & Hgo).
  exists L', (cmp (OpReg ra) (OpImm (v mod 2 ^ 32)) :: frag).
  split; [exact Hrun|]. split.
  { rewrite Hcode. unfold L1. rewrite code_addCode, <- app_assoc. reflexivity. }
  intros st. cbv zeta. unfold run.
  assert (Hw : opWidth (OpReg ra) (OpImm (v mod 2 ^ 32)) = Some 32).
  { rewrite opWidth_reg by (unfold isGpr; rewrite Hsz; reflexivity). rewrite Hsz. reflexivity. }
  rewrite (exec_cmp 32) by exact Hw. cbn [readInt]. rewrite Z.mod_mod by lia.
  apply (Hgo (setFlags st _)). apply cmpFlags_aboveEqual.
Qed.

(** X3.  JUMP_EQ_POINTER: control goes to the first target exactly when the two
    64-bit registers hold the same value. *)
Theorem jump_eq_pointer_goes LUA_TNIL LUA_TBOOLEAN kVmExitEntryGuardPc restore alloc inst idx next
    L bc bd ra rb :
  cmd inst = IrCmd.JUMP_EQ_POINTER ->
  blockOperand L (c inst) bc -> blockOperand L (d inst) bd ->
  nextLabel (build L) <> 0%nat ->
  residentIn L (a inst) ra -> size ra = SizeX64.qword ->
  residentIn L (b inst) rb ->
  exists L' frag,
    lowerInst LUA_TNIL LUA_TBOOLEAN kVmExitEntryGuardPc restore alloc inst idx next L = Ok tt L' /\
    code (build L') = code (build L) ++ frag /\
    forall st,
      let st' := setFlags st (cmpFlags 64 (readInt st 64 (OpReg ra)) (readInt st 64 (OpReg rb))) in
      if readInt st 64 (OpReg ra) =? readInt st 64 (OpReg rb)
      then arrivesAt (run frag st) st' (labelIdOf L' (c inst)) bc next
      else arrivesAt (run frag st) st' (labelIdOf L' (d inst)) bd next.
Proof.
  intros Hcmd Hc Hd Hn Ha Hsz Hb. unfold lowerInst. rewrite Hcmd.
  rewrite (bind_Ok _ _ _ _ _ (regOp_resident restore _ _ _ Ha)).
  rewrite (bind_Ok _ _ _ _ _ (regOp_resident restore _ _ _ Hb)).
  rewrite (bind_Ok _ _ _ _ _ (emit_run _ _)).
  set (L1 := addCode L [cmp (OpReg ra) (OpReg rb)]).
  destruct (branch_then_fallthrough_run ConditionX64.Equal (c inst) (d inst) next L1 bc bd
              Hc Hd Hn) as (L' & frag & Hrun & Hcode & Hgo).
  exists L', (cmp (OpReg ra) (OpReg rb) :: frag).
  split; [exact Hrun|]. split.
  { rewrite Hcode. unfold L1. rewrite code_addCode, <- app_assoc. reflexivity. }
  intros st. cbv zeta. unfold run.
  assert (Hw : opWidth (OpReg ra) (OpReg rb) = Some 64).
  { rewrite opWidth_reg by (unfold isGpr; rewrite Hsz; reflexivity). rewrite Hsz. reflexivity. }
  rewrite (exec_cmp 64) by exact Hw.
  apply (Hgo (setFlags st _)).
  apply cmpFlags_equal; [lia| |]; apply readInt_range; lia.
Qed.

(** X4.  JUMP_EQ_INT: control goes to the first target exactly when the register
    equals the constant (a 32-bit compare; against zero it is a [test] of
    the register with itself). *)
Theorem jump_eq_int_goes LUA_TNIL LUA_TBOOLEAN kVmExitEntryGuardPc restore alloc inst idx next
    L bc bd ra v :
  cmd inst = IrCmd.JUMP_EQ_INT ->
  blockOperand L (c inst) bc -> blockOperand L (d inst) bd ->
  nextLabel (build L) <> 0%nat ->
  residentIn L (a inst) ra -> size ra = SizeX64.dword ->
  intConstant L (b inst) v ->
  exists L' frag,
    lowerInst LUA_TNIL LUA_TBOOLEAN kVmExitEntryGuardPc restore alloc inst idx next L = Ok tt L' /\
    code (build L') = code (build L) ++ frag /\
    forall st, exists st',
      gpr st' = gpr st /\ xmm st' = xmm st /\ mem st' = mem st /\
      if readInt st 32 (OpReg ra) =? v mod 2 ^ 32
      then arrivesAt (run frag st) st' (labelIdOf L' (c inst)) bc next
      else arrivesAt (run frag st) st' (labelIdOf L' (d inst)) bd next.
Proof.
  intros Hcmd Hc Hd Hn Ha Hsz Hb. unfold lowerInst. rewrite Hcmd.
  rewrite (bind_Ok _ _ _ _ _ (intOp_constant _ _ _ Hb)).
  assert (Hgpr : isGpr ra = true) by (unfold isGpr; rewrite Hsz; reflexivity).
  destruct (Z.eqb_spec v 0) as [->|Hv].
  - rewrite (bind_Ok _ _ _ _ _ (regOp_resident restore _ _ _ Ha)).
    rewrite (bind_Ok _ _ _ _ _ (regOp_resident restore _ _ _ Ha)).
    rewrite (bind_Ok _ _ _ _ _ (emit_run _ _)).
    set (L1 := addCode L [test (OpReg ra) (OpReg ra)]).
    assert (Hc1 : blockOperand L1 (c inst) bc) by exact Hc.
    assert (Hd1 : blockOperand L1 (d inst) bd) by exact Hd.
    rewrite (bind_Ok _ _ _ _ _ (blockOp_block _ _ _ Hc1)).
    rewrite (bind_Ok _ _ _ _ _ (blockAt_run _ _ _ (proj2 Hc1))).
    assert (Htest : forall rest st,
              exec (test (OpReg ra) (OpReg ra) :: rest) None st =
                exec rest None
                  (setFlags st (logicFlags 32 (Z.land (readInt st 32 (OpReg ra))
                                                      (readInt st 32 (OpReg ra)))))).
    { intros rest st. cbn [exec step]. rewrite opWidth_reg by exact Hgpr. rewrite Hsz.
      reflexivity. }
    change (0 mod 2 ^ 32) with 0.
    destruct (isFallthroughBlock bc next) eqn:Hftc.
    + rewrite (tail_with_index _ _ _ _ _ _ _ Hd1 Hc1 Hn).
      destruct (branch_then_fallthrough_run ConditionX64.NotZero (d inst) (c inst) next L1 bd bc
                  Hd1 Hc1 Hn) as (L' & frag & Hrun & Hcode & Hgo).
      exists L', (test (OpReg ra) (OpReg ra) :: frag).
      split; [exact Hrun|]. split.
      { rewrite Hcode. unfold L1. rewrite code_addCode, <- app_assoc. reflexivity. }
      intros st.
      exists (setFlags st (logicFlags 32 (Z.land (readInt st 32 (OpReg ra))
                                                 (readInt st 32 (OpReg ra))))).
      split; [reflexivity|]. split; [reflexivity|]. split; [reflexivity|].
      unfold run. rewrite Htest.
      pose proof (Hgo (setFlags st (logicFlags 32 (Z.land (readInt st 32 (OpReg ra))
                                                 (readInt st 32 (OpReg ra)))))
                    _ (proj2 (logicFlags_zero 32 (readInt st 32 (OpReg ra))))) as H.
      destruct (readInt st 32 (OpReg ra) =? 0); exact H.
    + destruct (branch_then_fallthrough_run ConditionX64.Zero (c inst) (d inst) next L1 bc bd
                  Hc1 Hd1 Hn) as (L' & frag & Hrun & Hcode & Hgo).
      exists L', (test (OpReg ra) (OpReg ra) :: frag).
      split; [exact Hrun|]. split.
      { rewrite Hcode. unfold L1. rewrite code_addCode, <- app_assoc. reflexivity. }
      intros st.
      exists (setFlags st (logicFlags 32 (Z.land (readInt st 32 (OpReg ra))
                                                 (readInt st 32 (OpReg ra))))).
      split; [reflexivity|]. split; [reflexivity|]. split; [reflexivity|].
      unfold run. rewrite Htest.
      exact (Hgo (setFlags st _) _ (proj1 (logicFlags_zero 32 (readInt st 32 (OpReg ra))))).
  - rewrite (bind_Ok _ _ _ _ _ (regOp_resident restore _ _ _ Ha)).
    rewrite (bind_Ok _ _ _ _ _ (emit_run _ _)).
    set (L1 := addCode L [cmp (OpReg ra) (OpImm v)]).
    destruct (branch_then_fallthrough_run ConditionX64.Equal (c inst) (d inst) next L1 bc bd
                Hc Hd Hn) as (L' & frag & Hrun & Hcode & Hgo).
    exists L', (cmp (OpReg ra) (OpImm v) :: frag).
    split; [exact Hrun|]. split.
    { rewrite Hcode. unfold L1. rewrite code_addCode, <- app_assoc. reflexivity. }
    intros st.
    exists (setFlags st (cmpFlags 32 (readInt st 32 (OpReg ra)) (readInt st 32 (OpImm v)))).
    split; [reflexivity|]. split; [reflexivity|]. split; [reflexivity|].
    unfold run. rewrite (exec_cmp 32) by (rewrite opWidth_reg by exact Hgpr; rewrite Hsz; reflexivity).
    change (v mod 2 ^ 32) with (readInt st 32 (OpImm v)).
    apply (Hgo (setFlags st _)).
    apply cmpFlags_equal; [lia| |]; apply readInt_range; lia.
Qed.

Lemma is32_width_any o y : is32 o -> opWidth o y = Some 32.
Proof. unfold is32. destruct o; cbn; auto. discriminate. Qed.

(** X5.  JUMP_EQ_TAG, for every form of its operands: the code starts with
    the compare of the first operand against the second or, when the first
    operand is a constant, of the second against that constant; where that
    compare is one of a 32-bit register or memory operand, then, whichever
    of the two targets is the next block, control goes to the first target
    exactly when the two compared tags are equal, and to the second target
    otherwise. *)
Theorem jump_eq_tag_goes LUA_TNIL LUA_TBOOLEAN kVmExitEntryGuardPc restore alloc inst idx next
    L bc bd x y :
  cmd inst = IrCmd.JUMP_EQ_TAG ->
  blockOperand L (c inst) bc -> blockOperand L (d inst) bd ->
  nextLabel (build L) <> 0%nat ->
  tagCompare restore L inst (cmp x y) -> is32 x ->
  exists L' tail,
    lowerInst LUA_TNIL LUA_TBOOLEAN kVmExitEntryGuardPc restore alloc inst idx next L = Ok tt L' /\
    code (build L') = code (build L) ++ cmp x y :: tail /\
    forall st,
      let st' := setFlags st (cmpFlags 32 (readInt st 32 x) (readInt st 32 y)) in
      if readInt st 32 x =? readInt st 32 y
      then arrivesAt (run (cmp x y :: tail) st) st' (labelIdOf L' (c inst)) bc next
      else arrivesAt (run (cmp x y :: tail) st) st' (labelIdOf L' (d inst)) bd next.
Proof.
  intros Hcmd Hc Hd Hn Hhead H32.
  rewrite (lower_JUMP_EQ_TAG_head _ _ _ _ _ _ _ _ _ _ Hcmd Hhead).
  set (L1 := addCode L [cmp x y]).
  assert (Hc1 : blockOperand L1 (c inst) bc) by exact Hc.
  assert (Hd1 : blockOperand L1 (d inst) bd) by exact Hd.
  rewrite (bind_Ok _ _ _ _ _ (blockOp_block _ _ _ Hd1)).
  rewrite (bind_Ok _ _ _ _ _ (blockAt_run _ _ _ (proj2 Hd1))).
  assert (Hflags : forall st,
            evalCond ConditionX64.Equal
              (flags (setFlags st (cmpFlags 32 (readInt st 32 x) (readInt st 32 y)))) =
              Some (readInt st 32 x =? readInt st 32 y) /\
            evalCond ConditionX64.NotEqual
              (flags (setFlags st (cmpFlags 32 (readInt st 32 x) (readInt st 32 y)))) =
              Some (negb (readInt st 32 x =? readInt st 32 y))).
  { intros st. apply cmpFlags_equal; [lia| |]; apply readInt_range; lia. }
  destruct (isFallthroughBlock bd next) eqn:Hftd.
  - destruct (branch_then_fallthrough_run ConditionX64.Equal (c inst) (d inst) next L1 bc bd
                Hc1 Hd1 Hn) as (L' & frag & Hrun & Hcode & Hgo).
    exists L', frag. split; [exact Hrun|]. split.
    { rewrite Hcode. unfold L1. rewrite code_addCode, <- app_assoc. reflexivity. }
    intros st. cbv zeta. unfold run.
    rewrite (exec_cmp 32) by (apply is32_width_any, H32).
    exact (Hgo (setFlags st _) _ (proj1 (Hflags st))).
  - destruct (branch_then_fallthrough_run ConditionX64.NotEqual (d inst) (c inst) next L1 bd bc
                Hd1 Hc1 Hn) as (L' & frag & Hrun & Hcode & Hgo).
    exists L', frag. split; [exact Hrun|]. split.
    { rewrite Hcode. unfold L1. rewrite code_addCode, <- app_assoc. reflexivity. }
    intros st. cbv zeta. unfold run.
    rewrite (exec_cmp 32) by (apply is32_width_any, H32).
    pose proof (Hgo (setFlags st _) _ (proj2 (Hflags st))) as H.
    destruct (readInt st 32 x =? readInt st 32 y); exact H.
Qed.

(** ** Guards and unconditional jumps *)

(** X6.  CHECK_TAG: the code runs to its end, changing only the flags, exactly
    when the tag is the expected one; for any other tag it leaves by its
    guard. *)
Theorem check_tag_guard LUA_TNIL LUA_TBOOLEAN kVmExitEntryGuardPc restore alloc inst idx next
    L opa t :
  cmd inst = IrCmd.CHECK_TAG ->
  labelInvariant kVmExitEntryGuardPc L -> validTarget L (c inst) ->
  tagOperand restore L (a inst) opa -> is32 opa ->
  tagConstant L (b inst) t -> 0 <= t < 256 ->
  exists frag,
    emitted (lowerInst LUA_TNIL LUA_TBOOLEAN kVmExitEntryGuardPc restore alloc inst idx next) L =
      Some frag /\
    forall st,
      if readInt st 32 opa =? t
      then run frag st = Fallthrough (setFlags st (cmpFlags 32 (readInt st 32 opa) t))
      else passes (run frag st) = Some false.
Proof.
  intros Hcmd Hinv Htarget [Hka Hopa] H32 Hb Ht.
  set (La := addCode L [cmp opa (OpImm t)]).
  assert (HinvA : labelInvariant kVmExitEntryGuardPc La) by apply labelInvariant_addCode, Hinv.
  assert (HtA : validTarget La (c inst)) by (apply (validTarget_same L); [reflexivity|exact Htarget]).
  destruct (guard_spec kVmExitEntryGuardPc ConditionX64.NotEqual (c inst) next La HtA
              ltac:(discriminate) HinvA) as (L1 & g & escape & Hrun1 & GS1).
  exists (cmp opa (OpImm t) :: g). split.
  - apply (emitted_code _ L tt L1).
    + unfold lowerInst. rewrite Hcmd.
      rewrite (bind_Ok _ _ _ _ _ (Hopa L (sameValues_refl L))).
      rewrite (bind_Ok _ _ _ _ _ (tagOp_constant _ _ _ Hb)).
      rewrite (bind_Ok _ _ _ _ _ (emit_run _ L)). exact Hrun1.
    + rewrite (gs_code _ _ _ _ _ _ _ GS1). unfold La. rewrite code_addCode, <- app_assoc.
      reflexivity.
  - intros st. unfold run.
    rewrite (exec_cmp 32) by (apply is32_width_any, H32).
    cbn [readInt]. rewrite (Z.mod_small t) by lia.
    set (st1 := setFlags st (cmpFlags 32 (readInt st 32 opa) t)).
    assert (Hfl : evalCond ConditionX64.NotEqual (flags st1) =
                  Some (negb (readInt st 32 opa =? t))).
    { apply cmpFlags_equal; [lia|apply readInt_range; lia|lia]. }
    pose proof (gs_guards _ _ _ _ _ _ _ GS1 st1 [] _ Hfl) as Hg.
    rewrite app_nil_r in Hg. rewrite Hg.
    destruct (readInt st 32 opa =? t); cbn [negb]; [reflexivity|].
    destruct escape; reflexivity.
Qed.

Lemma jump_block_run kVm target next L blk :
  blockOperand L target blk ->
  nextLabel (build L) <> 0%nat ->
  exists L' frag,
    jumpOrAbortOnUndef kVm ConditionX64.Count target next L = Ok tt L' /\
    code (build L') = code (build L) ++ frag /\
    (frag = [] <-> isFallthroughBlock blk next = true) /\
    forall st, arrivesAt (exec frag None st) st (labelIdOf L' target) blk next.
Proof.
  intros Hb Hn. pose proof Hb as [Hk Hblk].
  unfold jumpOrAbortOnUndef, getTargetLabel, finalizeTargetLabel, kindIs.
  rewrite Hk. cbn [IrOpKind.eqb andb].
  rewrite bool_decide_eq_true_2 by reflexivity.
  rewrite (bind_Ok _ _ _ _ _ (labelOp_block _ _ _ Hb)).
  assert (Hskip : (bi <- blockOp target ;; blk <- blockAt bi ;;
                   ret (isFallthroughBlock blk next)) L = Ok (isFallthroughBlock blk next) L).
  { rewrite (bind_Ok _ _ _ _ _ (blockOp_block _ _ _ Hb)).
    rewrite (bind_Ok _ _ _ _ _ (blockAt_run _ _ _ Hblk)). reflexivity. }
  rewrite (bind_bind_Ok _ _ _ _ _ _ Hskip).
  destruct (isFallthroughBlock blk next) eqn:Hft.
  - exists L, []. split; [reflexivity|]. split; [rewrite app_nil_r; reflexivity|].
    split; [tauto|]. intros st. left. auto.
  - destruct (build_jmp_block_spec (index target) blk (mkLabel 0) L Hblk Hn)
      as (L1 & l & Hrun & Hcode & Hl & _ & Hblk1 & _).
    exists L1, [jmp l]. split; [rewrite (bind_Ok _ _ _ _ _ Hrun); reflexivity|].
    split; [exact Hcode|]. split; [split; discriminate|].
    intros st. right. exists l. split; [|split; [exact Hl|reflexivity]].
    unfold labelIdOf. rewrite Hblk1. reflexivity.
Qed.

(** X7.  JUMP: a jump to the next block emits nothing; a jump to another block is
    one [jmp] to its label, a jump to a VM exit one [jmp] to the exit's
    label, and a jump to nowhere is a trap. *)
Theorem jump_goes LUA_TNIL LUA_TBOOLEAN kVmExitEntryGuardPc restore alloc inst idx next L :
  cmd inst = IrCmd.JUMP ->
  exitInvariant kVmExitEntryGuardPc L ->
  (kind (a inst) = IrOpKind.Undef ->
     exists L',
       lowerInst LUA_TNIL LUA_TBOOLEAN kVmExitEntryGuardPc restore alloc inst idx next L = Ok tt L' /\
       code (build L') = code (build L) ++ [ud2] /\
       forall st, run [ud2] st = Trap) /\
  (kind (a inst) = IrOpKind.VmExit ->
     exists L' l,
       lowerInst LUA_TNIL LUA_TBOOLEAN kVmExitEntryGuardPc restore alloc inst idx next L = Ok tt L' /\
       code (build L') = code (build L) ++ [jmp l] /\
       exitLabelOf kVmExitEntryGuardPc L' (index (a inst)) = Some l /\
       forall st, run [jmp l] st = Branch l st) /\
  (forall blk, blockOperand L (a inst) blk ->
     exists L' frag,
       lowerInst LUA_TNIL LUA_TBOOLEAN kVmExitEntryGuardPc restore alloc inst idx next L = Ok tt L' /\
       code (build L') = code (build L) ++ frag /\
       (frag = [] <-> isFallthroughBlock blk next = true) /\
       forall st, arrivesAt (run frag st) st (labelIdOf L' (a inst)) blk next).
Proof.
  intros Hcmd Hinv. unfold lowerInst. rewrite Hcmd. split; [|split].
  - intros Hk. exists (addCode L [ud2]). split; [|split; reflexivity].
    unfold jumpOrAbortOnUndef, getTargetLabel, finalizeTargetLabel, kindIs.
    rewrite Hk. cbn [IrOpKind.eqb andb]. rewrite bool_decide_eq_true_2 by reflexivity.
    reflexivity.
  - intros Hk.
    assert (Ht : a inst = exitEdge (index (a inst))).
    { destruct (a inst) as [k i]. cbn in Hk. subst k. reflexivity. }
    destruct (jumpOrAbortOnUndef_exit kVmExitEntryGuardPc ConditionX64.Count (index (a inst))
                next L Hinv) as (L' & l & Hrun & Hcode & Hl & _).
    exists L', l. rewrite Ht at 1. split; [exact Hrun|].
    split; [exact Hcode|]. split; [exact Hl|reflexivity].
  - intros blk Hb.
    assert (Hn : nextLabel (build L) <> 0%nat) by (destruct Hinv as [[_ H] _ _ _]; lia).
    exact (jump_block_run kVmExitEntryGuardPc (a inst) next L blk Hb Hn).
Qed.

(** ** The exit handlers of [finishFunction] *)

Lemma finishExitHandler_run kVm sz updatePc i h L :
  exitHandlers L !! i = Some h ->
  pcpos h <> kVm -> id (self h) <> 0%nat -> id updatePc <> 0%nat ->
  exists L',
    finishExitHandler kVm sz updatePc i L = Ok updatePc L' /\
    exitHandlers L' = exitHandlers L /\
    code (build L') = code (build L) ++ exitTrampoline sz (id updatePc) h.
Proof.
  intros Hh Hpc Hid Hu.
  exists (addCode (addCode (addCode L [setLabel (id (self h))])
            [mov (OpReg edx) (OpImm (Z.of_nat (pcpos h) * sz))]) [jmp (id updatePc)]).
  split; [|split; [reflexivity|]].
  - unfold finishExitHandler. rewrite (bind_Ok _ _ _ _ _ (get_run L)). rewrite Hh.
    unfold LUAU_ASSERT. rewrite (proj2 (Nat.eqb_neq _ _) Hpc). cbn [negb].
    rewrite (bind_Ok _ _ _ _ _ (ret_run tt L)).
    assert (Hset : build_setLabel (RefExitHandler i) (mkLabel 0) L =
                   Ok (mkLabel 0) (addCode L [setLabel (id (self h))])).
    { unfold build_setLabel, allocLabelId, loadLabel, bind. rewrite Hh.
      rewrite (proj2 (Nat.eqb_neq _ _) Hid). reflexivity. }
    rewrite (bind_Ok _ _ _ _ _ Hset).
    rewrite (bind_Ok _ _ _ _ _ (emit_run _ _)).
    unfold build_jmp, allocLabelId, loadLabel, bind.
    rewrite (proj2 (Nat.eqb_neq _ _) Hu). reflexivity.
  - cbn [addCode set_build build code exitTrampoline]. rewrite <- !app_assoc. reflexivity.
Qed.

Lemma finishExitHandlers_run kVm sz updatePc hs :
  (forall j h, hs !! j = Some h -> pcpos h <> kVm /\ id (self h) <> 0%nat) ->
  id updatePc <> 0%nat ->
  forall n i L, exitHandlers L = hs -> (i + n = length hs)%nat ->
  exists L',
    finishExitHandlers kVm sz i n updatePc L = Ok updatePc L' /\
    exitHandlers L' = hs /\
    code (build L') =
      code (build L) ++ flat_map (exitTrampoline sz (id updatePc)) (drop i hs).
Proof.
  intros Hhs Hu. induction n as [|n IH]; intros i L HL Hlen.
  - exists L. split; [reflexivity|]. split; [exact HL|].
    rewrite drop_ge by lia. rewrite app_nil_r. reflexivity.
  - destruct (hs !! i) as [h|] eqn:Hi; [|apply lookup_ge_None in Hi; lia].
    destruct (Hhs _ _ Hi) as [Hpc Hid].
    assert (Hi' : exitHandlers L !! i = Some h) by (rewrite HL; exact Hi).
    destruct (finishExitHandler_run kVm sz updatePc i h L Hi' Hpc Hid Hu)
      as (L1 & Hrun1 & Hhs1 & Hcode1).
    destruct (IH (S i) L1 (eq_trans Hhs1 HL) ltac:(lia)) as (L2 & Hrun2 & Hhs2 & Hcode2).
    exists L2. split; [|split; [exact Hhs2|]].
    + cbn [finishExitHandlers]. rewrite (bind_Ok _ _ _ _ _ Hrun1). exact Hrun2.
    + rewrite Hcode2, Hcode1, <- app_assoc. f_equal.
      rewrite (drop_S _ _ _ Hi). reflexivity.
Qed.

Lemma boundLabels_trampolines sz u hs :
  boundLabels (flat_map (exitTrampoline sz u) hs) = map (fun h => id (self h)) hs.
Proof.
  induction hs as [|h hs IH]; [reflexivity|].
  cbn [flat_map map]. unfold boundLabels in *. rewrite flat_map_app, IH. reflexivity.
Qed.

Lemma exec_trampolines sz u hs :
  (forall i j hi hj, hs !! i = Some hi -> hs !! j = Some hj ->
     id (self hi) = id (self hj) -> i = j) ->
  (forall j h, hs !! j = Some h -> id (self h) <> u) ->
  forall j h st, hs !! j = Some h ->
    exec (flat_map (exitTrampoline sz u) hs) (Some (id (self h))) st =
      Branch u (resumeAt sz (pcpos h) st).
Proof.
  induction hs as [|h0 hs IH]; intros Hdis Hu j h st Hj; [discriminate|].
  cbn [flat_map exitTrampoline app exec].
  destruct j as [|j].
  - cbn in Hj. inversion Hj. subst h0. rewrite Nat.eqb_refl.
    cbn [step isGpr edx size]. cbn [exec].
    apply exec_seek_unbound. rewrite boundLabels_trampolines.
    intros Hin. apply in_map_iff in Hin as (h' & Hid & Hin).
    apply list_elem_of_In, list_elem_of_lookup in Hin as [k Hk].
    apply (Hu (S k) h' Hk). exact Hid.
  - cbn in Hj.
    rewrite (proj2 (Nat.eqb_neq _ _)).
    + apply IH with (j := j); [|intros k h' Hk; exact (Hu (S k) h' Hk)|exact Hj].
      intros a b ha hb Ha Hb E. pose proof (Hdis (S a) (S b) ha hb Ha Hb E). lia.
    + intros E. pose proof (Hdis (S j) 0%nat h h0 Hj eq_refl E). lia.
Qed.

Lemma finishFunction_spec kVmExitEntryGuardPc sizeofInstruction updatePc L :
  exitInvariant kVmExitEntryGuardPc L ->
  id updatePc <> 0%nat ->
  (forall i h, exitHandlers L !! i = Some h -> id (self h) <> id updatePc) ->
  exists L' frag,
    finishFunction kVmExitEntryGuardPc sizeofInstruction updatePc L = Ok updatePc L' /\
    code (build L') = code (build L) ++ frag /\
    boundLabels frag = map (fun h => id (self h)) (exitHandlers L) /\
    forall pc l, pc <> kVmExitEntryGuardPc ->
      exitLabelOf kVmExitEntryGuardPc L pc = Some l ->
      forall st, exec frag (Some l) st = Branch (id updatePc) (resumeAt sizeofInstruction pc st).
Proof.
  intros Hinv Hu Hdiff.
  destruct (finishExitHandlers_run kVmExitEntryGuardPc sizeofInstruction updatePc (exitHandlers L)
              ltac:(intros j h Hj; destruct (inv_handlers _ _ Hinv j h Hj) as (_ & ? & ? & _); auto)
              Hu (length (exitHandlers L)) 0%nat L eq_refl eq_refl)
    as (L' & Hrun & _ & Hcode).
  rewrite drop_0 in Hcode.
  exists L', (flat_map (exitTrampoline sizeofInstruction (id updatePc)) (exitHandlers L)).
  split; [unfold finishFunction; rewrite (bind_Ok _ _ _ _ _ (get_run L)); exact Hrun|].
  split; [exact Hcode|]. split; [apply boundLabels_trampolines|].
  intros pc l Hpc Hl st. unfold exitLabelOf in Hl.
  rewrite (proj2 (Nat.eqb_neq _ _) Hpc) in Hl.
  destruct (exitHandlerMap L !! pc) as [idx|] eqn:Hm; [|discriminate].
  destruct (exitHandlers L !! idx) as [h|] eqn:Hh; [|discriminate].
  inversion Hl. subst l.
  destruct (inv_map _ _ Hinv pc idx Hm) as (h' & Hh' & Hpos).
  assert (h' = h) by congruence. subst h'. rewrite <- Hpos.
  apply (exec_trampolines sizeofInstruction (id updatePc) (exitHandlers L)
           (inv_distinct _ _ Hinv) Hdiff idx h st Hh).
Qed.

(** X8.  [finishFunction] binds every exit handler's label to a trampoline: a
    branch to the label an exit to [pc] is known under arrives at the helper
    that re-enters the VM, with [pc] as a byte offset in [edx] and nothing
    else changed.  The assertion of the loop never fires. *)
Theorem finishFunction_trampolines kVmExitEntryGuardPc sizeofInstruction updatePc L :
  exitInvariant kVmExitEntryGuardPc L ->
  id updatePc <> 0%nat ->
  (forall i h, exitHandlers L !! i = Some h -> id (self h) <> id updatePc) ->
  exists L' frag,
    finishFunction kVmExitEntryGuardPc sizeofInstruction updatePc L = Ok updatePc L' /\
    code (build L') = code (build L) ++ frag /\
    boundLabels frag = map (fun h => id (self h)) (exitHandlers L) /\
    forall pc l, pc <> kVmExitEntryGuardPc ->
      exitLabelOf kVmExitEntryGuardPc L pc = Some l ->
      forall st, exec frag (Some l) st = Branch (id updatePc) (resumeAt sizeofInstruction pc st).
Proof. apply finishFunction_spec. Qed.

(** Running two fragments in a row. *)
Lemma exec_app p1 p2 seek st :
  exec (p1 ++ p2) seek st =
    match exec p1 seek st with
    | Fallthrough st' => exec p2 None st'
    | Branch l st' => exec p2 (Some l) st'
    | Trap => Trap
    | Stuck => Stuck
    end.
Proof.
  revert seek st. induction p1 as [|i rest IH]; intros seek st.
  - destruct seek; reflexivity.
  - cbn [app exec]. destruct seek as [l|].
    + destruct i; apply IH.
    + destruct i; try apply IH; try reflexivity;
        try (destruct (step _ st); [apply IH|reflexivity]).
      destruct (evalCond cond (flags st)) as [[|]|]; [apply IH|apply IH|reflexivity].
Qed.

(** X9.  CHECK_TAG with a VM exit as its target, end to end: when the tag is not
    the expected one, the code of the check, whatever the function emits
    after it, and the exit handlers of [finishFunction] together arrive at
    the helper that re-enters the VM, with the exit's position in [edx]. *)
Theorem check_tag_exit_resumes_at_pc LUA_TNIL LUA_TBOOLEAN kVmExitEntryGuardPc restore alloc
    inst idx next sizeofInstruction updatePc L opa t pc :
  cmd inst = IrCmd.CHECK_TAG ->
  exitInvariant kVmExitEntryGuardPc L ->
  c inst = exitEdge pc -> pc <> kVmExitEntryGuardPc ->
  tagOperand restore L (a inst) opa -> is32 opa ->
  tagConstant L (b inst) t -> 0 <= t < 256 ->
  id updatePc <> 0%nat ->
  exists L1 frag l,
    lowerInst LUA_TNIL LUA_TBOOLEAN kVmExitEntryGuardPc restore alloc inst idx next L = Ok tt L1 /\
    code (build L1) = code (build L) ++ frag /\
    exitLabelOf kVmExitEntryGuardPc L1 pc = Some l /\
    exitInvariant kVmExitEntryGuardPc L1 /\
    forall L2 mid,
      exitsKept kVmExitEntryGuardPc L1 L2 ->
      code (build L2) = code (build L1) ++ mid ->
      ~ In l (boundLabels mid) ->
      (forall i h, exitHandlers L2 !! i = Some h -> id (self h) <> id updatePc) ->
      exists L3 tail,
        finishFunction kVmExitEntryGuardPc sizeofInstruction updatePc L2 = Ok updatePc L3 /\
        code (build L3) = code (build L) ++ frag ++ mid ++ tail /\
        forall st, readInt st 32 opa <> t ->
          run (frag ++ mid ++ tail) st =
            Branch (id updatePc)
              (resumeAt sizeofInstruction pc (setFlags st (cmpFlags 32 (readInt st 32 opa) t))).
Proof.
  intros Hcmd Hinv Hc Hpc [Hka Hopa] H32 Hb Ht Hu.
  set (La := addCode L [cmp opa (OpImm t)]).
  assert (HinvA : exitInvariant kVmExitEntryGuardPc La) by apply exitInvariant_addCode, Hinv.
  destruct (jumpOrAbortOnUndef_exit kVmExitEntryGuardPc ConditionX64.NotEqual pc next La HinvA)
    as (L1 & l & Hrun1 & Hcode1 & Hl & [Hinv1 _] & _).
  unfold branchTo in Hcode1. rewrite bool_decide_eq_false_2 in Hcode1 by discriminate.
  exists L1, [cmp opa (OpImm t); jcc ConditionX64.NotEqual l], l.
  split; [|split; [|split; [exact Hl|split; [exact Hinv1|]]]].
  - unfold lowerInst. rewrite Hcmd, Hc.
    rewrite (bind_Ok _ _ _ _ _ (Hopa L (sameValues_refl L))).
    rewrite (bind_Ok _ _ _ _ _ (tagOp_constant _ _ _ Hb)).
    rewrite (bind_Ok _ _ _ _ _ (emit_run _ L)). exact Hrun1.
  - rewrite Hcode1. unfold La. rewrite code_addCode, <- app_assoc. reflexivity.
  - intros L2 mid [Hinv2 Hkept] Hcode2 Hmid Hdiff.
    destruct (finishFunction_spec kVmExitEntryGuardPc sizeofInstruction updatePc L2 Hinv2 Hu Hdiff)
      as (L3 & tail & Hfin & Hcode3 & _ & Hexec).
    exists L3, tail. split; [exact Hfin|]. split.
    { rewrite Hcode3, Hcode2, Hcode1. unfold La. rewrite code_addCode, <- !app_assoc.
      reflexivity. }
    intros st Hne. unfold run. cbn [app].
    rewrite (exec_cmp 32) by (apply is32_width_any, H32).
    cbn [readInt]. rewrite (Z.mod_small t) by lia.
    set (st1 := setFlags st (cmpFlags 32 (readInt st 32 opa) t)).
    assert (Hfl : evalCond ConditionX64.NotEqual (flags st1) =
                  Some (negb (readInt st 32 opa =? t))).
    { apply cmpFlags_equal; [lia|apply readInt_range; lia|lia]. }
    rewrite (proj2 (Z.eqb_neq _ _) Hne) in Hfl. cbn [negb] in Hfl.
    cbn [exec]. rewrite Hfl. rewrite (exec_seek_app _ _ _ _ Hmid).
    apply Hexec; [exact Hpc|]. apply Hkept. exact Hl.
Qed.

(** ** The lowering only adds *)

Lemma grows_refl L : grows L L.
Proof.
  split; [exists []; rewrite app_nil_r; reflexivity|].
  split; [lia|]. split; [reflexivity|]. split; eauto.
Qed.

Lemma grows_trans L1 L2 L3 : grows L1 L2 -> grows L2 L3 -> grows L1 L3.
Proof.
  intros ([f1 C1] & N1 & K1 & B1 & H1) ([f2 C2] & N2 & K2 & B2 & H2).
  split; [exists (f1 ++ f2); rewrite C2, C1, app_assoc; reflexivity|].
  split; [lia|]. split; [congruence|]. split.
  - intros j blk Hj. destruct (B1 j blk Hj) as (b1 & Hb1 & S1 & I1).
    destruct (B2 j b1 Hb1) as (b2 & Hb2 & S2 & I2).
    exists b2. split; [exact Hb2|]. split; [congruence|].
    intros Hnz. rewrite I2, I1; auto. rewrite I1; auto.
  - intros i h Hi. destruct (H1 i h Hi) as (h1 & Hh1 & P1 & I1).
    destruct (H2 i h1 Hh1) as (h2 & Hh2 & P2 & I2).
    exists h2. split; [exact Hh2|]. split; [congruence|].
    intros Hnz. rewrite I2, I1; auto. rewrite I1; auto.
Qed.

Lemma grows_set_build L c n :
  (exists frag, c = code (build L) ++ frag) -> (nextLabel (build L) <= n)%nat ->
  grows L (set_build L (mkBuilder c n)).
Proof.
  intros Hc Hn. split; [exact Hc|]. split; [exact Hn|]. split; [reflexivity|]. split; eauto.
Qed.

Lemma keeps_ret {A} (x : A) : keeps (ret x).
Proof. intros L y L' H. inversion H. apply grows_refl. Qed.

Lemma keeps_get : keeps get.
Proof. intros L y L' H. inversion H. apply grows_refl. Qed.

Lemma keeps_fail {A} msg : keeps (@fail A msg).
Proof. intros L y L' H. discriminate. Qed.

Lemma keeps_assert b msg : keeps (LUAU_ASSERT b msg).
Proof. intros L y L' H. unfold LUAU_ASSERT in H. destruct b; inversion H. apply grows_refl. Qed.

Lemma keeps_emit i : keeps (emit i).
Proof.
  intros L y L' H. inversion H. apply grows_set_build; [eexists; reflexivity|lia].
Qed.

Lemma keeps_bind {A B} (m : M A) (k : A -> M B) :
  keeps m -> (forall x, keeps (k x)) -> keeps (bind m k).
Proof.
  intros Hm Hk L y L' H. unfold bind in H.
  destruct (m L) as [x L1|] eqn:E; [|discriminate].
  exact (grows_trans _ _ _ (Hm _ _ _ E) (Hk x _ _ _ H)).
Qed.

Lemma keeps_loadLabel r local : keeps (loadLabel r local).
Proof.
  intros L y L' H. unfold loadLabel in H.
  destruct r; try (inversion H; apply grows_refl).
  - destruct (exitHandlers L !! i); inversion H. apply grows_refl.
  - destruct (blocks (function L) !! blockIdx); inversion H. apply grows_refl.
Qed.

(** A label object that has no id yet is given one. *)
Lemma grows_storeLabel r l local L lr L1 y L' :
  loadLabel r local L = Ok lr L1 -> id lr = 0%nat ->
  storeLabel r l local L = Ok y L' -> grows L L'.
Proof.
  intros Hload Hz H. unfold loadLabel in Hload. unfold storeLabel in H.
  destruct r; inversion H; subst; clear H.
  - apply grows_refl.
  - split; [exists []; rewrite app_nil_r; reflexivity|].
    split; [cbn; lia|]. split; [reflexivity|]. split; eauto.
  - destruct (exitHandlers L !! i) as [h0|] eqn:Hi; inversion Hload; subst.
    split; [exists []; rewrite app_nil_r; reflexivity|].
    split; [cbn; lia|]. split; [reflexivity|]. split; [eauto|].
    intros j h Hj. cbn [exitHandlers set_exits].
    destruct (Nat.eq_dec j i) as [->|Hne].
    + rewrite list_lookup_alter_eq, Hj. eexists. split; [reflexivity|].
      split; [reflexivity|]. intros Hnz. congruence.
    + rewrite list_lookup_alter_ne by auto. eauto.
  - destruct (blocks (function L) !! blockIdx) as [b0|] eqn:Hi; inversion Hload; subst.
    split; [exists []; rewrite app_nil_r; reflexivity|].
    split; [cbn; lia|]. split; [reflexivity|]. split; [|eauto].
    intros j blk Hj. cbn [function set_function blocks set_blocks].
    destruct (Nat.eq_dec j blockIdx) as [->|Hne].
    + rewrite list_lookup_alter_eq, Hj. eexists. split; [reflexivity|].
      split; [reflexivity|]. intros Hnz. congruence.
    + rewrite list_lookup_alter_ne by auto. eauto.
Qed.

Lemma loadLabel_state r local L l L1 : loadLabel r local L = Ok l L1 -> L1 = L.
Proof.
  unfold loadLabel. destruct r; intros H; try (inversion H; reflexivity).
  - destruct (exitHandlers L !! i); inversion H; reflexivity.
  - destruct (blocks (function L) !! blockIdx); inversion H; reflexivity.
Qed.

Lemma storeLabel_bump r l local L :
  storeLabel r l local (bumpLabel L) =
    match storeLabel r l local L with
    | Ok y L' => Ok y (bumpLabel L')
    | Abort msg => Abort msg
    end.
Proof. destruct r; reflexivity. Qed.

Lemma grows_bump L L' : grows L L' -> grows L (bumpLabel L').
Proof.
  intros G. apply (grows_trans _ _ _ G).
  apply grows_set_build; [exists []; rewrite app_nil_r; reflexivity|lia].
Qed.

Lemma keeps_allocLabelId r local : keeps (allocLabelId r local).
Proof.
  intros L y L' H. unfold allocLabelId, bind in H.
  destruct (loadLabel r local L) as [l L1|] eqn:Hload; [|discriminate].
  pose proof (loadLabel_state _ _ _ _ _ Hload). subst L1.
  destruct (Nat.eqb_spec (id l) 0) as [Hz|Hnz].
  - cbn [get] in H.
    change (set_build L (mkBuilder (code (build L)) (S (nextLabel (build L)))))
      with (bumpLabel L) in H.
    rewrite storeLabel_bump in H.
    destruct (storeLabel r (mkLabel (nextLabel (build L))) local L) as [z L2|] eqn:Hst;
      [|discriminate].
    inversion H. subst. apply grows_bump.
    exact (grows_storeLabel _ _ _ _ _ _ _ _ Hload Hz Hst).
  - inversion H. apply grows_refl.
Qed.

Lemma keeps_build_jcc cond r local : keeps (build_jcc cond r local).
Proof.
  unfold build_jcc. apply keeps_bind; [apply keeps_allocLabelId|intros p].
  apply keeps_bind; [apply keeps_emit|intros _; apply keeps_ret].
Qed.

Lemma keeps_build_jmp r local : keeps (build_jmp r local).
Proof.
  unfold build_jmp. apply keeps_bind; [apply keeps_allocLabelId|intros p].
  apply keeps_bind; [apply keeps_emit|intros _; apply keeps_ret].
Qed.

Lemma keeps_build_setLabel r local : keeps (build_setLabel r local).
Proof.
  unfold build_setLabel. apply keeps_bind; [apply keeps_allocLabelId|intros p].
  apply keeps_bind; [apply keeps_emit|intros _; apply keeps_ret].
Qed.

Lemma keeps_setRegX64 idx r : keeps (setRegX64 idx r).
Proof.
  intros L y L' H. inversion H.
  split; [exists []; rewrite app_nil_r; reflexivity|].
  split; [cbn; lia|]. split; [reflexivity|]. split; eauto.
Qed.

Create HintDb keeps.
#[local] Hint Resolve keeps_ret keeps_get keeps_fail keeps_assert keeps_emit
  keeps_build_jcc keeps_build_jmp keeps_build_setLabel keeps_setRegX64 : keeps.

(** Takes a computation apart along its binds and case distinctions. *)
Ltac keeps_step :=
  match goal with
  | |- keeps (bind _ _) => apply keeps_bind; [|intros ?]
  | |- keeps (if ?b then _ else _) => destruct b
  | |- keeps (match ?x with _ => _ end) => destruct x
  | |- keeps _ => solve [auto with keeps]
  end.

Ltac keeps_all := cbv zeta; repeat keeps_step.

Lemma keeps_constOp op : keeps (constOp op).
Proof. unfold constOp. keeps_all. Qed.

Lemma keeps_tagOp op : keeps (tagOp op).
Proof. unfold tagOp. pose proof keeps_constOp. keeps_all. Qed.

Lemma keeps_intOp op : keeps (intOp op).
Proof. unfold intOp. pose proof keeps_constOp. keeps_all. Qed.

Lemma keeps_doubleOp op : keeps (doubleOp op).
Proof. unfold doubleOp. pose proof keeps_constOp. keeps_all. Qed.

Lemma keeps_instOp op : keeps (instOp op).
Proof. unfold instOp. keeps_all. Qed.

Lemma keeps_blockOp op : keeps (blockOp op).
Proof. unfold blockOp. keeps_all. Qed.

Lemma keeps_blockAt bi : keeps (blockAt bi).
Proof. unfold blockAt. keeps_all. Qed.

Lemma keeps_labelOp op : keeps (labelOp op).
Proof. unfold labelOp. pose proof keeps_blockOp. keeps_all. Qed.

Lemma keeps_vmRegOp op : keeps (vmRegOp op).
Proof. unfold vmRegOp. keeps_all. Qed.

Lemma keeps_vmConstOp op : keeps (vmConstOp op).
Proof. unfold vmConstOp. keeps_all. Qed.

Lemma keeps_vmExitOp op : keeps (vmExitOp op).
Proof. unfold vmExitOp. keeps_all. Qed.

Lemma keeps_getReverseCondition cond : keeps (getReverseCondition cond).
Proof. unfold getReverseCondition. keeps_all. Qed.

#[local] Hint Resolve keeps_constOp keeps_tagOp keeps_intOp keeps_doubleOp keeps_instOp
  keeps_blockOp keeps_blockAt keeps_labelOp keeps_vmRegOp keeps_vmConstOp keeps_vmExitOp
  keeps_getReverseCondition : keeps.

Section Keeps.

Variables (LUA_TNIL LUA_TBOOLEAN : Z) (kVmExitEntryGuardPc : nat) (restore : nat -> M unit).
Hypothesis keeps_restore : forall i, keeps (restore i).

Lemma keeps_regOp op : keeps (regOp restore op).
Proof. unfold regOp. pose proof keeps_restore. keeps_all. Qed.

Hint Resolve keeps_regOp : keeps.

Lemma keeps_memRegDoubleOp op : keeps (memRegDoubleOp restore op).
Proof. unfold memRegDoubleOp. keeps_all. Qed.

Lemma keeps_memRegUintOp op : keeps (memRegUintOp restore op).
Proof. unfold memRegUintOp. keeps_all. Qed.

Lemma keeps_memRegTagOp op : keeps (memRegTagOp restore op).
Proof. unfold memRegTagOp. keeps_all. Qed.

Lemma keeps_getTargetLabel op : keeps (getTargetLabel kVmExitEntryGuardPc op).
Proof. unfold getTargetLabel. keeps_all. Qed.

Lemma keeps_finalizeTargetLabel op fresh : keeps (finalizeTargetLabel op fresh).
Proof.
  unfold finalizeTargetLabel. apply keeps_bind; [apply keeps_get|intros L0].
  destruct (_ && _); [|apply keeps_ret].
  apply keeps_bind; [apply keeps_vmExitOp|intros pc].
  intros L y L' H. inversion H.
  split; [exists []; rewrite app_nil_r; reflexivity|].
  split; [cbn; lia|]. split; [reflexivity|]. split; [eauto|].
  intros i h Hi. exists h. cbn [exitHandlers set_exits].
  rewrite lookup_app_l by (apply lookup_lt_Some in Hi; exact Hi). auto.
Qed.

Lemma keeps_jumpOrFallthrough target next : keeps (jumpOrFallthrough target next).
Proof. unfold jumpOrFallthrough. keeps_all. Qed.

Hint Resolve keeps_memRegDoubleOp keeps_memRegUintOp keeps_memRegTagOp keeps_getTargetLabel
  keeps_finalizeTargetLabel keeps_jumpOrFallthrough : keeps.

Lemma keeps_jumpOrAbortOnUndef cond target next :
  keeps (jumpOrAbortOnUndef kVmExitEntryGuardPc cond target next).
Proof. unfold jumpOrAbortOnUndef. keeps_all. Qed.

Lemma keeps_assertAllFree : keeps assertAllFree.
Proof. unfold assertAllFree. keeps_all. Qed.

Lemma keeps_assertNoSpills : keeps assertNoSpills.
Proof. unfold assertNoSpills. keeps_all. Qed.

Hint Resolve keeps_jumpOrAbortOnUndef keeps_assertAllFree keeps_assertNoSpills : keeps.

Lemma keeps_lowerInst alloc inst idx next :
  keeps (lowerInst LUA_TNIL LUA_TBOOLEAN kVmExitEntryGuardPc restore alloc inst idx next).
Proof. unfold lowerInst. destruct (cmd inst); keeps_all. Qed.

End Keeps.

(** X10.  Lowering an instruction only adds to what is there, whatever the
    instruction: the code emitted so far stays as it is, in front of the new
    code; no label id is taken back; the constants are untouched; blocks and
    exit handlers stay in place and keep a label that has been given an id.
    The allocator's [restore] is any computation that does the same. *)
Theorem lowerInst_only_adds LUA_TNIL LUA_TBOOLEAN kVmExitEntryGuardPc restore alloc inst idx next
    L L' :
  (forall i, keeps (restore i)) ->
  lowerInst LUA_TNIL LUA_TBOOLEAN kVmExitEntryGuardPc restore alloc inst idx next L = Ok tt L' ->
  grows L L'.
Proof.
  intros Hrestore Hrun.
  exact (keeps_lowerInst LUA_TNIL LUA_TBOOLEAN kVmExitEntryGuardPc restore Hrestore
           alloc inst idx next L tt L' Hrun).
Qed.

(** ** The invariant of the exit handlers across an instruction *)

Section KeepsExits.

Variables (LUA_TNIL LUA_TBOOLEAN : Z) (kVm : nat) (restore : nat -> M unit).
Hypothesis exits_restore : forall i, keepsExits kVm (restore i).

Lemma exits_ret {A} (x : A) : keepsExits kVm (ret x).
Proof. intros L y L' Hinv H. inversion H. subst. apply exitsKept_refl, Hinv. Qed.

Lemma exits_get : keepsExits kVm get.
Proof. intros L y L' Hinv H. inversion H. subst. apply exitsKept_refl, Hinv. Qed.

Lemma exits_fail {A} msg : keepsExits kVm (@fail A msg).
Proof. intros L y L' _ H. discriminate. Qed.

Lemma exits_assert b msg : keepsExits kVm (LUAU_ASSERT b msg).
Proof.
  intros L y L' Hinv H. unfold LUAU_ASSERT in H. destruct b; inversion H. subst.
  apply exitsKept_refl, Hinv.
Qed.

Lemma exits_emit i : keepsExits kVm (emit i).
Proof.
  intros L y L' Hinv H. inversion H. apply exitsKept_step; [exact Hinv|reflexivity..|cbn; lia].
Qed.

Lemma exits_setRegX64 idx r : keepsExits kVm (setRegX64 idx r).
Proof.
  intros L y L' Hinv H. inversion H. apply exitsKept_step; [exact Hinv|reflexivity..|cbn; lia].
Qed.

Lemma exits_bind {A B} (m : M A) (k : A -> M B) :
  keepsExits kVm m -> (forall x, keepsExits kVm (k x)) -> keepsExits kVm (bind m k).
Proof.
  intros Hm Hk L y L' Hinv H. unfold bind in H.
  destruct (m L) as [x L1|] eqn:E; [|discriminate].
  pose proof (Hm _ _ _ Hinv E) as H1.
  exact (exitsKept_trans _ _ _ _ H1 (Hk x _ _ _ (proj1 H1) H)).
Qed.

(** Referring to a label never touches a label that has an id; the helper's
    label and the handlers' labels have one. *)
Lemma exits_allocLabelId r local : keepsExits kVm (allocLabelId r local).
Proof.
  intros L y L' Hinv H. unfold allocLabelId, bind, loadLabel in H.
  destruct r as [| |i|bi].
  - destruct (Nat.eqb (id local) 0); inversion H; subst;
      [apply exitsKept_step; [exact Hinv|reflexivity..|cbn; lia]|apply exitsKept_refl, Hinv].
  - rewrite (proj2 (Nat.eqb_neq _ _) (proj1 (inv_helper _ _ Hinv))) in H.
    inversion H. subst. apply exitsKept_refl, Hinv.
  - destruct (exitHandlers L !! i) as [h|] eqn:Hi; [|discriminate].
    destruct (inv_handlers _ _ Hinv i h Hi) as (_ & _ & Hnz & _).
    rewrite (proj2 (Nat.eqb_neq _ _) Hnz) in H.
    inversion H. subst. apply exitsKept_refl, Hinv.
  - destruct (blocks (function L) !! bi) as [blk|]; [|discriminate].
    destruct (Nat.eqb (id (label blk)) 0); inversion H; subst;
      [apply exitsKept_step; [exact Hinv|reflexivity..|cbn; lia]|apply exitsKept_refl, Hinv].
Qed.

Create HintDb exits.
Hint Resolve exits_ret exits_get exits_fail exits_assert exits_emit exits_setRegX64
  exits_allocLabelId : exits.

Ltac exits_step :=
  match goal with
  | |- keepsExits _ (bind _ _) => apply exits_bind; [|intros ?]
  | |- keepsExits _ (if ?b then _ else _) => destruct b
  | |- keepsExits _ (match ?x with _ => _ end) => destruct x
  | |- keepsExits _ _ => solve [auto with exits]
  end.

Ltac exits_all := cbv zeta; repeat exits_step.

Lemma exits_build_jcc cond r local : keepsExits kVm (build_jcc cond r local).
Proof. unfold build_jcc. exits_all. Qed.

Lemma exits_build_jmp r local : keepsExits kVm (build_jmp r local).
Proof. unfold build_jmp. exits_all. Qed.

Lemma exits_build_setLabel r local : keepsExits kVm (build_setLabel r local).
Proof. unfold build_setLabel. exits_all. Qed.

Lemma exits_constOp op : keepsExits kVm (constOp op).
Proof. unfold constOp. exits_all. Qed.

Hint Resolve exits_build_jcc exits_build_jmp exits_build_setLabel exits_constOp : exits.

Lemma exits_tagOp op : keepsExits kVm (tagOp op).
Proof. unfold tagOp. exits_all. Qed.

Lemma exits_intOp op : keepsExits kVm (intOp op).
Proof. unfold intOp. exits_all. Qed.

Lemma exits_doubleOp op : keepsExits kVm (doubleOp op).
Proof. unfold doubleOp. exits_all. Qed.

Lemma exits_instOp op : keepsExits kVm (instOp op).
Proof. unfold instOp. exits_all. Qed.

Lemma exits_blockOp op : keepsExits kVm (blockOp op).
Proof. unfold blockOp. exits_all. Qed.

Lemma exits_blockAt bi : keepsExits kVm (blockAt bi).
Proof. unfold blockAt. exits_all. Qed.

Lemma exits_vmRegOp op : keepsExits kVm (vmRegOp op).
Proof. unfold vmRegOp. exits_all. Qed.

Lemma exits_vmConstOp op : keepsExits kVm (vmConstOp op).
Proof. unfold vmConstOp. exits_all. Qed.

Lemma exits_vmExitOp op : keepsExits kVm (vmExitOp op).
Proof. unfold vmExitOp. exits_all. Qed.

Lemma exits_getReverseCondition cond : keepsExits kVm (getReverseCondition cond).
Proof. unfold getReverseCondition. exits_all. Qed.

Hint Resolve exits_tagOp exits_intOp exits_doubleOp exits_instOp exits_blockOp exits_blockAt
  exits_vmRegOp exits_vmConstOp exits_vmExitOp exits_getReverseCondition exits_restore : exits.

Lemma exits_labelOp op : keepsExits kVm (labelOp op).
Proof. unfold labelOp. exits_all. Qed.

Lemma exits_regOp op : keepsExits kVm (regOp restore op).
Proof. unfold regOp. exits_all. Qed.

Hint Resolve exits_labelOp exits_regOp : exits.

Lemma exits_memRegDoubleOp op : keepsExits kVm (memRegDoubleOp restore op).
Proof. unfold memRegDoubleOp. exits_all. Qed.

Lemma exits_memRegUintOp op : keepsExits kVm (memRegUintOp restore op).
Proof. unfold memRegUintOp. exits_all. Qed.

Lemma exits_memRegTagOp op : keepsExits kVm (memRegTagOp restore op).
Proof. unfold memRegTagOp. exits_all. Qed.

Lemma exits_getTargetLabel op : keepsExits kVm (getTargetLabel kVm op).
Proof. unfold getTargetLabel. exits_all. Qed.

Lemma exits_jumpOrFallthrough target next : keepsExits kVm (jumpOrFallthrough target next).
Proof. unfold jumpOrFallthrough. exits_all. Qed.

Lemma exits_assertAllFree : keepsExits kVm assertAllFree.
Proof. unfold assertAllFree. exits_all. Qed.

Lemma exits_assertNoSpills : keepsExits kVm assertNoSpills.
Proof. unfold assertNoSpills. exits_all. Qed.

Hint Resolve exits_memRegDoubleOp exits_memRegUintOp exits_memRegTagOp exits_getTargetLabel
  exits_jumpOrFallthrough exits_assertAllFree exits_assertNoSpills : exits.

(** A target that is a VM exit may add a handler; any other target leaves
    the handlers alone. *)
Lemma exits_jumpOrAbortOnUndef cond target next :
  keepsExits kVm (jumpOrAbortOnUndef kVm cond target next).
Proof.
  destruct (IrOpKind_eq_dec (kind target) IrOpKind.VmExit) as [Hk|Hk].
  - intros L y L' Hinv H.
    assert (Ht : target = exitEdge (index target)).
    { destruct target as [k i]. cbn in Hk. subst k. reflexivity. }
    destruct (jumpOrAbortOnUndef_exit kVm cond (index target) next L Hinv)
      as (L1 & l & Hrun & _ & _ & Hkept & _).
    rewrite <- Ht in Hrun. rewrite Hrun in H. inversion H. subst. exact Hkept.
  - assert (Hno : kindIs target IrOpKind.VmExit = false).
    { unfold kindIs. destruct (kind target); try reflexivity. contradiction. }
    unfold jumpOrAbortOnUndef, finalizeTargetLabel. rewrite Hno. cbn [andb].
    exits_all.
Qed.

Hint Resolve exits_jumpOrAbortOnUndef : exits.

Lemma exits_lowerInst alloc inst idx next :
  keepsExits kVm (lowerInst LUA_TNIL LUA_TBOOLEAN kVm restore alloc inst idx next).
Proof. unfold lowerInst. destruct (cmd inst); exits_all. Qed.

End KeepsExits.

(** X11.  Whatever the instruction, its lowering keeps the invariant of the exit
    handlers (the map and the list describe each other, no two handlers
    share a label, every handler's label has an id) and leaves every exit
    under the label it had. *)
Theorem lowerInst_keeps_exits LUA_TNIL LUA_TBOOLEAN kVmExitEntryGuardPc restore alloc inst idx
    next L L' :
  (forall i, keepsExits kVmExitEntryGuardPc (restore i)) ->
  exitInvariant kVmExitEntryGuardPc L ->
  lowerInst LUA_TNIL LUA_TBOOLEAN kVmExitEntryGuardPc restore alloc inst idx next L = Ok tt L' ->
  exitInvariant kVmExitEntryGuardPc L' /\
  forall pc l, exitLabelOf kVmExitEntryGuardPc L pc = Some l ->
               exitLabelOf kVmExitEntryGuardPc L' pc = Some l.
Proof.
  intros Hrestore Hinv Hrun.
  exact (exits_lowerInst LUA_TNIL LUA_TBOOLEAN kVmExitEntryGuardPc restore Hrestore
           alloc inst idx next L tt L' Hinv Hrun).
Qed.

(** ** Label ids are never shared *)

Lemma jumpOrAbortOnUndef_exit_state kVm cond pc next L :
  exitInvariant kVm L ->
  exists L',
    jumpOrAbortOnUndef kVm cond (exitEdge pc) next L = Ok tt L' /\
    function L' = function L /\ helpers L' = helpers L /\
    (nextLabel (build L) <= nextLabel (build L'))%nat /\
    (exitHandlers L' = exitHandlers L \/
     exitHandlers L' = exitHandlers L ++ [mkExitHandler (mkLabel (nextLabel (build L))) pc] /\
     (nextLabel (build L) < nextLabel (build L'))%nat).
Proof.
  intros Hinv. pose proof Hinv as [[Hh0 Hhn] Hmap Hhs Hdis].
  rewrite jumpOrAbortOnUndef_exit_unfold.
  rewrite (bind_Ok _ _ _ _ _ (getTargetLabel_exit kVm pc L)).
  destruct (Nat.eqb_spec pc kVm) as [Epc|Epc].
  - destruct (exitContinueVmClearNativeFlag (helpers L)) as [hid] eqn:Hhelper. cbn [id] in *.
    assert (Hload : loadLabel RefHelperExit (mkLabel 0) L = Ok (mkLabel hid) L).
    { unfold loadLabel. rewrite Hhelper. reflexivity. }
    rewrite (bind_Ok _ _ _ _ _ (takeExit_bound cond _ _ _ _ Hload Hh0 ltac:(discriminate))).
    exists (addCode L [branchTo cond hid]). repeat split; auto.
  - destruct (exitHandlerMap L !! pc) as [idx|] eqn:Hm.
    + destruct (Hmap _ _ Hm) as (h & Hh & Hpc).
      destruct (Hhs _ _ Hh) as (_ & _ & Hid0 & _ & _).
      assert (Hload : loadLabel (RefExitHandler idx) (mkLabel 0) L = Ok (mkLabel (id (self h))) L).
      { unfold loadLabel. rewrite Hh. destruct (self h). reflexivity. }
      rewrite (bind_Ok _ _ _ _ _ (takeExit_bound cond _ _ _ _ Hload Hid0 ltac:(discriminate))).
      exists (addCode L [branchTo cond (id (self h))]). repeat split; auto.
    + rewrite (bind_Ok _ _ _ _ _ (takeExit_fresh cond L)).
      set (n := nextLabel (build L)).
      assert (Hn0 : n <> 0%nat) by (unfold n; lia).
      assert (Hnh : n <> id (exitContinueVmClearNativeFlag (helpers L))) by (unfold n; lia).
      unfold finalizeTargetLabel. rewrite kindIs_exitEdge.
      cbn [IrOpKind.eqb andb id helpers addCode bumpLabel set_build bind get].
      rewrite (proj2 (Nat.eqb_neq n 0) Hn0), (proj2 (Nat.eqb_neq _ _) Hnh). cbn [negb andb].
      unfold vmExitOp, exitEdge, kindIs, LUAU_ASSERT, bind, ret.
      cbn [kind index IrOpKind.eqb]. simpl_state.
      eexists. split; [reflexivity|]. simpl_state.
      split; [reflexivity|]. split; [reflexivity|]. split; [lia|].
      right. split; [reflexivity|unfold n; lia].
Qed.

(** Steps that leave the label objects alone and take no label id back. *)
Lemma wellLabelled_quiet kVm L L1 :
  wellLabelled kVm L ->
  helpers L1 = helpers L -> exitHandlers L1 = exitHandlers L ->
  exitHandlerMap L1 = exitHandlerMap L ->
  blocks (function L1) = blocks (function L) ->
  (nextLabel (build L) <= nextLabel (build L1))%nat ->
  wellLabelled kVm L1.
Proof.
  intros [[Hexit Hsh] (D1 & D2 & D3)] Hh He Hm Hb Hn.
  split; [split|].
  - exact (proj1 (exitsKept_step kVm L L1 Hexit Hh He Hm Hn)).
  - intros l Hl. eapply Nat.lt_le_trans; [|exact Hn]. apply Hsh.
    unfold isSharedLabel in *. rewrite Hh, He, Hb in Hl. exact Hl.
  - unfold labelsDistinct. rewrite Hh, He, Hb. auto.
Qed.

(** Giving a block its label. *)
Lemma wellLabelled_placeBlock kVm L bi blk :
  wellLabelled kVm L -> blocks (function L) !! bi = Some blk ->
  wellLabelled kVm (placeBlock L bi blk).
Proof.
  intros HW Hb. unfold placeBlock.
  destruct (Nat.eqb_spec (id (label blk)) 0) as [Hz|Hnz]; [|exact HW].
  destruct HW as [[Hexit Hsh] (D1 & D2 & D3)].
  set (n := nextLabel (build L)).
  assert (Hblocks : forall j b, 
            blocks (function (set_function (bumpLabel L)
              (set_blocks (function L)
                 (alter (fun b => set_block_label b (mkLabel n)) bi (blocks (function L)))))) !! j
              = Some b ->
            (j = bi /\ id (label b) = n) \/
            (j <> bi /\ blocks (function L) !! j = Some b)).
  { intros j b Hj. cbn [function set_function blocks set_blocks] in Hj.
    destruct (Nat.eq_dec j bi) as [->|Hne].
    - rewrite list_lookup_alter_eq, Hb in Hj. inversion Hj. left. auto.
    - rewrite list_lookup_alter_ne in Hj by auto. right. auto. }
  assert (Hold : forall j b, blocks (function L) !! j = Some b -> (id (label b) < n)%nat).
  { intros j b Hj. apply Hsh. right. right. eauto. }
  split; [split|split; [|split]].
  - refine (proj1 (exitsKept_step kVm L _ Hexit _ _ _ _)); [reflexivity..|cbn; lia].
  - intros l [Hl|[(i & h & Hi & Hl)|(j & b & Hj & Hl)]]; cbn [build set_function bumpLabel
      set_build nextLabel].
    + apply Nat.lt_lt_succ_r, Hsh. left. exact Hl.
    + apply Nat.lt_lt_succ_r, Hsh. right. left. eauto.
    + destruct (Hblocks j b Hj) as [[_ Hn]|[_ Hj']].
      * fold n. lia.
      * apply Nat.lt_lt_succ_r. subst l. exact (Hold j b Hj').
  - intros i j b1 b2 Hi Hj Hnz Heq.
    destruct (Hblocks i b1 Hi) as [[-> Hn1]|[Hi1 Hi']],
             (Hblocks j b2 Hj) as [[-> Hn2]|[Hj1 Hj']]; try reflexivity.
    + pose proof (Hold j b2 Hj'). lia.
    + pose proof (Hold i b1 Hi'). lia.
    + eapply D1; eauto.
  - intros j b i h Hj Hi. cbn [exitHandlers set_function bumpLabel set_build] in Hi.
    destruct (Hblocks j b Hj) as [[_ Hn]|[_ Hj']]; [|eapply D2; eauto].
    assert (id (self h) < n)%nat by (apply Hsh; right; left; eauto). lia.
  - intros j b Hj. cbn [helpers set_function bumpLabel set_build].
    destruct (Hblocks j b Hj) as [[_ Hn]|[_ Hj']]; [|eapply D3; eauto].
    assert (id (exitContinueVmClearNativeFlag (helpers L)) < n)%nat by (apply Hsh; left; auto).
    lia.
Qed.

Section KeepsLabels.

Variables (LUA_TNIL LUA_TBOOLEAN : Z) (kVm : nat) (restore : nat -> M unit).
Hypothesis labels_restore : forall i, keepsLabels kVm (restore i).

Lemma labels_ret {A} (x : A) : keepsLabels kVm (ret x).
Proof. intros L y L' HW H. inversion H. subst. exact HW. Qed.

Lemma labels_get : keepsLabels kVm get.
Proof. intros L y L' HW H. inversion H. subst. exact HW. Qed.

Lemma labels_fail {A} msg : keepsLabels kVm (@fail A msg).
Proof. intros L y L' _ H. discriminate. Qed.

Lemma labels_assert b msg : keepsLabels kVm (LUAU_ASSERT b msg).
Proof.
  intros L y L' HW H. unfold LUAU_ASSERT in H. destruct b; inversion H. subst. exact HW.
Qed.

Lemma labels_emit i : keepsLabels kVm (emit i).
Proof.
  intros L y L' HW H. inversion H.
  apply (wellLabelled_quiet kVm L); [exact HW|reflexivity..|cbn; lia].
Qed.

Lemma labels_setRegX64 idx r : keepsLabels kVm (setRegX64 idx r).
Proof.
  intros L y L' HW H. inversion H.
  apply (wellLabelled_quiet kVm L); [exact HW|reflexivity..|cbn; lia].
Qed.

Lemma labels_bind {A B} (m : M A) (k : A -> M B) :
  keepsLabels kVm m -> (forall x, keepsLabels kVm (k x)) -> keepsLabels kVm (bind m k).
Proof.
  intros Hm Hk L y L' HW H. unfold bind in H.
  destruct (m L) as [x L1|] eqn:E; [|discriminate].
  exact (Hk x _ _ _ (Hm _ _ _ HW E) H).
Qed.

Lemma labels_allocLabelId r local : keepsLabels kVm (allocLabelId r local).
Proof.
  intros L y L' HW H. pose proof HW as [[Hinv _] _].
  destruct r as [| |i|bi].
  - rewrite allocLabelId_local in H. inversion H. unfold placeLocal.
    destruct (Nat.eqb (id local) 0); [|exact HW].
    apply (wellLabelled_quiet kVm L); [exact HW|reflexivity..|cbn; lia].
  - unfold allocLabelId, bind, loadLabel in H.
    rewrite (proj2 (Nat.eqb_neq _ _) (proj1 (inv_helper _ _ Hinv))) in H.
    inversion H. subst. exact HW.
  - unfold allocLabelId, bind, loadLabel in H.
    destruct (exitHandlers L !! i) as [h|] eqn:Hi; [|discriminate].
    destruct (inv_handlers _ _ Hinv i h Hi) as (_ & _ & Hnz & _).
    rewrite (proj2 (Nat.eqb_neq _ _) Hnz) in H.
    inversion H. subst. exact HW.
  - destruct (blocks (function L) !! bi) as [blk|] eqn:Hb.
    + rewrite (allocLabelId_block _ _ _ _ Hb) in H. inversion H.
      apply wellLabelled_placeBlock; assumption.
    + unfold allocLabelId, bind, loadLabel in H. rewrite Hb in H. discriminate.
Qed.

Create HintDb labels.
Hint Resolve labels_ret labels_get labels_fail labels_assert labels_emit labels_setRegX64
  labels_allocLabelId labels_restore : labels.

Ltac labels_step :=
  match goal with
  | |- keepsLabels _ (bind _ _) => apply labels_bind; [|intros ?]
  | |- keepsLabels _ (if ?b then _ else _) => destruct b
  | |- keepsLabels _ (match ?x with _ => _ end) => destruct x
  | |- keepsLabels _ _ => solve [auto with labels]
  end.

Ltac labels_all := cbv zeta; repeat labels_step.

Lemma labels_build_jcc cond r local : keepsLabels kVm (build_jcc cond r local).
Proof. unfold build_jcc. labels_all. Qed.

Lemma labels_build_jmp r local : keepsLabels kVm (build_jmp r local).
Proof. unfold build_jmp. labels_all. Qed.

Lemma labels_build_setLabel r local : keepsLabels kVm (build_setLabel r local).
Proof. unfold build_setLabel. labels_all. Qed.

Lemma labels_constOp op : keepsLabels kVm (constOp op).
Proof. unfold constOp. labels_all. Qed.

Hint Resolve labels_build_jcc labels_build_jmp labels_build_setLabel labels_constOp : labels.

Lemma labels_tagOp op : keepsLabels kVm (tagOp op).
Proof. unfold tagOp. labels_all. Qed.

Lemma labels_intOp op : keepsLabels kVm (intOp op).
Proof. unfold intOp. labels_all. Qed.

Lemma labels_doubleOp op : keepsLabels kVm (doubleOp op).
Proof. unfold doubleOp. labels_all. Qed.

Lemma labels_instOp op : keepsLabels kVm (instOp op).
Proof. unfold instOp. labels_all. Qed.

Lemma labels_blockOp op : keepsLabels kVm (blockOp op).
Proof. unfold blockOp. labels_all. Qed.

Lemma labels_blockAt bi : keepsLabels kVm (blockAt bi).
Proof. unfold blockAt. labels_all. Qed.

Lemma labels_vmRegOp op : keepsLabels kVm (vmRegOp op).
Proof. unfold vmRegOp. labels_all. Qed.

Lemma labels_vmConstOp op : keepsLabels kVm (vmConstOp op).
Proof. unfold vmConstOp. labels_all. Qed.

Lemma labels_vmExitOp op : keepsLabels kVm (vmExitOp op).
Proof. unfold vmExitOp. labels_all. Qed.

Lemma labels_getReverseCondition cond : keepsLabels kVm (getReverseCondition cond).
Proof. unfold getReverseCondition. labels_all. Qed.

Hint Resolve labels_tagOp labels_intOp labels_doubleOp labels_instOp labels_blockOp
  labels_blockAt labels_vmRegOp labels_vmConstOp labels_vmExitOp
  labels_getReverseCondition : labels.

Lemma labels_labelOp op : keepsLabels kVm (labelOp op).
Proof. unfold labelOp. labels_all. Qed.

Lemma labels_regOp op : keepsLabels kVm (regOp restore op).
Proof. unfold regOp. labels_all. Qed.

Hint Resolve labels_labelOp labels_regOp : labels.

Lemma labels_memRegDoubleOp op : keepsLabels kVm (memRegDoubleOp restore op).
Proof. unfold memRegDoubleOp. labels_all. Qed.

Lemma labels_memRegUintOp op : keepsLabels kVm (memRegUintOp restore op).
Proof. unfold memRegUintOp. labels_all. Qed.

Lemma labels_memRegTagOp op : keepsLabels kVm (memRegTagOp restore op).
Proof. unfold memRegTagOp. labels_all. Qed.

Lemma labels_getTargetLabel op : keepsLabels kVm (getTargetLabel kVm op).
Proof. unfold getTargetLabel. labels_all. Qed.

Lemma labels_jumpOrFallthrough target next : keepsLabels kVm (jumpOrFallthrough target next).
Proof. unfold jumpOrFallthrough. labels_all. Qed.

Lemma labels_assertAllFree : keepsLabels kVm assertAllFree.
Proof. unfold assertAllFree. labels_all. Qed.

Lemma labels_assertNoSpills : keepsLabels kVm assertNoSpills.
Proof. unfold assertNoSpills. labels_all. Qed.

Hint Resolve labels_memRegDoubleOp labels_memRegUintOp labels_memRegTagOp
  labels_getTargetLabel labels_jumpOrFallthrough labels_assertAllFree
  labels_assertNoSpills : labels.

(** The label of a new exit handler is the id the builder hands out next,
    which no block has. *)
Lemma labels_jumpOrAbortOnUndef cond target next :
  keepsLabels kVm (jumpOrAbortOnUndef kVm cond target next).
Proof.
  destruct (IrOpKind_eq_dec (kind target) IrOpKind.VmExit) as [Hk|Hk].
  - intros L y L' HW H. pose proof HW as [[Hinv Hsh] (D1 & D2 & D3)].
    assert (Ht : target = exitEdge (index target)).
    { destruct target as [k i]. cbn in Hk. subst k. reflexivity. }
    destruct (jumpOrAbortOnUndef_exit kVm cond (index target) next L Hinv)
      as (L1 & l & Hrun & _ & _ & [Hinv1 _] & _).
    destruct (jumpOrAbortOnUndef_exit_state kVm cond (index target) next L Hinv)
      as (L2 & Hrun2 & Hf & Hh & Hmono & Hhs).
    rewrite <- Ht in Hrun, Hrun2. rewrite Hrun in H. inversion H. subst L1.
    rewrite Hrun in Hrun2. inversion Hrun2. subst L2. clear Hrun2 H.
    assert (Hhandlers : forall i h, exitHandlers L' !! i = Some h ->
              exitHandlers L !! i = Some h \/ id (self h) = nextLabel (build L)).
    { intros i h Hi. destruct Hhs as [E|[E _]]; rewrite E in Hi; [left; exact Hi|].
      apply lookup_app_Some in Hi as [Hi|[_ Hi]]; [left; exact Hi|].
      destruct (i - length (exitHandlers L))%nat as [|k]; [|destruct k; discriminate].
      inversion Hi. right. reflexivity. }
    split; [split; [exact Hinv1|]|split; [|split]].
    + intros x [Hx|[(i & h & Hi & Hx)|(j & b & Hj & Hx)]].
      * rewrite Hh in Hx. eapply Nat.lt_le_trans; [|exact Hmono]. apply Hsh. left. exact Hx.
      * destruct (inv_handlers _ _ Hinv1 i h Hi) as (_ & _ & _ & Hlt & _). subst x. exact Hlt.
      * rewrite Hf in Hj. eapply Nat.lt_le_trans; [|exact Hmono].
        apply Hsh. right. right. eauto.
    + rewrite Hf. exact D1.
    + rewrite Hf. intros j blk i h Hj Hi.
      destruct (Hhandlers i h Hi) as [Hi'|Hn]; [eapply D2; eauto|].
      assert (id (label blk) < nextLabel (build L))%nat by (apply Hsh; right; right; eauto).
      lia.
    + rewrite Hf, Hh. exact D3.
  - assert (Hno : kindIs target IrOpKind.VmExit = false).
    { unfold kindIs. destruct (kind target); try reflexivity. contradiction. }
    unfold jumpOrAbortOnUndef, finalizeTargetLabel. rewrite Hno. cbn [andb].
    labels_all.
Qed.

Hint Resolve labels_jumpOrAbortOnUndef : labels.

Lemma labels_lowerInst alloc inst idx next :
  keepsLabels kVm (lowerInst LUA_TNIL LUA_TBOOLEAN kVm restore alloc inst idx next).
Proof. unfold lowerInst. destruct (cmd inst); labels_all. Qed.

End KeepsLabels.

(** X12.  Label ids are never shared.  If, before an instruction is lowered, the
    blocks that have a label have different ones, none of them an exit
    handler's or the helper's, and every label id in use has been handed out
    by the builder, then the same holds after it, whatever the instruction:
    a branch to a block's label can only arrive at that block. *)
Theorem lowerInst_labels_distinct LUA_TNIL LUA_TBOOLEAN kVmExitEntryGuardPc restore alloc inst idx
    next L L' :
  (forall i, keepsLabels kVmExitEntryGuardPc (restore i)) ->
  wellLabelled kVmExitEntryGuardPc L ->
  lowerInst LUA_TNIL LUA_TBOOLEAN kVmExitEntryGuardPc restore alloc inst idx next L = Ok tt L' ->
  wellLabelled kVmExitEntryGuardPc L'.
Proof.
  intros Hrestore HW Hrun.
  exact (labels_lowerInst LUA_TNIL LUA_TBOOLEAN kVmExitEntryGuardPc restore Hrestore
           alloc inst idx next L tt L' HW Hrun).
Qed.

(** ** Tag operands *)

(** X13.  [memRegTagOp] resolves a VM register and a VM constant to the tag field
    of their slot and an instruction to its register; it hits the
    "Unsupported operand kind" assertion for every other kind.  A constant
    is none of its kinds: CHECK_TAG, which resolves its first operand with
    it unconditionally, stops at that assertion when the operand is a
    constant. *)
Theorem memRegTagOp_kinds LUA_TNIL LUA_TBOOLEAN kVmExitEntryGuardPc restore alloc inst idx next
    L op :
  (kind op = IrOpKind.VmReg -> memRegTagOp restore op L = Ok (luauRegTag (index op)) L) /\
  (kind op = IrOpKind.VmConst -> memRegTagOp restore op L = Ok (luauConstantTag (index op)) L) /\
  (forall r, residentIn L op r -> memRegTagOp restore op L = Ok (OpReg r) L) /\
  (kind op <> IrOpKind.Inst -> kind op <> IrOpKind.VmReg -> kind op <> IrOpKind.VmConst ->
     memRegTagOp restore op L = Abort "Unsupported operand kind") /\
  (cmd inst = IrCmd.CHECK_TAG -> kind (a inst) = IrOpKind.Constant ->
     lowerInst LUA_TNIL LUA_TBOOLEAN kVmExitEntryGuardPc restore alloc inst idx next L =
       Abort "Unsupported operand kind").
Proof.
  split; [|split; [|split; [|split]]].
  - intros Hk. unfold memRegTagOp. rewrite Hk.
    rewrite (bind_Ok _ _ _ _ _ (vmRegOp_VmReg _ _ Hk)). reflexivity.
  - intros Hk. unfold memRegTagOp, vmConstOp, bind, LUAU_ASSERT, kindIs. rewrite Hk. reflexivity.
  - intros r Hr. pose proof Hr as [Hk _]. unfold memRegTagOp. rewrite Hk.
    rewrite (bind_Ok _ _ _ _ _ (regOp_resident restore _ _ _ Hr)). reflexivity.
  - intros H1 H2 H3. unfold memRegTagOp. destruct (kind op); try reflexivity; contradiction.
  - intros Hcmd Hk. unfold lowerInst. rewrite Hcmd. unfold memRegTagOp, bind. rewrite Hk.
    reflexivity.
Qed.

(** ** The branches on the sample function *)

(** JUMP_LT_INT with the constant 2, whose first target is the next block:
    with 1 in [eax] control takes the conditional branch to the label of
    the next block, with 5 it takes the [jmp] to block 2. *)
Lemma jump_lt_int_goes_witness :
  exists L' frag lc ld,
    lowerInst 0 1 sampleGuardPc noRestore sampleGprAllocation
      (instruction IrCmd.JUMP_LT_INT (instRef 0) (constRef 3) (blockRef 1) (blockRef 2))
      sampleIndex sampleNext
      (sampleLowering sampleRegs
         (instruction IrCmd.JUMP_LT_INT (instRef 0) (constRef 3) (blockRef 1) (blockRef 2)))
      = Ok tt L' /\
    labelIdOf L' (blockRef 1) = Some lc /\
    labelIdOf L' (blockRef 2) = Some ld /\
    run frag (sampleState 1 0 0 0) =
      Branch lc (setFlags (sampleState 1 0 0 0) (cmpFlags 32 1 2)) /\
    run frag (sampleState 5 0 0 0) =
      Branch ld (setFlags (sampleState 5 0 0 0) (cmpFlags 32 5 2)).
Proof.
  destruct (jump_lt_int_goes 0 1 sampleGuardPc noRestore sampleGprAllocation
              (instruction IrCmd.JUMP_LT_INT (instRef 0) (constRef 3) (blockRef 1) (blockRef 2))
              sampleIndex sampleNext
              (sampleLowering sampleRegs
                 (instruction IrCmd.JUMP_LT_INT (instRef 0) (constRef 3) (blockRef 1) (blockRef 2)))
              (mkIrBlock 1 10 19 (mkLabel 0)) (mkIrBlock 1 20 29 (mkLabel 0)) eax 2)
    as (L' & frag & lc & Hrun & _ & Hlc & _ & Hgo).
  - reflexivity.
  - split; reflexivity.
  - split; reflexivity.
  - discriminate.
  - apply sample_resident; [reflexivity|discriminate].
  - reflexivity.
  - split; reflexivity.
  - lia.
  - destruct (Hgo (sampleState 5 0 0 0)) as (ld & Hld & _ & Hjmp).
    exists L', frag, lc, ld. split; [exact Hrun|]. split; [exact Hlc|]. split; [exact Hld|].
    split; [exact (Hgo (sampleState 1 0 0 0))|exact Hjmp].
Defined.

(** JUMP_GE_UINT with the constant 2: 0xffffffff in [eax] is above it. *)
Lemma jump_ge_uint_goes_witness :
  exists L' frag,
    lowerInst 0 1 sampleGuardPc noRestore sampleGprAllocation
      (instruction IrCmd.JUMP_GE_UINT (instRef 0) (constRef 3) (blockRef 2) (blockRef 1))
      sampleIndex sampleNext
      (sampleLowering sampleRegs
         (instruction IrCmd.JUMP_GE_UINT (instRef 0) (constRef 3) (blockRef 2) (blockRef 1)))
      = Ok tt L' /\
    arrivesAt (run frag (sampleState 0xffffffff 0 0 0))
      (setFlags (sampleState 0xffffffff 0 0 0) (cmpFlags 32 0xffffffff 2))
      (labelIdOf L' (blockRef 2)) (mkIrBlock 1 20 29 (mkLabel 0)) sampleNext /\
    arrivesAt (run frag (sampleState 1 0 0 0))
      (setFlags (sampleState 1 0 0 0) (cmpFlags 32 1 2))
      (labelIdOf L' (blockRef 1)) (mkIrBlock 1 10 19 (mkLabel 0)) sampleNext.
Proof.
  destruct (jump_ge_uint_goes 0 1 sampleGuardPc noRestore sampleGprAllocation
              (instruction IrCmd.JUMP_GE_UINT (instRef 0) (constRef 3) (blockRef 2) (blockRef 1))
              sampleIndex sampleNext
              (sampleLowering sampleRegs
                 (instruction IrCmd.JUMP_GE_UINT (instRef 0) (constRef 3) (blockRef 2) (blockRef 1)))
              (mkIrBlock 1 20 29 (mkLabel 0)) (mkIrBlock 1 10 19 (mkLabel 0)) eax 2)
    as (L' & frag & Hrun & _ & Hgo).
  - reflexivity.
  - split; reflexivity.
  - split; reflexivity.
  - discriminate.
  - apply sample_resident; [reflexivity|discriminate].
  - reflexivity.
  - split; reflexivity.
  - exists L', frag. split; [exact Hrun|]. split.
    + exact (Hgo (sampleState 0xffffffff 0 0 0)).
    + exact (Hgo (sampleState 1 0 0 0)).
Defined.

(** JUMP_EQ_POINTER of the values in [rax] and [rcx]: two equal 64-bit
    values leave for block 2, values that differ only above bit 31 do not. *)
Lemma jump_eq_pointer_goes_witness :
  exists L' frag,
    lowerInst 0 1 sampleGuardPc noRestore sampleGprAllocation
      (instruction IrCmd.JUMP_EQ_POINTER (instRef 0) (instRef 1) (blockRef 2) (blockRef 1))
      2 sampleNext
      (pointerLowering
         (instruction IrCmd.JUMP_EQ_POINTER (instRef 0) (instRef 1) (blockRef 2) (blockRef 1)))
      = Ok tt L' /\
    arrivesAt (run frag (sampleState 0x100000001 0x100000001 0 0))
      (setFlags (sampleState 0x100000001 0x100000001 0 0) (cmpFlags 64 0x100000001 0x100000001))
      (labelIdOf L' (blockRef 2)) (mkIrBlock 1 20 29 (mkLabel 0)) sampleNext /\
    arrivesAt (run frag (sampleState 0x100000001 1 0 0))
      (setFlags (sampleState 0x100000001 1 0 0) (cmpFlags 64 0x100000001 1))
      (labelIdOf L' (blockRef 1)) (mkIrBlock 1 10 19 (mkLabel 0)) sampleNext.
Proof.
  destruct (jump_eq_pointer_goes 0 1 sampleGuardPc noRestore sampleGprAllocation
              (instruction IrCmd.JUMP_EQ_POINTER (instRef 0) (instRef 1) (blockRef 2) (blockRef 1))
              2%nat sampleNext
              (pointerLowering
                 (instruction IrCmd.JUMP_EQ_POINTER (instRef 0) (instRef 1) (blockRef 2)
                    (blockRef 1)))
              (mkIrBlock 1 20 29 (mkLabel 0)) (mkIrBlock 1 10 19 (mkLabel 0)) rax rcx)
    as (L' & frag & Hrun & _ & Hgo).
  - reflexivity.
  - split; reflexivity.
  - split; reflexivity.
  - discriminate.
  - split; [reflexivity|]. exists (valueIn rax).
    split; [reflexivity|]. split; [reflexivity|]. split; [reflexivity|].
    split; [reflexivity|discriminate].
  - reflexivity.
  - split; [reflexivity|]. exists (valueIn rcx).
    split; [reflexivity|]. split; [reflexivity|]. split; [reflexivity|].
    split; [reflexivity|discriminate].
  - exists L', frag. split; [exact Hrun|]. split.
    + exact (Hgo (sampleState 0x100000001 0x100000001 0 0)).
    + exact (Hgo (sampleState 0x100000001 1 0 0)).
Defined.

(** JUMP_EQ_INT against the constant 0 (the [test] form): with 0 in [eax]
    control leaves for block 2 and no register has changed. *)
Lemma jump_eq_int_goes_witness :
  exists L' frag st',
    lowerInst 0 1 sampleGuardPc noRestore sampleGprAllocation
      (instruction IrCmd.JUMP_EQ_INT (instRef 0) (constRef 0) (blockRef 2) (blockRef 1))
      sampleIndex sampleNext
      (sampleLowering sampleRegs
         (instruction IrCmd.JUMP_EQ_INT (instRef 0) (constRef 0) (blockRef 2) (blockRef 1)))
      = Ok tt L' /\
    gpr st' = gpr (sampleState 0 7 0 0) /\
    arrivesAt (run frag (sampleState 0 7 0 0)) st'
      (labelIdOf L' (blockRef 2)) (mkIrBlock 1 20 29 (mkLabel 0)) sampleNext.
Proof.
  destruct (jump_eq_int_goes 0 1 sampleGuardPc noRestore sampleGprAllocation
              (instruction IrCmd.JUMP_EQ_INT (instRef 0) (constRef 0) (blockRef 2) (blockRef 1))
              sampleIndex sampleNext
              (sampleLowering sampleRegs
                 (instruction IrCmd.JUMP_EQ_INT (instRef 0) (constRef 0) (blockRef 2) (blockRef 1)))
              (mkIrBlock 1 20 29 (mkLabel 0)) (mkIrBlock 1 10 19 (mkLabel 0)) eax 0)
    as (L' & frag & Hrun & _ & Hgo).
  - reflexivity.
  - split; reflexivity.
  - split; reflexivity.
  - discriminate.
  - apply sample_resident; [reflexivity|discriminate].
  - reflexivity.
  - split; reflexivity.
  - destruct (Hgo (sampleState 0 7 0 0)) as (st' & Hgpr & _ & _ & Harr).
    exists L', frag, st'. split; [exact Hrun|]. split; [exact Hgpr|exact Harr].
Defined.

(** JUMP_EQ_TAG of the tag constant 1 and the tag in [eax], whose first
    target is the next block: the compare is of [eax] against the constant,
    and a tag of 0 leaves for block 2. *)
Lemma jump_eq_tag_goes_witness :
  exists L' tail,
    lowerInst 0 1 sampleGuardPc noRestore sampleGprAllocation
      (instruction IrCmd.JUMP_EQ_TAG (constRef 1) (instRef 0) (blockRef 1) (blockRef 2))
      sampleIndex sampleNext
      (sampleLowering sampleRegs
         (instruction IrCmd.JUMP_EQ_TAG (constRef 1) (instRef 0) (blockRef 1) (blockRef 2)))
      = Ok tt L' /\
    code (build L') = cmp (OpReg eax) (OpImm 1) :: tail /\
    arrivesAt (run (cmp (OpReg eax) (OpImm 1) :: tail) (sampleState 0 0 0 0))
      (setFlags (sampleState 0 0 0 0) (cmpFlags 32 0 1))
      (labelIdOf L' (blockRef 2)) (mkIrBlock 1 20 29 (mkLabel 0)) sampleNext.
Proof.
  destruct (jump_eq_tag_goes 0 1 sampleGuardPc noRestore sampleGprAllocation
              (instruction IrCmd.JUMP_EQ_TAG (constRef 1) (instRef 0) (blockRef 1) (blockRef 2))
              sampleIndex sampleNext
              (sampleLowering sampleRegs
                 (instruction IrCmd.JUMP_EQ_TAG (constRef 1) (instRef 0) (blockRef 1) (blockRef 2)))
              (mkIrBlock 1 10 19 (mkLabel 0)) (mkIrBlock 1 20 29 (mkLabel 0))
              (OpReg eax) (OpImm 1))
    as (L' & tail & Hrun & Hcode & Hgo).
  - reflexivity.
  - split; reflexivity.
  - split; reflexivity.
  - discriminate.
  - exists (OpReg eax). split.
    + left. exists eax. split; [apply sample_resident; [reflexivity|discriminate]|reflexivity].
    + right. exists 1. split; [split; reflexivity|reflexivity].
  - reflexivity.
  - exists L', tail. split; [exact Hrun|]. split; [exact Hcode|].
    exact (Hgo (sampleState 0 0 0 0)).
Defined.

(** ** Guards, exits and invariants on the sample function *)

Lemma sample_exitInvariant regs0 user : exitInvariant sampleGuardPc (sampleLowering regs0 user).
Proof. exact (proj1 (sample_labelInvariant regs0 user)). Qed.

(** CHECK_TAG of the tag of VM register 0 against the tag 1, with a VM exit
    as target: a tag of 0 does not pass. *)
Lemma check_tag_guard_witness :
  exists frag,
    emitted (lowerInst 0 1 sampleGuardPc noRestore sampleGprAllocation
               (instruction IrCmd.CHECK_TAG (vmRegRef 0) (constRef 1) (exitEdge 7) noOperand)
               sampleIndex sampleNext)
            (sampleLowering sampleRegs
               (instruction IrCmd.CHECK_TAG (vmRegRef 0) (constRef 1) (exitEdge 7) noOperand))
      = Some frag /\
    passes (run frag (sampleState 0 0 0 0)) = Some false.
Proof.
  destruct (check_tag_guard 0 1 sampleGuardPc noRestore sampleGprAllocation
              (instruction IrCmd.CHECK_TAG (vmRegRef 0) (constRef 1) (exitEdge 7) noOperand)
              sampleIndex sampleNext
              (sampleLowering sampleRegs
                 (instruction IrCmd.CHECK_TAG (vmRegRef 0) (constRef 1) (exitEdge 7) noOperand))
              (luauRegTag 0) 1)
    as (frag & Hemitted & Hgo).
  - reflexivity.
  - apply sample_labelInvariant.
  - right. left. reflexivity.
  - apply (tagOperand_vmReg _ _ (vmRegRef 0)). reflexivity.
  - reflexivity.
  - split; reflexivity.
  - lia.
  - exists frag. split; [exact Hemitted|]. exact (Hgo (sampleState 0 0 0 0)).
Defined.

(** JUMP to block 2, which is not the next block: one [jmp]. *)
Lemma jump_goes_witness :
  exists L' frag,
    lowerInst 0 1 sampleGuardPc noRestore sampleGprAllocation
      (instruction IrCmd.JUMP (blockRef 2) noOperand noOperand noOperand)
      sampleIndex sampleNext
      (sampleLowering sampleRegs
         (instruction IrCmd.JUMP (blockRef 2) noOperand noOperand noOperand))
      = Ok tt L' /\
    frag <> [] /\
    arrivesAt (run frag (sampleState 0 0 0 0)) (sampleState 0 0 0 0)
      (labelIdOf L' (blockRef 2)) (mkIrBlock 1 20 29 (mkLabel 0)) sampleNext.
Proof.
  destruct (jump_goes 0 1 sampleGuardPc noRestore sampleGprAllocation
              (instruction IrCmd.JUMP (blockRef 2) noOperand noOperand noOperand)
              sampleIndex sampleNext
              (sampleLowering sampleRegs
                 (instruction IrCmd.JUMP (blockRef 2) noOperand noOperand noOperand))
              eq_refl (sample_exitInvariant _ _))
    as (_ & _ & Hblock).
  destruct (Hblock (mkIrBlock 1 20 29 (mkLabel 0)) ltac:(split; reflexivity))
    as (L' & frag & Hrun & _ & Hempty & Hgo).
  exists L', frag. split; [exact Hrun|]. split; [|exact (Hgo (sampleState 0 0 0 0))].
  intros E. apply Hempty in E. discriminate.
Defined.

Lemma exiting_exitInvariant user : exitInvariant sampleGuardPc (exitingLowering user).
Proof.
  constructor; cbn [exitingLowering helpers build nextLabel exitHandlers exitHandlerMap
                    exitContinueVmClearNativeFlag id].
  - split; [discriminate|lia].
  - intros pc idx H. apply lookup_singleton_Some in H as [<- <-]. eexists. split; reflexivity.
  - intros [|idx] h H; [|destruct idx; discriminate]. inversion H. subst h.
    cbn [pcpos self id]. split; [apply lookup_singleton_eq|].
    split; [discriminate|]. split; [discriminate|]. split; [lia|discriminate].
  - intros [|i] [|j] hi hj Hi Hj _; try reflexivity;
      try (destruct j; discriminate); destruct i; discriminate.
Qed.

(** A function with one exit handler, for position 7 under label 3; the
    instruction size is 4: a branch to label 3 arrives at label 2, the
    helper's, with 28 in [edx]. *)
Lemma finishFunction_trampolines_witness :
  exists L' frag,
    finishFunction sampleGuardPc 4 sampleUpdatePc
      (exitingLowering (instruction IrCmd.NOP noOperand noOperand noOperand noOperand))
      = Ok sampleUpdatePc L' /\
    code (build L') = frag /\
    exec frag (Some 3%nat) (sampleState 0 0 0 0) =
      Branch 2 (writeGpr (sampleState 0 0 0 0) edx 28).
Proof.
  destruct (finishFunction_trampolines sampleGuardPc 4 sampleUpdatePc
              (exitingLowering (instruction IrCmd.NOP noOperand noOperand noOperand noOperand)))
    as (L' & frag & Hrun & Hcode & _ & Hgo).
  - apply exiting_exitInvariant.
  - discriminate.
  - intros [|i] h H; [|destruct i; discriminate]. inversion H. discriminate.
  - exists L', frag. split; [exact Hrun|]. split; [exact Hcode|].
    exact (Hgo 7%nat 3%nat ltac:(discriminate) eq_refl (sampleState 0 0 0 0)).
Defined.

Lemma finishing_exitInvariant user : exitInvariant sampleGuardPc (finishingLowering user).
Proof. apply exitInvariant_initial; [reflexivity|reflexivity|discriminate|cbn; lia]. Qed.

(** CHECK_TAG against the tag 1 with the exit to position 7 as its target,
    followed at once by the end of the function: with the tag 0 in VM
    register 0, control arrives at the helper (label 2) with 28 in [edx]. *)
Lemma check_tag_exit_resumes_at_pc_witness :
  exists L1 frag L3 tail,
    lowerInst 0 1 sampleGuardPc noRestore sampleGprAllocation
      (instruction IrCmd.CHECK_TAG (vmRegRef 0) (constRef 1) (exitEdge 7) noOperand)
      sampleIndex sampleNext
      (finishingLowering
         (instruction IrCmd.CHECK_TAG (vmRegRef 0) (constRef 1) (exitEdge 7) noOperand))
      = Ok tt L1 /\
    finishFunction sampleGuardPc 4 sampleUpdatePc L1 = Ok sampleUpdatePc L3 /\
    code (build L3) = frag ++ tail /\
    run (frag ++ tail) (sampleState 0 0 0 0) =
      Branch 2 (resumeAt 4 7 (setFlags (sampleState 0 0 0 0) (cmpFlags 32 0 1))).
Proof.
  destruct (check_tag_exit_resumes_at_pc 0 1 sampleGuardPc noRestore sampleGprAllocation
              (instruction IrCmd.CHECK_TAG (vmRegRef 0) (constRef 1) (exitEdge 7) noOperand)
              sampleIndex sampleNext 4 sampleUpdatePc
              (finishingLowering
                 (instruction IrCmd.CHECK_TAG (vmRegRef 0) (constRef 1) (exitEdge 7) noOperand))
              (luauRegTag 0) 1 7%nat)
    as (L1 & frag & l & Hrun & _ & Hl & Hinv1 & Hfinish).
  - reflexivity.
  - apply finishing_exitInvariant.
  - reflexivity.
  - discriminate.
  - apply (tagOperand_vmReg _ _ (vmRegRef 0)). reflexivity.
  - reflexivity.
  - split; reflexivity.
  - lia.
  - discriminate.
  - destruct (Hfinish L1 [] (exitsKept_refl _ _ Hinv1)) as (L3 & tail & Hfin & Hcode & Hgo).
    + symmetry. apply app_nil_r.
    + intros [].
    + assert (E : Ok tt L1 =
                  Ok tt (set_exits
                           (addCode (bumpLabel
                              (addCode (finishingLowering
                                 (instruction IrCmd.CHECK_TAG (vmRegRef 0) (constRef 1)
                                    (exitEdge 7) noOperand))
                                 [cmp (luauRegTag 0) (OpImm 1)]))
                              [jcc ConditionX64.NotEqual 3])
                           [mkExitHandler (mkLabel 3) 7] {[7%nat := 0%nat]})).
      { rewrite <- Hrun. vm_compute. reflexivity. }
      inversion E. subst L1.
      intros [|i] h H; [|destruct i; discriminate]. inversion H. discriminate.
    + exists L1, frag, L3, tail. split; [exact Hrun|]. split; [exact Hfin|].
      split; [exact Hcode|]. apply (Hgo (sampleState 0 0 0 0)). discriminate.
Defined.

Lemma noRestore_keeps i : keeps (noRestore i).
Proof. apply keeps_ret. Qed.

(** JUMP_LT_INT on the sample function: the state after it is a later state
    of the one before. *)
Lemma lowerInst_only_adds_witness :
  exists L',
    lowerInst 0 1 sampleGuardPc noRestore sampleGprAllocation
      (instruction IrCmd.JUMP_LT_INT (instRef 0) (constRef 3) (blockRef 2) (blockRef 1))
      sampleIndex sampleNext
      (sampleLowering sampleRegs
         (instruction IrCmd.JUMP_LT_INT (instRef 0) (constRef 3) (blockRef 2) (blockRef 1)))
      = Ok tt L' /\
    grows (sampleLowering sampleRegs
             (instruction IrCmd.JUMP_LT_INT (instRef 0) (constRef 3) (blockRef 2) (blockRef 1)))
          L'.
Proof.
  eexists. split; [vm_compute; reflexivity|].
  apply (lowerInst_only_adds 0 1 sampleGuardPc noRestore sampleGprAllocation
           (instruction IrCmd.JUMP_LT_INT (instRef 0) (constRef 3) (blockRef 2) (blockRef 1))
           sampleIndex sampleNext).
  - exact noRestore_keeps.
  - vm_compute. reflexivity.
Defined.

Lemma noRestore_keepsExits i : keepsExits sampleGuardPc (noRestore i).
Proof. intros L x L' Hinv H. inversion H. subst. apply exitsKept_refl, Hinv. Qed.

(** CHECK_TAG with the exit to position 7 as target, on the sample
    function: the invariant holds afterwards. *)
Lemma lowerInst_keeps_exits_witness :
  exists L',
    lowerInst 0 1 sampleGuardPc noRestore sampleGprAllocation
      (instruction IrCmd.CHECK_TAG (vmRegRef 0) (constRef 1) (exitEdge 7) noOperand)
      sampleIndex sampleNext
      (sampleLowering sampleRegs
         (instruction IrCmd.CHECK_TAG (vmRegRef 0) (constRef 1) (exitEdge 7) noOperand))
      = Ok tt L' /\
    exitInvariant sampleGuardPc L' /\
    exitLabelOf sampleGuardPc L' sampleGuardPc = Some 1%nat.
Proof.
  eexists. split; [vm_compute; reflexivity|].
  destruct (lowerInst_keeps_exits 0 1 sampleGuardPc noRestore sampleGprAllocation
              (instruction IrCmd.CHECK_TAG (vmRegRef 0) (constRef 1) (exitEdge 7) noOperand)
              sampleIndex sampleNext
              (sampleLowering sampleRegs
                 (instruction IrCmd.CHECK_TAG (vmRegRef 0) (constRef 1) (exitEdge 7) noOperand))
              _ noRestore_keepsExits (sample_exitInvariant _ _)
              ltac:(vm_compute; reflexivity)) as [Hinv Hkept].
  split; [exact Hinv|]. apply Hkept. reflexivity.
Defined.

Lemma noRestore_keepsLabels i : keepsLabels sampleGuardPc (noRestore i).
Proof. intros L x L' HW H. inversion H. subst. exact HW. Qed.

Lemma sample_wellLabelled regs0 user : wellLabelled sampleGuardPc (sampleLowering regs0 user).
Proof.
  split; [apply sample_labelInvariant|]. split; [|split].
  - intros i j bi bj Hi Hj Hnz _. exfalso. apply Hnz.
    destruct i as [|[|[|i]]]; cbn in Hi; inversion Hi; reflexivity.
  - intros j blk i h _ Hi. cbn in Hi. rewrite lookup_nil in Hi. discriminate.
  - intros j blk Hj.
    destruct j as [|[|[|j]]]; cbn in Hj; inversion Hj; discriminate.
Qed.

(** JUMP_EQ_INT to the blocks 2 and 0 on the sample function: both blocks
    get a label, and the two labels differ. *)
Lemma lowerInst_labels_distinct_witness :
  exists L' b0 b2,
    lowerInst 0 1 sampleGuardPc noRestore sampleGprAllocation
      (instruction IrCmd.JUMP_EQ_INT (instRef 0) (constRef 3) (blockRef 2) (blockRef 0))
      sampleIndex sampleNext
      (sampleLowering sampleRegs
         (instruction IrCmd.JUMP_EQ_INT (instRef 0) (constRef 3) (blockRef 2) (blockRef 0)))
      = Ok tt L' /\
    blocks (function L') !! 0%nat = Some b0 /\
    blocks (function L') !! 2%nat = Some b2 /\
    id (label b0) <> 0%nat /\
    id (label b0) <> id (label b2).
Proof.
  eexists. eexists. eexists. split; [vm_compute; reflexivity|].
  split; [reflexivity|]. split; [reflexivity|]. split; [discriminate|].
  destruct (lowerInst_labels_distinct 0 1 sampleGuardPc noRestore sampleGprAllocation
              (instruction IrCmd.JUMP_EQ_INT (instRef 0) (constRef 3) (blockRef 2) (blockRef 0))
              sampleIndex sampleNext
              (sampleLowering sampleRegs
                 (instruction IrCmd.JUMP_EQ_INT (instRef 0) (constRef 3) (blockRef 2) (blockRef 0)))
              _ noRestore_keepsLabels (sample_wellLabelled _ _)
              ltac:(vm_compute; reflexivity)) as [_ [Hdistinct _]].
  intros E.
  pose proof (Hdistinct 0%nat 2%nat _ _ eq_refl eq_refl ltac:(discriminate) E).
  discriminate.
Defined.

(** CHECK_TAG with a constant as its first operand stops at the assertion of
    [memRegTagOp]. *)
Lemma memRegTagOp_kinds_witness :
  lowerInst 0 1 sampleGuardPc noRestore sampleGprAllocation
    (instruction IrCmd.CHECK_TAG (constRef 1) (constRef 1) (exitEdge 7) noOperand)
    sampleIndex sampleNext
    (sampleLowering sampleRegs
       (instruction IrCmd.CHECK_TAG (constRef 1) (constRef 1) (exitEdge 7) noOperand))
    = Abort "Unsupported operand kind".
Proof.
  destruct (memRegTagOp_kinds 0 1 sampleGuardPc noRestore sampleGprAllocation
              (instruction IrCmd.CHECK_TAG (constRef 1) (constRef 1) (exitEdge 7) noOperand)
              sampleIndex sampleNext
              (sampleLowering sampleRegs
                 (instruction IrCmd.CHECK_TAG (constRef 1) (constRef 1) (exitEdge 7) noOperand))
              (constRef 1)) as (_ & _ & _ & _ & Hcheck).
  exact (Hcheck eq_refl eq_refl).
Defined.
